(** * Loss computation of the YOLOv6 training core (yolov6/models/losses/loss.py)

    A shallow embedding of [ComputeLoss], [ComputeLoss1], [VarifocalLoss] and
    [BboxLoss], and the properties of the loss composer proved over it.

    Numbers.  The source computes on torch tensors of IEEE floats.  Every
    definition below is written once, over an interface [Num] of scalar
    operations, and is read at two instances:
    - [Q] (exact rationals): the arithmetic content of the formulas, with
      rounding abstracted away;
    - [spec_float] at binary32: IEEE special values (signed zeros,
      infinities, NaN) for the statements that speak about them.
    The transcendental kernels of torch (pow, softmax, cross entropy,
    binary cross entropy) and the modules of the repository that the file
    imports (anchor generation, the two assigners, the IoU loss) are
    parameters of the development. *)

From Stdlib Require Import String.
From Stdlib Require Import List ZArith QArith Qround Bool Lia Lqa.
From Stdlib Require Import SpecFloat.
From Stdlib Require Import Qabs DecimalString DecimalNat Ascii.
Import ListNotations.

Set Implicit Arguments.

(** ** Scalars *)

Class Num (T : Type) : Type := {
  of_Z : Z -> T;
  add : T -> T -> T;
  sub : T -> T -> T;
  mul : T -> T -> T;
  div : T -> T -> T;
  gtb : T -> T -> bool;          (* x > y *)
  to_long : T -> Z               (* tensor.to(torch.long): truncation *)
}.

(** OCaml-style operator symbols for the scalar operations; they are
    imported only inside the sections that embed the source. *)
Module NumNotations.
Declare Scope num_scope.
Delimit Scope num_scope with num.
Infix "+." := add (at level 50, left associativity) : num_scope.
Infix "-." := sub (at level 50, left associativity) : num_scope.
Infix "*." := mul (at level 40, left associativity) : num_scope.
Infix "/." := div (at level 40, left associativity) : num_scope.
Infix ">." := gtb (at level 70, no associativity) : num_scope.
End NumNotations.

(** A decimal literal of the source, read in the scalar type. *)
Definition lit {T} `{Num T} (q : Q) : T :=
  div (of_Z (Qnum q)) (of_Z (Zpos (Qden q))).

(** Exact rationals.  [int(x)] and [.to(torch.long)] truncate toward zero. *)
Definition Qtrunc (q : Q) : Z := Z.quot (Qnum q) (Zpos (Qden q)).

Definition Qgtb (x y : Q) : bool := negb (Qle_bool x y).

#[export] Instance Q_Num : Num Q := {
  of_Z := inject_Z;
  add := Qplus;
  sub := Qminus;
  mul := Qmult;
  div := Qdiv;
  gtb := Qgtb;
  to_long := Qtrunc
}.

(** IEEE binary32 (the precision of float tensors): 24 bits of mantissa. *)
Module F32.
Definition prec : Z := 24.
Definition emax : Z := 128.

Definition of_Z (z : Z) : spec_float := binary_normalize prec emax z 0 false.

Definition gtb (x y : spec_float) : bool := SFltb y x.

(* Conversion of NaN and infinities to int64 is the "integer indefinite"
   value on the usual hardware. *)
Definition to_long (x : spec_float) : Z :=
  match x with
  | S754_zero _ => 0
  | S754_finite s m e =>
      let a := if (0 <=? e)%Z then Z.shiftl (Zpos m) e
               else Z.shiftr (Zpos m) (- e) in
      if s then (- a)%Z else a
  | _ => (- 2 ^ 63)%Z
  end.

Definition is_nan (x : spec_float) : bool :=
  match x with S754_nan => true | _ => false end.

Definition is_finite (x : spec_float) : bool :=
  match x with S754_zero _ | S754_finite _ _ _ => true | _ => false end.

Definition is_zero (x : spec_float) : bool :=
  match x with S754_zero _ => true | _ => false end.

Definition infinity : spec_float := S754_infinity false.
End F32.

Definition F32_Num : Num spec_float := {|
  of_Z := F32.of_Z;
  add := SFadd F32.prec F32.emax;
  sub := SFsub F32.prec F32.emax;
  mul := SFmul F32.prec F32.emax;
  div := SFdiv F32.prec F32.emax;
  gtb := F32.gtb;
  to_long := F32.to_long
|}.

(** The numeric kernels of torch that the losses call. *)
Class Kernels (T : Type) : Type := {
  pow : T -> T -> T;                       (* x.pow(gamma), elementwise *)
  bce : T -> T -> T;                       (* binary cross entropy of one entry *)
  softmax : list T -> list T;              (* F.softmax over the last dimension *)
  ce : list T -> nat -> T                  (* cross entropy of one row of logits
                                              against one valid class index *)
}.

(** ** Effects: exceptions and the observable actions of a step *)

Inductive exn : Type :=
| OutOfMemoryError            (* torch.cuda.OutOfMemoryError, a RuntimeError *)
| RuntimeError (msg : string) (* any other RuntimeError raised by torch *)
| IndexError
| ValueError
| AssertionError
| OtherError (msg : string).  (* an exception outside these classes *)

(** [isinstance(e, RuntimeError)], the test made by [except RuntimeError]. *)
Definition is_RuntimeError (e : exn) : bool :=
  match e with
  | OutOfMemoryError | RuntimeError _ => true
  | _ => false
  end.

Inductive device : Type := CPU | CUDA.
Inductive dtype : Type := Float16 | Float32 | Float64.

Inductive assigner_kind : Type := Warmup | Formal.

Inductive event : Type :=
| EvPrint (line : string)
| EvEmptyCache                                        (* torch.cuda.empty_cache() *)
| EvAssign (k : assigner_kind) (args : list (device * dtype)).
    (* an assigner is called; [args] lists where each tensor argument
       lives and in which precision *)

Definition M (A : Type) : Type := (list event * (exn + A))%type.

Definition ret {A} (a : A) : M A := ([], inr a).
Definition raise {A} (e : exn) : M A := ([], inl e).
Definition tell (ev : event) : M unit := ([ev], inr tt).

Definition bind {A B} (m : M A) (f : A -> M B) : M B :=
  match m with
  | (tr, inl e) => (tr, inl e)
  | (tr, inr a) => let (tr', r) := f a in (tr ++ tr', r)
  end.

(** [try: m  except RuntimeError: h] *)
Definition try_except_RuntimeError {A} (m : M A) (h : M A) : M A :=
  match m with
  | (tr, inl e) =>
      if is_RuntimeError e then let (tr', r) := h in (tr ++ tr', r)
      else (tr, inl e)
  | ok => ok
  end.

Definition lift_exn {A} (r : exn + A) : M A := ([], r).

Declare Scope monad_scope.
Delimit Scope monad_scope with monad.
Notation "x <- c1 ;; c2" := (bind c1 (fun x => c2))
  (at level 61, c1 at next level, right associativity) : monad_scope.
Notation "' pat <- c1 ;; c2" := (bind c1 (fun x => match x with pat => c2 end))
  (at level 61, pat pattern, c1 at next level, right associativity) : monad_scope.
Notation "c1 ;; c2" := (bind c1 (fun _ => c2))
  (at level 61, right associativity) : monad_scope.
Local Open Scope monad_scope.

Definition trace_of {A} (m : M A) : list event := fst m.
Definition result_of {A} (m : M A) : exn + A := snd m.

(** ** Tensors

    A tensor carries its device, its dtype and whether it is attached to the
    autograd graph; its entries are nested lists.  Binary operations are
    modelled for operands that live on one device and have conforming
    shapes (torch raises otherwise); the result takes the device of the left
    operand, the wider dtype, and is attached to the graph when an operand
    is. *)

Record tensor (A : Type) : Type := Tensor {
  dev : device;
  dty : dtype;
  grad : bool;
  data : A
}.

Definition promote (a b : dtype) : dtype :=
  match a, b with
  | Float64, _ | _, Float64 => Float64
  | Float32, _ | _, Float32 => Float32
  | Float16, Float16 => Float16
  end.

Definition tmap {A B} (f : A -> B) (t : tensor A) : tensor B :=
  Tensor (dev t) (dty t) (grad t) (f (data t)).

Definition tmap2 {A B C} (f : A -> B -> C) (t : tensor A) (u : tensor B) : tensor C :=
  Tensor (dev t) (promote (dty t) (dty u)) (grad t || grad u) (f (data t) (data u)).

Definition cpu {A} (t : tensor A) : tensor A := Tensor CPU (dty t) (grad t) (data t).
Definition cuda {A} (t : tensor A) : tensor A := Tensor CUDA (dty t) (grad t) (data t).
Definition float {A} (t : tensor A) : tensor A := Tensor (dev t) Float32 (grad t) (data t).
Definition detach {A} (t : tensor A) : tensor A := Tensor (dev t) (dty t) false (data t).

(** [t.type()]: the tensor type string names the device kind and the dtype. *)
Definition same_type {A B} (t : tensor A) (u : tensor B) : bool :=
  match dev t, dev u with CPU, CPU | CUDA, CUDA => true | _, _ => false end
  && match dty t, dty u with
     | Float16, Float16 | Float32, Float32 | Float64, Float64 => true
     | _, _ => false
     end.

Fixpoint zipWith {A B C} (f : A -> B -> C) (l : list A) (l' : list B) : list C :=
  match l, l' with
  | a :: l, b :: l' => f a b :: zipWith f l l'
  | _, _ => []
  end.

(** Python list indexing: negative indices count from the end. *)
Definition py_index (len : nat) (i : Z) : option nat :=
  if ((0 <=? i) && (i <? Z.of_nat len))%Z then Some (Z.to_nat i)
  else if ((- Z.of_nat len <=? i) && (i <? 0))%Z then Some (Z.to_nat (Z.of_nat len + i))
  else None.

Fixpoint update {A} (l : list A) (i : nat) (f : A -> A) : list A :=
  match l, i with
  | [], _ => []
  | a :: l, O => f a :: l
  | a :: l, S i => a :: update l i f
  end.

(** [max(...)] of a sequence of lengths; the empty sequence is a ValueError. *)
Definition py_max (l : list nat) : M nat :=
  match l with
  | [] => raise ValueError
  | a :: l => ret (fold_left Nat.max l a)
  end.

Fixpoint foldM {A B} (f : A -> B -> M A) (l : list B) (a : A) : M A :=
  match l with
  | [] => ret a
  | b :: l => a' <- f a b ;; foldM f l a'
  end.

Fixpoint mapM {A B} (f : A -> M B) (l : list A) : M (list B) :=
  match l with
  | [] => ret []
  | a :: l => b <- f a ;; bs <- mapM f l ;; ret (b :: bs)
  end.

Section Scalars.
Import NumNotations.
Local Open Scope num_scope.
Context {T : Type} `{Num T}.

Definition tsum (l : list T) : T := fold_left add l (of_Z 0).
Definition tsum2 (l : list (list T)) : T := tsum (concat l).
Definition tsum3 (l : list (list (list T))) : T := tsum (concat (concat l)).

(** [mean] over a list: the sum divided by the number of entries. *)
Definition tmean (l : list T) : T := tsum l /. of_Z (Z.of_nat (length l)).

(** The padding row of the target preprocessor, [[-1,0,0,0,0]]. *)
Definition sentinel : list T := [of_Z (-1); of_Z 0; of_Z 0; of_Z 0; of_Z 0].

(** Modelled from the spec: [xywh2xyxy] of yolov6/utils/general.py, which
    is not among the sources.  The spec describes it as the conversion of
    a box given by centre and size (cx, cy, w, h) to corner form
    (x1, y1, x2, y2), exact and without clamping. *)
Definition xywh2xyxy (b : list T) : list T :=
  match b with
  | [cx; cy; w; h] =>
      [cx -. w /. of_Z 2; cy -. h /. of_Z 2; cx +. w /. of_Z 2; cy +. h /. of_Z 2]
  | _ => b
  end.

(** Modelled from the spec: [dist2bbox] of yolov6/utils/general.py: "given
    anchor point and a signed 4-vector of (left, top, right, bottom)
    distances, returns corner box = (x-left, y-top, x+right, y+bottom)". *)
Definition dist2bbox (d : list T) (p : list T) : list T :=
  match d, p with
  | [l; t; r; b], [x; y] => [x -. l; y -. t; x +. r; y +. b]
  | _, _ => d
  end.

(** Modelled from the spec: the clamp of [bbox2dist] to an interval. *)
Definition clamp (lo hi x : T) : T :=
  if lo >. x then lo else if x >. hi then hi else x.

(** Modelled from the spec: [bbox2dist] of yolov6/utils/general.py: the
    inverse of [dist2bbox], "clamped to [0, reg_max - epsilon]".  The
    epsilon is a parameter. *)
Definition bbox2dist (eps : T) (p : list T) (box : list T) (reg_max : nat) : list T :=
  match p, box with
  | [x; y], [x1; y1; x2; y2] =>
      map (clamp (of_Z 0) (of_Z (Z.of_nat reg_max) -. eps))
          [x -. x1; y -. y1; x2 -. x; y2 -. y]
  | _, _ => box
  end.
End Scalars.

(** ** The modules the losses import

    [generate_anchors], the two assigners and [IOUloss] live in other files
    of the repository; the composer only calls them.  They are parameters.
    An assigner returns its four results or raises. *)

Definition mat (T : Type) : Type := list (list T).
Definition cube (T : Type) : Type := list (list (list T)).

Record anchors_out (T : Type) : Type := {
  anchors : tensor (mat T);
  anchor_points : tensor (mat T);
  n_anchors_list : list nat;
  stride_tensor : tensor (mat T)        (* n_anchors x 1 *)
}.

Record assignment (T : Type) : Type := Assignment {
  target_labels : tensor (list (list Z));
  target_bboxes : tensor (cube T);
  target_scores : tensor (cube T);
  fg_mask : tensor (list (list bool))
}.

Class Externals (T : Type) : Type := {
  generate_anchors :
    list (tensor (nat * nat)) -> list Z -> T -> T -> device -> anchors_out T;
  (* ATSSAssigner(topk, num_classes)(anchors, n_anchors_list, gt_labels,
     gt_bboxes, mask_gt, pred_bboxes) *)
  ATSSAssigner :
    nat -> nat ->
    tensor (mat T) -> list nat -> tensor (cube T) -> tensor (cube T) ->
    tensor (cube T) -> tensor (cube T) -> exn + assignment T;
  (* TaskAlignedAssigner(topk, num_classes, alpha, beta)(pred_scores,
     pred_bboxes, anchor_points, gt_labels, gt_bboxes, mask_gt) *)
  TaskAlignedAssigner :
    nat -> nat -> T -> T ->
    tensor (cube T) -> tensor (cube T) -> tensor (mat T) -> tensor (cube T) ->
    tensor (cube T) -> tensor (cube T) -> exn + assignment T;
  (* IOUloss(box_format='xyxy', iou_type, eps)(pred, target): one loss per row *)
  IOUloss : string -> T -> mat T -> mat T -> list T;
  (* the epsilon of bbox2dist's clamp *)
  bbox2dist_eps : T
}.

(** ** Tensor operations used by the losses *)

Section TensorOps.
Import NumNotations.
Local Open Scope num_scope.
Context {T : Type} `{Num T}.

(** Elementwise operation of an (n x k) matrix with an (n x 1) column. *)
Definition rows_op (f : T -> T -> T) (m : mat T) (col : mat T) : mat T :=
  zipWith (fun row s => match s with
                        | [st] => map (fun c => f c st) row
                        | _ => row
                        end) m col.

(** The same, broadcast over the batch dimension. *)
Definition batch_rows_op (f : T -> T -> T) (c : cube T) (col : mat T) : cube T :=
  map (fun img => rows_op f img col) c.

(** [torch.masked_select(x, mask)] reshaped to rows: the rows of the
    positive anchors, image after image. *)
Definition select_pos {A} (mask : list (list bool)) (x : list (list A)) : list A :=
  concat (zipWith (fun ms xs => map snd (filter fst (combine ms xs))) mask x).

(** [mask.sum()] of a boolean mask. *)
Definition count_pos (mask : list (list bool)) : nat :=
  length (filter (fun b => b) (concat mask)).

(** [F.one_hot(label, n)]: labels outside 0..n-1 are an error. *)
Definition one_hot (label : Z) (n : nat) : M (list Z) :=
  if ((0 <=? label) && (label <? Z.of_nat n))%Z
  then ret (map (fun j => if (Z.of_nat j =? label)%Z then 1%Z else 0%Z) (seq 0 n))
  else raise (RuntimeError "Class values must be smaller than num_classes.").

(** [x.view(..., 4, n)] of one row of 4*n entries. *)
Definition view4 (n : nat) (row : list T) : M (mat T) :=
  if (length row =? 4 * n)%nat
  then ret [firstn n row; firstn n (skipn n row);
            firstn n (skipn (2 * n) row); firstn n (skipn (3 * n) row)]
  else raise (RuntimeError "shape is invalid for input size").

(** [torch.linspace(0, reg_max, reg_max + 1)] *)
Definition linspace0 (reg_max : nat) : list T :=
  map (fun i => of_Z (Z.of_nat i)) (seq 0 (reg_max + 1)).

(** Matrix-vector product of one row. *)
Definition dot (a b : list T) : T := tsum (zipWith mul a b).

(** [torch.cat(ts, dim=1)] of (batch x k_i) matrices. *)
Definition cat_dim1 (ts : list (tensor (mat T))) : M (tensor (mat T)) :=
  match ts with
  | [] => raise (RuntimeError "torch.cat(): expected a non-empty list of Tensors")
  | t :: ts => ret (fold_left (tmap2 (zipWith (@app T))) ts t)
  end.

Definition tags {A} (t : tensor A) : device * dtype := (dev t, dty t).
End TensorOps.

(** ** VarifocalLoss *)

Module VarifocalLoss.
Section Def.
Import NumNotations.
Local Open Scope num_scope.
Context {T : Type} `{Num T} `{Kernels T}.

(** [F.binary_cross_entropy(input, target, reduction='none')].  Inside an
    autocast-enabled region torch refuses the call as unsafe; outside, the
    kernel runs in the dtype of its operands. *)
Definition binary_cross_entropy (autocast : bool)
    (input target : tensor (cube T)) : M (tensor (cube T)) :=
  if autocast
  then raise (RuntimeError "binary_cross_entropy is unsafe to autocast")
  else ret (tmap2 (zipWith (zipWith (zipWith bce))) input target).

(** [forward(pred_score, gt_score, label, alpha=0.75, gamma=2.0)];
    [autocast] is the ambient autocast state of the training loop. *)
Definition forward (autocast : bool)
    (pred_score gt_score : tensor (cube T)) (label : tensor (list (list (list Z))))
    (alpha gamma : T) : M (tensor T) :=
  let weight :=
    tmap2 (zipWith (zipWith (zipWith add)))
      (tmap2 (zipWith (zipWith (zipWith
                (fun p l => alpha *. pow p gamma *. of_Z (1 - l)))))
             pred_score label)
      (tmap2 (zipWith (zipWith (zipWith (fun g l => g *. of_Z l))))
             gt_score label) in
  (* with torch.amp.autocast('cuda', enabled=False): *)
  b <- binary_cross_entropy false (float pred_score) (float gt_score) ;;
  let loss := tmap tsum3 (tmap2 (zipWith (zipWith (zipWith mul))) b weight) in
  ret loss.

Definition default_alpha : T := lit 0.75.
Definition default_gamma : T := lit 2.0.
End Def.
End VarifocalLoss.

(** ** BboxLoss *)

Module BboxLoss.
Section Def.
Import NumNotations.
Local Open Scope num_scope.
Context {T : Type} `{Num T} `{Kernels T} `{Externals T}.

Record self : Type := {
  num_classes : nat;
  reg_max : nat;
  use_dfl : bool;
  iou_type : string
}.

(** [F.cross_entropy(logits.view(-1, reg_max + 1), target.view(-1),
    reduction='none')] on one row.  A target equal to the default
    [ignore_index] (-100) contributes 0; any other target outside
    0..reg_max is "Target out of bounds". *)
Definition cross_entropy (s : self) (logits : list T) (target : Z) : M T :=
  if (target =? -100)%Z then ret (of_Z 0)
  else if ((0 <=? target) && (target <? Z.of_nat (reg_max s + 1)))%Z
       then ret (ce logits (Z.to_nat target))
       else raise IndexError.

Definition cross_entropy_rows (s : self) (pred_dist : list (mat T))
    (target : list (list Z)) : M (mat T) :=
  mapM (fun '(sides, ids) =>
          mapM (fun '(logits, i) => cross_entropy s logits i) (combine sides ids))
       (combine pred_dist target).

(** [_df_loss(pred_dist, target)]: [pred_dist] is (n, 4, reg_max+1) and
    [target] is (n, 4); the result is (n, 1). *)
Definition _df_loss (s : self) (pred_dist : list (mat T)) (target : mat T)
  : M (mat T) :=
  let target_left := map (map to_long) target in
  let target_right := map (map (fun l => (l + 1)%Z)) target_left in
  let weight_left := zipWith (zipWith (fun r t => of_Z r -. t)) target_right target in
  let weight_right := map (map (fun w => of_Z 1 -. w)) weight_left in
  ce_left <- cross_entropy_rows s pred_dist target_left ;;
  let loss_left := zipWith (zipWith mul) ce_left weight_left in
  ce_right <- cross_entropy_rows s pred_dist target_right ;;
  let loss_right := zipWith (zipWith mul) ce_right weight_right in
  ret (map (fun row => [tmean row]) (zipWith (zipWith add) loss_left loss_right)).

(** [forward(pred_dist, pred_bboxes, anchor_points, target_bboxes,
    target_scores, target_scores_sum, fg_mask)] *)
Definition forward (s : self)
    (pred_dist pred_bboxes : tensor (cube T)) (anchor_points : tensor (mat T))
    (target_bboxes target_scores : tensor (cube T)) (target_scores_sum : tensor T)
    (fg_mask : tensor (list (list bool))) : M (tensor T * tensor T) :=
  let num_pos := count_pos (data fg_mask) in
  if (0 <? num_pos)%nat then
    (* iou loss *)
    let pred_bboxes_pos := tmap (select_pos (data fg_mask)) pred_bboxes in
    let target_bboxes_pos := tmap (select_pos (data fg_mask)) target_bboxes in
    let bbox_weight :=
      tmap (fun ts => select_pos (data fg_mask) (map (map tsum) ts)) target_scores in
    let loss_iou :=
      tmap2 (zipWith mul)
            (tmap2 (IOUloss (iou_type s) (lit (1 # 10000000000)))
                   pred_bboxes_pos target_bboxes_pos)
            bbox_weight in
    let loss_iou :=
      if data target_scores_sum >. of_Z 1
      then tmap2 div (tmap tsum loss_iou) target_scores_sum
      else tmap tsum loss_iou in
    (* dfl loss *)
    if use_dfl s then
      pred_dist_pos <- mapM (view4 (reg_max s + 1))
                            (select_pos (data fg_mask) (data pred_dist)) ;;
      let target_ltrb :=
        tmap2 (fun ap tb => map (zipWith (fun p b => bbox2dist bbox2dist_eps p b (reg_max s)) ap) tb)
              anchor_points target_bboxes in
      let target_ltrb_pos := tmap (select_pos (data fg_mask)) target_ltrb in
      l <- _df_loss s pred_dist_pos (data target_ltrb_pos) ;;
      let loss_dfl :=
        tmap2 (zipWith (fun row w => map (fun x => x *. w) row))
              (tmap2 (fun _ _ => l) pred_dist target_ltrb_pos) bbox_weight in
      let loss_dfl :=
        if data target_scores_sum >. of_Z 1
        then tmap2 div (tmap tsum2 loss_dfl) target_scores_sum
        else tmap tsum2 loss_dfl in
      ret (loss_iou, loss_dfl)
    else
      let loss_dfl := tmap (fun d => tsum3 d *. of_Z 0) pred_dist in
      ret (loss_iou, loss_dfl)
  else
    let loss_iou := tmap (fun d => tsum3 d *. of_Z 0) pred_dist in
    let loss_dfl := tmap (fun d => tsum3 d *. of_Z 0) pred_dist in
    ret (loss_iou, loss_dfl).
End Def.
End BboxLoss.

(** The local variables of [__call__] that are live after line 76, when
    anchors, targets and predicted boxes are ready. *)
Record locals (T : Type) : Type := Locals {
  l_anchors : tensor (mat T);
  l_anchor_points : tensor (mat T);
  l_n_anchors_list : list nat;
  l_stride_tensor : tensor (mat T);
  l_targets : tensor (cube T);          (* after preprocess *)
  l_gt_labels : tensor (cube T);
  l_gt_bboxes : tensor (cube T);
  l_mask_gt : tensor (cube T);
  l_anchor_points_s : tensor (mat T);
  l_pred_bboxes : tensor (cube T)
}.

(** ** ComputeLoss, the primary loss composer *)

Record loss_weights (T : Type) : Type := {
  w_class : T;       (* loss_weight['class'] *)
  w_iou : T;         (* loss_weight['iou'] *)
  w_dfl : T          (* loss_weight['dfl'] *)
}.

Definition oom_message : string :=
  "OOM RuntimeError is raised due to the huge memory cost during label assignment.                     CPU mode is applied in this batch. If you want to avoid this issue,                     try to reduce the batch size or image size.".

Definition cpu_mode_message : string :=
  "------------CPU Mode for This Batch-------------".

Module ComputeLoss.
Section Def.
Import NumNotations.
Local Open Scope num_scope.
Context {T : Type} `{Num T} `{Kernels T} `{Externals T}.

Record self : Type := {
  fpn_strides : list Z;
  grid_cell_size : T;
  grid_cell_offset : T;
  num_classes : nat;
  ori_img_size : Z;
  warmup_epoch : Z;
  use_dfl : bool;
  reg_max : nat;
  iou_type : string;
  loss_weight : loss_weights T
}.

(** The defaults of [__init__]. *)
Definition default : self := {|
  fpn_strides := [8; 16; 32]%Z;
  grid_cell_size := lit 5.0;
  grid_cell_offset := lit 0.5;
  num_classes := 80;
  ori_img_size := 640;
  warmup_epoch := 4;
  use_dfl := true;
  reg_max := 16;
  iou_type := "giou";
  loss_weight := {| w_class := lit 1.3; w_iou := lit 3.5; w_dfl := lit 0.5 |}
|}.

(** [self.warmup_assigner = ATSSAssigner(9, num_classes=self.num_classes)] *)
Definition warmup_assigner (s : self) := ATSSAssigner 9 (num_classes s).
(** [self.formal_assigner = TaskAlignedAssigner(topk=13, ..., alpha=1.0, beta=6.0)] *)
Definition formal_assigner (s : self) :=
  TaskAlignedAssigner 13 (num_classes s) (lit 1.0) (lit 6.0).
(** [self.bbox_loss = BboxLoss(num_classes, reg_max, use_dfl, iou_type)] *)
Definition bbox_loss (s : self) : BboxLoss.self :=
  {| BboxLoss.num_classes := num_classes s; BboxLoss.reg_max := reg_max s;
     BboxLoss.use_dfl := use_dfl s; BboxLoss.iou_type := iou_type s |}.

(** [preprocess(targets, batch_size, scale_tensor)] *)
Definition preprocess (targets : tensor (mat T)) (batch_size : nat)
    (scale_tensor : tensor (mat T)) : M (tensor (cube T)) :=
  (* targets_list = np.zeros((batch_size, 1, 5)).tolist() *)
  let targets_list := repeat [repeat (of_Z 0) 5] batch_size in
  (* for i, item in enumerate(...): targets_list[int(item[0])].append(item[1:]) *)
  targets_list <-
    foldM (fun (tl : cube T) (item : list T) =>
             match item with
             | [] => raise IndexError
             | i :: rest =>
                 match py_index (length tl) (to_long i) with
                 | None => raise IndexError
                 | Some k => ret (update tl k (fun l => l ++ [rest]))
                 end
             end)
          (data targets) targets_list ;;
  max_len <- py_max (map (@length _) targets_list) ;;
  let padded :=
    map (fun l => l ++ repeat sentinel (max_len - length l)) targets_list in
  (* np.array(...) needs rows of one length; then [:, 1:, :] *)
  (if forallb (forallb (fun row => (length row =? 5)%nat)) padded
   then ret tt else raise ValueError) ;;
  let targets := Tensor (dev targets) Float64 false (map (skipn 1) padded) in
  (* batch_target = targets[:, :, 1:5].mul_(scale_tensor);
     targets[..., 1:] = xywh2xyxy(batch_target) *)
  match data scale_tensor with
  | [[_; _; _; _] as scale] =>
      ret (tmap (map (map (fun row =>
                   firstn 1 row ++ xywh2xyxy (zipWith mul (skipn 1 row) scale))))
                targets)
  | _ => raise (RuntimeError "The size of tensor a must match the size of tensor b")
  end.

(** [bbox_decode(anchor_points, pred_dist)] *)
Definition bbox_decode (s : self) (anchor_points : tensor (mat T))
    (pred_dist : tensor (cube T)) : M (tensor (cube T)) :=
  pred_dist <-
    (if use_dfl s then
       d <- mapM (mapM (fun row =>
               v <- view4 (reg_max s + 1) row ;;
               ret (map (fun side => dot (softmax side) (linspace0 (reg_max s))) v)))
             (data pred_dist) ;;
       ret (Tensor (dev pred_dist) (dty pred_dist) (grad pred_dist) d)
     else ret pred_dist) ;;
  ret (tmap2 (fun pd ap => map (fun img => zipWith dist2bbox img ap) pd)
             pred_dist anchor_points).

(** ** [__call__]

    The body of [__call__] is read in three blocks: [prepare] (up to the
    decoded boxes), [assign] (the try/except around the assigner) and
    [losses] (everything after it). *)

(** Lines 59-76: anchors, targets, predicted boxes. *)
Definition prepare (s : self)
    (outputs : list (tensor (nat * nat)) * tensor (cube T) * tensor (cube T))
    (targets : tensor (mat T)) : M (locals T) :=
  let '(feats, pred_scores, pred_distri) := outputs in
  feats0 <- match feats with [] => raise IndexError | f :: _ => ret f end ;;
  let ga := generate_anchors feats (fpn_strides s) (grid_cell_size s)
                             (grid_cell_offset s) (dev feats0) in
  let anchors := anchors ga in
  let anchor_points := anchor_points ga in
  let n_anchors_list := n_anchors_list ga in
  let stride_tensor := stride_tensor ga in
  (if same_type pred_scores pred_distri then ret tt else raise AssertionError) ;;
  let gt_bboxes_scale :=
    Tensor (dev pred_scores) (dty pred_scores) false [repeat (of_Z (ori_img_size s)) 4] in
  let batch_size := length (data pred_scores) in
  (* targets *)
  targets <- preprocess targets batch_size gt_bboxes_scale ;;
  let gt_labels := tmap (map (map (firstn 1))) targets in
  let gt_bboxes := tmap (map (map (skipn 1))) targets in
  let mask_gt :=
    float (tmap (map (map (fun box =>
             [if tsum box >. of_Z 0 then of_Z 1 else of_Z 0]))) gt_bboxes) in
  (* pboxes *)
  let anchor_points_s := tmap2 (rows_op div) anchor_points stride_tensor in
  pred_bboxes <- bbox_decode s anchor_points_s pred_distri ;;
  ret (Locals anchors anchor_points n_anchors_list stride_tensor targets
              gt_labels gt_bboxes mask_gt anchor_points_s pred_bboxes).

(** Lines 78-145: the assignment, with the CPU retry. *)
Definition assign (s : self) (epoch_num : Z) (pred_scores : tensor (cube T))
    (l : locals T) : M (assignment T) :=
  let anchors := l_anchors l in
  let anchor_points := l_anchor_points l in
  let n_anchors_list := l_n_anchors_list l in
  let stride_tensor := l_stride_tensor l in
  let gt_labels := l_gt_labels l in
  let gt_bboxes := l_gt_bboxes l in
  let mask_gt := l_mask_gt l in
  let pred_bboxes := l_pred_bboxes l in
  try_except_RuntimeError
    (if (epoch_num <? warmup_epoch s)%Z then
       let pb := tmap2 (batch_rows_op mul) (detach pred_bboxes) stride_tensor in
       tell (EvAssign Warmup [tags anchors; tags gt_labels; tags gt_bboxes;
                              tags mask_gt; tags pb]) ;;
       lift_exn (warmup_assigner s anchors n_anchors_list gt_labels gt_bboxes
                                 mask_gt pb)
     else
       let ps := detach pred_scores in
       let pb := tmap2 (batch_rows_op mul) (detach pred_bboxes) stride_tensor in
       tell (EvAssign Formal [tags ps; tags pb; tags anchor_points; tags gt_labels;
                              tags gt_bboxes; tags mask_gt]) ;;
       lift_exn (formal_assigner s ps pb anchor_points gt_labels gt_bboxes mask_gt))
    (* except RuntimeError: *)
    (tell (EvPrint oom_message) ;;
     tell EvEmptyCache ;;
     tell (EvPrint cpu_mode_message) ;;
     a <- (if (epoch_num <? warmup_epoch s)%Z then
             let _anchors := float (cpu anchors) in
             let _n_anchors_list := n_anchors_list in
             let _gt_labels := float (cpu gt_labels) in
             let _gt_bboxes := float (cpu gt_bboxes) in
             let _mask_gt := float (cpu mask_gt) in
             let _pred_bboxes := float (cpu (detach pred_bboxes)) in
             let _stride_tensor := float (cpu stride_tensor) in
             let pb := tmap2 (batch_rows_op mul) _pred_bboxes _stride_tensor in
             tell (EvAssign Warmup [tags _anchors; tags _gt_labels; tags _gt_bboxes;
                                    tags _mask_gt; tags pb]) ;;
             lift_exn (warmup_assigner s _anchors _n_anchors_list _gt_labels
                                       _gt_bboxes _mask_gt pb)
           else
             let _pred_scores := float (cpu (detach pred_scores)) in
             let _pred_bboxes := float (cpu (detach pred_bboxes)) in
             let _anchor_points := float (cpu anchor_points) in
             let _gt_labels := float (cpu gt_labels) in
             let _gt_bboxes := float (cpu gt_bboxes) in
             let _mask_gt := float (cpu mask_gt) in
             let _stride_tensor := float (cpu stride_tensor) in
             let pb := tmap2 (batch_rows_op mul) _pred_bboxes _stride_tensor in
             tell (EvAssign Formal [tags _pred_scores; tags pb; tags _anchor_points;
                                    tags _gt_labels; tags _gt_bboxes; tags _mask_gt]) ;;
             lift_exn (formal_assigner s _pred_scores pb _anchor_points _gt_labels
                                       _gt_bboxes _mask_gt)) ;;
     ret (Assignment (cuda (target_labels a)) (cuda (target_bboxes a))
                     (cuda (target_scores a)) (cuda (fg_mask a)))).

(** Lines 154-155: labels of background anchors are set to [num_classes],
    one-hot encoded over [num_classes + 1] classes, last column dropped. *)
Definition one_hot_target (s : self) (fg_mask : tensor (list (list bool)))
    (target_labels : tensor (list (list Z))) : M (tensor (list (list (list Z)))) :=
  let target_labels :=
    tmap2 (zipWith (zipWith (fun (m : bool) l =>
             if m then l else Z.of_nat (num_classes s)))) fg_mask target_labels in
  one_hot_label <-
    mapM (mapM (fun l => oh <- one_hot l (num_classes s + 1) ;; ret (removelast oh)))
         (data target_labels) ;;
  ret (Tensor (dev target_labels) (dty target_labels) false one_hot_label).

(** Lines 146-190: the losses, for the assignment [a]. *)
Definition losses (s : self) (autocast : bool)
    (pred_scores pred_distri : tensor (cube T)) (step_num : Z) (lambda_reg : T)
    (gating_decision : option (list (tensor (mat T))))
    (l : locals T) (a : assignment T) : M (tensor T * tensor (list T)) :=
  let target_labels := target_labels a in
  let target_bboxes := target_bboxes a in
  let target_scores := target_scores a in
  let fg_mask := fg_mask a in
  (* Dynamic release GPU memory *)
  (if (step_num mod 10 =? 0)%Z then tell EvEmptyCache else ret tt) ;;
  (* rescale bbox *)
  let target_bboxes := tmap2 (batch_rows_op div) target_bboxes (l_stride_tensor l) in
  (* cls loss *)
  one_hot_label <- one_hot_target s fg_mask target_labels ;;
  loss_cls <- VarifocalLoss.forward autocast pred_scores target_scores one_hot_label
                VarifocalLoss.default_alpha VarifocalLoss.default_gamma ;;
  let target_scores_sum := tmap tsum3 target_scores in
  (* avoid devide zero error *)
  let loss_cls :=
    if data target_scores_sum >. of_Z 1
    then tmap2 div loss_cls target_scores_sum
    else loss_cls in
  (* bbox loss *)
  ' (loss_iou, loss_dfl) <-
    BboxLoss.forward (bbox_loss s) pred_distri (l_pred_bboxes l) (l_anchor_points_s l)
                     target_bboxes target_scores target_scores_sum fg_mask ;;
  let wc := tmap (mul (w_class (loss_weight s))) loss_cls in
  let wi := tmap (mul (w_iou (loss_weight s))) loss_iou in
  let wd := tmap (mul (w_dfl (loss_weight s))) loss_dfl in
  let loss := tmap2 add (tmap2 add wc wi) wd in
  let loss_components := [wi; wd; wc] in
  match gating_decision with
  | Some gd =>
      g_reconstructed <- cat_dim1 gd ;;
      let gating_loss := tmap (fun g => tmean (map tmean g)) g_reconstructed in
      let gating_loss := tmap (fun g => g *. lambda_reg) gating_loss in
      let loss := tmap2 add loss gating_loss in
      let loss_components := loss_components ++ [gating_loss] in
      ret (loss, detach (tmap (fun _ => map (@data T) loss_components) wi))
  | None =>
      ret (loss, detach (tmap (fun _ => map (@data T) loss_components) wi))
  end.

(** [__call__(outputs, targets, epoch_num, step_num, lambda_reg,
    gating_decision)].  [autocast] is the ambient autocast state.  Each
    entry of [gating_decision] is the tensor [gd[0]] flattened from its
    second dimension on. *)
Definition __call__ (s : self) (autocast : bool)
    (outputs : list (tensor (nat * nat)) * tensor (cube T) * tensor (cube T))
    (targets : tensor (mat T)) (epoch_num step_num : Z) (lambda_reg : T)
    (gating_decision : option (list (tensor (mat T))))
  : M (tensor T * tensor (list T)) :=
  l <- prepare s outputs targets ;;
  a <- assign s epoch_num (snd (fst outputs)) l ;;
  losses s autocast (snd (fst outputs)) (snd outputs) step_num lambda_reg
         gating_decision l a.
End Def.
End ComputeLoss.

(** ** ComputeLoss1, the alternate loss composer *)

Module ComputeLoss1.
Section Def.
Import NumNotations.
Local Open Scope num_scope.
Context {T : Type} `{Num T} `{Kernels T} `{Externals T}.

Record self : Type := {
  fpn_strides : list Z;
  grid_cell_size : T;
  grid_cell_offset : T;
  num_classes : nat;
  ori_img_size : Z;
  warmup_epoch : Z;
  use_dfl : bool;
  reg_max : nat;
  iou_type : string;
  loss_weight : loss_weights T
}.

(** The defaults of [__init__]. *)
Definition default : self := {|
  fpn_strides := [8; 16; 32]%Z;
  grid_cell_size := lit 5.0;
  grid_cell_offset := lit 0.5;
  num_classes := 80;
  ori_img_size := 640;
  warmup_epoch := 4;
  use_dfl := true;
  reg_max := 16;
  iou_type := "giou";
  loss_weight := {| w_class := lit 1.0; w_iou := lit 2.5; w_dfl := lit 0.5 |}
|}.

(** [self.warmup_assigner = ATSSAssigner(9, num_classes=self.num_classes)] *)
Definition warmup_assigner (s : self) := ATSSAssigner 9 (num_classes s).
(** [self.formal_assigner = TaskAlignedAssigner(topk=13, ..., alpha=1.0, beta=6.0)] *)
Definition formal_assigner (s : self) :=
  TaskAlignedAssigner 13 (num_classes s) (lit 1.0) (lit 6.0).
(** [self.bbox_loss = BboxLoss(num_classes, reg_max, use_dfl, iou_type)] *)
Definition bbox_loss (s : self) : BboxLoss.self :=
  {| BboxLoss.num_classes := num_classes s; BboxLoss.reg_max := reg_max s;
     BboxLoss.use_dfl := use_dfl s; BboxLoss.iou_type := iou_type s |}.

(** [preprocess(targets, batch_size, scale_tensor)] *)
Definition preprocess (targets : tensor (mat T)) (batch_size : nat)
    (scale_tensor : tensor (mat T)) : M (tensor (cube T)) :=
  (* targets_list = np.zeros((batch_size, 1, 5)).tolist() *)
  let targets_list := repeat [repeat (of_Z 0) 5] batch_size in
  (* for i, item in enumerate(...): targets_list[int(item[0])].append(item[1:]) *)
  targets_list <-
    foldM (fun (tl : cube T) (item : list T) =>
             match item with
             | [] => raise IndexError
             | i :: rest =>
                 match py_index (length tl) (to_long i) with
                 | None => raise IndexError
                 | Some k => ret (update tl k (fun l => l ++ [rest]))
                 end
             end)
          (data targets) targets_list ;;
  max_len <- py_max (map (@length _) targets_list) ;;
  let padded :=
    map (fun l => l ++ repeat sentinel (max_len - length l)) targets_list in
  (* np.array(...) needs rows of one length; then [:, 1:, :] *)
  (if forallb (forallb (fun row => (length row =? 5)%nat)) padded
   then ret tt else raise ValueError) ;;
  let targets := Tensor (dev targets) Float64 false (map (skipn 1) padded) in
  (* batch_target = targets[:, :, 1:5].mul_(scale_tensor);
     targets[..., 1:] = xywh2xyxy(batch_target) *)
  match data scale_tensor with
  | [[_; _; _; _] as scale] =>
      ret (tmap (map (map (fun row =>
                   firstn 1 row ++ xywh2xyxy (zipWith mul (skipn 1 row) scale))))
                targets)
  | _ => raise (RuntimeError "The size of tensor a must match the size of tensor b")
  end.

(** [bbox_decode(anchor_points, pred_dist)] *)
Definition bbox_decode (s : self) (anchor_points : tensor (mat T))
    (pred_dist : tensor (cube T)) : M (tensor (cube T)) :=
  pred_dist <-
    (if use_dfl s then
       d <- mapM (mapM (fun row =>
               v <- view4 (reg_max s + 1) row ;;
               ret (map (fun side => dot (softmax side) (linspace0 (reg_max s))) v)))
             (data pred_dist) ;;
       ret (Tensor (dev pred_dist) (dty pred_dist) (grad pred_dist) d)
     else ret pred_dist) ;;
  ret (tmap2 (fun pd ap => map (fun img => zipWith dist2bbox img ap) pd)
             pred_dist anchor_points).

(** ** [__call__]

    The body of [__call__] is read in three blocks: [prepare] (up to the
    decoded boxes), [assign] (the try/except around the assigner) and
    [losses] (everything after it). *)

(** Lines 321-337: anchors, targets, predicted boxes. *)
Definition prepare (s : self)
    (outputs : list (tensor (nat * nat)) * tensor (cube T) * tensor (cube T))
    (targets : tensor (mat T)) : M (locals T) :=
  let '(feats, pred_scores, pred_distri) := outputs in
  feats0 <- match feats with [] => raise IndexError | f :: _ => ret f end ;;
  let ga := generate_anchors feats (fpn_strides s) (grid_cell_size s)
                             (grid_cell_offset s) (dev feats0) in
  let anchors := anchors ga in
  let anchor_points := anchor_points ga in
  let n_anchors_list := n_anchors_list ga in
  let stride_tensor := stride_tensor ga in
  (if same_type pred_scores pred_distri then ret tt else raise AssertionError) ;;
  let gt_bboxes_scale :=
    Tensor (dev pred_scores) (dty pred_scores) false [repeat (of_Z (ori_img_size s)) 4] in
  let batch_size := length (data pred_scores) in
  (* targets *)
  targets <- preprocess targets batch_size gt_bboxes_scale ;;
  let gt_labels := tmap (map (map (firstn 1))) targets in
  let gt_bboxes := tmap (map (map (skipn 1))) targets in
  let mask_gt :=
    float (tmap (map (map (fun box =>
             [if tsum box >. of_Z 0 then of_Z 1 else of_Z 0]))) gt_bboxes) in
  (* pboxes *)
  let anchor_points_s := tmap2 (rows_op div) anchor_points stride_tensor in
  pred_bboxes <- bbox_decode s anchor_points_s pred_distri ;;
  ret (Locals anchors anchor_points n_anchors_list stride_tensor targets
              gt_labels gt_bboxes mask_gt anchor_points_s pred_bboxes).

(** Lines 339-406: the assignment, with the CPU retry. *)
Definition assign (s : self) (epoch_num : Z) (pred_scores : tensor (cube T))
    (l : locals T) : M (assignment T) :=
  let anchors := l_anchors l in
  let anchor_points := l_anchor_points l in
  let n_anchors_list := l_n_anchors_list l in
  let stride_tensor := l_stride_tensor l in
  let gt_labels := l_gt_labels l in
  let gt_bboxes := l_gt_bboxes l in
  let mask_gt := l_mask_gt l in
  let pred_bboxes := l_pred_bboxes l in
  try_except_RuntimeError
    (if (epoch_num <? warmup_epoch s)%Z then
       let pb := tmap2 (batch_rows_op mul) (detach pred_bboxes) stride_tensor in
       tell (EvAssign Warmup [tags anchors; tags gt_labels; tags gt_bboxes;
                              tags mask_gt; tags pb]) ;;
       lift_exn (warmup_assigner s anchors n_anchors_list gt_labels gt_bboxes
                                 mask_gt pb)
     else
       let ps := detach pred_scores in
       let pb := tmap2 (batch_rows_op mul) (detach pred_bboxes) stride_tensor in
       tell (EvAssign Formal [tags ps; tags pb; tags anchor_points; tags gt_labels;
                              tags gt_bboxes; tags mask_gt]) ;;
       lift_exn (formal_assigner s ps pb anchor_points gt_labels gt_bboxes mask_gt))
    (* except RuntimeError: *)
    (tell (EvPrint oom_message) ;;
     tell EvEmptyCache ;;
     tell (EvPrint cpu_mode_message) ;;
     a <- (if (epoch_num <? warmup_epoch s)%Z then
             let _anchors := float (cpu anchors) in
             let _n_anchors_list := n_anchors_list in
             let _gt_labels := float (cpu gt_labels) in
             let _gt_bboxes := float (cpu gt_bboxes) in
             let _mask_gt := float (cpu mask_gt) in
             let _pred_bboxes := float (cpu (detach pred_bboxes)) in
             let _stride_tensor := float (cpu stride_tensor) in
             let pb := tmap2 (batch_rows_op mul) _pred_bboxes _stride_tensor in
             tell (EvAssign Warmup [tags _anchors; tags _gt_labels; tags _gt_bboxes;
                                    tags _mask_gt; tags pb]) ;;
             lift_exn (warmup_assigner s _anchors _n_anchors_list _gt_labels
                                       _gt_bboxes _mask_gt pb)
           else
             let _pred_scores := float (cpu (detach pred_scores)) in
             let _pred_bboxes := float (cpu (detach pred_bboxes)) in
             let _anchor_points := float (cpu anchor_points) in
             let _gt_labels := float (cpu gt_labels) in
             let _gt_bboxes := float (cpu gt_bboxes) in
             let _mask_gt := float (cpu mask_gt) in
             let _stride_tensor := float (cpu stride_tensor) in
             let pb := tmap2 (batch_rows_op mul) _pred_bboxes _stride_tensor in
             tell (EvAssign Formal [tags _pred_scores; tags pb; tags _anchor_points;
                                    tags _gt_labels; tags _gt_bboxes; tags _mask_gt]) ;;
             lift_exn (formal_assigner s _pred_scores pb _anchor_points _gt_labels
                                       _gt_bboxes _mask_gt)) ;;
     ret (Assignment (cuda (target_labels a)) (cuda (target_bboxes a))
                     (cuda (target_scores a)) (cuda (fg_mask a)))).

(** Lines 415-416: labels of background anchors are set to [num_classes],
    one-hot encoded over [num_classes + 1] classes, last column dropped. *)
Definition one_hot_target (s : self) (fg_mask : tensor (list (list bool)))
    (target_labels : tensor (list (list Z))) : M (tensor (list (list (list Z)))) :=
  let target_labels :=
    tmap2 (zipWith (zipWith (fun (m : bool) l =>
             if m then l else Z.of_nat (num_classes s)))) fg_mask target_labels in
  one_hot_label <-
    mapM (mapM (fun l => oh <- one_hot l (num_classes s + 1) ;; ret (removelast oh)))
         (data target_labels) ;;
  ret (Tensor (dev target_labels) (dty target_labels) false one_hot_label).

(** Lines 407-436: the losses, for the assignment [a]. *)
Definition losses (s : self) (autocast : bool)
    (pred_scores pred_distri : tensor (cube T)) (step_num : Z)
    (l : locals T) (a : assignment T) : M (tensor T * tensor (list T)) :=
  let target_labels := target_labels a in
  let target_bboxes := target_bboxes a in
  let target_scores := target_scores a in
  let fg_mask := fg_mask a in
  (* Dynamic release GPU memory *)
  (if (step_num mod 10 =? 0)%Z then tell EvEmptyCache else ret tt) ;;
  (* rescale bbox *)
  let target_bboxes := tmap2 (batch_rows_op div) target_bboxes (l_stride_tensor l) in
  (* cls loss *)
  one_hot_label <- one_hot_target s fg_mask target_labels ;;
  loss_cls <- VarifocalLoss.forward autocast pred_scores target_scores one_hot_label
                VarifocalLoss.default_alpha VarifocalLoss.default_gamma ;;
  let target_scores_sum := tmap tsum3 target_scores in
  (* avoid devide zero error *)
  let loss_cls :=
    if data target_scores_sum >. of_Z 0
    then tmap2 div loss_cls target_scores_sum
    else loss_cls in
  (* bbox loss *)
  ' (loss_iou, loss_dfl) <-
    BboxLoss.forward (bbox_loss s) pred_distri (l_pred_bboxes l) (l_anchor_points_s l)
                     target_bboxes target_scores target_scores_sum fg_mask ;;
  let wc := tmap (mul (w_class (loss_weight s))) loss_cls in
  let wi := tmap (mul (w_iou (loss_weight s))) loss_iou in
  let wd := tmap (mul (w_dfl (loss_weight s))) loss_dfl in
  let loss := tmap2 add (tmap2 add wc wi) wd in
  ret (loss, detach (tmap (fun _ => map (@data T) [wi; wd; wc]) wi)).

(** [__call__(outputs, targets, epoch_num, step_num)].  [autocast] is the
    ambient autocast state. *)
Definition __call__ (s : self) (autocast : bool)
    (outputs : list (tensor (nat * nat)) * tensor (cube T) * tensor (cube T))
    (targets : tensor (mat T)) (epoch_num step_num : Z)
  : M (tensor T * tensor (list T)) :=
  l <- prepare s outputs targets ;;
  a <- assign s epoch_num (snd (fst outputs)) l ;;
  losses s autocast (snd (fst outputs)) (snd outputs) step_num l a.
End Def.
End ComputeLoss1.

(** ** Reading traces *)

(** A property of every event a computation emits. *)
Definition emits (P : event -> Prop) {A} (m : M A) : Prop :=
  Forall P (trace_of m).

(** The assigners a trace shows to have been called. *)
Definition invoked (tr : list event) : list assigner_kind :=
  flat_map (fun ev => match ev with EvAssign k _ => [k] | _ => [] end) tr.

Definition assigns_only (k : assigner_kind) (ev : event) : Prop :=
  match ev with EvAssign k' _ => k' = k | _ => True end.

Definition no_assign (ev : event) : Prop :=
  match ev with EvAssign _ _ => False | _ => True end.


Definition selected (epoch_num warmup_epoch : Z) : assigner_kind :=
  if (epoch_num <? warmup_epoch)%Z then Warmup else Formal.

(** ** A small concrete setting

    One image, one anchor of stride 8, two classes, three distance bins.
    The kernels are rational stand-ins for the torch functions, and the
    assigners return a fixed assignment; on CUDA inputs they raise
    [failure] when one is given. *)

Module Fixture.
Definition kernels : Kernels Q := {|
  pow := fun x g => Qpower x (Qtrunc g);
  bce := fun p g => (p - g) * (p - g);
  softmax := fun l => map (fun _ => 1 / inject_Z (Z.of_nat (length l))) l;
  ce := fun logits i => nth i logits 0
|}.

Definition ga (d : device) : anchors_out Q := {|
  anchors := Tensor d Float32 false [[0; 0; 8; 8]];
  anchor_points := Tensor d Float32 false [[4; 4]];
  n_anchors_list := [1%nat];
  stride_tensor := Tensor d Float32 false [[8]]
|}.

(** The assignment: the anchor is positive for class 1 with soft score
    [score]. *)
Definition result (score : Q) (d : device) : assignment Q := {|
  target_labels := Tensor d Float32 false [[1%Z]];
  target_bboxes := Tensor d Float32 false [[[0; 0; 8; 8]]];
  target_scores := Tensor d Float32 false [[[0; score]]];
  fg_mask := Tensor d Float32 false [[true]]
|}.

Definition assigner (failure : option exn) (score : Q) {A} (t : tensor A)
  : exn + assignment Q :=
  match dev t, failure with
  | CUDA, Some e => inl e
  | d, _ => inr (result score d)
  end.

Definition externals (failure : option exn) (score : Q) : Externals Q := {|
  generate_anchors := fun _ _ _ _ d => ga d;
  ATSSAssigner := fun _ _ anchors _ _ _ _ _ => assigner failure score anchors;
  TaskAlignedAssigner := fun _ _ _ _ ps _ _ _ _ _ => assigner failure score ps;
  IOUloss := fun _ _ p _ => map (fun _ => 1) p;
  bbox2dist_eps := 1 # 100
|}.

(** The same setting with two assigners that can be told apart: the warmup
    assigner gives the anchor the soft score [warm], the formal assigner
    the soft score [formal]. *)
Definition externals_apart (warm formal : Q) : Externals Q := {|
  generate_anchors := fun _ _ _ _ d => ga d;
  ATSSAssigner := fun _ _ anchors _ _ _ _ _ => assigner None warm anchors;
  TaskAlignedAssigner := fun _ _ _ _ ps _ _ _ _ _ => assigner None formal ps;
  IOUloss := fun _ _ p _ => map (fun _ => 1) p;
  bbox2dist_eps := 1 # 100
|}.

Definition config : @ComputeLoss.self Q := {|
  ComputeLoss.fpn_strides := [8%Z];
  ComputeLoss.grid_cell_size := 5;
  ComputeLoss.grid_cell_offset := 1 # 2;
  ComputeLoss.num_classes := 2;
  ComputeLoss.ori_img_size := 640;
  ComputeLoss.warmup_epoch := 4;
  ComputeLoss.use_dfl := true;
  ComputeLoss.reg_max := 2;
  ComputeLoss.iou_type := "giou";
  ComputeLoss.loss_weight := {| w_class := 1; w_iou := 2; w_dfl := 3 |}
|}.

Definition config1 : @ComputeLoss1.self Q := {|
  ComputeLoss1.fpn_strides := [8%Z];
  ComputeLoss1.grid_cell_size := 5;
  ComputeLoss1.grid_cell_offset := 1 # 2;
  ComputeLoss1.num_classes := 2;
  ComputeLoss1.ori_img_size := 640;
  ComputeLoss1.warmup_epoch := 4;
  ComputeLoss1.use_dfl := true;
  ComputeLoss1.reg_max := 2;
  ComputeLoss1.iou_type := "giou";
  ComputeLoss1.loss_weight := {| w_class := 1; w_iou := 2; w_dfl := 3 |}
|}.

(** Network outputs on the accelerator in half precision, and one ground
    truth box of class 1 in image 0. *)
Definition outputs : list (tensor (nat * nat)) * tensor (cube Q) * tensor (cube Q) :=
  ([Tensor CUDA Float16 true (1%nat, 1%nat)],
   Tensor CUDA Float16 true [[[1 # 4; 1 # 2]]],
   Tensor CUDA Float16 true [[[1; 2; 3; 1; 2; 3; 1; 2; 3; 1; 2; 3]]]).

Definition targets : tensor (mat Q) :=
  Tensor CUDA Float32 false [[0; 1; 1 # 2; 1 # 2; 1 # 5; 1 # 5]].

(** The locals of [__call__] once [prepare] has run on these inputs. *)
Definition locals : locals Q :=
  Locals
    (Tensor CUDA Float32 false [[0; 0; 8; 8]])
    (Tensor CUDA Float32 false [[4; 4]]) [1%nat]
    (Tensor CUDA Float32 false [[8]])
    (Tensor CUDA Float64 false [[[1; 5120 # 20; 5120 # 20; 7680 # 20; 7680 # 20]]])
    (Tensor CUDA Float64 false [[[1]]])
    (Tensor CUDA Float64 false [[[5120 # 20; 5120 # 20; 7680 # 20; 7680 # 20]]])
    (Tensor CUDA Float32 false [[[1]]])
    (Tensor CUDA Float32 false [[4 # 8; 4 # 8]])
    (Tensor CUDA Float32 true [[[-108 # 216; -108 # 216; 324 # 216; 324 # 216]]]).
End Fixture.

(** ** The retry protocol of the assignment, stated on its own

    [assignment_on] is the assignment computation of one kind on given
    inputs; [on_host] moves every tensor of the inputs to host memory in
    full precision; [to_cuda] moves the four results to the accelerator.
    [retry_protocol] describes the try/except block in these terms. *)

Section Protocol.
Context {T : Type} {N : Num T}.
Variable S : Type.
Variable warmup_epoch : S -> Z.
Variable W : S -> tensor (mat T) -> list nat -> tensor (cube T) -> tensor (cube T) ->
             tensor (cube T) -> tensor (cube T) -> exn + assignment T.
Variable F : S -> tensor (cube T) -> tensor (cube T) -> tensor (mat T) ->
             tensor (cube T) -> tensor (cube T) -> tensor (cube T) ->
             exn + assignment T.

Definition assignment_on (k : assigner_kind) (s : S) (pred_scores : tensor (cube T))
    (l : locals T) : exn + assignment T :=
  let pb := tmap2 (batch_rows_op mul) (l_pred_bboxes l) (l_stride_tensor l) in
  match k with
  | Warmup => W s (l_anchors l) (l_n_anchors_list l) (l_gt_labels l) (l_gt_bboxes l)
                (l_mask_gt l) pb
  | Formal => F s pred_scores pb (l_anchor_points l) (l_gt_labels l) (l_gt_bboxes l)
                (l_mask_gt l)
  end.

Definition to_host {A} (t : tensor A) : tensor A := float (cpu t).

Definition on_host (l : locals T) : locals T := {|
  l_anchors := to_host (l_anchors l);
  l_anchor_points := to_host (l_anchor_points l);
  l_n_anchors_list := l_n_anchors_list l;
  l_stride_tensor := to_host (l_stride_tensor l);
  l_targets := to_host (l_targets l);
  l_gt_labels := to_host (l_gt_labels l);
  l_gt_bboxes := to_host (l_gt_bboxes l);
  l_mask_gt := to_host (l_mask_gt l);
  l_anchor_points_s := to_host (l_anchor_points_s l);
  l_pred_bboxes := to_host (l_pred_bboxes l)
|}.

Definition detached (l : locals T) : locals T := {|
  l_anchors := l_anchors l;
  l_anchor_points := l_anchor_points l;
  l_n_anchors_list := l_n_anchors_list l;
  l_stride_tensor := l_stride_tensor l;
  l_targets := l_targets l;
  l_gt_labels := l_gt_labels l;
  l_gt_bboxes := l_gt_bboxes l;
  l_mask_gt := l_mask_gt l;
  l_anchor_points_s := l_anchor_points_s l;
  l_pred_bboxes := detach (l_pred_bboxes l)
|}.

Definition to_cuda (a : assignment T) : assignment T :=
  Assignment (cuda (target_labels a)) (cuda (target_bboxes a))
             (cuda (target_scores a)) (cuda (fg_mask a)).

Definition retry_protocol
    (assign : S -> Z -> tensor (cube T) -> locals T -> M (assignment T)) : Prop :=
  forall (s : S) (epoch_num : Z) (pred_scores : tensor (cube T)) (l : locals T),
    let k := selected epoch_num (warmup_epoch s) in
    let primary := assignment_on k s (detach pred_scores) (detached l) in
    let retry := assignment_on k s (to_host (detach pred_scores)) (on_host (detached l)) in
    exists args args',
      Forall (eq (CPU, Float32)) args' /\
      assign s epoch_num pred_scores l =
      match primary with
      | inr a => ([EvAssign k args], inr a)
      | inl e =>
          if is_RuntimeError e
          then ([EvAssign k args; EvPrint oom_message; EvEmptyCache;
                 EvPrint cpu_mode_message; EvAssign k args'],
                match retry with
                | inr a => inr (to_cuda a)
                | inl e' => inl e'
                end)
          else ([EvAssign k args], inl e)
      end.

(** What the retry means for the whole step: when the first attempt raises
    a RuntimeError, the step goes on with the results of the second attempt
    moved to the accelerator, or ends with the error of the second attempt;
    the assigner is called exactly twice. *)
Definition step_continues {R : Type} (prepare : M (locals T)) (k : assigner_kind)
    (primary retry : locals T -> exn + assignment T)
    (losses : locals T -> assignment T -> M R) (call : M R) : Prop :=
  forall (tr0 : list event) (l : locals T) (e : exn),
    prepare = (tr0, inr l) ->
    primary l = inl e ->
    is_RuntimeError e = true ->
    invoked (trace_of call) = [k; k] /\
    In (EvPrint cpu_mode_message) (trace_of call) /\
    result_of call =
    match retry l with
    | inr a => result_of (losses l (to_cuda a))
    | inl e' => inl e'
    end.

(** An error of the first attempt that is not a RuntimeError ends the
    step. *)
Definition step_aborts {R : Type} (prepare : M (locals T)) (k : assigner_kind)
    (primary : locals T -> exn + assignment T) (call : M R) : Prop :=
  forall (tr0 : list event) (l : locals T) (e : exn),
    prepare = (tr0, inr l) ->
    primary l = inl e ->
    is_RuntimeError e = false ->
    (invoked (trace_of call) = [k]) /\ (result_of call = inl e).
End Protocol.

(** ** The same setting in IEEE binary32, with no positive anchor

    The image has no ground truth, the assigners mark the anchor as
    background, and one logit of the predicted distribution is [dist0]. *)

Module FixtureF32.
Definition f (z : Z) : spec_float := F32.of_Z z.
Definition fadd := SFadd F32.prec F32.emax.
Definition fsub := SFsub F32.prec F32.emax.
Definition fmul := SFmul F32.prec F32.emax.
Definition fdiv := SFdiv F32.prec F32.emax.

Definition kernels : Kernels spec_float := {|
  pow := fun x g => fmul x x;
  bce := fun p g => fmul (fsub p g) (fsub p g);
  softmax := fun l => map (fun _ => fdiv (f 1) (f (Z.of_nat (length l)))) l;
  ce := fun logits i => nth i logits (f 0)
|}.

Definition ga (d : device) : anchors_out spec_float := {|
  anchors := Tensor d Float32 false [[f 0; f 0; f 8; f 8]];
  anchor_points := Tensor d Float32 false [[f 4; f 4]];
  n_anchors_list := [1%nat];
  stride_tensor := Tensor d Float32 false [[f 8]]
|}.

Definition background (d : device) : assignment spec_float := {|
  target_labels := Tensor d Float32 false [[2%Z]];
  target_bboxes := Tensor d Float32 false [[[f 0; f 0; f 0; f 0]]];
  target_scores := Tensor d Float32 false [[[f 0; f 0]]];
  fg_mask := Tensor d Float32 false [[false]]
|}.

(** An assignment whose only positive anchor has the smallest positive
    binary32 number, 2^-149, as its soft score for class 1. *)
Definition faint (d : device) : assignment spec_float := {|
  target_labels := Tensor d Float32 false [[1%Z]];
  target_bboxes := Tensor d Float32 false [[[f 0; f 0; f 8; f 8]]];
  target_scores := Tensor d Float32 false [[[f 0; S754_finite false 1 (-149)]]];
  fg_mask := Tensor d Float32 false [[true]]
|}.

Definition externals : Externals spec_float := {|
  generate_anchors := fun _ _ _ _ d => ga d;
  ATSSAssigner := fun _ _ anchors _ _ _ _ _ => inr (background (dev anchors));
  TaskAlignedAssigner := fun _ _ _ _ ps _ _ _ _ _ => inr (background (dev ps));
  IOUloss := fun _ _ p _ => map (fun _ => f 1) p;
  bbox2dist_eps := fdiv (f 1) (f 100)
|}.

Definition config : @ComputeLoss.self spec_float := {|
  ComputeLoss.fpn_strides := [8%Z];
  ComputeLoss.grid_cell_size := f 5;
  ComputeLoss.grid_cell_offset := fdiv (f 1) (f 2);
  ComputeLoss.num_classes := 2;
  ComputeLoss.ori_img_size := 640;
  ComputeLoss.warmup_epoch := 4;
  ComputeLoss.use_dfl := true;
  ComputeLoss.reg_max := 2;
  ComputeLoss.iou_type := "giou";
  ComputeLoss.loss_weight := {| w_class := f 1; w_iou := f 2; w_dfl := f 3 |}
|}.

Definition config1 : @ComputeLoss1.self spec_float := {|
  ComputeLoss1.fpn_strides := [8%Z];
  ComputeLoss1.grid_cell_size := f 5;
  ComputeLoss1.grid_cell_offset := fdiv (f 1) (f 2);
  ComputeLoss1.num_classes := 2;
  ComputeLoss1.ori_img_size := 640;
  ComputeLoss1.warmup_epoch := 4;
  ComputeLoss1.use_dfl := true;
  ComputeLoss1.reg_max := 2;
  ComputeLoss1.iou_type := "giou";
  ComputeLoss1.loss_weight := {| w_class := f 1; w_iou := f 2; w_dfl := f 3 |}
|}.

(** The alternate composer with the largest binary32 number,
    (2^24 - 1) * 2^104, as its class weight. *)
Definition heavy1 : @ComputeLoss1.self spec_float := {|
  ComputeLoss1.fpn_strides := [8%Z];
  ComputeLoss1.grid_cell_size := f 5;
  ComputeLoss1.grid_cell_offset := fdiv (f 1) (f 2);
  ComputeLoss1.num_classes := 2;
  ComputeLoss1.ori_img_size := 640;
  ComputeLoss1.warmup_epoch := 4;
  ComputeLoss1.use_dfl := true;
  ComputeLoss1.reg_max := 2;
  ComputeLoss1.iou_type := "giou";
  ComputeLoss1.loss_weight :=
    {| w_class := S754_finite false 16777215 104; w_iou := f 2; w_dfl := f 3 |}
|}.

Definition pred_distri (dist0 : spec_float) : tensor (cube spec_float) :=
  Tensor CUDA Float32 true
    [[[dist0; f 2; f 3; f 1; f 2; f 3; f 1; f 2; f 3; f 1; f 2; f 3]]].

Definition outputs (dist0 : spec_float)
  : list (tensor (nat * nat)) * tensor (cube spec_float) * tensor (cube spec_float) :=
  ([Tensor CUDA Float32 true (1%nat, 1%nat)],
   Tensor CUDA Float32 true [[[fdiv (f 1) (f 4); fdiv (f 1) (f 2)]]],
   pred_distri dist0).

(** The same outputs with both class scores equal to 1. *)
Definition sure_outputs
  : list (tensor (nat * nat)) * tensor (cube spec_float) * tensor (cube spec_float) :=
  ([Tensor CUDA Float32 true (1%nat, 1%nat)],
   Tensor CUDA Float32 true [[[f 1; f 1]]],
   pred_distri (f 1)).

Definition targets : tensor (mat spec_float) := Tensor CUDA Float32 false [].

(** The locals of [__call__] once [prepare] has run on these inputs. *)
Definition locals : locals spec_float :=
  Locals
    (Tensor CUDA Float32 false [[f 0; f 0; f 8; f 8]])
    (Tensor CUDA Float32 false [[f 4; f 4]]) [1%nat]
    (Tensor CUDA Float32 false [[f 8]])
    (Tensor CUDA Float64 false [[]])
    (Tensor CUDA Float64 false [[]])
    (Tensor CUDA Float64 false [[]])
    (Tensor CUDA Float32 false [[]])
    (Tensor CUDA Float32 false [[fdiv (f 1) (f 2); fdiv (f 1) (f 2)]])
    (Tensor CUDA Float32 true
       [[[fdiv (f (-1)) (f 2); fdiv (f (-1)) (f 2); fdiv (f 3) (f 2); fdiv (f 3) (f 2)]]]).
End FixtureF32.

(** ** The target preprocessor, in the words of the specification *)

Section PreprocessSpec.
Context {T : Type} {N : Num T}.

(** The ground-truth rows of image [k], without their image index, in the
    order of the flat list. *)
Definition image_rows (targets : mat T) (k : nat) : mat T :=
  map (@tl T)
      (filter (fun row => match row with
                          | i :: _ => (to_long i =? Z.of_nat k)%Z
                          | [] => false
                          end) targets).

(** [g_k], the number of ground-truth rows of image [k]. *)
Definition gt_count (targets : mat T) (k : nat) : nat :=
  length (image_rows targets k).

(** [max_k g_k] over the images of the batch. *)
Definition max_gt (targets : mat T) (batch_size : nat) : nat :=
  list_max (map (gt_count targets) (seq 0 batch_size)).

(** A row [class, cx, cy, w, h] scaled and converted to
    [class, x1, y1, x2, y2]. *)
Definition to_pixels_xyxy (scale : list T) (row : list T) : list T :=
  firstn 1 row ++ xywh2xyxy (zipWith mul (skipn 1 row) scale).

(** The padded tensor the specification describes. *)
Definition padded_targets (targets : mat T) (batch_size : nat) (scale : list T)
  : cube T :=
  map (fun k =>
         map (to_pixels_xyxy scale)
             (image_rows targets k
              ++ repeat sentinel (max_gt targets batch_size - gt_count targets k)))
      (seq 0 batch_size).

(** A well-formed flat row: six entries, the first an image index of the
    batch. *)
Definition valid_row (batch_size : nat) (row : list T) : Prop :=
  length row = 6%nat /\
  match row with
  | i :: _ => (0 <= to_long i < Z.of_nat batch_size)%Z
  | [] => False
  end.
End PreprocessSpec.

(** ** The validity mask of one preprocessed row [class, x1, y1, x2, y2] *)

Definition row_mask {T} `{Num T} (row : list T) : T :=
  if gtb (tsum (skipn 1 row)) (of_Z 0) then of_Z 1 else of_Z 0.

(** ** The Varifocal loss, in the words of the specification

    "per-anchor-per-class weight = alpha x predicted_score^gamma x
    (1 - one_hot_label) + target_soft_score x one_hot_label; loss = sum over
    all anchors/classes of weight x binary-cross-entropy(predicted_score,
    target_soft_score)".  Anchors are indexed by image and position. *)

Section VarifocalSpec.
Context {K : Kernels Q}.

Definition sum_over (n : nat) (f : nat -> Q) : Q :=
  fold_right (fun i acc => f i + acc)%Q 0%Q (seq 0 n).

Definition entry {A} (d : A) (x : list (list (list A))) (b a c : nat) : A :=
  nth c (nth a (nth b x []) []) d.

(** A tensor of shape (n_images, n_anchors, n_classes). *)
Definition shape3 {A} (n_images n_anchors n_classes : nat)
    (x : list (list (list A))) : Prop :=
  length x = n_images
  /\ Forall (fun img =>
               length img = n_anchors
               /\ Forall (fun row => length row = n_classes) img) x.

Definition varifocal_weight (alpha gamma : Q) (pred_score gt_score : Q) (label : Z)
  : Q :=
  (alpha * pow pred_score gamma * (1 - inject_Z label) + gt_score * inject_Z label)%Q.

Definition varifocal_spec (n_images n_anchors n_classes : nat) (alpha gamma : Q)
    (pred_score gt_score : cube Q) (label : list (list (list Z))) : Q :=
  sum_over n_images (fun b =>
    sum_over n_anchors (fun a =>
      sum_over n_classes (fun c =>
        let p := entry 0%Q pred_score b a c in
        let g := entry 0%Q gt_score b a c in
        let l := entry 0%Z label b a c in
        varifocal_weight alpha gamma p g l * bce p g)))%Q.
End VarifocalSpec.

(** ** Distribution focal loss: indices and target distances *)

(** A class index of the (reg_max + 1)-class cross entropy. *)
Definition index_ok (s : BboxLoss.self) (i : Z) : Prop :=
  (0 <= i <= Z.of_nat (BboxLoss.reg_max s))%Z.

(** A target distance [t] with 0 <= t < reg_max. *)
Definition in_range (s : BboxLoss.self) (t : Q) : Prop :=
  (0 <= t < inject_Z (Z.of_nat (BboxLoss.reg_max s)))%Q.

(** ** The distribution focal loss, in the words of the specification

    "target distance is a continuous value bracketed by two adjacent integer
    bins; loss = cross-entropy to lower bin x (distance to upper bin) +
    cross-entropy to upper bin x (1 - that weight), averaged over the 4
    sides". *)

Section DflSpec.
Context {K : Kernels Q}.

Definition dfl_side (logits : list Q) (t : Q) : Q :=
  let lower := Qfloor t in
  let upper := (lower + 1)%Z in
  let weight := (inject_Z upper - t)%Q in
  (ce logits (Z.to_nat lower) * weight
   + ce logits (Z.to_nat upper) * (1 - weight))%Q.

Definition dfl_anchor (sides : mat Q) (t : list Q) : Q :=
  (sum_over 4 (fun k => dfl_side (nth k sides []) (nth k t 0%Q)) / 4)%Q.
End DflSpec.

(** The rows that [BboxLoss.forward] selects for the positive anchors: the
    target distances, the anchors' total target scores, and the value the
    weighted losses sum to. *)
Section Positive.
Context {T : Type} `{Num T} `{Externals T}.

Definition positive_distances (s : BboxLoss.self) (anchor_points : tensor (mat T))
    (target_bboxes : tensor (cube T)) (fg_mask : tensor (list (list bool))) : mat T :=
  select_pos (data fg_mask)
    (map (zipWith (fun p b => bbox2dist bbox2dist_eps p b (BboxLoss.reg_max s))
                  (data anchor_points))
         (data target_bboxes)).

Definition positive_weights (target_scores : tensor (cube T))
    (fg_mask : tensor (list (list bool))) : list T :=
  select_pos (data fg_mask) (map (map tsum) (data target_scores)).

Definition weighted_sum (per_anchor : mat T) (weights : list T) : T :=
  tsum2 (zipWith (fun row w => map (fun x => mul x w) row) per_anchor weights).
End Positive.

(** ** The configuration of [ComputeLoss], read as one of [ComputeLoss1] *)

Definition to_alternate {T} (s : @ComputeLoss.self T) : @ComputeLoss1.self T := {|
  ComputeLoss1.fpn_strides := ComputeLoss.fpn_strides s;
  ComputeLoss1.grid_cell_size := ComputeLoss.grid_cell_size s;
  ComputeLoss1.grid_cell_offset := ComputeLoss.grid_cell_offset s;
  ComputeLoss1.num_classes := ComputeLoss.num_classes s;
  ComputeLoss1.ori_img_size := ComputeLoss.ori_img_size s;
  ComputeLoss1.warmup_epoch := ComputeLoss.warmup_epoch s;
  ComputeLoss1.use_dfl := ComputeLoss.use_dfl s;
  ComputeLoss1.reg_max := ComputeLoss.reg_max s;
  ComputeLoss1.iou_type := ComputeLoss.iou_type s;
  ComputeLoss1.loss_weight := ComputeLoss.loss_weight s
|}.

(** The default configuration of [ComputeLoss] with other loss weights. *)
Definition with_loss_weight {T} (s : @ComputeLoss.self T) (w : loss_weights T)
  : @ComputeLoss.self T := {|
  ComputeLoss.fpn_strides := ComputeLoss.fpn_strides s;
  ComputeLoss.grid_cell_size := ComputeLoss.grid_cell_size s;
  ComputeLoss.grid_cell_offset := ComputeLoss.grid_cell_offset s;
  ComputeLoss.num_classes := ComputeLoss.num_classes s;
  ComputeLoss.ori_img_size := ComputeLoss.ori_img_size s;
  ComputeLoss.warmup_epoch := ComputeLoss.warmup_epoch s;
  ComputeLoss.use_dfl := ComputeLoss.use_dfl s;
  ComputeLoss.reg_max := ComputeLoss.reg_max s;
  ComputeLoss.iou_type := ComputeLoss.iou_type s;
  ComputeLoss.loss_weight := w
|}.

(** * The other methods of [ComputeLoss], and tools/infer.py *)

(** ** Scalar operations of the gating-diversity helpers

    Besides the operations of [Num] the helpers use [torch.abs], unary
    minus, the comparisons [>=] and [!=], and [torch.log2]. *)

Class NumOps (T : Type) : Type := {
  abs : T -> T;                    (* torch.abs *)
  neg : T -> T;                    (* -x *)
  geb : T -> T -> bool;            (* x >= y *)
  neb : T -> T -> bool             (* x != y *)
}.

#[export] Instance Q_NumOps : NumOps Q := {
  abs := Qabs;
  neg := Qopp;
  geb := fun x y => Qle_bool y x;
  neb := fun x y => negb (Qeq_bool x y)
}.

(** In IEEE arithmetic a comparison with NaN is false, except [!=]. *)
Definition F32_NumOps : NumOps spec_float := {|
  abs := SFabs;
  neg := SFopp;
  geb := fun x y => SFleb y x;
  neb := fun x y => negb (SFeqb x y)
|}.

Class Log (T : Type) : Type := {
  log2 : T -> T                    (* torch.log2, elementwise *)
}.

(** The float values of a boolean tensor, [b.float()]. *)
Definition of_bool {T} `{Num T} (b : bool) : T := if b then of_Z 1 else of_Z 0.

(** ** [adaptive_weight], [compute_gating_diversity_index_hamming],
       [compute_class_diversity_index], [compute_gating_diversity_loss]

    The four methods use no attribute of [self].  They are read on the
    values of their tensor arguments. *)

Section GatingDiversity.
Import NumNotations.
Local Open Scope num_scope.
Context {T : Type} `{Num T} `{NumOps T} `{Log T}.

(** [adaptive_weight(gating_loss, other_loss, base_weight, scaling_factor)] *)
Definition adaptive_weight (gating_loss other_loss base_weight scaling_factor : T) : T :=
  if other_loss >. gating_loss          (* gating_loss < other_loss *)
  then
    let difference := other_loss -. gating_loss in
    let artificial_scale := base_weight *. (of_Z 1 +. scaling_factor *. difference) in
    artificial_scale
  else base_weight.

(** [h[i, j] = v] on a matrix; the loops below only use indices of the
    matrix. *)
Definition setitem2 (h : mat T) (i j : nat) (v : T) : mat T :=
  update h i (fun row => update row j (fun _ => v)).

(** [torch.sum(torch.abs(a - b))] of two rows. *)
Definition abs_diff_sum (a b : list T) : T := tsum (map abs (zipWith sub a b)).

(** Lines 213-221: the matrix [hamming_distances] after the two loops. *)
Definition hamming_distances (gating_decision_float : mat T) : mat T :=
  let batch_size := length gating_decision_float in
  let hamming_distances := repeat (repeat (of_Z 0) batch_size) batch_size in
  fold_left
    (fun hamming_distances i =>
       fold_left
         (fun hamming_distances j =>
            let distance :=
              abs_diff_sum (nth i gating_decision_float [])
                           (nth j gating_decision_float []) in
            let hamming_distances := setitem2 hamming_distances i j distance in
            setitem2 hamming_distances j i distance)
         (seq (i + 1) (batch_size - (i + 1))) hamming_distances)
    (seq 0 batch_size) hamming_distances.

(** [x[x != 0]]: the entries that are not zero, in row-major order. *)
Definition nonzero (x : list T) : list T := filter (fun v => neb v (of_Z 0)) x.

(** [compute_gating_diversity_index_hamming(gating_decision)];
    [gating_decision.float()] keeps the values of a float tensor (for a
    boolean one see [of_bool]).  [torch.mean] of an empty selection is
    0 / 0. *)
Definition compute_gating_diversity_index_hamming (gating_decision : mat T) : T :=
  let gating_decision_float := gating_decision in
  let hamming_distances := hamming_distances gating_decision_float in
  let diversity_index := tmean (nonzero (concat hamming_distances)) in
  diversity_index.

(** [x.max()] of an integer tensor; the empty tensor is an error. *)
Definition tensor_max (x : list Z) : M Z :=
  match x with
  | [] => raise (RuntimeError "max(): Expected reduction dim to be specified for input.numel() == 0. Specify the reduction dim with the 'dim' argument.")
  | a :: x => ret (fold_left Z.max x a)
  end.

(** [one_hot.sum(dim=0)]: the column sums of an (n x k) integer matrix. *)
Definition column_sums (k : nat) (rows : list (list Z)) : list Z :=
  map (fun c => fold_left Z.add (map (fun row => nth c row 0%Z) rows) 0%Z) (seq 0 k).

(** [-torch.sum(p * torch.log2(p + 1e-9))] *)
Definition entropy_of (class_probabilities : list T) : T :=
  neg (tsum (map (fun p => p *. log2 (p +. lit (1 # 1000000000))) class_probabilities)).

(** [-torch.sum(w * p * torch.log2(p + 1e-9))] *)
Definition weighted_entropy_of (class_weights class_probabilities : list T) : T :=
  neg (tsum (zipWith mul (zipWith mul class_weights class_probabilities)
                     (map (fun p => log2 (p +. lit (1 # 1000000000)))
                          class_probabilities))).

(** [compute_class_diversity_index(gt_labels)]; the boolean mask selects
    the entries of [gt_labels] in row-major order. *)
Definition compute_class_diversity_index (gt_labels : cube T) : M T :=
  let labeled_gt_labels := filter (fun x => geb x (of_Z 0)) (concat (concat gt_labels)) in
  let labeled_gt_labels := map to_long labeled_gt_labels in
  m <- tensor_max labeled_gt_labels ;;
  let num_classes := Z.to_nat (m + 1) in
  one_hot_labels <- mapM (fun l => one_hot l num_classes) labeled_gt_labels ;;
  let class_counts := map of_Z (column_sums num_classes one_hot_labels) in
  let class_probabilities := map (fun c => c /. tsum class_counts) class_counts in
  let entropy := entropy_of class_probabilities in
  let class_weights := repeat (of_Z 1) num_classes in
  let weighted_entropy := weighted_entropy_of class_weights class_probabilities in
  ret weighted_entropy.

(** [compute_gating_diversity_loss(gating_decision, gt_labels)]; the mask
    [!= 0] on the 0-dimensional index selects it or nothing. *)
Definition compute_gating_diversity_loss (gating_decision : mat T) (gt_labels : cube T)
  : M T :=
  class_diversity_index <- compute_class_diversity_index gt_labels ;;
  let gating_diversity_index := compute_gating_diversity_index_hamming gating_decision in
  let num_comparisons := (12 * (12 - 1))%Z in
  let normalized_gating_diversity_index :=
    tmean (nonzero [gating_diversity_index]) /. of_Z num_comparisons in
  let diversity_loss := abs (class_diversity_index -. normalized_gating_diversity_index) in
  ret diversity_loss.
End GatingDiversity.

(** ** Reading the helpers *)

(** The number of positions in which two boolean gate vectors differ. *)
Definition hamming (a b : list bool) : nat :=
  length (filter (fun ab => xorb (fst ab) (snd ab)) (combine a b)).

(** The number of labelled entries of class [c]. *)
Definition class_count (labels : list Z) (c : nat) : Z :=
  Z.of_nat (length (filter (fun l => (l =? Z.of_nat c)%Z) labels)).

(** The labelled entries of a label tensor: those that are [>= 0], as
    integers. *)
Definition labelled (gt_labels : cube Q) : list Z :=
  map Qtrunc (filter (fun x => Qle_bool 0 x) (concat (concat gt_labels))).

(** Shannon entropy in bits of the class frequencies of [labels], over the
    classes 0..k-1, with the source's 1e-9 inside the logarithm. *)
Definition class_entropy {L : Log Q} (labels : list Z) (k : nat) : Q :=
  - fold_right Qplus 0
      (map (fun c =>
              let p := inject_Z (class_count labels c)
                       / inject_Z (Z.of_nat (length labels)) in
              p * log2 (p + (1 # 1000000000)))
           (seq 0 k)).

(** ** Reading the composer *)

(** How often a trace empties the accelerator cache, and how often it
    announces the CPU mode. *)
Definition cache_releases (tr : list event) : nat :=
  length (filter (fun ev => match ev with EvEmptyCache => true | _ => false end) tr).

Definition cpu_retries (tr : list event) : nat :=
  length (filter (fun ev => match ev with
                            | EvPrint line => String.eqb line cpu_mode_message
                            | _ => false
                            end) tr).

(** The row of [one_hot_label] of an anchor with foreground flag [m] and
    assigned label [l], over [n] classes. *)
Definition one_hot_row (n : nat) (m : bool) (l : Z) : list Z :=
  map (fun j => if m && (Z.of_nat j =? l)%Z then 1%Z else 0%Z) (seq 0 n).

(** The labels [F.one_hot] accepts after the background anchors have been
    relabelled: any label for a background anchor, 0..n for a foreground
    one. *)
Definition label_ok (n : nat) (m : bool) (l : Z) : bool :=
  negb m || ((0 <=? l) && (l <=? Z.of_nat n))%Z.

Definition labels_ok (n : nat) (fg_mask : list (list bool))
    (target_labels : list (list Z)) : bool :=
  forallb (forallb (fun b => b)) (zipWith (zipWith (label_ok n)) fg_mask target_labels).

(** The image a flat target row is appended to: [int(item[0])] read as a
    Python list index of a list of [n] images. *)
Definition image_of {T} `{Num T} (n : nat) (row : list T) : option nat :=
  match row with
  | [] => None
  | i :: _ => py_index n (to_long i)
  end.

(** The row with its image index written as the index 0..n-1 it denotes. *)
Definition wrap_row (n : nat) (row : list Q) : list Q :=
  match image_of n row, row with
  | Some k, _ :: rest => inject_Z (Z.of_nat k) :: rest
  | _, _ => row
  end.

(** A probability vector. *)
Definition distribution (p : list Q) : Prop :=
  Forall (fun x => 0 <= x) p /\ fold_right Qplus 0 p == 1.

(** The four sides of a row of 4 * n logits, as [view(..., 4, n)] reads
    them. *)
Definition sides {T} (n : nat) (row : list T) : list (list T) :=
  [firstn n row; firstn n (skipn n row);
   firstn n (skipn (2 * n) row); firstn n (skipn (3 * n) row)].

(** The distances [bbox_decode] passes to [dist2bbox] when the
    distribution loss is in use: per side, the mean of the bins 0..reg_max
    under the softmax of the side's logits. *)
Definition expected_distances {K : Kernels Q} (reg_max : nat) (row : list Q) : list Q :=
  map (fun side => @dot Q Q_Num (softmax side) (@linspace0 Q Q_Num reg_max))
      (sides (reg_max + 1) row).

(** The IoU loss of the positive anchors before normalisation: the loss of
    each positive anchor times the anchor's total target score, summed. *)
Definition weighted_iou {T} `{Num T} `{Externals T} (iou_type : string)
    (pred_bboxes target_bboxes target_scores : tensor (cube T))
    (fg_mask : tensor (list (list bool))) : T :=
  tsum (zipWith mul
          (IOUloss iou_type (lit (1 # 10000000000))
                   (select_pos (data fg_mask) (data pred_bboxes))
                   (select_pos (data fg_mask) (data target_bboxes)))
          (positive_weights target_scores fg_mask)).

(** ** tools/infer.py: the output directories of [run]

    [run] asks the file system whether a path exists and creates
    directories; it then hands the directory to the [Inferer].  The file
    system and the inferer are parameters: [FS] is the state of the file
    system, [R] stands for the arguments that [run] passes on unchanged. *)

Module Infer.

Inductive error : Type :=
| FileExistsError                  (* os.makedirs on an existing path *)
| Exception (msg : string).        (* any other exception *)

Inductive event : Type :=
| Warning (msg : string)           (* LOGGER.warning *)
| Info (msg : string).             (* LOGGER.info *)

Class World (FS R : Type) : Type := {
  exists_ : FS -> string -> bool;                          (* osp.exists *)
  makedirs : FS -> string -> error + FS;                   (* os.makedirs *)
  (* Inferer(source, ...).infer(..., save_dir, save_txt, not not_save_img, ...) *)
  infer : R -> string -> bool -> bool -> FS -> error + FS
}.

(** What the statements about [run] assume of the file system: a directory
    that [os.makedirs] has created exists afterwards and nothing
    disappears; only finitely many paths exist.  Nothing is assumed about
    the calls of [os.makedirs] that fail. *)
Record lawful {FS R : Type} `{World FS R} : Prop := {
  makedirs_creates :
    forall fs p fs', makedirs fs p = inr fs' ->
      exists_ fs' p = true /\ (forall q, exists_ fs q = true -> exists_ fs' q = true);
  finitely_many :
    forall fs, exists l : list string, forall p, exists_ fs p = true -> In p l
}.
Arguments lawful FS R {_}.

(** [osp.join(a, b)] on a POSIX system. *)
Fixpoint ends_with_sep (a : string) : bool :=
  match a with
  | EmptyString => false
  | String c EmptyString => Ascii.eqb c "/"
  | String _ a => ends_with_sep a
  end.

Definition join (a b : string) : string :=
  if String.prefix "/" b then b
  else if (a =? "")%string || ends_with_sep a then a ++ b
  else a ++ "/" ++ b.

(** [f"{counter}"] for a non-negative integer. *)
Definition str (n : nat) : string := NilEmpty.string_of_uint (Nat.to_uint n).

(** A computation of [run]: it reads and changes the file system, logs,
    and may raise; [None] is a loop that has not ended within its fuel. *)
Definition St (FS A : Type) : Type := FS -> option (list event * FS * (error + A)).

Section Run.
Context {FS R : Type} `{World FS R}.

Definition ret {A} (a : A) : St FS A := fun fs => Some ([], fs, inr a).

Definition bind {A B} (m : St FS A) (f : A -> St FS B) : St FS B :=
  fun fs =>
    match m fs with
    | None => None
    | Some (tr, fs', inl e) => Some (tr, fs', inl e)
    | Some (tr, fs', inr a) =>
        match f a fs' with
        | None => None
        | Some (tr', fs'', r) => Some (tr ++ tr', fs'', r)
        end
    end.

Definition log (ev : event) : St FS unit := fun fs => Some ([ev], fs, inr tt).

Definition os_exists (p : string) : St FS bool := fun fs => Some ([], fs, inr (exists_ fs p)).

Definition os_makedirs (p : string) : St FS unit :=
  fun fs =>
    match makedirs fs p with
    | inl e => Some ([], fs, inl e)
    | inr fs' => Some ([], fs', inr tt)
    end.

Definition call_infer (rest : R) (save_dir : string) (save_txt save_img : bool)
  : St FS unit :=
  fun fs =>
    match infer rest save_dir save_txt save_img fs with
    | inl e => Some ([], fs, inl e)
    | inr fs' => Some ([], fs', inr tt)
    end.

Declare Scope infer_scope.
Delimit Scope infer_scope with infer.
Notation "x <- c1 ;; c2" := (bind c1 (fun x => c2))
  (at level 61, c1 at next level, right associativity) : infer_scope.
Notation "c1 ;; c2" := (bind c1 (fun _ => c2))
  (at level 61, right associativity) : infer_scope.
Local Open Scope infer_scope.

(** The [while] loop of [get_next_dir_name]. *)
Fixpoint while_exists (fuel : nat) (base_dir name : string) (counter : nat)
    (new_dir : string) : St FS string :=
  match fuel with
  | O => fun _ => None
  | S fuel =>
      e <- os_exists new_dir ;;
      if e then
        let counter := (counter + 1)%nat in
        let new_dir := join base_dir (name ++ str counter) in
        while_exists fuel base_dir name counter new_dir
      else ret new_dir
  end.

(** [get_next_dir_name(base_dir, name)] *)
Definition get_next_dir_name (fuel : nat) (base_dir name : string) : St FS string :=
  let counter := 1%nat in
  let new_dir := join base_dir (name ++ str counter) in
  while_exists fuel base_dir name counter new_dir.

Definition already_existed : string :=
  "Save directory already existed. Creating a new directory with an incremental number.".

(** Lines 114-132 of [run]: the directory of the results and the directory
    of the label files. *)
Definition save_dirs (fuel : nat) (project name : string) (save_dir : option string)
    (save_txt not_save_img : bool) : St FS (string * string) :=
  let '(save_dir, save_txt_path) :=
    match save_dir with
    | None =>
        let save_dir := join project name in
        (save_dir, join save_dir "labels")
    | Some save_dir => (save_dir, save_dir)
    end in
  dirs <-
    (if negb not_save_img || save_txt then
       e <- os_exists save_dir ;;
       if negb e then
         os_makedirs save_dir ;;
         ret (save_dir, save_txt_path)
       else
         log (Warning already_existed) ;;
         save_dir <- get_next_dir_name fuel project name ;;
         os_makedirs save_dir ;;
         ret (save_dir, join save_dir "labels")
     else ret (save_dir, save_txt_path)) ;;
  (if save_txt then
     e <- os_exists (snd dirs) ;;
     if negb e then os_makedirs (snd dirs) else ret tt
   else ret tt) ;;
  ret dirs.

(** [run(..., save_txt, not_save_img, save_dir, ..., project, name, ...)] *)
Definition run (fuel : nat) (rest : R) (project name : string)
    (save_dir : option string) (save_txt not_save_img : bool) : St FS unit :=
  dirs <- save_dirs fuel project name save_dir save_txt not_save_img ;;
  let save_dir := fst dirs in
  call_infer rest save_dir save_txt (negb not_save_img) ;;
  if save_txt || negb not_save_img
  then log (Info ("Results saved to " ++ save_dir))
  else ret tt.
End Run.

(** The candidate directories of [get_next_dir_name]. *)
Definition candidate (base_dir name : string) (k : nat) : string :=
  join base_dir (name ++ str k).

(** A file system given by the list of its paths; [os.makedirs] adds the
    path (its missing parents are not listed), and the inferer leaves the
    directories alone. *)
Definition listed : World (list string) unit := {|
  exists_ := fun fs p => existsb (String.eqb p) fs;
  makedirs := fun fs p =>
    if existsb (String.eqb p) fs then inl FileExistsError else inr (p :: fs);
  infer := fun _ _ _ _ fs => inr fs
|}.
End Infer.

(** * Properties *)

(** ** The effect monad *)

Lemma trace_bind {A B} (m : M A) (f : A -> M B) :
  trace_of (bind m f) =
  trace_of m ++ match result_of m with
                | inr a => trace_of (f a)
                | inl _ => []
                end.
Proof.
  destruct m as [tr [e | a]]; simpl.
  - now rewrite app_nil_r.
  - now destruct (f a).
Qed.

Lemma result_bind {A B} (m : M A) (f : A -> M B) :
  result_of (bind m f) =
  match result_of m with
  | inr a => result_of (f a)
  | inl e => inl e
  end.
Proof.
  destruct m as [tr [e | a]]; simpl; auto. now destruct (f a).
Qed.

Lemma bind_returns {A B} (m : M A) (f : A -> M B) (b : B) :
  result_of (bind m f) = inr b ->
  exists a, result_of m = inr a /\ result_of (f a) = inr b.
Proof.
  rewrite result_bind. destruct (result_of m) as [e | a]; [discriminate |].
  intros Hb. now exists a.
Qed.

Lemma emits_ret P {A} (a : A) : emits P (ret a).
Proof. constructor. Qed.

Lemma emits_raise P {A} (e : exn) : emits P (@raise A e).
Proof. constructor. Qed.

Lemma emits_lift_exn P {A} (r : exn + A) : emits P (lift_exn r).
Proof. constructor. Qed.

Lemma emits_tell (P : event -> Prop) ev : P ev -> emits P (tell ev).
Proof. intros Hp. constructor; [exact Hp | constructor]. Qed.

Lemma emits_bind P {A B} (m : M A) (f : A -> M B) :
  emits P m -> (forall a, emits P (f a)) -> emits P (bind m f).
Proof.
  unfold emits. intros Hm Hf. rewrite trace_bind. apply Forall_app. split; auto.
  destruct (result_of m); [constructor | apply Hf].
Qed.

Lemma emits_try P {A} (m h : M A) :
  emits P m -> emits P h -> emits P (try_except_RuntimeError m h).
Proof.
  unfold emits, try_except_RuntimeError.
  destruct m as [tr [e | a]]; simpl; auto.
  destruct (is_RuntimeError e); simpl; auto.
  destruct h as [tr' r]; simpl. intros; apply Forall_app; auto.
Qed.

Lemma emits_mapM P {A B} (f : A -> M B) (l : list A) :
  (forall a, emits P (f a)) -> emits P (mapM f l).
Proof.
  intros Hf. induction l as [| a l IH]; simpl.
  - apply emits_ret.
  - apply emits_bind; [apply Hf |]. intros b.
    apply emits_bind; [exact IH |]. intros bs. apply emits_ret.
Qed.

Lemma emits_foldM P {A B} (f : A -> B -> M A) (l : list B) (a : A) :
  (forall a b, emits P (f a b)) -> emits P (foldM f l a).
Proof.
  intros Hf. revert a. induction l as [| b l IH]; intros a; simpl.
  - apply emits_ret.
  - apply emits_bind; [apply Hf | intros a'; apply IH].
Qed.

Lemma emits_py_max P (l : list nat) : emits P (py_max l).
Proof. destruct l; [apply emits_raise | apply emits_ret]. Qed.

Lemma invoked_app tr tr' : invoked (tr ++ tr') = invoked tr ++ invoked tr'.
Proof. unfold invoked. apply flat_map_app. Qed.

Lemma assigns_only_invoked k tr :
  Forall (assigns_only k) tr -> Forall (eq k) (invoked tr).
Proof.
  induction 1 as [| ev tr Hev _ IH]; simpl; [constructor |].
  destruct ev; simpl in *; auto.
Qed.

(** ** Runs of the concrete setting *)

Example fixture_warmup_run :
  trace_of (@ComputeLoss.__call__ Q _ Fixture.kernels (Fixture.externals None 1)
              Fixture.config true Fixture.outputs Fixture.targets 3 1 0 None)
  = [EvAssign Warmup [(CUDA, Float32); (CUDA, Float64); (CUDA, Float64);
                      (CUDA, Float32); (CUDA, Float32)]].
Proof. vm_compute. reflexivity. Qed.

Example fixture_formal_run :
  trace_of (@ComputeLoss.__call__ Q _ Fixture.kernels (Fixture.externals None 1)
              Fixture.config true Fixture.outputs Fixture.targets 4 10 0 None)
  = [EvAssign Formal [(CUDA, Float16); (CUDA, Float32); (CUDA, Float32);
                      (CUDA, Float64); (CUDA, Float64); (CUDA, Float32)];
     EvEmptyCache].
Proof. vm_compute. reflexivity. Qed.

(** ** Which events each block of the composer can emit *)

Ltac emits_step :=
  match goal with
  | |- emits _ (bind _ _) => apply emits_bind; [| intros]
  | |- emits _ (ret _) => apply emits_ret
  | |- emits _ (raise _) => apply emits_raise
  | |- emits _ (lift_exn _) => apply emits_lift_exn
  | |- emits _ (mapM _ _) => apply emits_mapM; intros
  | |- emits _ (foldM _ _ _) => apply emits_foldM; intros
  | |- emits _ (py_max _) => apply emits_py_max
  | |- emits _ (try_except_RuntimeError _ _) => apply emits_try
  | |- emits _ (tell _) => apply emits_tell; simpl; auto
  | |- emits _ (if ?c then _ else _) => destruct c
  | |- emits _ (match ?x with _ => _ end) => destruct x
  end.

Ltac emits_auto := repeat emits_step.

Section Blocks.
Context {T : Type} {N : Num T} {K : Kernels T} {E : Externals T}.
Variable P : event -> Prop.

Lemma emits_view4 n (row : list T) : emits P (view4 n row).
Proof. unfold view4. emits_auto. Qed.

Lemma emits_one_hot l n : emits P (one_hot l n).
Proof. unfold one_hot. emits_auto. Qed.

Lemma emits_cat_dim1 (ts : list (tensor (mat T))) : emits P (cat_dim1 ts).
Proof. unfold cat_dim1. emits_auto. Qed.

Lemma emits_vfl ac p g l (al ga : T) : emits P (VarifocalLoss.forward ac p g l al ga).
Proof. unfold VarifocalLoss.forward, VarifocalLoss.binary_cross_entropy. emits_auto. Qed.

Lemma emits_cross_entropy_rows s pd (tg : list (list Z)) :
  emits P (BboxLoss.cross_entropy_rows s pd tg).
Proof.
  unfold BboxLoss.cross_entropy_rows, BboxLoss.cross_entropy. emits_auto.
Qed.

Lemma emits_df_loss s pd (tg : mat T) : emits P (BboxLoss._df_loss s pd tg).
Proof.
  unfold BboxLoss._df_loss.
  repeat (apply emits_bind; [apply emits_cross_entropy_rows | intros]).
  apply emits_ret.
Qed.

Lemma emits_bbox_forward s pd pb ap tb ts tss fg :
  emits P (BboxLoss.forward s pd pb ap tb ts tss fg).
Proof.
  unfold BboxLoss.forward.
  destruct (0 <? count_pos (data fg))%nat; [| apply emits_ret].
  destruct (BboxLoss.use_dfl s); [| apply emits_ret].
  apply emits_bind; [apply emits_mapM; intros; apply emits_view4 | intros].
  apply emits_bind; [apply emits_df_loss | intros]. apply emits_ret.
Qed.
End Blocks.

Section ComputeLoss_blocks.
Context {T : Type} {N : Num T} {K : Kernels T} {E : Externals T}.

Lemma ComputeLoss_preprocess_emits P (tg : tensor (mat T)) n sc :
  emits P (ComputeLoss.preprocess tg n sc).
Proof.
  unfold ComputeLoss.preprocess.
  apply emits_bind; [apply emits_foldM; intros; emits_auto | intros].
  apply emits_bind; [apply emits_py_max | intros].
  apply emits_bind; [emits_auto | intros].
  emits_auto.
Qed.

Lemma ComputeLoss_bbox_decode_emits P (s : @ComputeLoss.self T) ap pd :
  emits P (ComputeLoss.bbox_decode s ap pd).
Proof.
  unfold ComputeLoss.bbox_decode.
  apply emits_bind; [| intros; apply emits_ret].
  destruct (ComputeLoss.use_dfl s); [| apply emits_ret].
  apply emits_bind; [| intros; apply emits_ret].
  apply emits_mapM; intros. apply emits_mapM; intros.
  apply emits_bind; [apply emits_view4 | intros; apply emits_ret].
Qed.

Lemma ComputeLoss_prepare_emits P (s : @ComputeLoss.self T) outputs tg :
  emits P (ComputeLoss.prepare s outputs tg).
Proof.
  unfold ComputeLoss.prepare. destruct outputs as [[feats ps] pd].
  apply emits_bind; [emits_auto | intros].
  apply emits_bind; [emits_auto | intros].
  apply emits_bind; [apply ComputeLoss_preprocess_emits | intros].
  apply emits_bind; [apply ComputeLoss_bbox_decode_emits | intros].
  apply emits_ret.
Qed.

Lemma ComputeLoss_assign_emits (s : @ComputeLoss.self T) epoch ps l :
  emits (assigns_only (selected epoch (ComputeLoss.warmup_epoch s)))
        (ComputeLoss.assign s epoch ps l).
Proof.
  unfold ComputeLoss.assign, selected.
  destruct (epoch <? ComputeLoss.warmup_epoch s)%Z; emits_auto.
Qed.

Lemma ComputeLoss_assign_head (s : @ComputeLoss.self T) epoch ps l :
  exists args rest,
    trace_of (ComputeLoss.assign s epoch ps l)
    = EvAssign (selected epoch (ComputeLoss.warmup_epoch s)) args :: rest.
Proof.
  unfold ComputeLoss.assign, selected.
  destruct (epoch <? ComputeLoss.warmup_epoch s)%Z;
    unfold try_except_RuntimeError, bind, tell, lift_exn; simpl;
    repeat match goal with
           | |- context [match ?r with inl _ => _ | inr _ => _ end] =>
               destruct r; simpl
           | |- context [if is_RuntimeError ?e then _ else _] =>
               destruct (is_RuntimeError e); simpl
           end; eauto.
Qed.

Lemma ComputeLoss_one_hot_target_emits P (s : @ComputeLoss.self T) fg tl :
  emits P (ComputeLoss.one_hot_target s fg tl).
Proof.
  unfold ComputeLoss.one_hot_target.
  apply emits_bind; [| intros; apply emits_ret].
  apply emits_mapM; intros. apply emits_mapM; intros.
  apply emits_bind; [apply emits_one_hot | intros; apply emits_ret].
Qed.
End ComputeLoss_blocks.

Section ComputeLoss1_blocks.
Context {T : Type} {N : Num T} {K : Kernels T} {E : Externals T}.

Lemma ComputeLoss1_preprocess_emits P (tg : tensor (mat T)) n sc :
  emits P (ComputeLoss1.preprocess tg n sc).
Proof.
  unfold ComputeLoss1.preprocess.
  apply emits_bind; [apply emits_foldM; intros; emits_auto | intros].
  apply emits_bind; [apply emits_py_max | intros].
  apply emits_bind; [emits_auto | intros].
  emits_auto.
Qed.

Lemma ComputeLoss1_bbox_decode_emits P (s : @ComputeLoss1.self T) ap pd :
  emits P (ComputeLoss1.bbox_decode s ap pd).
Proof.
  unfold ComputeLoss1.bbox_decode.
  apply emits_bind; [| intros; apply emits_ret].
  destruct (ComputeLoss1.use_dfl s); [| apply emits_ret].
  apply emits_bind; [| intros; apply emits_ret].
  apply emits_mapM; intros. apply emits_mapM; intros.
  apply emits_bind; [apply emits_view4 | intros; apply emits_ret].
Qed.

Lemma ComputeLoss1_prepare_emits P (s : @ComputeLoss1.self T) outputs tg :
  emits P (ComputeLoss1.prepare s outputs tg).
Proof.
  unfold ComputeLoss1.prepare. destruct outputs as [[feats ps] pd].
  apply emits_bind; [emits_auto | intros].
  apply emits_bind; [emits_auto | intros].
  apply emits_bind; [apply ComputeLoss1_preprocess_emits | intros].
  apply emits_bind; [apply ComputeLoss1_bbox_decode_emits | intros].
  apply emits_ret.
Qed.

Lemma ComputeLoss1_assign_emits (s : @ComputeLoss1.self T) epoch ps l :
  emits (assigns_only (selected epoch (ComputeLoss1.warmup_epoch s)))
        (ComputeLoss1.assign s epoch ps l).
Proof.
  unfold ComputeLoss1.assign, selected.
  destruct (epoch <? ComputeLoss1.warmup_epoch s)%Z; emits_auto.
Qed.

Lemma ComputeLoss1_assign_head (s : @ComputeLoss1.self T) epoch ps l :
  exists args rest,
    trace_of (ComputeLoss1.assign s epoch ps l)
    = EvAssign (selected epoch (ComputeLoss1.warmup_epoch s)) args :: rest.
Proof.
  unfold ComputeLoss1.assign, selected.
  destruct (epoch <? ComputeLoss1.warmup_epoch s)%Z;
    unfold try_except_RuntimeError, bind, tell, lift_exn; simpl;
    repeat match goal with
           | |- context [match ?r with inl _ => _ | inr _ => _ end] =>
               destruct r; simpl
           | |- context [if is_RuntimeError ?e then _ else _] =>
               destruct (is_RuntimeError e); simpl
           end; eauto.
Qed.

Lemma ComputeLoss1_one_hot_target_emits P (s : @ComputeLoss1.self T) fg tl :
  emits P (ComputeLoss1.one_hot_target s fg tl).
Proof.
  unfold ComputeLoss1.one_hot_target.
  apply emits_bind; [| intros; apply emits_ret].
  apply emits_mapM; intros. apply emits_mapM; intros.
  apply emits_bind; [apply emits_one_hot | intros; apply emits_ret].
Qed.
End ComputeLoss1_blocks.

Section Losses_events.
Context {T : Type} {N : Num T} {K : Kernels T} {E : Externals T}.

(** After the assignment the composers only ever release the cache. *)
Lemma ComputeLoss_losses_emits (P : event -> Prop) (s : @ComputeLoss.self T)
    ac ps pd step lam gd l a :
  P EvEmptyCache -> emits P (ComputeLoss.losses s ac ps pd step lam gd l a).
Proof.
  intros Hp.
  unfold ComputeLoss.losses.
  apply emits_bind; [emits_auto | intros].
  apply emits_bind; [apply ComputeLoss_one_hot_target_emits | intros].
  apply emits_bind; [apply emits_vfl | intros].
  apply emits_bind; [apply emits_bbox_forward | intros [li ld]].
  destruct gd as [gd |]; [| apply emits_ret].
  apply emits_bind; [apply emits_cat_dim1 | intros; apply emits_ret].
Qed.

Lemma ComputeLoss1_losses_emits (P : event -> Prop) (s : @ComputeLoss1.self T)
    ac ps pd step l a :
  P EvEmptyCache -> emits P (ComputeLoss1.losses s ac ps pd step l a).
Proof.
  intros Hp.
  unfold ComputeLoss1.losses.
  apply emits_bind; [emits_auto | intros].
  apply emits_bind; [apply ComputeLoss1_one_hot_target_emits | intros].
  apply emits_bind; [apply emits_vfl | intros].
  apply emits_bind; [apply emits_bbox_forward | intros [li ld]].
  apply emits_ret.
Qed.

Lemma In_invoked_head k args rest tr tr' :
  tr = EvAssign k args :: rest -> In k (invoked (tr' ++ tr)).
Proof.
  intros ->. rewrite invoked_app. apply in_or_app. right. simpl. now left.
Qed.
End Losses_events.

(** ** The try/except block of the assignment *)

Ltac split_outcomes :=
  repeat match goal with
         | |- context [match ?r with inl _ => _ | inr _ => _ end] =>
             destruct r; simpl
         | |- context [if is_RuntimeError ?e then _ else _] =>
             destruct (is_RuntimeError e); simpl
         end.

Section Retry.
Context {T : Type} {N : Num T} {K : Kernels T} {E : Externals T}.

Lemma ComputeLoss_retry_protocol :
  retry_protocol (@ComputeLoss.warmup_epoch T) ComputeLoss.warmup_assigner
                 ComputeLoss.formal_assigner ComputeLoss.assign.
Proof.
  intros s epoch ps l k primary retry. subst k primary retry.
  unfold ComputeLoss.assign, selected, assignment_on.
  destruct (epoch <? ComputeLoss.warmup_epoch s)%Z;
    unfold try_except_RuntimeError, bind, tell, lift_exn; simpl;
    unfold to_host, to_cuda;
    do 2 eexists; (split; [| split_outcomes; reflexivity]);
    repeat constructor.
Qed.

Lemma ComputeLoss1_retry_protocol :
  retry_protocol (@ComputeLoss1.warmup_epoch T) ComputeLoss1.warmup_assigner
                 ComputeLoss1.formal_assigner ComputeLoss1.assign.
Proof.
  intros s epoch ps l k primary retry. subst k primary retry.
  unfold ComputeLoss1.assign, selected, assignment_on.
  destruct (epoch <? ComputeLoss1.warmup_epoch s)%Z;
    unfold try_except_RuntimeError, bind, tell, lift_exn; simpl;
    unfold to_host, to_cuda;
    do 2 eexists; (split; [| split_outcomes; reflexivity]);
    repeat constructor.
Qed.
End Retry.

Lemma no_assign_invoked tr : Forall no_assign tr -> invoked tr = [].
Proof.
  induction 1 as [| ev tr Hev _ IH]; simpl; [reflexivity |].
  destruct ev; simpl in *; auto; contradiction.
Qed.

Lemma emits_no_assign_invoked {A} (m : M A) :
  emits no_assign m -> invoked (trace_of m) = [].
Proof. apply no_assign_invoked. Qed.

(** ** C1: the epoch chooses the assigner *)

(** What a step returns, in terms of the calls of the selected assigner. *)
Section Assigned.
Context {T : Type} {N : Num T} {K : Kernels T} {E : Externals T}.

Lemma ComputeLoss_call_assigned (s : @ComputeLoss.self T) ac outputs targets
    epoch step lam gd l :
  result_of (ComputeLoss.prepare s outputs targets) = inr l ->
  let k := selected epoch (ComputeLoss.warmup_epoch s) in
  let ps := snd (fst outputs) in
  let run := ComputeLoss.__call__ s ac outputs targets epoch step lam gd in
  match assignment_on ComputeLoss.warmup_assigner ComputeLoss.formal_assigner
          k s (detach ps) (detached l) with
  | inr a =>
      invoked (trace_of run) = [k]
      /\ result_of run
         = result_of (ComputeLoss.losses s ac ps (snd outputs) step lam gd l a)
  | inl e =>
      if is_RuntimeError e then
        match assignment_on ComputeLoss.warmup_assigner ComputeLoss.formal_assigner
                k s (to_host (detach ps)) (on_host (detached l)) with
        | inr a =>
            result_of run
            = result_of (ComputeLoss.losses s ac ps (snd outputs) step lam gd l
                           (to_cuda a))
        | inl e' => result_of run = inl e'
        end
      else result_of run = inl e
  end.
Proof.
  intros Hl k ps run.
  destruct (ComputeLoss_retry_protocol s epoch ps l) as (args & args' & _ & Heq).
  fold k in Heq. cbv zeta in Heq.
  assert (Hp : invoked (trace_of (ComputeLoss.prepare s outputs targets)) = []).
  { apply emits_no_assign_invoked. apply ComputeLoss_prepare_emits. }
  subst run. unfold ComputeLoss.__call__. fold ps.
  rewrite trace_bind, !result_bind, Hl, trace_bind, result_bind, Heq.
  destruct (assignment_on ComputeLoss.warmup_assigner ComputeLoss.formal_assigner
              k s (detach ps) (detached l)) as [e | a].
  - destruct (is_RuntimeError e); [| reflexivity].
    destruct (assignment_on ComputeLoss.warmup_assigner ComputeLoss.formal_assigner
                k s (to_host (detach ps)) (on_host (detached l))); reflexivity.
  - split; [| reflexivity]. cbn [trace_of result_of fst snd].
    rewrite !invoked_app, Hp.
    rewrite (emits_no_assign_invoked
               (@ComputeLoss_losses_emits T N K E no_assign s ac ps (snd outputs)
                  step lam gd l a I)).
    reflexivity.
Qed.

Lemma ComputeLoss1_call_assigned (s : @ComputeLoss1.self T) ac outputs targets
    epoch step l :
  result_of (ComputeLoss1.prepare s outputs targets) = inr l ->
  let k := selected epoch (ComputeLoss1.warmup_epoch s) in
  let ps := snd (fst outputs) in
  let run := ComputeLoss1.__call__ s ac outputs targets epoch step in
  match assignment_on ComputeLoss1.warmup_assigner ComputeLoss1.formal_assigner
          k s (detach ps) (detached l) with
  | inr a =>
      invoked (trace_of run) = [k]
      /\ result_of run
         = result_of (ComputeLoss1.losses s ac ps (snd outputs) step l a)
  | inl e =>
      if is_RuntimeError e then
        match assignment_on ComputeLoss1.warmup_assigner ComputeLoss1.formal_assigner
                k s (to_host (detach ps)) (on_host (detached l)) with
        | inr a =>
            result_of run
            = result_of (ComputeLoss1.losses s ac ps (snd outputs) step l (to_cuda a))
        | inl e' => result_of run = inl e'
        end
      else result_of run = inl e
  end.
Proof.
  intros Hl k ps run.
  destruct (ComputeLoss1_retry_protocol s epoch ps l) as (args & args' & _ & Heq).
  fold k in Heq. cbv zeta in Heq.
  assert (Hp : invoked (trace_of (ComputeLoss1.prepare s outputs targets)) = []).
  { apply emits_no_assign_invoked. apply ComputeLoss1_prepare_emits. }
  subst run. unfold ComputeLoss1.__call__. fold ps.
  rewrite trace_bind, !result_bind, Hl, trace_bind, result_bind, Heq.
  destruct (assignment_on ComputeLoss1.warmup_assigner ComputeLoss1.formal_assigner
              k s (detach ps) (detached l)) as [e | a].
  - destruct (is_RuntimeError e); [| reflexivity].
    destruct (assignment_on ComputeLoss1.warmup_assigner ComputeLoss1.formal_assigner
                k s (to_host (detach ps)) (on_host (detached l))); reflexivity.
  - split; [| reflexivity]. cbn [trace_of result_of fst snd].
    rewrite !invoked_app, Hp.
    rewrite (emits_no_assign_invoked
               (@ComputeLoss1_losses_emits T N K E no_assign s ac ps (snd outputs)
                  step l a I)).
    reflexivity.
Qed.

(** Every result of a step is computed from an assignment that the
    selected assigner has returned, on the inputs of the step or on their
    copies in host memory. *)
Lemma ComputeLoss_call_source (s : @ComputeLoss.self T) ac outputs targets
    epoch step lam gd r :
  result_of (ComputeLoss.__call__ s ac outputs targets epoch step lam gd) = inr r ->
  let k := selected epoch (ComputeLoss.warmup_epoch s) in
  let ps := snd (fst outputs) in
  exists l a,
    result_of (ComputeLoss.prepare s outputs targets) = inr l
    /\ ((assignment_on ComputeLoss.warmup_assigner ComputeLoss.formal_assigner
           k s (detach ps) (detached l) = inr a
         /\ result_of (ComputeLoss.losses s ac ps (snd outputs) step lam gd l a)
            = inr r)
        \/ (assignment_on ComputeLoss.warmup_assigner ComputeLoss.formal_assigner
              k s (to_host (detach ps)) (on_host (detached l)) = inr a
            /\ result_of (ComputeLoss.losses s ac ps (snd outputs) step lam gd l
                            (to_cuda a)) = inr r)).
Proof.
  intros Hr k ps.
  destruct (result_of (ComputeLoss.prepare s outputs targets)) as [e | l] eqn:Hl.
  - unfold ComputeLoss.__call__ in Hr. rewrite result_bind, Hl in Hr. discriminate.
  - pose proof (@ComputeLoss_call_assigned s ac outputs targets epoch step lam gd l Hl)
      as H.
    cbv zeta in H. fold k ps in H.
    destruct (assignment_on ComputeLoss.warmup_assigner ComputeLoss.formal_assigner
                k s (detach ps) (detached l)) as [e | a] eqn:Hp.
    + destruct (is_RuntimeError e); [| congruence].
      destruct (assignment_on ComputeLoss.warmup_assigner ComputeLoss.formal_assigner
                  k s (to_host (detach ps)) (on_host (detached l))) as [e' | a] eqn:Hq;
        [congruence |].
      exists l, a. split; [reflexivity |]. right. split; [exact Hq | congruence].
    + destruct H as [_ H]. exists l, a. split; [reflexivity |]. left.
      split; [exact Hp | congruence].
Qed.

Lemma ComputeLoss1_call_source (s : @ComputeLoss1.self T) ac outputs targets
    epoch step r :
  result_of (ComputeLoss1.__call__ s ac outputs targets epoch step) = inr r ->
  let k := selected epoch (ComputeLoss1.warmup_epoch s) in
  let ps := snd (fst outputs) in
  exists l a,
    result_of (ComputeLoss1.prepare s outputs targets) = inr l
    /\ ((assignment_on ComputeLoss1.warmup_assigner ComputeLoss1.formal_assigner
           k s (detach ps) (detached l) = inr a
         /\ result_of (ComputeLoss1.losses s ac ps (snd outputs) step l a) = inr r)
        \/ (assignment_on ComputeLoss1.warmup_assigner ComputeLoss1.formal_assigner
              k s (to_host (detach ps)) (on_host (detached l)) = inr a
            /\ result_of (ComputeLoss1.losses s ac ps (snd outputs) step l (to_cuda a))
               = inr r)).
Proof.
  intros Hr k ps.
  destruct (result_of (ComputeLoss1.prepare s outputs targets)) as [e | l] eqn:Hl.
  - unfold ComputeLoss1.__call__ in Hr. rewrite result_bind, Hl in Hr. discriminate.
  - pose proof (@ComputeLoss1_call_assigned s ac outputs targets epoch step l Hl) as H.
    cbv zeta in H. fold k ps in H.
    destruct (assignment_on ComputeLoss1.warmup_assigner ComputeLoss1.formal_assigner
                k s (detach ps) (detached l)) as [e | a] eqn:Hp.
    + destruct (is_RuntimeError e); [| congruence].
      destruct (assignment_on ComputeLoss1.warmup_assigner ComputeLoss1.formal_assigner
                  k s (to_host (detach ps)) (on_host (detached l))) as [e' | a] eqn:Hq;
        [congruence |].
      exists l, a. split; [reflexivity |]. right. split; [exact Hq | congruence].
    + destruct H as [_ H]. exists l, a. split; [reflexivity |]. left.
      split; [exact Hp | congruence].
Qed.
End Assigned.

(** C1.  In both composers the assignment of a step is produced by the
    assigner that the epoch selects.  When [epoch_num < warmup_epoch] and
    the warmup (ATSS) assigner returns an assignment for the anchors, the
    targets and the predicted boxes of the step, the step calls that
    assigner once, calls no other, and returns the losses computed from
    that assignment; when [epoch_num >= warmup_epoch] the same holds of the
    formal (task-aligned) assigner, called on the predicted scores and
    boxes, the anchor points and the targets.  Whatever a step returns was
    computed from an assignment returned by the selected assigner, on the
    inputs of the step or on their copies in host memory; every assigner
    call of a step is a call of the selected assigner, and once anchors,
    targets and predicted boxes are ready it is called.  The selection looks
    at nothing but [epoch_num] and [warmup_epoch]; in particular
    [warmup_epoch - 1] selects the warmup assigner and [warmup_epoch] the
    formal one. *)
Theorem C1_epoch_gated_assigner :
  forall (T : Type) (N : Num T) (K : Kernels T) (E : Externals T)
         (s : @ComputeLoss.self T) (s1 : @ComputeLoss1.self T)
         (autocast : bool) outputs targets (epoch_num step_num : Z)
         (lambda_reg : T) gating_decision,
    let ps := snd (fst outputs) in
    let pd := snd outputs in
    let run := ComputeLoss.__call__ s autocast outputs targets epoch_num step_num
                 lambda_reg gating_decision in
    let run1 := ComputeLoss1.__call__ s1 autocast outputs targets epoch_num step_num in
    let pb l := tmap2 (batch_rows_op mul) (detach (l_pred_bboxes l)) (l_stride_tensor l) in
    (Forall (eq (selected epoch_num (ComputeLoss.warmup_epoch s)))
            (invoked (trace_of run))
     /\ (forall l, result_of (ComputeLoss.prepare s outputs targets) = inr l ->
                   In (selected epoch_num (ComputeLoss.warmup_epoch s))
                      (invoked (trace_of run)))
     /\ (forall l a,
           result_of (ComputeLoss.prepare s outputs targets) = inr l ->
           (epoch_num < ComputeLoss.warmup_epoch s)%Z ->
           ComputeLoss.warmup_assigner s (l_anchors l) (l_n_anchors_list l)
             (l_gt_labels l) (l_gt_bboxes l) (l_mask_gt l) (pb l) = inr a ->
           invoked (trace_of run) = [Warmup]
           /\ result_of run
              = result_of (ComputeLoss.losses s autocast ps pd step_num lambda_reg
                             gating_decision l a))
     /\ (forall l a,
           result_of (ComputeLoss.prepare s outputs targets) = inr l ->
           (ComputeLoss.warmup_epoch s <= epoch_num)%Z ->
           ComputeLoss.formal_assigner s (detach ps) (pb l) (l_anchor_points l)
             (l_gt_labels l) (l_gt_bboxes l) (l_mask_gt l) = inr a ->
           invoked (trace_of run) = [Formal]
           /\ result_of run
              = result_of (ComputeLoss.losses s autocast ps pd step_num lambda_reg
                             gating_decision l a))
     /\ (forall r, result_of run = inr r ->
           let k := selected epoch_num (ComputeLoss.warmup_epoch s) in
           exists l a,
             result_of (ComputeLoss.prepare s outputs targets) = inr l
             /\ ((assignment_on ComputeLoss.warmup_assigner ComputeLoss.formal_assigner
                    k s (detach ps) (detached l) = inr a
                  /\ result_of (ComputeLoss.losses s autocast ps pd step_num lambda_reg
                                  gating_decision l a) = inr r)
                 \/ (assignment_on ComputeLoss.warmup_assigner
                       ComputeLoss.formal_assigner
                       k s (to_host (detach ps)) (on_host (detached l)) = inr a
                     /\ result_of (ComputeLoss.losses s autocast ps pd step_num
                                     lambda_reg gating_decision l (to_cuda a))
                        = inr r))))
    /\ (Forall (eq (selected epoch_num (ComputeLoss1.warmup_epoch s1)))
               (invoked (trace_of run1))
        /\ (forall l, result_of (ComputeLoss1.prepare s1 outputs targets) = inr l ->
                      In (selected epoch_num (ComputeLoss1.warmup_epoch s1))
                         (invoked (trace_of run1)))
        /\ (forall l a,
              result_of (ComputeLoss1.prepare s1 outputs targets) = inr l ->
              (epoch_num < ComputeLoss1.warmup_epoch s1)%Z ->
              ComputeLoss1.warmup_assigner s1 (l_anchors l) (l_n_anchors_list l)
                (l_gt_labels l) (l_gt_bboxes l) (l_mask_gt l) (pb l) = inr a ->
              invoked (trace_of run1) = [Warmup]
              /\ result_of run1
                 = result_of (ComputeLoss1.losses s1 autocast ps pd step_num l a))
        /\ (forall l a,
              result_of (ComputeLoss1.prepare s1 outputs targets) = inr l ->
              (ComputeLoss1.warmup_epoch s1 <= epoch_num)%Z ->
              ComputeLoss1.formal_assigner s1 (detach ps) (pb l) (l_anchor_points l)
                (l_gt_labels l) (l_gt_bboxes l) (l_mask_gt l) = inr a ->
              invoked (trace_of run1) = [Formal]
              /\ result_of run1
                 = result_of (ComputeLoss1.losses s1 autocast ps pd step_num l a))
        /\ (forall r, result_of run1 = inr r ->
              let k := selected epoch_num (ComputeLoss1.warmup_epoch s1) in
              exists l a,
                result_of (ComputeLoss1.prepare s1 outputs targets) = inr l
                /\ ((assignment_on ComputeLoss1.warmup_assigner
                       ComputeLoss1.formal_assigner
                       k s1 (detach ps) (detached l) = inr a
                     /\ result_of (ComputeLoss1.losses s1 autocast ps pd step_num l a)
                        = inr r)
                    \/ (assignment_on ComputeLoss1.warmup_assigner
                          ComputeLoss1.formal_assigner
                          k s1 (to_host (detach ps)) (on_host (detached l)) = inr a
                        /\ result_of (ComputeLoss1.losses s1 autocast ps pd step_num l
                                        (to_cuda a)) = inr r))))
    /\ (forall e w : Z, (e < w)%Z -> selected e w = Warmup)
    /\ (forall e w : Z, (w <= e)%Z -> selected e w = Formal)
    /\ (forall w : Z, selected (w - 1) w = Warmup /\ selected w w = Formal).
Proof.
  intros T N K E s s1 autocast outputs targets epoch_num step_num lambda_reg
    gating_decision ps pd run run1 pb.
  split; [| split; [| split; [| split]]].
  - split; [| split; [| split; [| split]]].
    + apply assigns_only_invoked. unfold run, ComputeLoss.__call__.
      apply emits_bind; [apply ComputeLoss_prepare_emits | intros].
      apply emits_bind; [apply ComputeLoss_assign_emits | intros].
      apply ComputeLoss_losses_emits; exact I.
    + intros l Hl. unfold run, ComputeLoss.__call__.
      rewrite trace_bind, Hl, trace_bind.
      destruct (ComputeLoss_assign_head s epoch_num (snd (fst outputs)) l)
        as (args & rest & Hhd).
      rewrite Hhd. eapply In_invoked_head. simpl. reflexivity.
    + intros l a Hl Hlt Ha.
      pose proof (@ComputeLoss_call_assigned T N K E s autocast outputs targets
                    epoch_num step_num lambda_reg gating_decision l Hl) as H.
      cbv zeta in H. unfold selected in H.
      apply Z.ltb_lt in Hlt. rewrite Hlt in H.
      unfold assignment_on in H. cbn [detached l_pred_bboxes l_stride_tensor
        l_anchors l_n_anchors_list l_gt_labels l_gt_bboxes l_mask_gt] in H.
      fold ps in H. unfold pb in Ha. rewrite Ha in H. exact H.
    + intros l a Hl Hle Ha.
      pose proof (@ComputeLoss_call_assigned T N K E s autocast outputs targets
                    epoch_num step_num lambda_reg gating_decision l Hl) as H.
      cbv zeta in H. unfold selected in H.
      apply Z.ltb_ge in Hle. rewrite Hle in H.
      unfold assignment_on in H. cbn [detached l_pred_bboxes l_stride_tensor
        l_anchor_points l_gt_labels l_gt_bboxes l_mask_gt] in H.
      fold ps in H. unfold pb in Ha. rewrite Ha in H. exact H.
    + intros r Hr. now apply ComputeLoss_call_source.
  - split; [| split; [| split; [| split]]].
    + apply assigns_only_invoked. unfold run1, ComputeLoss1.__call__.
      apply emits_bind; [apply ComputeLoss1_prepare_emits | intros].
      apply emits_bind; [apply ComputeLoss1_assign_emits | intros].
      apply ComputeLoss1_losses_emits; exact I.
    + intros l Hl. unfold run1, ComputeLoss1.__call__.
      rewrite trace_bind, Hl, trace_bind.
      destruct (ComputeLoss1_assign_head s1 epoch_num (snd (fst outputs)) l)
        as (args & rest & Hhd).
      rewrite Hhd. eapply In_invoked_head. simpl. reflexivity.
    + intros l a Hl Hlt Ha.
      pose proof (@ComputeLoss1_call_assigned T N K E s1 autocast outputs targets
                    epoch_num step_num l Hl) as H.
      cbv zeta in H. unfold selected in H.
      apply Z.ltb_lt in Hlt. rewrite Hlt in H.
      unfold assignment_on in H. cbn [detached l_pred_bboxes l_stride_tensor
        l_anchors l_n_anchors_list l_gt_labels l_gt_bboxes l_mask_gt] in H.
      fold ps in H. unfold pb in Ha. rewrite Ha in H. exact H.
    + intros l a Hl Hle Ha.
      pose proof (@ComputeLoss1_call_assigned T N K E s1 autocast outputs targets
                    epoch_num step_num l Hl) as H.
      cbv zeta in H. unfold selected in H.
      apply Z.ltb_ge in Hle. rewrite Hle in H.
      unfold assignment_on in H. cbn [detached l_pred_bboxes l_stride_tensor
        l_anchor_points l_gt_labels l_gt_bboxes l_mask_gt] in H.
      fold ps in H. unfold pb in Ha. rewrite Ha in H. exact H.
    + intros r Hr. now apply ComputeLoss1_call_source.
  - intros e w Hlt. unfold selected. apply Z.ltb_lt in Hlt. now rewrite Hlt.
  - intros e w Hle. unfold selected. apply Z.ltb_ge in Hle. now rewrite Hle.
  - intros w. unfold selected. split.
    + replace (w - 1 <? w)%Z with true; [reflexivity |].
      symmetry. apply Z.ltb_lt. lia.
    + now rewrite Z.ltb_irrefl.
Qed.

(** Two assigners that can be told apart: the warmup assigner scores the
    anchor 1, the formal assigner 1/2.  With [warmup_epoch = 4] the step of
    epoch 3 returns the losses of the warmup assignment and the step of
    epoch 4 those of the formal assignment, and the two differ. *)
Lemma C1_epoch_gated_assigner_witness :
  let E := Fixture.externals_apart 1 (1 # 2) in
  let call epoch :=
    @ComputeLoss.__call__ Q Q_Num Fixture.kernels E Fixture.config true
      Fixture.outputs Fixture.targets epoch 1 0 None in
  let losses_of a :=
    @ComputeLoss.losses Q Q_Num Fixture.kernels E Fixture.config true
      (snd (fst Fixture.outputs)) (snd Fixture.outputs) 1 0 None Fixture.locals a in
  (invoked (trace_of (call 3%Z)) = [Warmup]
   /\ result_of (call 3%Z) = result_of (losses_of (Fixture.result 1 CUDA)))
  /\ (invoked (trace_of (call 4%Z)) = [Formal]
      /\ result_of (call 4%Z) = result_of (losses_of (Fixture.result (1 # 2) CUDA)))
  /\ result_of (call 3%Z) <> result_of (call 4%Z).
Proof.
  intros E call losses_of. split; [| split].
  - pose proof (@C1_epoch_gated_assigner Q Q_Num Fixture.kernels E
                  Fixture.config Fixture.config1 true
                  Fixture.outputs Fixture.targets 3 1 0 None) as H.
    destruct H as [(_ & _ & H & _) _].
    apply (H Fixture.locals (Fixture.result 1 CUDA));
      [vm_compute; reflexivity | reflexivity | vm_compute; reflexivity].
  - pose proof (@C1_epoch_gated_assigner Q Q_Num Fixture.kernels E
                  Fixture.config Fixture.config1 true
                  Fixture.outputs Fixture.targets 4 1 0 None) as H.
    destruct H as [(_ & _ & _ & H & _) _].
    apply (H Fixture.locals (Fixture.result (1 # 2) CUDA));
      [vm_compute; reflexivity | discriminate | vm_compute; reflexivity].
  - vm_compute. discriminate.
Defined.

(** ** C2: the retry on host memory *)

Section Step.
Context {T : Type} {N : Num T} {K : Kernels T} {E : Externals T}.

Lemma ComputeLoss_step_continues (s : @ComputeLoss.self T) ac outputs targets
    epoch step lam gd :
  let k := selected epoch (ComputeLoss.warmup_epoch s) in
  let ps := snd (fst outputs) in
  step_continues
    (ComputeLoss.prepare s outputs targets) k
    (fun l => assignment_on ComputeLoss.warmup_assigner ComputeLoss.formal_assigner
                k s (detach ps) (detached l))
    (fun l => assignment_on ComputeLoss.warmup_assigner ComputeLoss.formal_assigner
                k s (to_host (detach ps)) (on_host (detached l)))
    (fun l a => ComputeLoss.losses s ac ps (snd outputs) step lam gd l a)
    (ComputeLoss.__call__ s ac outputs targets epoch step lam gd).
Proof.
  intros k ps tr0 l e Hprep Hprim Hrt.
  assert (Htr0 : invoked tr0 = []).
  { pose proof (@ComputeLoss_prepare_emits T N K E no_assign s outputs targets) as Hp.
    unfold emits in Hp. rewrite Hprep in Hp. now apply no_assign_invoked. }
  destruct (ComputeLoss_retry_protocol s epoch ps l) as (args & args' & _ & Heq).
  fold k in Heq. cbv zeta in Heq. rewrite Hprim, Hrt in Heq.
  unfold ComputeLoss.__call__. fold ps. rewrite Hprep.
  unfold bind. rewrite Heq.
  match goal with
  | |- context [assignment_on ?w ?f k s (to_host (detach ps)) (on_host (detached l))] =>
      destruct (assignment_on w f k s (to_host (detach ps)) (on_host (detached l)))
        as [e' | a]
  end.
  - cbn. rewrite invoked_app, Htr0. repeat split; auto.
    apply in_or_app. right. cbn. auto.
  - pose proof (@ComputeLoss_losses_emits T N K E no_assign s ac ps (snd outputs)
                  step lam gd l (to_cuda a) I) as Hl.
    apply emits_no_assign_invoked in Hl.
    destruct (ComputeLoss.losses s ac ps (snd outputs) step lam gd l (to_cuda a))
      as [tr2 r2] eqn:Hlo.
    cbn [trace_of fst] in Hl. cbn -[invoked In].
    rewrite invoked_app, Htr0. cbn. fold (invoked tr2). rewrite Hl.
    repeat split; auto. apply in_or_app. right. cbn. auto.
Qed.
Lemma ComputeLoss1_step_continues (s : @ComputeLoss1.self T) ac outputs targets
    epoch step :
  let k := selected epoch (ComputeLoss1.warmup_epoch s) in
  let ps := snd (fst outputs) in
  step_continues
    (ComputeLoss1.prepare s outputs targets) k
    (fun l => assignment_on ComputeLoss1.warmup_assigner ComputeLoss1.formal_assigner
                k s (detach ps) (detached l))
    (fun l => assignment_on ComputeLoss1.warmup_assigner ComputeLoss1.formal_assigner
                k s (to_host (detach ps)) (on_host (detached l)))
    (fun l a => ComputeLoss1.losses s ac ps (snd outputs) step l a)
    (ComputeLoss1.__call__ s ac outputs targets epoch step).
Proof.
  intros k ps tr0 l e Hprep Hprim Hrt.
  assert (Htr0 : invoked tr0 = []).
  { pose proof (@ComputeLoss1_prepare_emits T N K E no_assign s outputs targets) as Hp.
    unfold emits in Hp. rewrite Hprep in Hp. now apply no_assign_invoked. }
  destruct (ComputeLoss1_retry_protocol s epoch ps l) as (args & args' & _ & Heq).
  fold k in Heq. cbv zeta in Heq. rewrite Hprim, Hrt in Heq.
  unfold ComputeLoss1.__call__. fold ps. rewrite Hprep.
  unfold bind. rewrite Heq.
  match goal with
  | |- context [assignment_on ?w ?f k s (to_host (detach ps)) (on_host (detached l))] =>
      destruct (assignment_on w f k s (to_host (detach ps)) (on_host (detached l)))
        as [e' | a]
  end.
  - cbn. rewrite invoked_app, Htr0. repeat split; auto.
    apply in_or_app. right. cbn. auto.
  - pose proof (@ComputeLoss1_losses_emits T N K E no_assign s ac ps (snd outputs)
                  step l (to_cuda a) I) as Hl.
    apply emits_no_assign_invoked in Hl.
    destruct (ComputeLoss1.losses s ac ps (snd outputs) step l (to_cuda a))
      as [tr2 r2] eqn:Hlo.
    cbn [trace_of fst] in Hl. cbn -[invoked In].
    rewrite invoked_app, Htr0. cbn. fold (invoked tr2). rewrite Hl.
    repeat split; auto. apply in_or_app. right. cbn. auto.
Qed.

Lemma ComputeLoss_step_aborts (s : @ComputeLoss.self T) ac outputs targets
    epoch step lam gd :
  let k := selected epoch (ComputeLoss.warmup_epoch s) in
  let ps := snd (fst outputs) in
  step_aborts
    (ComputeLoss.prepare s outputs targets) k
    (fun l => assignment_on ComputeLoss.warmup_assigner ComputeLoss.formal_assigner
                k s (detach ps) (detached l))
    (ComputeLoss.__call__ s ac outputs targets epoch step lam gd).
Proof.
  intros k ps tr0 l e Hprep Hprim Hrt.
  assert (Htr0 : invoked tr0 = []).
  { pose proof (@ComputeLoss_prepare_emits T N K E no_assign s outputs targets) as Hp.
    unfold emits in Hp. rewrite Hprep in Hp. now apply no_assign_invoked. }
  destruct (ComputeLoss_retry_protocol s epoch ps l) as (args & args' & _ & Heq).
  fold k in Heq. cbv zeta in Heq. rewrite Hprim, Hrt in Heq.
  unfold ComputeLoss.__call__. fold ps. rewrite Hprep.
  unfold bind. rewrite Heq. cbn -[invoked].
  rewrite invoked_app, Htr0. split; reflexivity.
Qed.

Lemma ComputeLoss1_step_aborts (s : @ComputeLoss1.self T) ac outputs targets
    epoch step :
  let k := selected epoch (ComputeLoss1.warmup_epoch s) in
  let ps := snd (fst outputs) in
  step_aborts
    (ComputeLoss1.prepare s outputs targets) k
    (fun l => assignment_on ComputeLoss1.warmup_assigner ComputeLoss1.formal_assigner
                k s (detach ps) (detached l))
    (ComputeLoss1.__call__ s ac outputs targets epoch step).
Proof.
  intros k ps tr0 l e Hprep Hprim Hrt.
  assert (Htr0 : invoked tr0 = []).
  { pose proof (@ComputeLoss1_prepare_emits T N K E no_assign s outputs targets) as Hp.
    unfold emits in Hp. rewrite Hprep in Hp. now apply no_assign_invoked. }
  destruct (ComputeLoss1_retry_protocol s epoch ps l) as (args & args' & _ & Heq).
  fold k in Heq. cbv zeta in Heq. rewrite Hprim, Hrt in Heq.
  unfold ComputeLoss1.__call__. fold ps. rewrite Hprep.
  unfold bind. rewrite Heq. cbn -[invoked].
  rewrite invoked_app, Htr0. split; reflexivity.
Qed.
End Step.

Lemma is_RuntimeError_spec (e : exn) :
  is_RuntimeError e = true <->
  e = OutOfMemoryError \/ exists msg, e = RuntimeError msg.
Proof.
  split.
  - destruct e; simpl; intros He; try discriminate; eauto.
  - intros [-> | [msg ->]]; reflexivity.
Qed.

(** C2 (as amended).  In both composers the try/except block follows
    [retry_protocol]: the assigner selected by the epoch is called on the
    inputs as they are; if it raises an exception of class RuntimeError (an
    out-of-memory failure is one of them, and so is every other
    RuntimeError), the composer prints its notice, empties the accelerator
    cache, calls the same assigner once more on the same inputs moved to the
    CPU in float32, and moves the four results to the CUDA device; the step
    then goes on with them, so the error does not reach the caller.  An
    error of the second call ends the step (there is no third call), and so
    does an error of the first call that is not a RuntimeError. *)
Theorem C2_host_retry :
  forall (T : Type) (N : Num T) (K : Kernels T) (E : Externals T),
    (retry_protocol (@ComputeLoss.warmup_epoch T) ComputeLoss.warmup_assigner
                    ComputeLoss.formal_assigner ComputeLoss.assign
     /\ retry_protocol (@ComputeLoss1.warmup_epoch T) ComputeLoss1.warmup_assigner
                       ComputeLoss1.formal_assigner ComputeLoss1.assign)
    /\ (forall (s : @ComputeLoss.self T) ac outputs targets epoch step lam gd,
          let k := selected epoch (ComputeLoss.warmup_epoch s) in
          let ps := snd (fst outputs) in
          let primary l :=
            assignment_on ComputeLoss.warmup_assigner ComputeLoss.formal_assigner
                          k s (detach ps) (detached l) in
          let retry l :=
            assignment_on ComputeLoss.warmup_assigner ComputeLoss.formal_assigner
                          k s (to_host (detach ps)) (on_host (detached l)) in
          let call := ComputeLoss.__call__ s ac outputs targets epoch step lam gd in
          step_continues (ComputeLoss.prepare s outputs targets) k primary retry
            (fun l a => ComputeLoss.losses s ac ps (snd outputs) step lam gd l a) call
          /\ step_aborts (ComputeLoss.prepare s outputs targets) k primary call)
    /\ (forall (s : @ComputeLoss1.self T) ac outputs targets epoch step,
          let k := selected epoch (ComputeLoss1.warmup_epoch s) in
          let ps := snd (fst outputs) in
          let primary l :=
            assignment_on ComputeLoss1.warmup_assigner ComputeLoss1.formal_assigner
                          k s (detach ps) (detached l) in
          let retry l :=
            assignment_on ComputeLoss1.warmup_assigner ComputeLoss1.formal_assigner
                          k s (to_host (detach ps)) (on_host (detached l)) in
          let call := ComputeLoss1.__call__ s ac outputs targets epoch step in
          step_continues (ComputeLoss1.prepare s outputs targets) k primary retry
            (fun l a => ComputeLoss1.losses s ac ps (snd outputs) step l a) call
          /\ step_aborts (ComputeLoss1.prepare s outputs targets) k primary call)
    /\ (forall e, is_RuntimeError e = true <->
                  e = OutOfMemoryError \/ exists msg, e = RuntimeError msg)
    /\ (forall A (t : tensor A),
          dev (to_host t) = CPU /\ dty (to_host t) = Float32
          /\ data (to_host t) = data t)
    /\ (forall a : assignment T,
          dev (target_labels (to_cuda a)) = CUDA
          /\ dev (target_bboxes (to_cuda a)) = CUDA
          /\ dev (target_scores (to_cuda a)) = CUDA
          /\ dev (fg_mask (to_cuda a)) = CUDA
          /\ data (target_labels (to_cuda a)) = data (target_labels a)
          /\ data (target_bboxes (to_cuda a)) = data (target_bboxes a)
          /\ data (target_scores (to_cuda a)) = data (target_scores a)
          /\ data (fg_mask (to_cuda a)) = data (fg_mask a)).
Proof.
  intros T N K E. split; [split |].
  - apply ComputeLoss_retry_protocol.
  - apply ComputeLoss1_retry_protocol.
  - split; [| split; [| split; [| split]]].
    + intros s ac outputs targets epoch step lam gd k ps primary retry call. split.
      * apply ComputeLoss_step_continues.
      * apply ComputeLoss_step_aborts.
    + intros s ac outputs targets epoch step k ps primary retry call. split.
      * apply ComputeLoss1_step_continues.
      * apply ComputeLoss1_step_aborts.
    + apply is_RuntimeError_spec.
    + intros A t. repeat split.
    + intros a. repeat split.
Qed.

(** An out-of-memory failure of the warmup assigner on the accelerator:
    the step is retried on the CPU and returns. *)
Lemma C2_host_retry_witness :
  let call :=
    @ComputeLoss.__call__ Q Q_Num Fixture.kernels
      (Fixture.externals (Some OutOfMemoryError) 1)
      Fixture.config true Fixture.outputs Fixture.targets 3 1 0 None in
  invoked (trace_of call) = [Warmup; Warmup]
  /\ In (EvPrint cpu_mode_message) (trace_of call)
  /\ exists r, result_of call = inr r.
Proof.
  intros call.
  destruct (@C2_host_retry Q Q_Num Fixture.kernels
              (Fixture.externals (Some OutOfMemoryError) 1))
    as (_ & Hstep & _).
  destruct (Hstep Fixture.config true Fixture.outputs Fixture.targets 3%Z 1%Z 0 None)
    as [Hcont _].
  let p := eval vm_compute in
    (@ComputeLoss.prepare Q Q_Num Fixture.kernels
       (Fixture.externals (Some OutOfMemoryError) 1)
       Fixture.config Fixture.outputs Fixture.targets) in
  match p with
  | (?tr0, inr ?l) =>
      destruct (Hcont tr0 l OutOfMemoryError) as (H1 & H2 & H3);
        [vm_compute; reflexivity | vm_compute; reflexivity | reflexivity |]
  end.
  split; [exact H1 | split; [exact H2 |]].
  fold call in H3. rewrite H3. vm_compute. eexists. reflexivity.
Defined.

(** The claim as stated fails: an error of the first attempt that is a
    RuntimeError but no out-of-memory failure is caught and retried all the
    same, and the step returns. *)
Lemma C2_counterexample_other_RuntimeError :
  let e := RuntimeError "CUDA error: an illegal memory access was encountered" in
  let E := Fixture.externals (Some e) 1 in
  let call :=
    @ComputeLoss.__call__ Q Q_Num Fixture.kernels E
      Fixture.config true Fixture.outputs Fixture.targets 3 1 0 None in
  e <> OutOfMemoryError
  /\ (exists l,
        result_of (@ComputeLoss.prepare Q Q_Num Fixture.kernels E Fixture.config
                     Fixture.outputs Fixture.targets) = inr l
        /\ assignment_on (@ComputeLoss.warmup_assigner Q E)
                         (@ComputeLoss.formal_assigner Q Q_Num E)
                         Warmup Fixture.config
                         (detach (snd (fst Fixture.outputs))) (detached l) = inl e)
  /\ trace_of call
     = [EvAssign Warmup [(CUDA, Float32); (CUDA, Float64); (CUDA, Float64);
                         (CUDA, Float32); (CUDA, Float32)];
        EvPrint oom_message; EvEmptyCache; EvPrint cpu_mode_message;
        EvAssign Warmup [(CPU, Float32); (CPU, Float32); (CPU, Float32);
                         (CPU, Float32); (CPU, Float32)]]
  /\ exists r, result_of call = inr r.
Proof.
  intros e E call. split; [discriminate |]. split; [| split].
  - eexists. split; vm_compute; reflexivity.
  - vm_compute. reflexivity.
  - vm_compute. eexists. reflexivity.
Qed.

(** ** C3: normalisation of the classification loss *)

Lemma Qgtb_lt (x y : Q) : Qgtb x y = true <-> (y < x)%Q.
Proof.
  unfold Qgtb. rewrite negb_true_iff. split.
  - intros Hb. apply Qnot_le_lt. intros Hle.
    apply Qle_bool_iff in Hle. congruence.
  - intros Hlt. destruct (Qle_bool x y) eqn:Hb; [| reflexivity].
    apply Qle_bool_iff in Hb. exfalso. apply (Qlt_not_le _ _ Hlt Hb).
Qed.

Lemma data_if {A} (c : bool) (t u : tensor A) :
  data (if c then t else u) = if c then data t else data u.
Proof. now destruct c. Qed.

Tactic Notation "bind_inv" hyp(H) "as" ident(x) ident(Hx) :=
  apply bind_returns in H; destruct H as (x & Hx & H).

Section ClassLoss.
Context {T : Type} {N : Num T} {K : Kernels T} {E : Externals T}.

Lemma ComputeLoss_class_component (s : @ComputeLoss.self T) ac ps pd step lam gd l a
    oh raw loss comps :
  result_of (ComputeLoss.one_hot_target s (fg_mask a) (target_labels a)) = inr oh ->
  result_of (VarifocalLoss.forward ac ps (target_scores a) oh
               VarifocalLoss.default_alpha VarifocalLoss.default_gamma) = inr raw ->
  result_of (ComputeLoss.losses s ac ps pd step lam gd l a) = inr (loss, comps) ->
  let tss := tsum3 (data (target_scores a)) in
  nth_error (data comps) 2
  = Some (mul (w_class (ComputeLoss.loss_weight s))
              (if gtb tss (of_Z 1) then div (data raw) tss else data raw)).
Proof.
  intros Hoh Hraw H tss. unfold ComputeLoss.losses in H.
  bind_inv H as u Hu. bind_inv H as oh' Hoh'. bind_inv H as raw' Hraw'.
  bind_inv H as bb Hbb.
  rewrite Hoh in Hoh'. injection Hoh' as <-.
  rewrite Hraw in Hraw'. injection Hraw' as <-.
  destruct bb as [li ld].
  destruct gd as [gd |].
  - bind_inv H as g Hg. cbn in H. injection H as _ <-. cbn. rewrite data_if. reflexivity.
  - cbn in H. injection H as _ <-. cbn. rewrite data_if. reflexivity.
Qed.

Lemma ComputeLoss1_class_component (s : @ComputeLoss1.self T) ac ps pd step l a
    oh raw loss comps :
  result_of (ComputeLoss1.one_hot_target s (fg_mask a) (target_labels a)) = inr oh ->
  result_of (VarifocalLoss.forward ac ps (target_scores a) oh
               VarifocalLoss.default_alpha VarifocalLoss.default_gamma) = inr raw ->
  result_of (ComputeLoss1.losses s ac ps pd step l a) = inr (loss, comps) ->
  let tss := tsum3 (data (target_scores a)) in
  nth_error (data comps) 2
  = Some (mul (w_class (ComputeLoss1.loss_weight s))
              (if gtb tss (of_Z 0) then div (data raw) tss else data raw)).
Proof.
  intros Hoh Hraw H tss. unfold ComputeLoss1.losses in H.
  bind_inv H as u Hu. bind_inv H as oh' Hoh'. bind_inv H as raw' Hraw'.
  bind_inv H as bb Hbb.
  rewrite Hoh in Hoh'. injection Hoh' as <-.
  rewrite Hraw in Hraw'. injection Hraw' as <-.
  destruct bb as [li ld].
  cbn in H. injection H as _ <-. cbn. rewrite data_if. reflexivity.
Qed.
End ClassLoss.

(** C3 (as amended).  The classification component returned by a composer
    is the class weight times the Varifocal loss, divided by
    [target_scores_sum] exactly when that sum is greater than 1 in
    [ComputeLoss] and greater than 0 in [ComputeLoss1], and left as it is
    otherwise.  A divisor is therefore always above the threshold: over the
    rationals it is positive, and in IEEE arithmetic it is neither a zero
    nor a NaN.  In [ComputeLoss] every divisor is greater than 1; in
    [ComputeLoss1] any positive sum is a divisor, however near to zero. *)
Theorem C3_class_loss_normalization :
  (forall (T : Type) (N : Num T) (K : Kernels T) (E : Externals T)
          (s : @ComputeLoss.self T) ac ps pd step lam gd l a oh raw loss comps,
      result_of (ComputeLoss.one_hot_target s (fg_mask a) (target_labels a)) = inr oh ->
      result_of (VarifocalLoss.forward ac ps (target_scores a) oh
                   VarifocalLoss.default_alpha VarifocalLoss.default_gamma) = inr raw ->
      result_of (ComputeLoss.losses s ac ps pd step lam gd l a) = inr (loss, comps) ->
      let tss := tsum3 (data (target_scores a)) in
      nth_error (data comps) 2
      = Some (mul (w_class (ComputeLoss.loss_weight s))
                  (if gtb tss (of_Z 1) then div (data raw) tss else data raw)))
  /\ (forall (T : Type) (N : Num T) (K : Kernels T) (E : Externals T)
             (s : @ComputeLoss1.self T) ac ps pd step l a oh raw loss comps,
      result_of (ComputeLoss1.one_hot_target s (fg_mask a) (target_labels a)) = inr oh ->
      result_of (VarifocalLoss.forward ac ps (target_scores a) oh
                   VarifocalLoss.default_alpha VarifocalLoss.default_gamma) = inr raw ->
      result_of (ComputeLoss1.losses s ac ps pd step l a) = inr (loss, comps) ->
      let tss := tsum3 (data (target_scores a)) in
      nth_error (data comps) 2
      = Some (mul (w_class (ComputeLoss1.loss_weight s))
                  (if gtb tss (of_Z 0) then div (data raw) tss else data raw)))
  /\ (forall x y : Q, @gtb Q Q_Num x y = true <-> (y < x)%Q)
  /\ (forall x : spec_float,
        @gtb _ F32_Num x (@of_Z _ F32_Num 0) = true ->
        F32.is_zero x = false /\ F32.is_nan x = false)
  /\ (forall x : spec_float,
        @gtb _ F32_Num x (@of_Z _ F32_Num 1) = true ->
        F32.is_zero x = false /\ F32.is_nan x = false).
Proof.
  split; [| split; [| split; [| split]]].
  - intros. eapply ComputeLoss_class_component; eauto.
  - intros. eapply ComputeLoss1_class_component; eauto.
  - intros x y. apply Qgtb_lt.
  - intros x. destruct x as [sx | sx | | sx m e]; try destruct sx;
      vm_compute; intros Hx; try discriminate; split; reflexivity.
  - intros x. destruct x as [sx | sx | | sx m e]; try destruct sx;
      cbn; intros Hx; try discriminate; split; reflexivity.
Qed.

Example fixture_prepare :
  @ComputeLoss.prepare Q Q_Num Fixture.kernels (Fixture.externals None (1 # 2))
    Fixture.config Fixture.outputs Fixture.targets = ([], inr Fixture.locals)
  /\ @ComputeLoss1.prepare Q Q_Num Fixture.kernels (Fixture.externals None (1 # 2))
       Fixture.config1 Fixture.outputs Fixture.targets = ([], inr Fixture.locals).
Proof. split; vm_compute; reflexivity. Qed.

(** One positive anchor with soft score 1/2: the sum of target scores is
    1/2, so the primary composer leaves the class loss as it is and the
    alternate composer divides it by 1/2. *)
Lemma C3_class_loss_normalization_witness :
  let E := Fixture.externals None (1 # 2) in
  let a := Fixture.result (1 # 2) CUDA in
  (exists loss comps c,
      result_of (@ComputeLoss.losses Q Q_Num Fixture.kernels E Fixture.config true
                   (snd (fst Fixture.outputs)) (snd Fixture.outputs) 1 0 None
                   Fixture.locals a)
      = inr (loss, comps)
      /\ nth_error (data comps) 2 = Some c /\ (c == 3 # 1024)%Q)
  /\ (exists loss comps c,
      result_of (@ComputeLoss1.losses Q Q_Num Fixture.kernels E Fixture.config1 true
                   (snd (fst Fixture.outputs)) (snd Fixture.outputs) 1
                   Fixture.locals a)
      = inr (loss, comps)
      /\ nth_error (data comps) 2 = Some c /\ (c == 3 # 512)%Q).
Proof.
  intros E a.
  destruct C3_class_loss_normalization as (H & H1 & _).
  split.
  - do 3 eexists. split; [vm_compute; reflexivity |]. split.
    + eapply (H Q Q_Num Fixture.kernels E Fixture.config true
                (snd (fst Fixture.outputs)) (snd Fixture.outputs) 1%Z 0 None
                Fixture.locals a);
        vm_compute; reflexivity.
    + vm_compute. reflexivity.
  - do 3 eexists. split; [vm_compute; reflexivity |]. split.
    + eapply (H1 Q Q_Num Fixture.kernels E Fixture.config1 true
                (snd (fst Fixture.outputs)) (snd Fixture.outputs) 1%Z
                Fixture.locals a);
        vm_compute; reflexivity.
    + vm_compute. reflexivity.
Defined.

(** The claim as stated fails for [ComputeLoss1]: a sum of target scores
    that is positive but as near to zero as binary32 allows, 2^-149, is
    above its threshold 0 and is a divisor.  The Varifocal loss is finite,
    its quotient by the sum overflows, and the class component and the
    total loss of [ComputeLoss1] are +Inf.  [ComputeLoss], whose threshold
    is 1, leaves the loss undivided, and its class component and total loss
    are finite. *)
Lemma C3_counterexample_near_zero_sum :
  let a := FixtureF32.faint CUDA in
  let ps := snd (fst (FixtureF32.outputs (FixtureF32.f 1))) in
  let pd := FixtureF32.pred_distri (FixtureF32.f 1) in
  let tss := @tsum3 _ F32_Num (data (target_scores a)) in
  let oh := Tensor CUDA Float32 false [[[0%Z; 1%Z]]] in
  tss = S754_finite false 1 (-149)
  /\ @gtb _ F32_Num tss (@of_Z _ F32_Num 0) = true
  /\ @gtb _ F32_Num tss (@of_Z _ F32_Num 1) = false
  /\ result_of (ComputeLoss1.one_hot_target FixtureF32.config1 (fg_mask a)
                  (target_labels a)) = inr oh
  /\ (exists raw loss comps,
        result_of (@VarifocalLoss.forward _ F32_Num FixtureF32.kernels true ps
                     (target_scores a) oh
                     (@VarifocalLoss.default_alpha _ F32_Num)
                     (@VarifocalLoss.default_gamma _ F32_Num)) = inr raw
        /\ F32.is_finite (data raw) = true
        /\ result_of (@ComputeLoss1.losses _ F32_Num FixtureF32.kernels
                        FixtureF32.externals FixtureF32.config1 true ps pd 1
                        FixtureF32.locals a) = inr (loss, comps)
        /\ nth_error (data comps) 2
           = Some (@mul _ F32_Num (w_class (ComputeLoss1.loss_weight FixtureF32.config1))
                     (@div _ F32_Num (data raw) tss))
        /\ nth_error (data comps) 2 = Some F32.infinity
        /\ data loss = F32.infinity)
  /\ (exists loss comps c,
        result_of (@ComputeLoss.losses _ F32_Num FixtureF32.kernels
                     FixtureF32.externals FixtureF32.config true ps pd 1
                     (FixtureF32.f 0) None FixtureF32.locals a) = inr (loss, comps)
        /\ nth_error (data comps) 2 = Some c
        /\ F32.is_finite c = true
        /\ F32.is_finite (data loss) = true).
Proof.
  intros a ps pd tss oh.
  split; [vm_compute; reflexivity |]. split; [vm_compute; reflexivity |].
  split; [vm_compute; reflexivity |]. split; [vm_compute; reflexivity |]. split.
  - do 3 eexists. split; [vm_compute; reflexivity |]. split; [reflexivity |].
    split; [vm_compute; reflexivity |]. split; [vm_compute; reflexivity |].
    split; reflexivity.
  - do 3 eexists. split; [vm_compute; reflexivity |].
    split; [reflexivity |]. split; reflexivity.
Qed.

(** ** The parts of the returned losses *)

Section LossesParts.
Context {T : Type} {N : Num T} {K : Kernels T} {E : Externals T}.

Lemma ComputeLoss_losses_parts (s : @ComputeLoss.self T) ac ps pd step lam gd l a
    loss comps :
  result_of (ComputeLoss.losses s ac ps pd step lam gd l a) = inr (loss, comps) ->
  exists oh raw li ld,
    result_of (ComputeLoss.one_hot_target s (fg_mask a) (target_labels a)) = inr oh
    /\ result_of (VarifocalLoss.forward ac ps (target_scores a) oh
                    VarifocalLoss.default_alpha VarifocalLoss.default_gamma) = inr raw
    /\ result_of (BboxLoss.forward (ComputeLoss.bbox_loss s) pd (l_pred_bboxes l)
                    (l_anchor_points_s l)
                    (tmap2 (batch_rows_op div) (target_bboxes a) (l_stride_tensor l))
                    (target_scores a) (tmap tsum3 (target_scores a)) (fg_mask a))
       = inr (li, ld)
    /\ grad comps = false
    /\ let tss := tsum3 (data (target_scores a)) in
       let ci := mul (w_iou (ComputeLoss.loss_weight s)) (data li) in
       let cd := mul (w_dfl (ComputeLoss.loss_weight s)) (data ld) in
       let cc := mul (w_class (ComputeLoss.loss_weight s))
                     (if gtb tss (of_Z 1) then div (data raw) tss else data raw) in
       match gd with
       | None => data comps = [ci; cd; cc] /\ data loss = add (add cc ci) cd
       | Some gd =>
           exists g,
             result_of (cat_dim1 gd) = inr g
             /\ let gating_loss := mul (tmean (map tmean (data g))) lam in
                data comps = [ci; cd; cc; gating_loss]
                /\ data loss = add (add (add cc ci) cd) gating_loss
       end.
Proof.
  intros Hr. unfold ComputeLoss.losses in Hr.
  bind_inv Hr as u Hu. bind_inv Hr as oh Hoh. bind_inv Hr as raw Hraw.
  bind_inv Hr as bb Hbb. destruct bb as [li ld].
  exists oh, raw, li, ld. split; [exact Hoh |]. split; [exact Hraw |].
  split; [exact Hbb |].
  destruct gd as [gd |].
  - bind_inv Hr as g Hg. cbn in Hr. injection Hr as <- <-.
    split; [reflexivity |]. cbv zeta. exists g. split; [exact Hg |].
    cbn. rewrite !data_if. split; reflexivity.
  - cbn in Hr. injection Hr as <- <-.
    split; [reflexivity |]. cbn. rewrite !data_if. split; reflexivity.
Qed.

Lemma ComputeLoss1_losses_parts (s : @ComputeLoss1.self T) ac ps pd step l a
    loss comps :
  result_of (ComputeLoss1.losses s ac ps pd step l a) = inr (loss, comps) ->
  exists oh raw li ld,
    result_of (ComputeLoss1.one_hot_target s (fg_mask a) (target_labels a)) = inr oh
    /\ result_of (VarifocalLoss.forward ac ps (target_scores a) oh
                    VarifocalLoss.default_alpha VarifocalLoss.default_gamma) = inr raw
    /\ result_of (BboxLoss.forward (ComputeLoss1.bbox_loss s) pd (l_pred_bboxes l)
                    (l_anchor_points_s l)
                    (tmap2 (batch_rows_op div) (target_bboxes a) (l_stride_tensor l))
                    (target_scores a) (tmap tsum3 (target_scores a)) (fg_mask a))
       = inr (li, ld)
    /\ grad comps = false
    /\ let tss := tsum3 (data (target_scores a)) in
       let ci := mul (w_iou (ComputeLoss1.loss_weight s)) (data li) in
       let cd := mul (w_dfl (ComputeLoss1.loss_weight s)) (data ld) in
       let cc := mul (w_class (ComputeLoss1.loss_weight s))
                     (if gtb tss (of_Z 0) then div (data raw) tss else data raw) in
       data comps = [ci; cd; cc] /\ data loss = add (add cc ci) cd.
Proof.
  intros Hr. unfold ComputeLoss1.losses in Hr.
  bind_inv Hr as u Hu. bind_inv Hr as oh Hoh. bind_inv Hr as raw Hraw.
  bind_inv Hr as bb Hbb. destruct bb as [li ld].
  exists oh, raw, li, ld. split; [exact Hoh |]. split; [exact Hraw |].
  split; [exact Hbb |].
  cbn in Hr. injection Hr as <- <-.
  split; [reflexivity |]. cbn. rewrite !data_if. split; reflexivity.
Qed.
End LossesParts.

(** ** C4: a batch without positive anchors *)

Section NoPositive.
Context {T : Type} {N : Num T} {K : Kernels T} {E : Externals T}.

(** Without a positive anchor both box losses are [pred_dist.sum() * 0.],
    whatever the sum of target scores is. *)
Lemma BboxLoss_forward_no_positive (s : BboxLoss.self) pd pb ap tb ts tss fg :
  count_pos (data fg) = 0%nat ->
  BboxLoss.forward s pd pb ap tb ts tss fg
  = ret (tmap (fun d => mul (tsum3 d) (of_Z 0)) pd,
         tmap (fun d => mul (tsum3 d) (of_Z 0)) pd).
Proof.
  intros Hn. unfold BboxLoss.forward. rewrite Hn. reflexivity.
Qed.

Lemma ComputeLoss_losses_no_positive (s : @ComputeLoss.self T) ac ps pd step lam gd l a
    loss comps :
  count_pos (data (fg_mask a)) = 0%nat ->
  result_of (ComputeLoss.losses s ac ps pd step lam gd l a) = inr (loss, comps) ->
  let z := mul (tsum3 (data pd)) (of_Z 0) in
  exists cc rest,
    data comps = mul (w_iou (ComputeLoss.loss_weight s)) z
                 :: mul (w_dfl (ComputeLoss.loss_weight s)) z :: cc :: rest
    /\ (gd = None ->
        rest = [] /\
        data loss = add (add cc (mul (w_iou (ComputeLoss.loss_weight s)) z))
                        (mul (w_dfl (ComputeLoss.loss_weight s)) z)).
Proof.
  intros Hn H z. unfold ComputeLoss.losses in H.
  bind_inv H as u Hu. bind_inv H as oh Hoh. bind_inv H as raw Hraw.
  bind_inv H as bb Hbb. cbn [ComputeLoss.bbox_loss] in Hbb.
  rewrite BboxLoss_forward_no_positive in Hbb by exact Hn.
  cbn in Hbb. injection Hbb as <-.
  destruct gd as [gd |].
  - bind_inv H as g Hg. cbn in H. injection H as <- <-. cbn.
    do 2 eexists. split; [reflexivity | discriminate].
  - cbn in H. injection H as <- <-. cbn.
    do 2 eexists. split; [reflexivity |]. intros _. split; reflexivity.
Qed.

Lemma ComputeLoss1_losses_no_positive (s : @ComputeLoss1.self T) ac ps pd step l a
    loss comps :
  count_pos (data (fg_mask a)) = 0%nat ->
  result_of (ComputeLoss1.losses s ac ps pd step l a) = inr (loss, comps) ->
  let z := mul (tsum3 (data pd)) (of_Z 0) in
  exists cc,
    data comps = [mul (w_iou (ComputeLoss1.loss_weight s)) z;
                  mul (w_dfl (ComputeLoss1.loss_weight s)) z; cc]
    /\ data loss = add (add cc (mul (w_iou (ComputeLoss1.loss_weight s)) z))
                       (mul (w_dfl (ComputeLoss1.loss_weight s)) z).
Proof.
  intros Hn H z. unfold ComputeLoss1.losses in H.
  bind_inv H as u Hu. bind_inv H as oh Hoh. bind_inv H as raw Hraw.
  bind_inv H as bb Hbb. cbn [ComputeLoss1.bbox_loss] in Hbb.
  rewrite BboxLoss_forward_no_positive in Hbb by exact Hn.
  cbn in Hbb. injection Hbb as <-.
  cbn in H. injection H as <- <-. cbn.
  eexists. split; reflexivity.
Qed.
End NoPositive.

(** IEEE arithmetic on zeros. *)
Lemma F32_mul_zero (x z : spec_float) :
  F32.is_zero z = true ->
  F32.is_zero (@mul _ F32_Num x z) = F32.is_finite x
  /\ F32.is_nan (@mul _ F32_Num x z) = negb (F32.is_finite x).
Proof.
  destruct z as [sz | sz | | sz mz ez]; try discriminate. intros _.
  destruct x as [sx | sx | | sx mx ex]; split; reflexivity.
Qed.

Lemma F32_of_Z_0 : F32.is_zero (@of_Z _ F32_Num 0) = true.
Proof. reflexivity. Qed.

Lemma F32_add_zero (x z : spec_float) :
  F32.is_zero z = true ->
  F32.is_finite (@add _ F32_Num x z) = F32.is_finite x.
Proof.
  destruct z as [sz | sz | | sz mz ez]; try discriminate. intros _.
  destruct x as [sx | sx | | sx mx ex]; try reflexivity.
  destruct sx, sz; reflexivity.
Qed.

Lemma F32_add_zero_value (x z : spec_float) :
  F32.is_zero z = true ->
  @add _ F32_Num x z = x
  \/ (F32.is_zero (@add _ F32_Num x z) = true /\ F32.is_zero x = true).
Proof.
  destruct z as [sz | sz | | sz mz ez]; try discriminate. intros _.
  destruct x as [sx | sx | | sx mx ex]; try (left; reflexivity).
  right. destruct sx, sz; split; reflexivity.
Qed.

Lemma F32_sum_of_zeros (l : list spec_float) (acc : spec_float) :
  Forall (fun x => F32.is_zero x = true) l -> F32.is_zero acc = true ->
  F32.is_zero (fold_left (@add _ F32_Num) l acc) = true.
Proof.
  intros Hl. revert acc. induction Hl as [| x l Hx _ IH]; intros acc Hacc; [exact Hacc |].
  cbn [fold_left]. apply IH.
  destruct acc as [sa | sa | | sa ma ea]; try discriminate.
  destruct x as [sx | sx | | sx mx ex]; try discriminate.
  destruct sa, sx; reflexivity.
Qed.

Lemma F32_tsum3_of_zeros (c : cube spec_float) :
  Forall (Forall (Forall (fun x => F32.is_zero x = true))) c ->
  F32.is_zero (@tsum3 _ F32_Num c) = true.
Proof.
  intros Hc. unfold tsum3, tsum. apply F32_sum_of_zeros; [| reflexivity].
  apply Forall_concat. apply Forall_concat. exact Hc.
Qed.

Lemma F32_zero_not_above (x : spec_float) :
  F32.is_zero x = true ->
  @gtb _ F32_Num x (@of_Z _ F32_Num 1) = false
  /\ @gtb _ F32_Num x (@of_Z _ F32_Num 0) = false.
Proof.
  destruct x as [sx | sx | | sx mx ex]; try discriminate. intros _.
  destruct sx; split; reflexivity.
Qed.

(** The sum of a value and two zeros. *)
Lemma F32_add_two_zeros (x z1 z2 : spec_float) :
  F32.is_zero z1 = true -> F32.is_zero z2 = true ->
  let y := @add _ F32_Num (@add _ F32_Num x z1) z2 in
  (y = x \/ (F32.is_zero y = true /\ F32.is_zero x = true))
  /\ F32.is_finite y = F32.is_finite x.
Proof.
  intros H1 H2 y. split.
  - subst y.
    destruct (F32_add_zero_value x z1 H1) as [-> | [Hy Hx]].
    + apply F32_add_zero_value. exact H2.
    + right. split; [| exact Hx].
      destruct (F32_add_zero_value (@add _ F32_Num x z1) z2 H2) as [-> | [Hy' _]];
        assumption.
  - subst y. now rewrite (F32_add_zero _ _ H2), (F32_add_zero _ _ H1).
Qed.

(** C4 (as amended).  For a batch without positive anchors
    [BboxLoss.forward] returns, for the iou and for the dfl loss, the tensor
    [pred_dist.sum() * 0.]: it is attached to the autograd graph exactly when
    [pred_dist] is, and no division is made for it, whatever the sum of
    target scores.  Its value is a zero when [pred_dist.sum()] is finite and
    NaN when the sum is infinite or NaN.  With a finite sum and finite iou
    and dfl weights, the iou and dfl components of both composers are
    zeros, the third component is the class weight times the Varifocal loss
    (divided by [target_scores_sum] only above the composer's threshold),
    and the total loss (without a gating term) has the value of that class
    component: it is finite when the class component is, and only then.
    When all target scores are zero - as they are for a batch without
    positives - the Varifocal loss is not divided at all, and the total
    loss is finite whenever the class weight times the Varifocal loss
    is. *)
Theorem C4_no_positive_anchors :
  (forall (T : Type) (N : Num T) (K : Kernels T) (E : Externals T)
          (s : BboxLoss.self) pd pb ap tb ts tss fg,
      count_pos (data fg) = 0%nat ->
      let z := tmap (fun d => mul (tsum3 d) (of_Z 0)) pd in
      BboxLoss.forward s pd pb ap tb ts tss fg = ([], inr (z, z))
      /\ grad z = grad pd)
  /\ (forall x : spec_float,
        F32.is_zero (@mul _ F32_Num x (@of_Z _ F32_Num 0)) = F32.is_finite x
        /\ F32.is_nan (@mul _ F32_Num x (@of_Z _ F32_Num 0)) = negb (F32.is_finite x))
  /\ (forall x : Q, (@mul _ Q_Num x (@of_Z _ Q_Num 0) == 0)%Q)
  /\ (forall (K : Kernels spec_float) (E : Externals spec_float)
             (s : @ComputeLoss.self spec_float) ac ps pd step lam gd l a loss comps,
        count_pos (data (fg_mask a)) = 0%nat ->
        result_of (@ComputeLoss.losses _ F32_Num K E s ac ps pd step lam gd l a)
        = inr (loss, comps) ->
        F32.is_finite (@tsum3 _ F32_Num (data pd)) = true ->
        F32.is_finite (w_iou (ComputeLoss.loss_weight s)) = true ->
        F32.is_finite (w_dfl (ComputeLoss.loss_weight s)) = true ->
        exists oh raw ci cd rest,
          result_of (ComputeLoss.one_hot_target s (fg_mask a) (target_labels a))
          = inr oh
          /\ result_of (@VarifocalLoss.forward _ F32_Num K ac ps (target_scores a) oh
                          (@VarifocalLoss.default_alpha _ F32_Num)
                          (@VarifocalLoss.default_gamma _ F32_Num))
             = inr raw
          /\ let tss := @tsum3 _ F32_Num (data (target_scores a)) in
             let w := w_class (ComputeLoss.loss_weight s) in
             let cc := @mul _ F32_Num w
                         (if @gtb _ F32_Num tss (@of_Z _ F32_Num 1)
                          then @div _ F32_Num (data raw) tss else data raw) in
             data comps = ci :: cd :: cc :: rest
             /\ F32.is_zero ci = true /\ F32.is_zero cd = true
             /\ (Forall (Forall (Forall (fun x => F32.is_zero x = true)))
                        (data (target_scores a)) ->
                 cc = @mul _ F32_Num w (data raw))
             /\ (gd = None ->
                 rest = []
                 /\ (data loss = cc
                     \/ (F32.is_zero (data loss) = true /\ F32.is_zero cc = true))
                 /\ F32.is_finite (data loss) = F32.is_finite cc
                 /\ (Forall (Forall (Forall (fun x => F32.is_zero x = true)))
                            (data (target_scores a)) ->
                     F32.is_finite (@mul _ F32_Num w (data raw)) = true ->
                     F32.is_finite (data loss) = true)))
  /\ (forall (K : Kernels spec_float) (E : Externals spec_float)
             (s : @ComputeLoss1.self spec_float) ac ps pd step l a loss comps,
        count_pos (data (fg_mask a)) = 0%nat ->
        result_of (@ComputeLoss1.losses _ F32_Num K E s ac ps pd step l a)
        = inr (loss, comps) ->
        F32.is_finite (@tsum3 _ F32_Num (data pd)) = true ->
        F32.is_finite (w_iou (ComputeLoss1.loss_weight s)) = true ->
        F32.is_finite (w_dfl (ComputeLoss1.loss_weight s)) = true ->
        exists oh raw ci cd,
          result_of (ComputeLoss1.one_hot_target s (fg_mask a) (target_labels a))
          = inr oh
          /\ result_of (@VarifocalLoss.forward _ F32_Num K ac ps (target_scores a) oh
                          (@VarifocalLoss.default_alpha _ F32_Num)
                          (@VarifocalLoss.default_gamma _ F32_Num))
             = inr raw
          /\ let tss := @tsum3 _ F32_Num (data (target_scores a)) in
             let w := w_class (ComputeLoss1.loss_weight s) in
             let cc := @mul _ F32_Num w
                         (if @gtb _ F32_Num tss (@of_Z _ F32_Num 0)
                          then @div _ F32_Num (data raw) tss else data raw) in
             data comps = [ci; cd; cc]
             /\ F32.is_zero ci = true /\ F32.is_zero cd = true
             /\ (Forall (Forall (Forall (fun x => F32.is_zero x = true)))
                        (data (target_scores a)) ->
                 cc = @mul _ F32_Num w (data raw))
             /\ (data loss = cc
                 \/ (F32.is_zero (data loss) = true /\ F32.is_zero cc = true))
             /\ F32.is_finite (data loss) = F32.is_finite cc
             /\ (Forall (Forall (Forall (fun x => F32.is_zero x = true)))
                        (data (target_scores a)) ->
                 F32.is_finite (@mul _ F32_Num w (data raw)) = true ->
                 F32.is_finite (data loss) = true)).
Proof.
  split; [| split; [| split; [| split]]].
  - intros T N K E s pd pb ap tb ts tss fg Hn z. split; [| reflexivity].
    now apply BboxLoss_forward_no_positive.
  - intros x. apply F32_mul_zero. reflexivity.
  - intros x. cbn. ring.
  - intros K E s ac ps pd step lam gd l a loss comps Hn Hr Hs Hwi Hwd.
    destruct (@ComputeLoss_losses_parts _ F32_Num K E s ac ps pd step lam gd
                l a loss comps Hr) as (oh & raw & li & ld & Hoh & Hraw & Hbb & _ & Hc).
    rewrite BboxLoss_forward_no_positive in Hbb by exact Hn.
    unfold ret, result_of in Hbb. cbn [snd] in Hbb. injection Hbb as <- <-.
    unfold tmap in Hc. cbn [data] in Hc. cbv zeta in Hc.
    set (z := @mul _ F32_Num (@tsum3 _ F32_Num (data pd)) (@of_Z _ F32_Num 0)) in *.
    assert (Hz : F32.is_zero z = true).
    { unfold z. destruct (F32_mul_zero (@tsum3 _ F32_Num (data pd)) _ F32_of_Z_0)
        as [-> _]. exact Hs. }
    assert (Hi : F32.is_zero (@mul _ F32_Num (w_iou (ComputeLoss.loss_weight s)) z) = true).
    { destruct (F32_mul_zero (w_iou (ComputeLoss.loss_weight s)) z Hz) as [-> _].
      exact Hwi. }
    assert (Hd : F32.is_zero (@mul _ F32_Num (w_dfl (ComputeLoss.loss_weight s)) z) = true).
    { destruct (F32_mul_zero (w_dfl (ComputeLoss.loss_weight s)) z Hz) as [-> _].
      exact Hwd. }
    assert (Hzero :
              Forall (Forall (Forall (fun x => F32.is_zero x = true)))
                     (data (target_scores a)) ->
              @mul _ F32_Num (w_class (ComputeLoss.loss_weight s))
                (if @gtb _ F32_Num (@tsum3 _ F32_Num (data (target_scores a)))
                      (@of_Z _ F32_Num 1)
                 then @div _ F32_Num (data raw) (@tsum3 _ F32_Num (data (target_scores a)))
                 else data raw)
              = @mul _ F32_Num (w_class (ComputeLoss.loss_weight s)) (data raw)).
    { intros Hts. apply F32_tsum3_of_zeros in Hts.
      destruct (F32_zero_not_above _ Hts) as [-> _]. reflexivity. }
    destruct gd as [gd |].
    + destruct Hc as (g & Hg & Hc & Hl).
      exists oh, raw. do 3 eexists. split; [exact Hoh |]. split; [exact Hraw |].
      cbv zeta.
      split; [exact Hc |]. split; [exact Hi |]. split; [exact Hd |].
      split; [exact Hzero | discriminate].
    + destruct Hc as (Hc & Hl).
      exists oh, raw. do 3 eexists. split; [exact Hoh |]. split; [exact Hraw |].
      cbv zeta.
      split; [exact Hc |]. split; [exact Hi |]. split; [exact Hd |].
      split; [exact Hzero |]. intros _. split; [reflexivity |].
      destruct (F32_add_two_zeros
                  (@mul _ F32_Num (w_class (ComputeLoss.loss_weight s))
                     (if @gtb _ F32_Num (@tsum3 _ F32_Num (data (target_scores a)))
                           (@of_Z _ F32_Num 1)
                      then @div _ F32_Num (data raw)
                             (@tsum3 _ F32_Num (data (target_scores a)))
                      else data raw)) _ _ Hi Hd) as [Hv Hf].
      cbv zeta in Hv, Hf. rewrite Hl.
      split; [exact Hv |]. split; [exact Hf |].
      intros Hts Hfin. etransitivity; [exact Hf |]. rewrite (Hzero Hts). exact Hfin.
  - intros K E s ac ps pd step l a loss comps Hn Hr Hs Hwi Hwd.
    destruct (@ComputeLoss1_losses_parts _ F32_Num K E s ac ps pd step
                l a loss comps Hr) as (oh & raw & li & ld & Hoh & Hraw & Hbb & _ & Hc).
    rewrite BboxLoss_forward_no_positive in Hbb by exact Hn.
    unfold ret, result_of in Hbb. cbn [snd] in Hbb. injection Hbb as <- <-.
    unfold tmap in Hc. cbn [data] in Hc. cbv zeta in Hc.
    set (z := @mul _ F32_Num (@tsum3 _ F32_Num (data pd)) (@of_Z _ F32_Num 0)) in *.
    assert (Hz : F32.is_zero z = true).
    { unfold z. destruct (F32_mul_zero (@tsum3 _ F32_Num (data pd)) _ F32_of_Z_0)
        as [-> _]. exact Hs. }
    assert (Hi : F32.is_zero (@mul _ F32_Num (w_iou (ComputeLoss1.loss_weight s)) z) = true).
    { destruct (F32_mul_zero (w_iou (ComputeLoss1.loss_weight s)) z Hz) as [-> _].
      exact Hwi. }
    assert (Hd : F32.is_zero (@mul _ F32_Num (w_dfl (ComputeLoss1.loss_weight s)) z) = true).
    { destruct (F32_mul_zero (w_dfl (ComputeLoss1.loss_weight s)) z Hz) as [-> _].
      exact Hwd. }
    assert (Hzero :
              Forall (Forall (Forall (fun x => F32.is_zero x = true)))
                     (data (target_scores a)) ->
              @mul _ F32_Num (w_class (ComputeLoss1.loss_weight s))
                (if @gtb _ F32_Num (@tsum3 _ F32_Num (data (target_scores a)))
                      (@of_Z _ F32_Num 0)
                 then @div _ F32_Num (data raw) (@tsum3 _ F32_Num (data (target_scores a)))
                 else data raw)
              = @mul _ F32_Num (w_class (ComputeLoss1.loss_weight s)) (data raw)).
    { intros Hts. apply F32_tsum3_of_zeros in Hts.
      destruct (F32_zero_not_above _ Hts) as [_ ->]. reflexivity. }
    destruct Hc as (Hc & Hl).
    exists oh, raw. do 2 eexists. split; [exact Hoh |]. split; [exact Hraw |].
    cbv zeta.
    split; [exact Hc |]. split; [exact Hi |]. split; [exact Hd |].
    split; [exact Hzero |].
    destruct (F32_add_two_zeros
                (@mul _ F32_Num (w_class (ComputeLoss1.loss_weight s))
                   (if @gtb _ F32_Num (@tsum3 _ F32_Num (data (target_scores a)))
                         (@of_Z _ F32_Num 0)
                    then @div _ F32_Num (data raw)
                           (@tsum3 _ F32_Num (data (target_scores a)))
                    else data raw)) _ _ Hi Hd) as [Hv Hf].
    cbv zeta in Hv, Hf. rewrite Hl.
    split; [exact Hv |]. split; [exact Hf |].
    intros Hts Hfin. etransitivity; [exact Hf |]. rewrite (Hzero Hts). exact Hfin.
Qed.

Example fixtureF32_prepare :
  forall dist0,
    @ComputeLoss1.prepare _ F32_Num FixtureF32.kernels FixtureF32.externals
      FixtureF32.config1 (FixtureF32.outputs dist0) FixtureF32.targets
    = ([], inr FixtureF32.locals)
    /\ @ComputeLoss1.assign _ F32_Num FixtureF32.externals FixtureF32.config1 3
         (snd (fst (FixtureF32.outputs dist0))) FixtureF32.locals
       = ([EvAssign Warmup [(CUDA, Float32); (CUDA, Float64); (CUDA, Float64);
                            (CUDA, Float32); (CUDA, Float32)]],
          inr (FixtureF32.background CUDA)).
Proof. intros dist0. split; vm_compute; reflexivity. Qed.

(** No ground truth, no positive anchor, zero target scores, finite logits:
    the box components are zeros and the total loss is finite. *)
Lemma C4_no_positive_anchors_witness :
  exists loss comps ci cd cc,
    result_of (@ComputeLoss1.losses _ F32_Num FixtureF32.kernels FixtureF32.externals
                 FixtureF32.config1 true
                 (snd (fst (FixtureF32.outputs (FixtureF32.f 1))))
                 (FixtureF32.pred_distri (FixtureF32.f 1)) 1
                 FixtureF32.locals (FixtureF32.background CUDA))
    = inr (loss, comps)
    /\ data comps = [ci; cd; cc]
    /\ F32.is_zero ci = true /\ F32.is_zero cd = true
    /\ F32.is_finite (data loss) = true.
Proof.
  destruct C4_no_positive_anchors as (_ & _ & _ & _ & H).
  pose proof (H FixtureF32.kernels FixtureF32.externals FixtureF32.config1 true
                (snd (fst (FixtureF32.outputs (FixtureF32.f 1))))
                (FixtureF32.pred_distri (FixtureF32.f 1)) 1%Z
                FixtureF32.locals (FixtureF32.background CUDA)) as H1.
  let r := eval vm_compute in
    (result_of (@ComputeLoss1.losses _ F32_Num FixtureF32.kernels FixtureF32.externals
                 FixtureF32.config1 true
                 (snd (fst (FixtureF32.outputs (FixtureF32.f 1))))
                 (FixtureF32.pred_distri (FixtureF32.f 1)) 1
                 FixtureF32.locals (FixtureF32.background CUDA))) in
  match r with
  | inr (?loss, ?comps) =>
      destruct (H1 loss comps)
        as (oh & raw & ci & cd & Hoh & Hraw & Hc & Hi & Hd & _ & _ & _ & Hf);
        [reflexivity | vm_compute; reflexivity | reflexivity | reflexivity
         | reflexivity |];
      exists loss, comps, ci, cd; eexists
  end.
  split; [vm_compute; reflexivity |]. split; [exact Hc |].
  split; [exact Hi |]. split; [exact Hd |].
  assert (Eoh : @inr exn _ oh
                = inr (Tensor CUDA Float32 false [[[0%Z; 0%Z]]]))
    by (rewrite <- Hoh; vm_compute; reflexivity).
  injection Eoh as ->.
  let v := eval vm_compute in
    (result_of (@VarifocalLoss.forward _ F32_Num FixtureF32.kernels true
                  (snd (fst (FixtureF32.outputs (FixtureF32.f 1))))
                  (target_scores (FixtureF32.background CUDA))
                  (Tensor CUDA Float32 false [[[0%Z; 0%Z]]])
                  (@VarifocalLoss.default_alpha _ F32_Num)
                  (@VarifocalLoss.default_gamma _ F32_Num))) in
  assert (Eraw : @inr exn _ raw = v) by (rewrite <- Hraw; vm_compute; reflexivity).
  injection Eraw as ->.
  apply Hf.
  - repeat constructor.
  - vm_compute. reflexivity.
Defined.

(** The claim as stated fails: with no positive anchor and an infinite
    logit in [pred_dist], the iou and dfl losses of [BboxLoss.forward] are
    NaN, and so are the two components and the total loss of the composer.
    Finite logits alone do not make the total loss finite either: it is
    the class component, and with finite logits, class scores equal to 1,
    zero target scores and the largest binary32 number as class weight the
    iou and dfl components are zeros while the class component and the
    total loss are +Inf. *)
Lemma C4_counterexample_infinite_logit :
  let pd := FixtureF32.pred_distri F32.infinity in
  let a := FixtureF32.background CUDA in
  count_pos (data (fg_mask a)) = 0%nat
  /\ (exists li ld,
        result_of (@BboxLoss.forward _ F32_Num FixtureF32.kernels FixtureF32.externals
                     (ComputeLoss1.bbox_loss FixtureF32.config1) pd
                     (l_pred_bboxes FixtureF32.locals)
                     (l_anchor_points_s FixtureF32.locals)
                     (target_bboxes a) (target_scores a)
                     (tmap (@tsum3 _ F32_Num) (target_scores a)) (fg_mask a))
        = inr (li, ld)
        /\ F32.is_nan (data li) = true /\ F32.is_nan (data ld) = true)
  /\ (exists loss comps,
        result_of (@ComputeLoss1.__call__ _ F32_Num FixtureF32.kernels
                     FixtureF32.externals FixtureF32.config1 true
                     (FixtureF32.outputs F32.infinity) FixtureF32.targets 3 1)
        = inr (loss, comps)
        /\ F32.is_finite (data loss) = false
        /\ map F32.is_nan (firstn 2 (data comps)) = [true; true])
  /\ (F32.is_finite (@tsum3 _ F32_Num (data (snd FixtureF32.sure_outputs))) = true
      /\ F32.is_finite (w_class (ComputeLoss1.loss_weight FixtureF32.heavy1)) = true
      /\ exists loss comps,
           result_of (@ComputeLoss1.__call__ _ F32_Num FixtureF32.kernels
                        FixtureF32.externals FixtureF32.heavy1 true
                        FixtureF32.sure_outputs FixtureF32.targets 3 1)
           = inr (loss, comps)
           /\ data comps = [S754_zero false; S754_zero false; F32.infinity]
           /\ data loss = F32.infinity).
Proof.
  intros pd a. split; [reflexivity |]. split; [| split].
  - do 2 eexists. split; [vm_compute; reflexivity |]. split; reflexivity.
  - do 2 eexists. split; [vm_compute; reflexivity |]. split; reflexivity.
  - split; [vm_compute; reflexivity |]. split; [reflexivity |].
    do 2 eexists. split; [vm_compute; reflexivity |]. split; reflexivity.
Qed.

(** ** C5: the target preprocessor *)

Lemma update_length {A} (l : list A) k f : length (update l k f) = length l.
Proof.
  revert k. induction l as [| a l IH]; intros [| k]; simpl; auto.
Qed.

Lemma nth_update {A} (l : list A) k k' f d :
  (k < length l)%nat ->
  nth k' (update l k f) d = if (k' =? k)%nat then f (nth k l d) else nth k' l d.
Proof.
  revert k k'. induction l as [| a l IH]; intros k k' Hk; simpl in Hk; [lia |].
  destruct k as [| k], k' as [| k']; simpl; auto.
  apply IH. lia.
Qed.

Lemma fold_left_max l a : fold_left Nat.max l a = Nat.max a (list_max l).
Proof.
  revert a. induction l as [| b l IH]; intros a; simpl.
  - lia.
  - rewrite IH. lia.
Qed.

Lemma list_max_map_S {A} (f : A -> nat) (l : list A) :
  l <> [] -> list_max (map (fun x => S (f x)) l) = S (list_max (map f l)).
Proof.
  induction l as [| a l IH]; [congruence |]. intros _.
  destruct l as [| b l]; [simpl; lia |].
  change (list_max (map (fun x => S (f x)) (a :: b :: l)))
    with (Nat.max (S (f a)) (list_max (map (fun x => S (f x)) (b :: l)))).
  rewrite IH by discriminate.
  change (list_max (map f (a :: b :: l)))
    with (Nat.max (f a) (list_max (map f (b :: l)))).
  lia.
Qed.

Lemma list_max_ge l n : In n l -> (n <= list_max l)%nat.
Proof.
  intros Hin. pose proof (list_max_le l (list_max l)) as [H _].
  specialize (H (Nat.le_refl _)). rewrite Forall_forall in H. now apply H.
Qed.

Lemma bind_ret_l {A B} (a : A) (f : A -> M B) : bind (ret a) f = f a.
Proof. unfold bind, ret. now destruct (f a). Qed.

Lemma map_seq_ext {A} (f g : nat -> A) n :
  (forall k, (k < n)%nat -> f k = g k) -> map f (seq 0 n) = map g (seq 0 n).
Proof.
  intros Hfg. apply map_ext_in. intros k Hk. apply in_seq in Hk. apply Hfg. lia.
Qed.

Lemma map_nth_seq0 {A} (l : list A) d :
  map (fun k => nth k l d) (seq 0 (length l)) = l.
Proof.
  apply nth_ext with (d := d) (d' := d).
  - now rewrite length_map, length_seq.
  - intros k Hk. rewrite length_map, length_seq in Hk.
    rewrite (nth_indep _ d (nth 0 l d)) by now rewrite length_map, length_seq.
    rewrite (map_nth (fun k => nth k l d) (seq 0 (length l)) 0%nat k).
    now rewrite seq_nth.
Qed.

Section Preprocess.
Context {T : Type} {N : Num T}.

Lemma py_index_valid n z :
  (0 <= z < Z.of_nat n)%Z -> py_index n z = Some (Z.to_nat z).
Proof.
  intros Hz. unfold py_index.
  replace ((0 <=? z) && (z <? Z.of_nat n))%Z with true; [reflexivity |].
  symmetry. apply andb_true_iff. split; [apply Z.leb_le | apply Z.ltb_lt]; lia.
Qed.

Lemma image_rows_cons (i : T) rest rows k :
  image_rows ((i :: rest) :: rows) k
  = (if (to_long i =? Z.of_nat k)%Z then [rest] else []) ++ image_rows rows k.
Proof.
  unfold image_rows. simpl. now destruct (to_long i =? Z.of_nat k)%Z.
Qed.

(** The loop of [preprocess] appends every row to the list of its image. *)
Lemma preprocess_loop (rows : mat T) (tl0 : cube T) (n : nat) :
  length tl0 = n ->
  Forall (valid_row n) rows ->
  foldM (fun (tl : cube T) (item : list T) =>
           match item with
           | [] => raise IndexError
           | i :: rest =>
               match py_index (length tl) (to_long i) with
               | None => raise IndexError
               | Some k => ret (update tl k (fun l => l ++ [rest]))
               end
           end) rows tl0
  = ret (map (fun k => nth k tl0 [] ++ image_rows rows k) (seq 0 n)).
Proof.
  intros Hlen Hrows. revert tl0 Hlen.
  induction Hrows as [| row rows Hrow _ IH]; intros tl0 Hlen.
  - simpl. f_equal. subst n. symmetry.
    rewrite <- (map_nth_seq0 tl0 []) at 2.
    apply map_seq_ext. intros k _. unfold image_rows. simpl. apply app_nil_r.
  - destruct Hrow as [_ Hi]. destruct row as [| i rest]; [contradiction |].
    cbn [foldM]. rewrite Hlen. erewrite py_index_valid by exact Hi. rewrite bind_ret_l.
    rewrite IH by now rewrite update_length.
    f_equal. apply map_seq_ext. intros k Hk.
    rewrite nth_update by lia. rewrite image_rows_cons.
    destruct (Nat.eqb_spec k (Z.to_nat (to_long i))) as [-> | Hne].
    + rewrite Z2Nat.id by lia. rewrite Z.eqb_refl. now rewrite <- app_assoc.
    + replace (to_long i =? Z.of_nat k)%Z with false; [reflexivity |].
      symmetry. apply Z.eqb_neq. lia.
Qed.
End Preprocess.

Lemma py_max_list_max (l : list nat) : l <> [] -> py_max l = ret (list_max l).
Proof.
  destruct l as [| a l]; [congruence |]. intros _. unfold py_max.
  rewrite fold_left_max. reflexivity.
Qed.

Section PreprocessSpecProof.
Context {T : Type} {N : Num T}.

Lemma image_rows_length5 (rows : mat T) n k :
  Forall (valid_row n) rows ->
  Forall (fun row => length row = 5%nat) (image_rows rows k).
Proof.
  intros Hrows. unfold image_rows. apply Forall_map.
  apply Forall_forall. intros row Hin. apply filter_In in Hin as [Hin _].
  rewrite Forall_forall in Hrows. destruct (Hrows row Hin) as [Hlen _].
  destruct row; simpl in *; lia.
Qed.

Lemma gt_count_le_max (rows : mat T) n k :
  (k < n)%nat -> (gt_count rows k <= max_gt rows n)%nat.
Proof.
  intros Hk. unfold max_gt. apply list_max_ge. apply in_map_iff.
  exists k. split; [reflexivity |]. apply in_seq. lia.
Qed.

Lemma ComputeLoss_preprocess_spec (targets : tensor (mat T)) (n : nat)
    (scale_tensor : tensor (mat T)) (s0 s1 s2 s3 : T) :
  (0 < n)%nat ->
  Forall (valid_row n) (data targets) ->
  data scale_tensor = [[s0; s1; s2; s3]] ->
  ComputeLoss.preprocess targets n scale_tensor
  = ret (Tensor (dev targets) Float64 false
                (padded_targets (data targets) n [s0; s1; s2; s3])).
Proof.
  intros Hn Hrows Hscale. unfold ComputeLoss.preprocess.
  rewrite (@preprocess_loop T N (data targets) _ n) by
    (try apply repeat_length; exact Hrows).
  rewrite bind_ret_l.
  set (zero5 := repeat (of_Z 0) 5).
  assert (Hlist :
    map (fun k => nth k (repeat [zero5] n) [] ++ image_rows (data targets) k) (seq 0 n)
    = map (fun k => zero5 :: image_rows (data targets) k) (seq 0 n)).
  { apply map_seq_ext. intros k Hk. now rewrite nth_repeat_lt. }
  rewrite Hlist. clear Hlist.
  rewrite map_map. cbn [length].
  change (map (fun x => S (length (image_rows (data targets) x))) (seq 0 n))
    with (map (fun k => S (gt_count (data targets) k)) (seq 0 n)).
  rewrite py_max_list_max, list_max_map_S;
    try (destruct n; [lia | discriminate]).
  rewrite bind_ret_l. fold (max_gt (data targets) n).
  rewrite map_map.
  assert (Hpad :
    map (fun k => (zero5 :: image_rows (data targets) k)
                  ++ repeat sentinel
                       (S (max_gt (data targets) n)
                        - length (zero5 :: image_rows (data targets) k)))
        (seq 0 n)
    = map (fun k => zero5 :: image_rows (data targets) k
                    ++ repeat sentinel
                         (max_gt (data targets) n - gt_count (data targets) k))
          (seq 0 n)).
  { apply map_seq_ext. intros k Hk. reflexivity. }
  rewrite Hpad. clear Hpad.
  match goal with
  | |- context [forallb ?p ?l] =>
      assert (Hchk : forallb p l = true)
  end.
  { apply forallb_forall. intros img Himg. apply in_map_iff in Himg.
    destruct Himg as (k & <- & Hk). apply forallb_forall. intros row Hrow.
    apply Nat.eqb_eq. destruct Hrow as [<- | Hrow]; [reflexivity |].
    apply in_app_or in Hrow as [Hrow | Hrow].
    - pose proof (image_rows_length5 k Hrows) as H5.
      rewrite Forall_forall in H5. now apply H5.
    - apply repeat_spec in Hrow. now subst row. }
  rewrite Hchk, bind_ret_l, Hscale. unfold ret. do 2 f_equal.
  unfold tmap. cbn [dev dty grad data]. f_equal.
  unfold padded_targets. rewrite !map_map. apply map_seq_ext. intros k Hk.
  reflexivity.
Qed.

Lemma ComputeLoss1_preprocess_same (targets : tensor (mat T)) n sc :
  ComputeLoss1.preprocess targets n sc = ComputeLoss.preprocess targets n sc.
Proof. reflexivity. Qed.
End PreprocessSpecProof.

Section PreprocessShape.
Context {T : Type} {N : Num T}.

Lemma to_pixels_xyxy_row (s0 s1 s2 s3 c cx cy w h : T) :
  to_pixels_xyxy [s0; s1; s2; s3] [c; cx; cy; w; h]
  = [c;
     sub (mul cx s0) (div (mul w s2) (of_Z 2));
     sub (mul cy s1) (div (mul h s3) (of_Z 2));
     add (mul cx s0) (div (mul w s2) (of_Z 2));
     add (mul cy s1) (div (mul h s3) (of_Z 2))].
Proof. reflexivity. Qed.

Lemma to_pixels_xyxy_length (s0 s1 s2 s3 : T) (row : list T) :
  length row = 5%nat -> length (to_pixels_xyxy [s0; s1; s2; s3] row) = 5%nat.
Proof.
  intros Hlen.
  destruct row as [| c [| cx [| cy [| w [| h [| x row]]]]]]; try discriminate.
  reflexivity.
Qed.

Lemma padded_targets_shape (rows : mat T) n (s0 s1 s2 s3 : T) :
  Forall (valid_row n) rows ->
  let r := padded_targets rows n [s0; s1; s2; s3] in
  length r = n
  /\ (forall k, (k < n)%nat ->
        length (nth k r []) = max_gt rows n
        /\ firstn (gt_count rows k) (nth k r [])
           = map (to_pixels_xyxy [s0; s1; s2; s3]) (image_rows rows k)
        /\ skipn (gt_count rows k) (nth k r [])
           = repeat (to_pixels_xyxy [s0; s1; s2; s3] sentinel)
                    (max_gt rows n - gt_count rows k))
  /\ Forall (Forall (fun row => length row = 5%nat)) r.
Proof.
  intros Hrows r. subst r. unfold padded_targets. split; [| split].
  - now rewrite length_map, length_seq.
  - intros k Hk.
    set (f := fun k : nat =>
                map (to_pixels_xyxy [s0; s1; s2; s3])
                    (image_rows rows k
                     ++ repeat sentinel (max_gt rows n - gt_count rows k))).
    assert (Hnth : nth k (map f (seq 0 n)) [] = f k).
    { rewrite (nth_indep _ [] (f 0%nat)) by now rewrite length_map, length_seq.
      rewrite (map_nth f (seq 0 n) 0%nat k). now rewrite seq_nth. }
    rewrite Hnth. unfold f. rewrite map_app, map_repeat.
    pose proof (gt_count_le_max rows Hk) as Hle.
    assert (Hg : length (map (to_pixels_xyxy [s0; s1; s2; s3]) (image_rows rows k))
                 = gt_count rows k) by now rewrite length_map.
    repeat split.
    + rewrite length_app, Hg, repeat_length. lia.
    + rewrite <- Hg at 1. rewrite firstn_app, firstn_all, Nat.sub_diag. simpl.
      apply app_nil_r.
    + rewrite <- Hg at 1. rewrite skipn_app, skipn_all, Nat.sub_diag. reflexivity.
  - apply Forall_forall. intros img Himg. apply in_map_iff in Himg.
    destruct Himg as (k & <- & Hk). apply Forall_map. apply Forall_app. split.
    + eapply Forall_impl; [| apply (image_rows_length5 k Hrows)].
      intros row Hrow. now apply to_pixels_xyxy_length.
    + apply Forall_forall. intros row Hrow. apply repeat_spec in Hrow. subst row.
      reflexivity.
Qed.
End PreprocessShape.

Lemma sentinel_row_Q (s0 s1 s2 s3 : Q) :
  Forall2 Qeq (@to_pixels_xyxy Q Q_Num [s0; s1; s2; s3] sentinel) [-1; 0; 0; 0; 0]%Q.
Proof.
  cbn. repeat constructor; unfold Qdiv; ring.
Qed.

(** C5 (as amended).  For a batch of [batch_size >= 1] images and flat rows
    (image_index, class, cx, cy, w, h) whose image index is an index of the
    batch, both preprocessors return the tensor [padded_targets]: it has
    shape (batch_size, max_k g_k, 5); the first g_k rows of image k are its
    ground-truth rows, in order, as [class, x1, y1, x2, y2] with
    x1 = cx*s - w*s/2, y1 = cy*s - h*s/2, x2 = cx*s + w*s/2,
    y2 = cy*s + h*s/2; the other max_k g_k - g_k rows are sentinel rows,
    equal to [-1, 0, 0, 0, 0].  An image without ground truth thus gets
    max_k g_k sentinel rows: at least one when some image of the batch has a
    ground-truth row, and none when no image has one. *)
Theorem C5_target_preprocessor :
  forall (T : Type) (N : Num T) (targets : tensor (mat T)) (n : nat)
         (scale_tensor : tensor (mat T)) (s0 s1 s2 s3 : T),
    (0 < n)%nat ->
    Forall (valid_row n) (data targets) ->
    data scale_tensor = [[s0; s1; s2; s3]] ->
    let scale := [s0; s1; s2; s3] in
    let r := padded_targets (data targets) n scale in
    ComputeLoss.preprocess targets n scale_tensor
    = ([], inr (Tensor (dev targets) Float64 false r))
    /\ ComputeLoss1.preprocess targets n scale_tensor
       = ([], inr (Tensor (dev targets) Float64 false r))
    /\ length r = n
    /\ (forall k, (k < n)%nat ->
          length (nth k r []) = max_gt (data targets) n
          /\ firstn (gt_count (data targets) k) (nth k r [])
             = map (to_pixels_xyxy scale) (image_rows (data targets) k)
          /\ skipn (gt_count (data targets) k) (nth k r [])
             = repeat (to_pixels_xyxy scale sentinel)
                      (max_gt (data targets) n - gt_count (data targets) k))
    /\ Forall (Forall (fun row => length row = 5%nat)) r
    /\ (forall c cx cy w h : T,
          to_pixels_xyxy scale [c; cx; cy; w; h]
          = [c;
             sub (mul cx s0) (div (mul w s2) (of_Z 2));
             sub (mul cy s1) (div (mul h s3) (of_Z 2));
             add (mul cx s0) (div (mul w s2) (of_Z 2));
             add (mul cy s1) (div (mul h s3) (of_Z 2))])
    /\ (forall q0 q1 q2 q3 : Q,
          Forall2 Qeq (@to_pixels_xyxy Q Q_Num [q0; q1; q2; q3] sentinel)
                  [-1; 0; 0; 0; 0]%Q).
Proof.
  intros T N targets n scale_tensor s0 s1 s2 s3 Hn Hrows Hscale scale r.
  destruct (padded_targets_shape s0 s1 s2 s3 Hrows) as (Hlen & Hk & H5).
  split; [| split; [| split; [| split; [| split; [| split]]]]].
  - now apply ComputeLoss_preprocess_spec.
  - rewrite ComputeLoss1_preprocess_same. now apply ComputeLoss_preprocess_spec.
  - exact Hlen.
  - exact Hk.
  - exact H5.
  - intros. reflexivity.
  - apply sentinel_row_Q.
Qed.

(** Two images, one box of class 3 in image 0: image 1 gets one sentinel
    row. *)
Lemma C5_target_preprocessor_witness :
  @ComputeLoss.preprocess Q Q_Num
    (Tensor CUDA Float32 false [[0; 3; 1 # 2; 1 # 2; 1 # 5; 1 # 5]]) 2
    (Tensor CUDA Float32 false [[640; 640; 640; 640]])
  = ([], inr (Tensor CUDA Float64 false
                (@padded_targets Q Q_Num [[0; 3; 1 # 2; 1 # 2; 1 # 5; 1 # 5]] 2
                   [640; 640; 640; 640])))
  /\ @padded_targets Q Q_Num [[0; 3; 1 # 2; 1 # 2; 1 # 5; 1 # 5]] 2
       [640; 640; 640; 640]
     = [[[3; 5120 # 20; 5120 # 20; 7680 # 20; 7680 # 20]];
        [[-1; 0 # 2; 0 # 2; 0 # 2; 0 # 2]]].
Proof.
  split; [| vm_compute; reflexivity].
  apply (@C5_target_preprocessor Q Q_Num
           (Tensor CUDA Float32 false [[0; 3; 1 # 2; 1 # 2; 1 # 5; 1 # 5]]) 2
           (Tensor CUDA Float32 false [[640; 640; 640; 640]]) 640 640 640 640).
  - lia.
  - repeat constructor; vm_compute; congruence.
  - reflexivity.
Defined.

(** The claim as stated fails: in a batch in which no image has a ground
    truth row the output has shape (batch_size, 0, 5); an image without
    ground truth gets no sentinel row at all. *)
Lemma C5_counterexample_empty_batch :
  @ComputeLoss.preprocess Q Q_Num (Tensor CUDA Float32 false []) 2
    (Tensor CUDA Float32 false [[640; 640; 640; 640]])
  = ([], inr (Tensor CUDA Float64 false [[]; []]))
  /\ @ComputeLoss1.preprocess Q Q_Num (Tensor CUDA Float32 false []) 2
       (Tensor CUDA Float32 false [[640; 640; 640; 640]])
     = ([], inr (Tensor CUDA Float64 false [[]; []])).
Proof. split; vm_compute; reflexivity. Qed.

(** ** C9: which ground-truth rows are valid *)

Section MaskGt.
Context {T : Type} {N : Num T} {K : Kernels T} {E : Externals T}.

Lemma ComputeLoss_prepare_mask (s : @ComputeLoss.self T) outputs targets l :
  result_of (ComputeLoss.prepare s outputs targets) = inr l ->
  data (l_mask_gt l) = map (map (fun row => [row_mask row])) (data (l_targets l))
  /\ data (l_gt_labels l) = map (map (firstn 1)) (data (l_targets l))
  /\ data (l_gt_bboxes l) = map (map (skipn 1)) (data (l_targets l))
  /\ result_of (ComputeLoss.preprocess targets (length (data (snd (fst outputs))))
                  (Tensor (dev (snd (fst outputs))) (dty (snd (fst outputs))) false
                          [repeat (of_Z (ComputeLoss.ori_img_size s)) 4]))
     = inr (l_targets l).
Proof.
  unfold ComputeLoss.prepare. destruct outputs as [[feats ps] pd]. intros H.
  bind_inv H as f0 Hf0. bind_inv H as u Hu. bind_inv H as tg Htg.
  bind_inv H as pb Hpb. cbn in H. injection H as <-. cbn.
  rewrite !map_map. repeat split.
  - apply map_ext. intros img. rewrite map_map. reflexivity.
  - exact Htg.
Qed.

Lemma ComputeLoss1_prepare_mask (s : @ComputeLoss1.self T) outputs targets l :
  result_of (ComputeLoss1.prepare s outputs targets) = inr l ->
  data (l_mask_gt l) = map (map (fun row => [row_mask row])) (data (l_targets l))
  /\ data (l_gt_labels l) = map (map (firstn 1)) (data (l_targets l))
  /\ data (l_gt_bboxes l) = map (map (skipn 1)) (data (l_targets l))
  /\ result_of (ComputeLoss1.preprocess targets (length (data (snd (fst outputs))))
                  (Tensor (dev (snd (fst outputs))) (dty (snd (fst outputs))) false
                          [repeat (of_Z (ComputeLoss1.ori_img_size s)) 4]))
     = inr (l_targets l).
Proof.
  unfold ComputeLoss1.prepare. destruct outputs as [[feats ps] pd]. intros H.
  bind_inv H as f0 Hf0. bind_inv H as u Hu. bind_inv H as tg Htg.
  bind_inv H as pb Hpb. cbn in H. injection H as <-. cbn.
  rewrite !map_map. repeat split.
  - apply map_ext. intros img. rewrite map_map. reflexivity.
  - exact Htg.
Qed.
End MaskGt.

Lemma row_mask_Q (c x1 y1 x2 y2 : Q) :
  (@row_mask Q Q_Num [c; x1; y1; x2; y2] = 1%Q <-> (0 < x1 + y1 + x2 + y2)%Q)
  /\ (@row_mask Q Q_Num [c; x1; y1; x2; y2] = 0%Q <-> (x1 + y1 + x2 + y2 <= 0)%Q).
Proof.
  unfold row_mask. cbn.
  change (inject_Z 0) with 0%Q. change (inject_Z 1) with 1%Q.
  destruct (Qgtb (0 + x1 + y1 + x2 + y2) 0) eqn:Hg.
  - apply Qgtb_lt in Hg.
    split; split; intros H; try reflexivity; try lra; try (exfalso; lra);
      cbv in H; discriminate.
  - assert (Hle : ~ (0 < 0 + x1 + y1 + x2 + y2)%Q).
    { intros Hlt. apply Qgtb_lt in Hlt. congruence. }
    split; split; intros H; try reflexivity; try lra; try (exfalso; lra);
      cbv in H; discriminate.
Qed.

Lemma Qgtb_false (x y : Q) : (x <= y)%Q -> Qgtb x y = false.
Proof.
  intros Hle. destruct (Qgtb x y) eqn:Hg; [| reflexivity].
  apply Qgtb_lt in Hg. lra.
Qed.

Lemma row_mask_centre_origin (c w h q0 q1 q2 q3 : Q) :
  @row_mask Q Q_Num (@to_pixels_xyxy Q Q_Num [q0; q1; q2; q3] [c; 0; 0; w; h]) = 0%Q.
Proof.
  unfold row_mask. cbn.
  rewrite Qgtb_false; [reflexivity |].
  change (inject_Z 0) with 0%Q. change (inject_Z 2) with 2%Q.
  unfold Qdiv. apply Qle_lteq. right. ring.
Qed.

(** C9.  In both composers the mask of a preprocessed row
    [class, x1, y1, x2, y2] is 1 when x1 + y1 + x2 + y2 > 0 and 0 otherwise;
    the class entry plays no part in it.  Hence a row whose corners sum to
    zero is masked out like padding, a box centred at the origin among them
    (a degenerate box at the origin in particular), and every sentinel row
    has mask 0. *)
Theorem C9_mask_gt_by_corner_sum :
  (forall (T : Type) (N : Num T) (K : Kernels T) (E : Externals T)
          (s : @ComputeLoss.self T) outputs targets l,
      result_of (ComputeLoss.prepare s outputs targets) = inr l ->
      data (l_mask_gt l) = map (map (fun row => [row_mask row])) (data (l_targets l))
      /\ data (l_gt_bboxes l) = map (map (skipn 1)) (data (l_targets l)))
  /\ (forall (T : Type) (N : Num T) (K : Kernels T) (E : Externals T)
             (s : @ComputeLoss1.self T) outputs targets l,
      result_of (ComputeLoss1.prepare s outputs targets) = inr l ->
      data (l_mask_gt l) = map (map (fun row => [row_mask row])) (data (l_targets l))
      /\ data (l_gt_bboxes l) = map (map (skipn 1)) (data (l_targets l)))
  /\ (forall c x1 y1 x2 y2 : Q,
        (@row_mask Q Q_Num [c; x1; y1; x2; y2] = 1%Q <-> (0 < x1 + y1 + x2 + y2)%Q)
        /\ (@row_mask Q Q_Num [c; x1; y1; x2; y2] = 0%Q
            <-> (x1 + y1 + x2 + y2 <= 0)%Q))
  /\ (forall (T : Type) (N : Num T) (c c' : T) (box : list T),
        row_mask (c :: box) = row_mask (c' :: box))
  /\ (forall c w h q0 q1 q2 q3 : Q,
        @row_mask Q Q_Num (@to_pixels_xyxy Q Q_Num [q0; q1; q2; q3] [c; 0; 0; w; h])
        = 0%Q)
  /\ (forall q0 q1 q2 q3 : Q,
        @row_mask Q Q_Num (@to_pixels_xyxy Q Q_Num [q0; q1; q2; q3] sentinel) = 0%Q).
Proof.
  split; [| split; [| split; [| split; [| split]]]].
  - intros T N K E s outputs targets l H.
    destruct (ComputeLoss_prepare_mask s outputs targets H) as (Hm & _ & Hb & _).
    now split.
  - intros T N K E s outputs targets l H.
    destruct (ComputeLoss1_prepare_mask s outputs targets H) as (Hm & _ & Hb & _).
    now split.
  - apply row_mask_Q.
  - intros. reflexivity.
  - apply row_mask_centre_origin.
  - intros q0 q1 q2 q3. apply (row_mask_centre_origin (-1) 0 0).
Qed.

Lemma C9_mask_gt_by_corner_sum_witness :
  data (l_mask_gt Fixture.locals)
  = map (map (fun row => [@row_mask Q Q_Num row])) (data (l_targets Fixture.locals))
  /\ data (l_mask_gt Fixture.locals) = [[[1%Q]]].
Proof.
  split; [| reflexivity].
  destruct C9_mask_gt_by_corner_sum as (H & _).
  apply (H Q Q_Num Fixture.kernels (Fixture.externals None (1 # 2)) Fixture.config
           Fixture.outputs Fixture.targets Fixture.locals).
  vm_compute. reflexivity.
Defined.

(** ** C6: the Varifocal loss *)

Lemma sum_over_ext n (f g : nat -> Q) :
  (forall i, (i < n)%nat -> (f i == g i)%Q) -> (sum_over n f == sum_over n g)%Q.
Proof.
  unfold sum_over. intros Hfg.
  assert (H : forall l, (forall i, In i l -> (f i == g i)%Q) ->
                        (fold_right (fun i acc => f i + acc) 0 l
                         == fold_right (fun i acc => g i + acc) 0 l)%Q).
  { induction l as [| i l IH]; intros Hl; simpl; [reflexivity |].
    rewrite (Hl i (or_introl eq_refl)), IH; [reflexivity |].
    intros j Hj. apply Hl. now right. }
  apply H. intros i Hi. apply in_seq in Hi. apply Hfg. lia.
Qed.

Lemma fold_left_Qplus_acc (l : list Q) (a : Q) :
  (fold_left Qplus l a == a + fold_left Qplus l 0)%Q.
Proof.
  revert a. induction l as [| x l IH]; intros a; simpl.
  - ring.
  - rewrite (IH (a + x)%Q), (IH (0 + x)%Q). ring.
Qed.

Lemma tsum_Q_cons (x : Q) (l : list Q) :
  (@tsum Q Q_Num (x :: l) == x + @tsum Q Q_Num l)%Q.
Proof.
  unfold tsum. cbn [fold_left].
  change (@add Q Q_Num) with Qplus. change (@of_Z Q Q_Num 0) with 0%Q.
  rewrite fold_left_Qplus_acc. ring.
Qed.

Lemma tsum_Q_app (l l' : list Q) :
  (@tsum Q Q_Num (l ++ l') == @tsum Q Q_Num l + @tsum Q Q_Num l')%Q.
Proof.
  induction l as [| x l IH]; simpl.
  - unfold tsum at 2. cbn [fold_left]. change (@of_Z Q Q_Num 0) with 0%Q. ring.
  - rewrite !tsum_Q_cons, IH. ring.
Qed.

Lemma sum_over_shift n (f : nat -> Q) :
  (sum_over (S n) f == f 0%nat + sum_over n (fun i => f (S i)))%Q.
Proof.
  unfold sum_over. cbn [seq fold_right]. rewrite <- seq_shift.
  apply Qplus_comp; [reflexivity |].
  generalize (seq 0 n). induction l as [| i l IH]; simpl; [reflexivity |].
  now rewrite IH.
Qed.

(** A sum over a list is a sum over its indices. *)
Lemma tsum_Q_sum_over (h : nat -> Q) (l : list Q) :
  (forall i, (i < length l)%nat -> (nth i l 0 == h i)%Q) ->
  (@tsum Q Q_Num l == sum_over (length l) h)%Q.
Proof.
  revert h. induction l as [| x l IH]; intros h Hh.
  - reflexivity.
  - rewrite tsum_Q_cons. cbn [length]. rewrite sum_over_shift.
    rewrite <- (Hh 0%nat) by (simpl; lia). cbn [nth].
    rewrite (IH (fun i => h (S i))); [reflexivity |].
    intros i Hi. apply (Hh (S i)). simpl. lia.
Qed.

Lemma tsum_Q_concat_sum_over (h : nat -> Q) (ls : list (list Q)) :
  (forall i, (i < length ls)%nat -> (@tsum Q Q_Num (nth i ls []) == h i)%Q) ->
  (@tsum Q Q_Num (concat ls) == sum_over (length ls) h)%Q.
Proof.
  revert h. induction ls as [| l ls IH]; intros h Hh.
  - reflexivity.
  - cbn [concat length]. rewrite tsum_Q_app, sum_over_shift.
    rewrite <- (Hh 0%nat) by (simpl; lia). cbn [nth].
    rewrite (IH (fun i => h (S i))); [reflexivity |].
    intros i Hi. apply (Hh (S i)). simpl. lia.
Qed.

Lemma zipWith_length {A B C} (f : A -> B -> C) l l' n :
  length l = n -> length l' = n -> length (zipWith f l l') = n.
Proof.
  revert l' n. induction l as [| a l IH]; intros [| b l'] n Hl Hl'; simpl in *;
    try congruence.
  destruct n as [| n]; [discriminate |]. f_equal. apply IH; congruence.
Qed.

Lemma zipWith_nth {A B C} (f : A -> B -> C) l l' i da db dc :
  (i < length l)%nat -> (i < length l')%nat ->
  nth i (zipWith f l l') dc = f (nth i l da) (nth i l' db).
Proof.
  revert l' i. induction l as [| a l IH]; intros [| b l'] i Hl Hl'; simpl in *;
    try lia.
  destruct i as [| i]; [reflexivity |]. apply IH; lia.
Qed.

Section Zip3.
Context {A B C : Type} (f : A -> B -> C).

Lemma shape3_nth {X} (x : list (list (list X))) nb na nc b a :
  shape3 nb na nc x -> (b < nb)%nat -> (a < na)%nat ->
  length (nth b x []) = na /\ length (nth a (nth b x []) []) = nc.
Proof.
  intros [Hlen Hx] Hb Ha. rewrite Forall_nth in Hx.
  destruct (Hx b [] ltac:(lia)) as [Hna Himg]. split; [exact Hna |].
  rewrite Forall_nth in Himg. apply Himg. lia.
Qed.

Lemma zip3_shape (x : list (list (list A))) (y : list (list (list B))) nb na nc :
  shape3 nb na nc x -> shape3 nb na nc y ->
  shape3 nb na nc (zipWith (zipWith (zipWith f)) x y).
Proof.
  intros Hx Hy. pose proof Hx as [Hlx _]. pose proof Hy as [Hly _].
  split; [now apply zipWith_length |].
  apply Forall_nth. intros b d Hb.
  rewrite (zipWith_length _ _ _ Hlx Hly) in Hb.
  rewrite (nth_indep _ d []) by now rewrite (zipWith_length _ _ _ Hlx Hly).
  rewrite (zipWith_nth _ _ _ [] [] []) by lia.
  assert (Hxa : length (nth b x []) = na).
  { destruct Hx as [_ Hx]. rewrite Forall_nth in Hx. apply Hx. lia. }
  assert (Hya : length (nth b y []) = na).
  { destruct Hy as [_ Hy]. rewrite Forall_nth in Hy. apply Hy. lia. }
  split; [now apply zipWith_length |].
  apply Forall_nth. intros a d' Ha.
  rewrite (zipWith_length _ _ _ Hxa Hya) in Ha.
  rewrite (nth_indep _ d' []) by now rewrite (zipWith_length _ _ _ Hxa Hya).
  rewrite (zipWith_nth _ _ _ [] [] []) by lia.
  destruct (shape3_nth Hx Hb Ha) as [_ Hxc].
  destruct (shape3_nth Hy Hb Ha) as [_ Hyc].
  now apply zipWith_length.
Qed.

Lemma zip3_entry (x : list (list (list A))) (y : list (list (list B)))
    nb na nc b a c da db dc :
  shape3 nb na nc x -> shape3 nb na nc y ->
  (b < nb)%nat -> (a < na)%nat -> (c < nc)%nat ->
  entry dc (zipWith (zipWith (zipWith f)) x y) b a c
  = f (entry da x b a c) (entry db y b a c).
Proof.
  intros Hx Hy Hb Ha Hc. unfold entry.
  pose proof Hx as [Hlx _]. pose proof Hy as [Hly _].
  destruct (shape3_nth Hx Hb Ha) as [Hxa Hxc].
  destruct (shape3_nth Hy Hb Ha) as [Hya Hyc].
  rewrite (zipWith_nth _ _ _ [] [] []) by lia.
  rewrite (zipWith_nth _ _ _ [] [] []) by lia.
  apply zipWith_nth; lia.
Qed.
End Zip3.

Lemma concat_concat_map {X} (x : list (list (list X))) :
  concat (concat x) = concat (map (@concat X) x).
Proof.
  induction x as [| img x IH]; simpl; [reflexivity |].
  now rewrite concat_app, IH.
Qed.

(** The sum of all entries of a tensor of shape (nb, na, nc). *)
Lemma tsum3_Q_sum_over (x : cube Q) nb na nc (h : nat -> nat -> nat -> Q) :
  shape3 nb na nc x ->
  (forall b a c, (b < nb)%nat -> (a < na)%nat -> (c < nc)%nat ->
                 (entry 0 x b a c == h b a c)%Q) ->
  (@tsum3 Q Q_Num x
   == sum_over nb (fun b => sum_over na (fun a => sum_over nc (fun c => h b a c))))%Q.
Proof.
  intros Hx Hh. pose proof Hx as [Hlen _]. unfold tsum3.
  rewrite concat_concat_map.
  rewrite (tsum_Q_concat_sum_over
             (fun b => sum_over na (fun a => sum_over nc (fun c => h b a c))));
    rewrite length_map, Hlen; [reflexivity |].
  intros b Hb.
  rewrite (nth_indep _ [] (concat [])) by now rewrite length_map, Hlen.
  rewrite (map_nth (@concat Q) x [] b).
  assert (Hna : length (nth b x []) = na).
  { destruct Hx as [_ Hx]. rewrite Forall_nth in Hx. apply Hx. lia. }
  rewrite (tsum_Q_concat_sum_over (fun a => sum_over nc (fun c => h b a c)));
    rewrite Hna; [reflexivity |].
  intros a Ha. destruct (shape3_nth Hx Hb Ha) as [_ Hnc].
  rewrite (tsum_Q_sum_over (fun c => h b a c)); rewrite Hnc; [reflexivity |].
  intros c Hc. now apply Hh.
Qed.

Lemma inject_Z_one_minus (l : Z) : (inject_Z (1 - l) == 1 - inject_Z l)%Q.
Proof.
  unfold Z.sub. rewrite inject_Z_plus, inject_Z_opp. reflexivity.
Qed.

Lemma VarifocalLoss_forward_spec (K : Kernels Q) (ac : bool)
    (p g : tensor (cube Q)) (l : tensor (list (list (list Z)))) (alpha gamma : Q)
    (nb na nc : nat) :
  shape3 nb na nc (data p) -> shape3 nb na nc (data g) -> shape3 nb na nc (data l) ->
  exists r,
    @VarifocalLoss.forward Q Q_Num K ac p g l alpha gamma = ([], inr r)
    /\ (data r == varifocal_spec nb na nc alpha gamma (data p) (data g) (data l))%Q.
Proof.
  intros Hp Hg Hl. eexists. split; [reflexivity |].
  cbn [data tmap tmap2 float dev dty grad].
  unfold varifocal_spec.
  apply tsum3_Q_sum_over.
  - repeat apply zip3_shape; assumption.
  - intros b a c Hb Ha Hc.
    repeat (erewrite (@zip3_entry Q Q Q _ _ _ nb na nc b a c 0%Q 0%Q 0%Q);
            try assumption; try (repeat apply zip3_shape; assumption)).
    repeat (erewrite (@zip3_entry Q Z Q _ _ _ nb na nc b a c 0%Q 0%Z 0%Q);
            try assumption).
    unfold varifocal_weight. cbn [mul add of_Z Q_Num].
    rewrite inject_Z_one_minus. apply Qmult_comm.
Qed.

(** C6.  Over the rationals, for score, target and label tensors of one
    shape (images, anchors, classes), [VarifocalLoss.forward] returns the
    sum over all anchors and classes of weight x bce(predicted score, target
    score) with weight = alpha x score^gamma x (1 - label) + target x label;
    the defaults are alpha = 0.75 and gamma = 2.  The binary cross entropy
    is called with autocast disabled on operands cast to float32, whatever
    the ambient autocast state and the dtypes of the inputs: its result is a
    float32 tensor, and the loss never has reduced precision. *)
Theorem C6_varifocal_loss :
  (forall (K : Kernels Q) (ac : bool) (p g : tensor (cube Q))
          (l : tensor (list (list (list Z)))) (alpha gamma : Q) (nb na nc : nat),
      shape3 nb na nc (data p) -> shape3 nb na nc (data g) ->
      shape3 nb na nc (data l) ->
      exists r,
        @VarifocalLoss.forward Q Q_Num K ac p g l alpha gamma = ([], inr r)
        /\ (data r
            == varifocal_spec nb na nc alpha gamma (data p) (data g) (data l))%Q)
  /\ ((@VarifocalLoss.default_alpha Q Q_Num == 3 # 4)%Q
      /\ (@VarifocalLoss.default_gamma Q Q_Num == 2)%Q)
  /\ (forall (T : Type) (N : Num T) (K : Kernels T) (ac : bool)
             (p g : tensor (cube T)) (l : tensor (list (list (list Z))))
             (alpha gamma : T),
        VarifocalLoss.forward ac p g l alpha gamma
        = VarifocalLoss.forward false p g l alpha gamma
        /\ (exists b,
              VarifocalLoss.binary_cross_entropy false (float p) (float g)
              = ([], inr b)
              /\ dty (float p) = Float32 /\ dty (float g) = Float32
              /\ dty b = Float32
              /\ data b = zipWith (zipWith (zipWith bce)) (data p) (data g))
        /\ (exists r,
              VarifocalLoss.forward ac p g l alpha gamma = ([], inr r)
              /\ dty r <> Float16)
        /\ (exists e,
              VarifocalLoss.binary_cross_entropy true (float p) (float g)
              = ([], inl e))).
Proof.
  split; [| split].
  - intros. now apply VarifocalLoss_forward_spec.
  - split; vm_compute; reflexivity.
  - intros T N K ac p g l alpha gamma. split; [reflexivity |]. split; [| split].
    + eexists. split; [reflexivity |]. repeat split.
    + eexists. split; [reflexivity |]. cbn.
      destruct (promote (promote _ _) (promote _ _)); discriminate.
    + eexists. reflexivity.
Qed.

Lemma C6_varifocal_loss_witness :
  exists r,
    @VarifocalLoss.forward Q Q_Num Fixture.kernels true
      (Tensor CUDA Float16 true [[[1 # 4; 1 # 2]]])
      (Tensor CUDA Float32 false [[[0; 1 # 2]]])
      (Tensor CUDA Float32 false [[[0%Z; 1%Z]]]) (3 # 4) 2
    = ([], inr r)
    /\ (data r
        == @varifocal_spec Fixture.kernels 1 1 2 (3 # 4) 2
             [[[1 # 4; 1 # 2]]] [[[0; 1 # 2]]] [[[0%Z; 1%Z]]])%Q
    /\ (data r == 3 # 1024)%Q.
Proof.
  destruct C6_varifocal_loss as (H & _).
  destruct (H Fixture.kernels true
              (Tensor CUDA Float16 true [[[1 # 4; 1 # 2]]])
              (Tensor CUDA Float32 false [[[0; 1 # 2]]])
              (Tensor CUDA Float32 false [[[0%Z; 1%Z]]]) (3 # 4) 2 1%nat 1%nat 2%nat)
    as (r & Hr & Hspec).
  - split; [reflexivity |]. repeat constructor.
  - split; [reflexivity |]. repeat constructor.
  - split; [reflexivity |]. repeat constructor.
  - exists r. split; [exact Hr |]. split; [exact Hspec |].
    rewrite Hspec. vm_compute. reflexivity.
Defined.

(** ** C10: the class indices of the distribution focal loss *)

Lemma Qtrunc_floor (t : Q) : (0 <= t)%Q -> Qtrunc t = Qfloor t.
Proof.
  destruct t as [n d]. unfold Qle, Qtrunc, Qfloor. simpl. intros Hn.
  apply Z.quot_div_nonneg; lia.
Qed.

Lemma Qfloor_nonneg (t : Q) : (0 <= t)%Q -> (0 <= Qfloor t)%Z.
Proof.
  intros Ht. change 0%Z with (Qfloor 0). now apply Qfloor_resp_le.
Qed.

Lemma Qfloor_lt_nat (t : Q) (n : nat) :
  (t < inject_Z (Z.of_nat n))%Q <-> (Qfloor t + 1 <= Z.of_nat n)%Z.
Proof.
  split.
  - intros Ht. pose proof (Qfloor_le t) as Hfl.
    assert (Hlt : (inject_Z (Qfloor t) < inject_Z (Z.of_nat n))%Q) by lra.
    rewrite <- Zlt_Qlt in Hlt. lia.
  - intros Hle. pose proof (Qlt_floor t) as Hfl.
    assert (Hq : (inject_Z (Qfloor t + 1) <= inject_Z (Z.of_nat n))%Q)
      by now rewrite <- Zle_Qle.
    lra.
Qed.

Section DflIndices.
Context {K : Kernels Q} {E : Externals Q}.
Variable s : BboxLoss.self.

Let reg_max : Q := inject_Z (Z.of_nat (BboxLoss.reg_max s)).

Lemma df_indices_in_range (t : Q) :
  (0 <= t < reg_max)%Q <->
  (@to_long Q Q_Num t = Qfloor t
   /\ (0 <= @to_long Q Q_Num t)%Z
   /\ (@to_long Q Q_Num t + 1 <= Z.of_nat (BboxLoss.reg_max s))%Z).
Proof.
  subst reg_max. cbn [to_long Q_Num]. split.
  - intros [H0 Hlt]. rewrite (Qtrunc_floor H0). split; [reflexivity |].
    split; [now apply Qfloor_nonneg | now apply Qfloor_lt_nat].
  - intros (Heq & H0 & Hle). rewrite Heq in H0, Hle. split.
    + pose proof (Qlt_floor t) as Hfl.
      destruct (Qlt_le_dec t 0) as [Hneg | Hpos]; [| exact Hpos].
      exfalso.
      assert (Hf : (Qfloor t <= Qfloor (-1 # 1) )%Z \/ (-1 < t)%Q).
      { destruct (Qlt_le_dec (-1) t) as [H1 | H1]; [now right | left].
        now apply Qfloor_resp_le. }
      destruct Hf as [Hf | Hf].
      * change (Qfloor (-1 # 1)) with (-1)%Z in Hf. lia.
      * pose proof (Qfloor_le t) as Hfle.
        assert (Hz : (inject_Z 0 <= inject_Z (Qfloor t))%Q) by now rewrite <- Zle_Qle.
        change (inject_Z 0) with 0%Q in Hz. lra.
    + now apply Qfloor_lt_nat.
Qed.

Lemma df_upper_index (t : Q) :
  (0 <= t)%Q ->
  ((@to_long Q Q_Num t + 1 <= Z.of_nat (BboxLoss.reg_max s))%Z <-> (t < reg_max)%Q).
Proof.
  intros H0. subst reg_max. cbn [to_long Q_Num]. rewrite (Qtrunc_floor H0).
  symmetry. apply Qfloor_lt_nat.
Qed.

Lemma cross_entropy_in_range (logits : list Q) (t : Q) :
  (0 <= t < reg_max)%Q ->
  BboxLoss.cross_entropy s logits (to_long t)
  = ret (ce logits (Z.to_nat (to_long t)))
  /\ BboxLoss.cross_entropy s logits (to_long t + 1)
     = ret (ce logits (Z.to_nat (to_long t + 1))).
Proof.
  intros Ht. apply df_indices_in_range in Ht. destruct Ht as (_ & H0 & Hle).
  unfold BboxLoss.cross_entropy. split.
  - replace (to_long t =? -100)%Z with false by (symmetry; apply Z.eqb_neq; lia).
    replace ((0 <=? to_long t) && (to_long t <? Z.of_nat (BboxLoss.reg_max s + 1)))%Z
      with true; [reflexivity |].
    symmetry. apply andb_true_iff. split; [apply Z.leb_le | apply Z.ltb_lt]; lia.
  - replace (to_long t + 1 =? -100)%Z with false by (symmetry; apply Z.eqb_neq; lia).
    replace ((0 <=? to_long t + 1)
             && (to_long t + 1 <? Z.of_nat (BboxLoss.reg_max s + 1)))%Z
      with true; [reflexivity |].
    symmetry. apply andb_true_iff. split; [apply Z.leb_le | apply Z.ltb_lt]; lia.
Qed.

Lemma cross_entropy_above_range (logits : list Q) (t : Q) :
  (reg_max <= t)%Q ->
  BboxLoss.cross_entropy s logits (to_long t + 1) = raise IndexError.
Proof.
  intros Ht. subst reg_max.
  assert (H0 : (0 <= t)%Q).
  { assert (Hn : (inject_Z 0 <= inject_Z (Z.of_nat (BboxLoss.reg_max s)))%Q)
      by (rewrite <- Zle_Qle; lia).
    change (inject_Z 0) with 0%Q in Hn. lra. }
  assert (Hge : (Z.of_nat (BboxLoss.reg_max s) <= @to_long Q Q_Num t)%Z).
  { cbn [to_long Q_Num]. rewrite (Qtrunc_floor H0).
    rewrite <- (Qfloor_Z (Z.of_nat (BboxLoss.reg_max s))). now apply Qfloor_resp_le. }
  unfold BboxLoss.cross_entropy.
  replace (to_long t + 1 =? -100)%Z with false by (symmetry; apply Z.eqb_neq; lia).
  replace ((0 <=? to_long t + 1)
           && (to_long t + 1 <? Z.of_nat (BboxLoss.reg_max s + 1)))%Z
    with false; [reflexivity |].
  symmetry. apply andb_false_iff. right. apply Z.ltb_ge. lia.
Qed.
End DflIndices.

Lemma mapM_returns {A B} (f : A -> M B) (l : list A) :
  (forall a, In a l -> exists b, f a = ret b) ->
  exists bs, mapM f l = ret bs.
Proof.
  induction l as [| a l IH]; intros Hf; simpl.
  - now exists [].
  - destruct (Hf a (or_introl eq_refl)) as [b Hb].
    destruct IH as [bs Hbs]; [intros x Hx; apply Hf; now right |].
    exists (b :: bs). rewrite Hb, bind_ret_l, Hbs, bind_ret_l. reflexivity.
Qed.

Lemma In_zipWith {A B C} (f : A -> B -> C) l l' c :
  In c (zipWith f l l') -> exists a b, In a l /\ In b l' /\ c = f a b.
Proof.
  revert l'. induction l as [| a l IH]; intros [| b l'] Hin; simpl in Hin;
    try contradiction.
  destruct Hin as [<- | Hin].
  - exists a, b. simpl. auto.
  - destruct (IH l' Hin) as (a' & b' & Ha & Hb & ->).
    exists a', b'. simpl. auto.
Qed.

Lemma In_select_pos {A} (mask : list (list bool)) (x : list (list A)) (r : A) :
  In r (select_pos mask x) -> exists img, In img x /\ In r img.
Proof.
  unfold select_pos. intros Hin. apply in_concat in Hin.
  destruct Hin as (rows & Hrows & Hr).
  apply In_zipWith in Hrows. destruct Hrows as (ms & img & _ & Himg & ->).
  exists img. split; [exact Himg |].
  apply in_map_iff in Hr. destruct Hr as ([m r'] & <- & Hr).
  apply filter_In in Hr as [Hr _]. now apply in_combine_r in Hr.
Qed.

Section DflDefined.
Context {K : Kernels Q} {E : Externals Q}.
Variable s : BboxLoss.self.

Lemma cross_entropy_index_ok (logits : list Q) (i : Z) :
  index_ok s i -> BboxLoss.cross_entropy s logits i = ret (ce logits (Z.to_nat i)).
Proof.
  unfold index_ok. intros Hi. unfold BboxLoss.cross_entropy.
  replace (i =? -100)%Z with false by (symmetry; apply Z.eqb_neq; lia).
  replace ((0 <=? i) && (i <? Z.of_nat (BboxLoss.reg_max s + 1)))%Z
    with true; [reflexivity |].
  symmetry. apply andb_true_iff. split; [apply Z.leb_le | apply Z.ltb_lt]; lia.
Qed.

Lemma cross_entropy_rows_returns (pd : list (mat Q)) (idx : list (list Z)) :
  Forall (Forall (index_ok s)) idx ->
  exists r, BboxLoss.cross_entropy_rows s pd idx = ret r.
Proof.
  intros Hidx. unfold BboxLoss.cross_entropy_rows. apply mapM_returns.
  intros [sides ids] Hin. apply in_combine_r in Hin.
  rewrite Forall_forall in Hidx. specialize (Hidx ids Hin).
  apply mapM_returns. intros [logits i] Hi. apply in_combine_r in Hi.
  rewrite Forall_forall in Hidx. eexists. apply cross_entropy_index_ok. now apply Hidx.
Qed.

(** With every target distance in range, [_df_loss] returns a value. *)
Lemma df_loss_returns (pd : list (mat Q)) (target : mat Q) :
  Forall (Forall (in_range s)) target ->
  exists r, BboxLoss._df_loss s pd target = ([], inr r).
Proof.
  intros Ht. unfold BboxLoss._df_loss.
  destruct (cross_entropy_rows_returns pd (idx := map (map to_long) target))
    as [cl Hcl].
  { apply Forall_map. eapply Forall_impl; [| exact Ht]. intros row Hrow.
    apply Forall_map. eapply Forall_impl; [| exact Hrow]. intros t Hin.
    apply df_indices_in_range in Hin. unfold index_ok. lia. }
  destruct (cross_entropy_rows_returns pd
              (idx := map (map (fun l => (l + 1)%Z)) (map (map to_long) target)))
    as [cr Hcr].
  { apply Forall_map. apply Forall_map. eapply Forall_impl; [| exact Ht].
    intros row Hrow. apply Forall_map. apply Forall_map.
    eapply Forall_impl; [| exact Hrow]. intros t Hin.
    apply df_indices_in_range in Hin. unfold index_ok. lia. }
  rewrite Hcl, bind_ret_l, Hcr, bind_ret_l. eexists. reflexivity.
Qed.
End DflDefined.

Lemma clamp_Q_bounds (lo hi x : Q) :
  (lo <= hi)%Q -> (lo <= @clamp Q Q_Num lo hi x <= hi)%Q.
Proof.
  intros Hle. unfold clamp. cbn [gtb Q_Num].
  destruct (Qgtb lo x) eqn:H1; [lra |].
  destruct (Qgtb x hi) eqn:H2; [lra |].
  split.
  - destruct (Qlt_le_dec x lo) as [Hlt | Hge]; [| exact Hge].
    apply Qgtb_lt in Hlt. congruence.
  - destruct (Qlt_le_dec hi x) as [Hlt | Hge]; [| exact Hge].
    apply Qgtb_lt in Hlt. congruence.
Qed.

(** The distances that [bbox2dist] returns lie in [0, reg_max - eps]. *)
Lemma bbox2dist_bounds (eps : Q) (p box : list Q) (reg_max : nat) :
  (0 < eps <= inject_Z (Z.of_nat reg_max))%Q ->
  length p = 2%nat -> length box = 4%nat ->
  Forall (fun t => (0 <= t <= inject_Z (Z.of_nat reg_max) - eps)%Q)
         (@bbox2dist Q Q_Num eps p box reg_max).
Proof.
  intros Heps Hp Hbox.
  destruct p as [| x [| y [| z p]]]; try discriminate.
  destruct box as [| x1 [| y1 [| x2 [| y2 [| w box]]]]]; try discriminate.
  unfold bbox2dist. apply Forall_map. apply Forall_forall. intros t _.
  apply clamp_Q_bounds. cbn [of_Z sub Q_Num]. change (inject_Z 0) with 0%Q. lra.
Qed.

Lemma mapM_view4_error {T} `{Num T} (n : nat) (l : list (list T)) e :
  result_of (mapM (view4 n) l) = inl e -> e <> IndexError.
Proof.
  induction l as [| row l IH]; simpl; [discriminate |].
  rewrite result_bind. unfold view4 at 1.
  destruct (length row =? 4 * n)%nat; cbn.
  - rewrite result_bind. destruct (result_of (mapM (view4 n) l)) as [e' | v] eqn:Hl.
    + intros He. injection He as <-. now apply IH.
    + cbn. discriminate.
  - intros He. injection He as <-. discriminate.
Qed.

Section ForwardSafe.
Context {K : Kernels Q} {E : Externals Q}.

(** [BboxLoss.forward] never fails with a class index out of bounds. *)
Lemma BboxLoss_forward_no_IndexError (s : BboxLoss.self)
    pd pb (ap : tensor (mat Q)) (tb : tensor (cube Q)) ts tss fg :
  (0 < bbox2dist_eps <= inject_Z (Z.of_nat (BboxLoss.reg_max s)))%Q ->
  Forall (fun p => length p = 2%nat) (data ap) ->
  Forall (Forall (fun b => length b = 4%nat)) (data tb) ->
  result_of (BboxLoss.forward s pd pb ap tb ts tss fg) <> inl IndexError.
Proof.
  intros Heps Hap Htb. unfold BboxLoss.forward.
  destruct (0 <? count_pos (data fg))%nat; [| discriminate].
  destruct (BboxLoss.use_dfl s); [| discriminate].
  rewrite result_bind.
  destruct (result_of (mapM (view4 (BboxLoss.reg_max s + 1))
                            (select_pos (data fg) (data pd)))) as [e | v] eqn:Hv.
  - intros He. injection He as ->. now apply mapM_view4_error in Hv.
  - match goal with
    | |- context [BboxLoss._df_loss s v ?t] =>
        destruct (@df_loss_returns K s v t) as [r Hr]
    end.
    + apply Forall_forall. intros row Hrow. cbn [data tmap tmap2] in Hrow.
      apply In_select_pos in Hrow. destruct Hrow as (img & Himg & Hrow).
      apply in_map_iff in Himg. destruct Himg as (boxes & <- & Hboxes).
      apply In_zipWith in Hrow. destruct Hrow as (p & b & Hp & Hb & ->).
      rewrite Forall_forall in Hap, Htb.
      pose proof (Htb boxes Hboxes) as Hb4. rewrite Forall_forall in Hb4.
      eapply Forall_impl;
        [| apply bbox2dist_bounds;
           [exact Heps | apply Hap; exact Hp | apply Hb4; exact Hb]].
      intros t Ht. unfold in_range. cbn beta in Ht. lra.
    + rewrite result_bind. unfold result_of at 1. rewrite Hr. cbn. discriminate.
Qed.
End ForwardSafe.

(** C10.  [_df_loss] takes [to_long t] and [to_long t + 1] as class indices
    of a cross entropy over reg_max + 1 classes.  These are floor(t) and
    floor(t) + 1, both within 0..reg_max, exactly when 0 <= t < reg_max; for
    t >= 0 the upper index is within bounds exactly when t < reg_max, and for
    t >= reg_max the cross entropy fails with an index error.  With every
    target distance in that range [_df_loss] returns.  The caller obtains
    the distances from [bbox2dist], whose clamp keeps them in
    [0, reg_max - eps], so [BboxLoss.forward] never fails with an index out
    of bounds. *)
Theorem C10_df_loss_index_bounds :
  forall (K : Kernels Q) (E : Externals Q) (s : BboxLoss.self),
    (forall t : Q,
        in_range s t <->
        (@to_long Q Q_Num t = Qfloor t
         /\ (0 <= @to_long Q Q_Num t)%Z
         /\ (@to_long Q Q_Num t + 1 <= Z.of_nat (BboxLoss.reg_max s))%Z))
    /\ (forall t : Q,
          (0 <= t)%Q ->
          ((@to_long Q Q_Num t + 1 <= Z.of_nat (BboxLoss.reg_max s))%Z
           <-> (t < inject_Z (Z.of_nat (BboxLoss.reg_max s)))%Q))
    /\ (forall (logits : list Q) (t : Q),
          in_range s t ->
          BboxLoss.cross_entropy s logits (to_long t)
          = ([], inr (ce logits (Z.to_nat (to_long t))))
          /\ BboxLoss.cross_entropy s logits (to_long t + 1)
             = ([], inr (ce logits (Z.to_nat (to_long t + 1)))))
    /\ (forall (logits : list Q) (t : Q),
          (inject_Z (Z.of_nat (BboxLoss.reg_max s)) <= t)%Q ->
          BboxLoss.cross_entropy s logits (to_long t + 1) = ([], inl IndexError))
    /\ (forall (pd : list (mat Q)) (target : mat Q),
          Forall (Forall (in_range s)) target ->
          exists r, BboxLoss._df_loss s pd target = ([], inr r))
    /\ (forall (eps : Q) (p box : list Q),
          (0 < eps <= inject_Z (Z.of_nat (BboxLoss.reg_max s)))%Q ->
          length p = 2%nat -> length box = 4%nat ->
          Forall (in_range s) (@bbox2dist Q Q_Num eps p box (BboxLoss.reg_max s)))
    /\ (forall pd pb (ap : tensor (mat Q)) (tb : tensor (cube Q)) ts tss fg,
          (0 < bbox2dist_eps <= inject_Z (Z.of_nat (BboxLoss.reg_max s)))%Q ->
          Forall (fun p => length p = 2%nat) (data ap) ->
          Forall (Forall (fun b => length b = 4%nat)) (data tb) ->
          result_of (BboxLoss.forward s pd pb ap tb ts tss fg) <> inl IndexError).
Proof.
  intros K E s. split; [| split; [| split; [| split; [| split; [| split]]]]].
  - intros t. apply df_indices_in_range.
  - intros t. apply df_upper_index.
  - intros logits t Ht. now apply cross_entropy_in_range.
  - intros logits t Ht. now apply cross_entropy_above_range.
  - intros pd target Ht. now apply df_loss_returns.
  - intros eps p box Heps Hp Hbox.
    eapply Forall_impl; [| apply bbox2dist_bounds; eassumption].
    intros t Ht. unfold in_range. cbn beta in Ht. lra.
  - intros. now apply BboxLoss_forward_no_IndexError.
Qed.

Lemma C10_df_loss_index_bounds_witness :
  let s := @ComputeLoss.bbox_loss Q Fixture.config in
  (exists r,
      @BboxLoss._df_loss Q Q_Num Fixture.kernels s
        [[[1; 2; 3]; [1; 2; 3]; [1; 2; 3]; [1; 2; 3]]]
        [[1 # 2; 1 # 2; 1 # 2; 3 # 2]]
      = ([], inr r))
  /\ @BboxLoss._df_loss Q Q_Num Fixture.kernels s
       [[[1; 2; 3]; [1; 2; 3]; [1; 2; 3]; [1; 2; 3]]]
       [[1 # 2; 1 # 2; 1 # 2; 2]]
     = ([], inl IndexError).
Proof.
  intros s. split; [| vm_compute; reflexivity].
  destruct (C10_df_loss_index_bounds Fixture.kernels
              (Fixture.externals None 1) s) as (_ & _ & _ & _ & H & _).
  apply H. repeat constructor; vm_compute; congruence.
Defined.

(** ** C7: the distribution focal loss *)

Lemma mapM_combine_ret {A B C} (f : A * B -> M C) (g : A -> B -> C) l l' :
  (forall a b, In (a, b) (combine l l') -> f (a, b) = ret (g a b)) ->
  mapM f (combine l l') = ret (zipWith g l l').
Proof.
  revert l'. induction l as [| a l IH]; intros [| b l'] Hf; simpl; try reflexivity.
  rewrite (Hf a b (or_introl eq_refl)), bind_ret_l.
  rewrite IH, bind_ret_l; [reflexivity |].
  intros a' b' Hin. apply Hf. now right.
Qed.

Section DflValue.
Context {K : Kernels Q} {E : Externals Q}.
Variable s : BboxLoss.self.

Lemma cross_entropy_rows_value (pd : list (mat Q)) (idx : list (list Z)) :
  Forall (Forall (index_ok s)) idx ->
  BboxLoss.cross_entropy_rows s pd idx
  = ret (zipWith (zipWith (fun logits i => ce logits (Z.to_nat i))) pd idx).
Proof.
  intros Hidx. unfold BboxLoss.cross_entropy_rows.
  apply (mapM_combine_ret
           (fun '(sides, ids) =>
              mapM (fun '(logits, i) => BboxLoss.cross_entropy s logits i)
                   (combine sides ids))
           (zipWith (fun logits i => ce logits (Z.to_nat i)))).
  intros sides ids Hin. apply in_combine_r in Hin.
  rewrite Forall_forall in Hidx. specialize (Hidx ids Hin).
  apply (mapM_combine_ret
           (fun '(logits, i) => BboxLoss.cross_entropy s logits i)
           (fun logits i => ce logits (Z.to_nat i))).
  intros logits i Hi. apply in_combine_r in Hi.
  rewrite Forall_forall in Hidx. apply cross_entropy_index_ok. now apply Hidx.
Qed.

(** The loss of one anchor, as the code computes it. *)
Lemma df_loss_value (pd : list (mat Q)) (target : mat Q) :
  Forall (Forall (in_range s)) target ->
  BboxLoss._df_loss s pd target
  = ret (zipWith (fun sides t =>
                    [@tmean Q Q_Num
                       (zipWith Qplus
                          (zipWith Qmult
                             (zipWith (fun logits i => ce logits (Z.to_nat i))
                                      sides (map Qtrunc t))
                             (zipWith (fun r x => inject_Z r - x)%Q
                                      (map (fun l => (l + 1)%Z) (map Qtrunc t)) t))
                          (zipWith Qmult
                             (zipWith (fun logits i => ce logits (Z.to_nat i))
                                      sides (map (fun l => (l + 1)%Z) (map Qtrunc t)))
                             (map (fun w => 1 - w)%Q
                                (zipWith (fun r x => inject_Z r - x)%Q
                                   (map (fun l => (l + 1)%Z) (map Qtrunc t)) t))))])
                 pd target).
Proof.
  intros Ht. unfold BboxLoss._df_loss.
  rewrite cross_entropy_rows_value, bind_ret_l.
  2:{ apply Forall_map. eapply Forall_impl; [| exact Ht]. intros row Hrow.
      apply Forall_map. eapply Forall_impl; [| exact Hrow]. intros t Hin.
      apply df_indices_in_range in Hin. unfold index_ok. lia. }
  rewrite cross_entropy_rows_value, bind_ret_l.
  2:{ apply Forall_map. apply Forall_map. eapply Forall_impl; [| exact Ht].
      intros row Hrow. apply Forall_map. apply Forall_map.
      eapply Forall_impl; [| exact Hrow]. intros t Hin.
      apply df_indices_in_range in Hin. unfold index_ok. lia. }
  f_equal. clear Ht. revert target.
  induction pd as [| sides pd IH]; intros [| t target]; try reflexivity.
  cbn [map zipWith]. f_equal. apply IH.
Qed.
End DflValue.

Section DflAnchor.
Context {K : Kernels Q} {E : Externals Q}.
Variable s : BboxLoss.self.

Lemma df_anchor_spec (sides : mat Q) (t : list Q) :
  Forall (in_range s) t -> length t = 4%nat -> length sides = 4%nat ->
  (@tmean Q Q_Num
     (zipWith Qplus
        (zipWith Qmult
           (zipWith (fun logits i => ce logits (Z.to_nat i)) sides (map Qtrunc t))
           (zipWith (fun r x => inject_Z r - x)%Q
                    (map (fun l => (l + 1)%Z) (map Qtrunc t)) t))
        (zipWith Qmult
           (zipWith (fun logits i => ce logits (Z.to_nat i))
                    sides (map (fun l => (l + 1)%Z) (map Qtrunc t)))
           (map (fun w => 1 - w)%Q
              (zipWith (fun r x => inject_Z r - x)%Q
                       (map (fun l => (l + 1)%Z) (map Qtrunc t)) t))))
   == dfl_anchor sides t)%Q.
Proof.
  intros Ht Hlt Hls.
  destruct t as [| t0 [| t1 [| t2 [| t3 [| t4 t]]]]]; try discriminate.
  destruct sides as [| a0 [| a1 [| a2 [| a3 [| a4 sides]]]]]; try discriminate.
  inversion Ht as [| ? ? [H0 _] Ht1]; subst.
  inversion Ht1 as [| ? ? [H1 _] Ht2]; subst.
  inversion Ht2 as [| ? ? [H2 _] Ht3]; subst.
  inversion Ht3 as [| ? ? [H3 _] _]; subst.
  cbn [map zipWith]. unfold dfl_anchor, sum_over, dfl_side, tmean, tsum.
  cbn [seq fold_right fold_left nth length].
  rewrite !(Qtrunc_floor H0), !(Qtrunc_floor H1), !(Qtrunc_floor H2),
    !(Qtrunc_floor H3).
  cbn [add div of_Z Q_Num Z.of_nat Pos.of_succ_nat Pos.succ].
  change (inject_Z 0) with 0%Q. change (inject_Z 4) with 4%Q.
  field.
Qed.

Lemma df_loss_spec (pd : list (mat Q)) (target : mat Q) :
  Forall (Forall (in_range s)) target ->
  Forall (fun t => length t = 4%nat) target ->
  Forall (fun sides => length sides = 4%nat) pd ->
  exists r,
    BboxLoss._df_loss s pd target = ([], inr r)
    /\ Forall2 (fun row st =>
                  exists v, row = [v] /\ (v == dfl_anchor (fst st) (snd st))%Q)
               r (combine pd target).
Proof.
  intros Hr Ht Hpd. rewrite (df_loss_value pd Hr). eexists. split; [reflexivity |].
  revert target Hr Ht.
  induction Hpd as [| sides pd Hs _ IH]; intros [| t target] Hr Ht;
    cbn [zipWith combine]; try constructor.
  - inversion Hr; inversion Ht; subst. eexists. split; [reflexivity |].
    now apply df_anchor_spec.
  - inversion Hr; inversion Ht; subst. now apply IH.
Qed.
End DflAnchor.

Section DflNormalization.
Context {T : Type} {N : Num T} {K : Kernels T} {E : Externals T}.

(** With positive anchors and the distribution loss enabled, the dfl loss
    is the weighted sum over the positive anchors, divided by
    [target_scores_sum] exactly when that sum is greater than 1. *)
Lemma BboxLoss_forward_dfl (s : BboxLoss.self) pd pb ap tb ts tss fg pdp dl :
  BboxLoss.use_dfl s = true ->
  (0 < count_pos (data fg))%nat ->
  result_of (mapM (view4 (BboxLoss.reg_max s + 1)) (select_pos (data fg) (data pd)))
  = inr pdp ->
  result_of (BboxLoss._df_loss s pdp (positive_distances s ap tb fg)) = inr dl ->
  exists li ld,
    result_of (BboxLoss.forward s pd pb ap tb ts tss fg) = inr (li, ld)
    /\ data ld
       = if gtb (data tss) (of_Z 1)
         then div (weighted_sum dl (positive_weights ts fg)) (data tss)
         else weighted_sum dl (positive_weights ts fg).
Proof.
  intros Hdfl Hpos Hv Hd. unfold BboxLoss.forward.
  apply Nat.ltb_lt in Hpos. rewrite Hpos, Hdfl.
  unfold cube, mat in *.
  rewrite result_bind, Hv, result_bind.
  change (data (tmap (select_pos (data fg))
                  (tmap2 (fun ap0 tb0 =>
                            map (zipWith (fun p b =>
                                   bbox2dist bbox2dist_eps p b (BboxLoss.reg_max s))
                                   ap0) tb0) ap tb)))
    with (positive_distances s ap tb fg).
  rewrite Hd. cbn [result_of snd ret].
  do 2 eexists. split; [reflexivity |].
  rewrite data_if. reflexivity.
Qed.

Lemma ComputeLoss_dfl_component (s : @ComputeLoss.self T) ac ps pd step lam gd l a
    pdp dl loss comps :
  let bl := ComputeLoss.bbox_loss s in
  let fg := fg_mask a in
  let tb := tmap2 (batch_rows_op div) (target_bboxes a) (l_stride_tensor l) in
  let tss := tsum3 (data (target_scores a)) in
  let S := weighted_sum dl (positive_weights (target_scores a) fg) in
  BboxLoss.use_dfl bl = true ->
  (0 < count_pos (data fg))%nat ->
  result_of (mapM (view4 (BboxLoss.reg_max bl + 1)) (select_pos (data fg) (data pd)))
  = inr pdp ->
  result_of (BboxLoss._df_loss bl pdp
               (positive_distances bl (l_anchor_points_s l) tb fg)) = inr dl ->
  result_of (ComputeLoss.losses s ac ps pd step lam gd l a) = inr (loss, comps) ->
  nth_error (data comps) 1
  = Some (mul (w_dfl (ComputeLoss.loss_weight s))
              (if gtb tss (of_Z 1) then div S tss else S)).
Proof.
  intros bl fg tb tss S Hdfl Hpos Hv Hd H. unfold ComputeLoss.losses in H.
  bind_inv H as u Hu. bind_inv H as oh Hoh. bind_inv H as raw Hraw.
  bind_inv H as bb Hbb. destruct bb as [li ld].
  destruct (BboxLoss_forward_dfl bl pd (l_pred_bboxes l) (l_anchor_points_s l) tb
              (target_scores a) (tmap tsum3 (target_scores a)) fg Hdfl Hpos Hv Hd)
    as (li' & ld' & Hf & Hld).
  fold bl fg tb in Hbb. rewrite Hf in Hbb. injection Hbb as <- <-.
  destruct gd as [gd |].
  - bind_inv H as g Hg. cbn in H. injection H as _ <-. cbn. rewrite Hld. reflexivity.
  - cbn in H. injection H as _ <-. cbn. rewrite Hld. reflexivity.
Qed.

Lemma ComputeLoss1_dfl_component (s : @ComputeLoss1.self T) ac ps pd step l a
    pdp dl loss comps :
  let bl := ComputeLoss1.bbox_loss s in
  let fg := fg_mask a in
  let tb := tmap2 (batch_rows_op div) (target_bboxes a) (l_stride_tensor l) in
  let tss := tsum3 (data (target_scores a)) in
  let S := weighted_sum dl (positive_weights (target_scores a) fg) in
  BboxLoss.use_dfl bl = true ->
  (0 < count_pos (data fg))%nat ->
  result_of (mapM (view4 (BboxLoss.reg_max bl + 1)) (select_pos (data fg) (data pd)))
  = inr pdp ->
  result_of (BboxLoss._df_loss bl pdp
               (positive_distances bl (l_anchor_points_s l) tb fg)) = inr dl ->
  result_of (ComputeLoss1.losses s ac ps pd step l a) = inr (loss, comps) ->
  nth_error (data comps) 1
  = Some (mul (w_dfl (ComputeLoss1.loss_weight s))
              (if gtb tss (of_Z 1) then div S tss else S)).
Proof.
  intros bl fg tb tss S Hdfl Hpos Hv Hd H. unfold ComputeLoss1.losses in H.
  bind_inv H as u Hu. bind_inv H as oh Hoh. bind_inv H as raw Hraw.
  bind_inv H as bb Hbb. destruct bb as [li ld].
  destruct (BboxLoss_forward_dfl bl pd (l_pred_bboxes l) (l_anchor_points_s l) tb
              (target_scores a) (tmap tsum3 (target_scores a)) fg Hdfl Hpos Hv Hd)
    as (li' & ld' & Hf & Hld).
  fold bl fg tb in Hbb. rewrite Hf in Hbb. injection Hbb as <- <-.
  cbn in H. injection H as _ <-. cbn. rewrite Hld. reflexivity.
Qed.
End DflNormalization.

(** C7 (as amended).  For every positive anchor whose four target distances
    lie in [0, reg_max), [_df_loss] returns the mean over the four sides of
    cross-entropy against the lower bin times (upper bin - distance) plus
    cross-entropy against the upper bin times (1 - that weight).
    [BboxLoss.forward] multiplies the value of each positive anchor by the
    anchor's total target score, sums, and divides the sum by
    [target_scores_sum] exactly when that sum is greater than 1.  This is the
    threshold of the classification loss in [ComputeLoss]; in [ComputeLoss1]
    the classification loss is divided whenever the sum is greater than 0,
    while the dfl loss still uses the threshold 1. *)
Theorem C7_distribution_focal_loss :
  (forall (K : Kernels Q) (E : Externals Q) (s : BboxLoss.self)
          (pd : list (mat Q)) (target : mat Q),
      Forall (Forall (in_range s)) target ->
      Forall (fun t => length t = 4%nat) target ->
      Forall (fun sides => length sides = 4%nat) pd ->
      exists r,
        BboxLoss._df_loss s pd target = ([], inr r)
        /\ Forall2 (fun row st =>
                      exists v, row = [v] /\ (v == dfl_anchor (fst st) (snd st))%Q)
                   r (combine pd target))
  /\ (forall (T : Type) (N : Num T) (K : Kernels T) (E : Externals T)
             (s : BboxLoss.self) pd pb ap tb ts tss fg pdp dl,
        BboxLoss.use_dfl s = true ->
        (0 < count_pos (data fg))%nat ->
        result_of (mapM (view4 (BboxLoss.reg_max s + 1))
                        (select_pos (data fg) (data pd))) = inr pdp ->
        result_of (BboxLoss._df_loss s pdp (positive_distances s ap tb fg))
        = inr dl ->
        exists li ld,
          result_of (BboxLoss.forward s pd pb ap tb ts tss fg) = inr (li, ld)
          /\ data ld
             = if gtb (data tss) (of_Z 1)
               then div (weighted_sum dl (positive_weights ts fg)) (data tss)
               else weighted_sum dl (positive_weights ts fg))
  /\ (forall (T : Type) (N : Num T) (K : Kernels T) (E : Externals T)
             (s : @ComputeLoss.self T) ac ps pd step lam gd l a
             oh raw pdp dl loss comps,
        let bl := ComputeLoss.bbox_loss s in
        let fg := fg_mask a in
        let tb := tmap2 (batch_rows_op div) (target_bboxes a) (l_stride_tensor l) in
        let tss := tsum3 (data (target_scores a)) in
        let S := weighted_sum dl (positive_weights (target_scores a) fg) in
        BboxLoss.use_dfl bl = true ->
        (0 < count_pos (data fg))%nat ->
        result_of (ComputeLoss.one_hot_target s fg (target_labels a)) = inr oh ->
        result_of (VarifocalLoss.forward ac ps (target_scores a) oh
                     VarifocalLoss.default_alpha VarifocalLoss.default_gamma)
        = inr raw ->
        result_of (mapM (view4 (BboxLoss.reg_max bl + 1))
                        (select_pos (data fg) (data pd))) = inr pdp ->
        result_of (BboxLoss._df_loss bl pdp
                     (positive_distances bl (l_anchor_points_s l) tb fg)) = inr dl ->
        result_of (ComputeLoss.losses s ac ps pd step lam gd l a)
        = inr (loss, comps) ->
        nth_error (data comps) 1
        = Some (mul (w_dfl (ComputeLoss.loss_weight s))
                    (if gtb tss (of_Z 1) then div S tss else S))
        /\ nth_error (data comps) 2
           = Some (mul (w_class (ComputeLoss.loss_weight s))
                       (if gtb tss (of_Z 1) then div (data raw) tss else data raw)))
  /\ (forall (T : Type) (N : Num T) (K : Kernels T) (E : Externals T)
             (s : @ComputeLoss1.self T) ac ps pd step l a
             oh raw pdp dl loss comps,
        let bl := ComputeLoss1.bbox_loss s in
        let fg := fg_mask a in
        let tb := tmap2 (batch_rows_op div) (target_bboxes a) (l_stride_tensor l) in
        let tss := tsum3 (data (target_scores a)) in
        let S := weighted_sum dl (positive_weights (target_scores a) fg) in
        BboxLoss.use_dfl bl = true ->
        (0 < count_pos (data fg))%nat ->
        result_of (ComputeLoss1.one_hot_target s fg (target_labels a)) = inr oh ->
        result_of (VarifocalLoss.forward ac ps (target_scores a) oh
                     VarifocalLoss.default_alpha VarifocalLoss.default_gamma)
        = inr raw ->
        result_of (mapM (view4 (BboxLoss.reg_max bl + 1))
                        (select_pos (data fg) (data pd))) = inr pdp ->
        result_of (BboxLoss._df_loss bl pdp
                     (positive_distances bl (l_anchor_points_s l) tb fg)) = inr dl ->
        result_of (ComputeLoss1.losses s ac ps pd step l a) = inr (loss, comps) ->
        nth_error (data comps) 1
        = Some (mul (w_dfl (ComputeLoss1.loss_weight s))
                    (if gtb tss (of_Z 1) then div S tss else S))
        /\ nth_error (data comps) 2
           = Some (mul (w_class (ComputeLoss1.loss_weight s))
                       (if gtb tss (of_Z 0) then div (data raw) tss else data raw))).
Proof.
  split; [| split; [| split]].
  - intros. now apply df_loss_spec.
  - intros. eapply BboxLoss_forward_dfl; eassumption.
  - intros T N K E s ac ps pd step lam gd l a oh raw pdp dl loss comps
           bl fg tb tss S Hdfl Hpos Hoh Hraw Hv Hd H. split.
    + eapply ComputeLoss_dfl_component; eassumption.
    + eapply ComputeLoss_class_component; eassumption.
  - intros T N K E s ac ps pd step l a oh raw pdp dl loss comps
           bl fg tb tss S Hdfl Hpos Hoh Hraw Hv Hd H. split.
    + eapply ComputeLoss1_dfl_component; eassumption.
    + eapply ComputeLoss1_class_component; eassumption.
Qed.

Lemma C7_distribution_focal_loss_witness :
  let s := @ComputeLoss.bbox_loss Q Fixture.config in
  exists v,
    @BboxLoss._df_loss Q Q_Num Fixture.kernels s
      [[[1; 2; 3]; [1; 2; 3]; [1; 2; 3]; [1; 2; 3]]]
      [[1 # 2; 1 # 2; 1 # 2; 3 # 2]]
    = ([], inr [[v]])
    /\ (v == @dfl_anchor Fixture.kernels
               [[1; 2; 3]; [1; 2; 3]; [1; 2; 3]; [1; 2; 3]]
               [1 # 2; 1 # 2; 1 # 2; 3 # 2])%Q
    /\ (v == 7 # 4)%Q.
Proof.
  intros s.
  destruct C7_distribution_focal_loss as (H & _).
  destruct (H Fixture.kernels (Fixture.externals None 1) s
              [[[1; 2; 3]; [1; 2; 3]; [1; 2; 3]; [1; 2; 3]]]
              [[1 # 2; 1 # 2; 1 # 2; 3 # 2]]) as (r & Hr & Hspec).
  - repeat constructor; vm_compute; congruence.
  - repeat constructor.
  - repeat constructor.
  - inversion Hspec as [| row st r' st' (v & -> & Hv) Hrest]; subst.
    inversion Hrest; subst.
    exists v. split; [exact Hr |]. split; [exact Hv |].
    rewrite Hv. vm_compute. reflexivity.
Defined.

(** The claim as stated fails for [ComputeLoss1]: with one positive anchor
    of soft score 1/2 the sum of target scores is 1/2; the classification
    loss is divided by it (1/2 > 0), the dfl loss is not (1/2 is not greater
    than 1). *)
Lemma C7_counterexample_ComputeLoss1_threshold :
  let E := Fixture.externals None (1 # 2) in
  let s := Fixture.config1 in
  let a := Fixture.result (1 # 2) CUDA in
  let l := Fixture.locals in
  let ps := snd (fst Fixture.outputs) in
  let pd := snd Fixture.outputs in
  let bl := @ComputeLoss1.bbox_loss Q s in
  let tb := tmap2 (batch_rows_op Qdiv) (target_bboxes a) (l_stride_tensor l) in
  let tss := @tsum3 Q Q_Num (data (target_scores a)) in
  exists oh raw pdp dl loss comps cd cc,
    result_of (ComputeLoss1.one_hot_target s (fg_mask a) (target_labels a)) = inr oh
    /\ result_of (@VarifocalLoss.forward Q Q_Num Fixture.kernels true ps
                    (target_scores a) oh VarifocalLoss.default_alpha
                    VarifocalLoss.default_gamma) = inr raw
    /\ result_of (mapM (view4 (BboxLoss.reg_max bl + 1))
                       (select_pos (data (fg_mask a)) (data pd))) = inr pdp
    /\ result_of (@BboxLoss._df_loss Q Q_Num Fixture.kernels bl pdp
                    (@positive_distances Q Q_Num E bl (l_anchor_points_s l) tb
                       (fg_mask a))) = inr dl
    /\ result_of (@ComputeLoss1.losses Q Q_Num Fixture.kernels E s true ps pd 1 l a)
       = inr (loss, comps)
    /\ (tss == 1 # 2)%Q
    /\ nth_error (data comps) 2 = Some cc
    /\ (cc == w_class (ComputeLoss1.loss_weight s) * (data raw / tss))%Q
    /\ nth_error (data comps) 1 = Some cd
    /\ (cd == w_dfl (ComputeLoss1.loss_weight s)
              * @weighted_sum Q Q_Num dl (positive_weights (target_scores a) (fg_mask a)))%Q
    /\ ~ (cd == w_dfl (ComputeLoss1.loss_weight s)
               * (@weighted_sum Q Q_Num dl
                    (positive_weights (target_scores a) (fg_mask a)) / tss))%Q.
Proof.
  intros E s a l ps pd bl tb tss.
  do 8 eexists.
  split; [vm_compute; reflexivity |].
  split; [vm_compute; reflexivity |].
  split; [vm_compute; reflexivity |].
  split; [vm_compute; reflexivity |].
  split; [vm_compute; reflexivity |].
  split; [vm_compute; reflexivity |].
  split; [vm_compute; reflexivity |].
  split; [vm_compute; reflexivity |].
  split; [vm_compute; reflexivity |].
  split; [vm_compute; reflexivity |].
  vm_compute. discriminate.
Qed.

(** ** C8: the two composers *)

Lemma bind_ext_result {A B} (m : M A) (f g : A -> M B) :
  (forall a, result_of m = inr a -> f a = g a) -> bind m f = bind m g.
Proof.
  destruct m as [tr [e | a]]; simpl; intros Hfg; [reflexivity |].
  now rewrite (Hfg a eq_refl).
Qed.

Lemma thresholds_agree_Q (tss : Q) :
  (1 < tss)%Q \/ (tss == 0)%Q ->
  @gtb Q Q_Num tss (of_Z 1) = @gtb Q Q_Num tss (of_Z 0).
Proof.
  cbn [gtb of_Z Q_Num]. change (inject_Z 1) with 1%Q. change (inject_Z 0) with 0%Q.
  intros [Hgt | Hz].
  - assert (H1 : Qgtb tss 1 = true) by now apply Qgtb_lt.
    assert (H0 : Qgtb tss 0 = true) by (apply Qgtb_lt; lra).
    congruence.
  - rewrite !Qgtb_false; [reflexivity | lra | lra].
Qed.

Section Equivalence.
Context {T : Type} {N : Num T} {K : Kernels T} {E : Externals T}.

Lemma prepare_same (s : @ComputeLoss.self T) outputs targets :
  ComputeLoss1.prepare (to_alternate s) outputs targets
  = ComputeLoss.prepare s outputs targets.
Proof. reflexivity. Qed.

Lemma assign_same (s : @ComputeLoss.self T) epoch ps l :
  ComputeLoss1.assign (to_alternate s) epoch ps l = ComputeLoss.assign s epoch ps l.
Proof. reflexivity. Qed.

Lemma losses_same (s : @ComputeLoss.self T) ac ps pd step lam l a :
  gtb (tsum3 (data (target_scores a))) (of_Z 1)
  = gtb (tsum3 (data (target_scores a))) (of_Z 0) ->
  ComputeLoss1.losses (to_alternate s) ac ps pd step l a
  = ComputeLoss.losses s ac ps pd step lam None l a.
Proof.
  intros Hthr. unfold ComputeLoss1.losses, ComputeLoss.losses.
  apply bind_ext_result. intros u _.
  apply bind_ext_result. intros oh _.
  apply bind_ext_result. intros loss_cls _.
  cbn [data tmap]. unfold cube, mat in *. rewrite Hthr. reflexivity.
Qed.

Lemma call_same (s : @ComputeLoss.self T) ac outputs targets epoch step lam :
  (forall l a,
      result_of (ComputeLoss.prepare s outputs targets) = inr l ->
      result_of (ComputeLoss.assign s epoch (snd (fst outputs)) l) = inr a ->
      gtb (tsum3 (data (target_scores a))) (of_Z 1)
      = gtb (tsum3 (data (target_scores a))) (of_Z 0)) ->
  ComputeLoss1.__call__ (to_alternate s) ac outputs targets epoch step
  = ComputeLoss.__call__ s ac outputs targets epoch step lam None.
Proof.
  intros Hthr. unfold ComputeLoss1.__call__, ComputeLoss.__call__.
  rewrite prepare_same. apply bind_ext_result. intros l Hl.
  rewrite assign_same. apply bind_ext_result. intros a Ha.
  apply losses_same. now apply (Hthr l a).
Qed.
End Equivalence.

(** C8.  Read with one configuration, the two composers have the same
    preparation and the same assignment block, and their loss blocks differ
    only in the threshold of the classification normalization.  Called on
    the same inputs, with [gating_decision = None] for [ComputeLoss], they
    return the same total loss and the same component vector (and emit the
    same events) whenever the sum of target scores is greater than 1 or
    equal to 0.  Their default configurations differ only in the loss
    weights. *)
Theorem C8_composers_agree :
  (forall (K : Kernels Q) (E : Externals Q) (s : @ComputeLoss.self Q)
          ac outputs targets epoch step lam,
      (forall l a,
          result_of (ComputeLoss.prepare s outputs targets) = inr l ->
          result_of (ComputeLoss.assign s epoch (snd (fst outputs)) l) = inr a ->
          (1 < @tsum3 Q Q_Num (data (target_scores a)))%Q
          \/ (@tsum3 Q Q_Num (data (target_scores a)) == 0)%Q) ->
      ComputeLoss1.__call__ (to_alternate s) ac outputs targets epoch step
      = ComputeLoss.__call__ s ac outputs targets epoch step lam None)
  /\ (forall (T : Type) (N : Num T) (K : Kernels T) (E : Externals T)
             (s : @ComputeLoss.self T) ac outputs targets epoch step lam,
        (forall l a,
            result_of (ComputeLoss.prepare s outputs targets) = inr l ->
            result_of (ComputeLoss.assign s epoch (snd (fst outputs)) l) = inr a ->
            gtb (tsum3 (data (target_scores a))) (of_Z 1)
            = gtb (tsum3 (data (target_scores a))) (of_Z 0)) ->
        ComputeLoss1.__call__ (to_alternate s) ac outputs targets epoch step
        = ComputeLoss.__call__ s ac outputs targets epoch step lam None)
  /\ (forall (T : Type) (N : Num T) (K : Kernels T) (E : Externals T)
             (s : @ComputeLoss.self T) ac outputs targets epoch ps pd step lam l a,
        ComputeLoss1.prepare (to_alternate s) outputs targets
        = ComputeLoss.prepare s outputs targets
        /\ ComputeLoss1.assign (to_alternate s) epoch ps l
           = ComputeLoss.assign s epoch ps l
        /\ (gtb (tsum3 (data (target_scores a))) (of_Z 1)
            = gtb (tsum3 (data (target_scores a))) (of_Z 0) ->
            ComputeLoss1.losses (to_alternate s) ac ps pd step l a
            = ComputeLoss.losses s ac ps pd step lam None l a))
  /\ (forall (T : Type) (N : Num T),
        @ComputeLoss1.default T N
        = to_alternate (with_loss_weight (@ComputeLoss.default T N)
                          (ComputeLoss1.loss_weight (@ComputeLoss1.default T N)))).
Proof.
  split; [| split; [| split]].
  - intros K E s ac outputs targets epoch step lam Hthr.
    apply call_same. intros l a Hl Ha. apply thresholds_agree_Q. now apply (Hthr l a).
  - intros. now apply call_same.
  - intros. split; [reflexivity |]. split; [reflexivity |]. apply losses_same.
  - intros. reflexivity.
Qed.

(** A sum of target scores of 2: the two composers return the same. *)
Lemma C8_composers_agree_witness :
  @ComputeLoss1.__call__ Q Q_Num Fixture.kernels (Fixture.externals None 2)
    (to_alternate Fixture.config) true Fixture.outputs Fixture.targets 3 0
  = @ComputeLoss.__call__ Q Q_Num Fixture.kernels (Fixture.externals None 2)
      Fixture.config true Fixture.outputs Fixture.targets 3 0 0 None.
Proof.
  destruct C8_composers_agree as (H & _).
  apply H. intros l a Hl Ha.
  vm_compute in Hl. injection Hl as <-.
  vm_compute in Ha. injection Ha as <-.
  left. vm_compute. reflexivity.
Defined.

(** Between the thresholds the two composers differ: with a sum of target
    scores of 1/2 the class components are 3/1024 and 3/512. *)
Example composers_differ_between_thresholds :
  result_of
    (@ComputeLoss1.__call__ Q Q_Num Fixture.kernels (Fixture.externals None (1 # 2))
       (to_alternate Fixture.config) true Fixture.outputs Fixture.targets 3 0)
  <> result_of
       (@ComputeLoss.__call__ Q Q_Num Fixture.kernels (Fixture.externals None (1 # 2))
          Fixture.config true Fixture.outputs Fixture.targets 3 0 0 None).
Proof. vm_compute. discriminate. Qed.

(** * Further properties of the loss composers *)

(** ** The checks at the head of [__call__] *)

Lemma emits_nothing {A} (m : M A) : emits (fun _ => False) m -> trace_of m = [].
Proof.
  unfold emits. destruct (trace_of m) as [| ev tr]; [reflexivity |].
  intros Hf. inversion Hf. contradiction.
Qed.

Section HeadChecks.
Context {T : Type} {N : Num T} {K : Kernels T} {E : Externals T}.

Lemma ComputeLoss_prepare_silent (s : @ComputeLoss.self T) outputs targets :
  trace_of (ComputeLoss.prepare s outputs targets) = [].
Proof. apply emits_nothing. apply ComputeLoss_prepare_emits. Qed.

Lemma ComputeLoss1_prepare_silent (s : @ComputeLoss1.self T) outputs targets :
  trace_of (ComputeLoss1.prepare s outputs targets) = [].
Proof. apply emits_nothing. apply ComputeLoss1_prepare_emits. Qed.
End HeadChecks.

(** ** When the accelerator cache is emptied *)

Lemma cache_releases_app tr tr' :
  cache_releases (tr ++ tr') = (cache_releases tr + cache_releases tr')%nat.
Proof. unfold cache_releases. now rewrite filter_app, length_app. Qed.

Lemma cpu_retries_app tr tr' :
  cpu_retries (tr ++ tr') = (cpu_retries tr + cpu_retries tr')%nat.
Proof. unfold cpu_retries. now rewrite filter_app, length_app. Qed.

Lemma trace_bind_silent {A B} (m : M A) (f : A -> M B) :
  (forall a, emits (fun _ => False) (f a)) -> trace_of (bind m f) = trace_of m.
Proof.
  intros Hf. rewrite trace_bind. destruct (result_of m) as [e | a].
  - apply app_nil_r.
  - rewrite (emits_nothing (Hf a)). apply app_nil_r.
Qed.

Section CacheSchedule.
Context {T : Type} {N : Num T} {K : Kernels T} {E : Externals T}.

(** After the assignment the only event is the periodic release. *)
Lemma ComputeLoss_losses_trace (s : @ComputeLoss.self T) ac ps pd step lam gd l a :
  trace_of (ComputeLoss.losses s ac ps pd step lam gd l a)
  = if (step mod 10 =? 0)%Z then [EvEmptyCache] else [].
Proof.
  unfold ComputeLoss.losses. rewrite trace_bind_silent.
  - now destruct (step mod 10 =? 0)%Z.
  - intros _.
    apply emits_bind; [apply ComputeLoss_one_hot_target_emits | intros].
    apply emits_bind; [apply emits_vfl | intros].
    apply emits_bind; [apply emits_bbox_forward | intros [li ld]].
    destruct gd as [gd |]; [| apply emits_ret].
    apply emits_bind; [apply emits_cat_dim1 | intros; apply emits_ret].
Qed.

Lemma ComputeLoss1_losses_trace (s : @ComputeLoss1.self T) ac ps pd step l a :
  trace_of (ComputeLoss1.losses s ac ps pd step l a)
  = if (step mod 10 =? 0)%Z then [EvEmptyCache] else [].
Proof.
  unfold ComputeLoss1.losses. rewrite trace_bind_silent.
  - now destruct (step mod 10 =? 0)%Z.
  - intros _.
    apply emits_bind; [apply ComputeLoss1_one_hot_target_emits | intros].
    apply emits_bind; [apply emits_vfl | intros].
    apply emits_bind; [apply emits_bbox_forward | intros [li ld]].
    apply emits_ret.
Qed.

(** The trace of the try/except block: one assigner call, or the five
    events of a retry. *)
Lemma ComputeLoss_assign_releases (s : @ComputeLoss.self T) epoch ps l :
  cache_releases (trace_of (ComputeLoss.assign s epoch ps l))
  = cpu_retries (trace_of (ComputeLoss.assign s epoch ps l))
  /\ (cpu_retries (trace_of (ComputeLoss.assign s epoch ps l)) <= 1)%nat.
Proof.
  destruct (ComputeLoss_retry_protocol s epoch ps l) as (args & args' & _ & Heq).
  cbv zeta in Heq. rewrite Heq.
  match goal with
  | |- context [match ?p with inl _ => _ | inr _ => _ end] => destruct p as [e | a]
  end; [destruct (is_RuntimeError e) |]; cbn; auto.
Qed.

Lemma ComputeLoss1_assign_releases (s : @ComputeLoss1.self T) epoch ps l :
  cache_releases (trace_of (ComputeLoss1.assign s epoch ps l))
  = cpu_retries (trace_of (ComputeLoss1.assign s epoch ps l))
  /\ (cpu_retries (trace_of (ComputeLoss1.assign s epoch ps l)) <= 1)%nat.
Proof.
  destruct (ComputeLoss1_retry_protocol s epoch ps l) as (args & args' & _ & Heq).
  cbv zeta in Heq. rewrite Heq.
  match goal with
  | |- context [match ?p with inl _ => _ | inr _ => _ end] => destruct p as [e | a]
  end; [destruct (is_RuntimeError e) |]; cbn; auto.
Qed.
End CacheSchedule.

(** X1.  On a step that returns its losses, [torch.cuda.empty_cache()] is
    called once for the CPU retry of the assignment, if there was one, and
    once more exactly when [step_num] is a multiple of 10 (for negative
    step numbers too).  A step retries at most once, so the cache is emptied
    at most twice per step. *)
Theorem cache_release_schedule :
  forall (T : Type) (N : Num T) (K : Kernels T) (E : Externals T)
         (s : @ComputeLoss.self T) (s1 : @ComputeLoss1.self T) (autocast : bool)
         outputs targets (epoch_num step_num : Z) (lambda_reg : T) gating_decision,
    let call := ComputeLoss.__call__ s autocast outputs targets epoch_num step_num
                  lambda_reg gating_decision in
    let call1 := ComputeLoss1.__call__ s1 autocast outputs targets epoch_num step_num in
    let periodic := if (step_num mod 10 =? 0)%Z then 1%nat else 0%nat in
    (forall r, result_of call = inr r ->
       cache_releases (trace_of call) = (cpu_retries (trace_of call) + periodic)%nat
       /\ (cpu_retries (trace_of call) <= 1)%nat)
    /\ (forall r, result_of call1 = inr r ->
          cache_releases (trace_of call1) = (cpu_retries (trace_of call1) + periodic)%nat
          /\ (cpu_retries (trace_of call1) <= 1)%nat).
Proof.
  intros. split.
  - intros r Hr. subst call. unfold ComputeLoss.__call__ in *.
    bind_inv Hr as l Hl. bind_inv Hr as a Ha.
    rewrite trace_bind, Hl, ComputeLoss_prepare_silent. cbv beta iota.
    rewrite trace_bind, Ha. cbv beta iota. rewrite ComputeLoss_losses_trace.
    cbn [app]. rewrite cache_releases_app, cpu_retries_app.
    destruct (ComputeLoss_assign_releases s epoch_num (snd (fst outputs)) l) as [-> Hle].
    subst periodic. destruct (step_num mod 10 =? 0)%Z; cbn; lia.
  - intros r Hr. subst call1. unfold ComputeLoss1.__call__ in *.
    bind_inv Hr as l Hl. bind_inv Hr as a Ha.
    rewrite trace_bind, Hl, ComputeLoss1_prepare_silent. cbv beta iota.
    rewrite trace_bind, Ha. cbv beta iota. rewrite ComputeLoss1_losses_trace.
    cbn [app]. rewrite cache_releases_app, cpu_retries_app.
    destruct (ComputeLoss1_assign_releases s1 epoch_num (snd (fst outputs)) l) as [-> Hle].
    subst periodic. destruct (step_num mod 10 =? 0)%Z; cbn; lia.
Qed.

(** A step 20 whose first assignment runs out of memory: two releases. *)
Lemma cache_release_schedule_witness :
  let call :=
    @ComputeLoss.__call__ Q Q_Num Fixture.kernels
      (Fixture.externals (Some OutOfMemoryError) 1)
      Fixture.config true Fixture.outputs Fixture.targets 3 20 0 None in
  cache_releases (trace_of call) = (cpu_retries (trace_of call) + 1)%nat
  /\ (cpu_retries (trace_of call) <= 1)%nat.
Proof.
  intros call.
  destruct (@cache_release_schedule Q Q_Num Fixture.kernels
              (Fixture.externals (Some OutOfMemoryError) 1)
              Fixture.config Fixture.config1 true Fixture.outputs Fixture.targets
              3%Z 20%Z 0 None) as [H _].
  let r := eval vm_compute in (result_of call) in
  match r with
  | inr ?v => apply (H v); vm_compute; reflexivity
  end.
Defined.

(** ** The one-hot labels of the classification loss *)

Lemma mapM_ret_map {A B} (f : A -> M B) (g : A -> B) (l : list A) :
  (forall a, In a l -> f a = ret (g a)) -> mapM f l = ret (map g l).
Proof.
  induction l as [| a l IH]; intros Hf; simpl; [reflexivity |].
  rewrite (Hf a (or_introl eq_refl)), bind_ret_l.
  rewrite IH, bind_ret_l; [reflexivity |]. intros a' Ha'. apply Hf. now right.
Qed.

(** [mapM] stops at the first element that raises. *)
Lemma mapM_raises {A B} (f : A -> M B) (g : A -> B) (bad : A -> bool)
    (err : A -> exn) (l : list A) :
  (forall a, In a l -> f a = if bad a then raise (err a) else ret (g a)) ->
  existsb bad l = true ->
  exists a, In a l /\ bad a = true /\ mapM f l = raise (err a).
Proof.
  induction l as [| a l IH]; intros Hf Hex; simpl in Hex; [discriminate |].
  simpl. rewrite (Hf a (or_introl eq_refl)).
  destruct (bad a) eqn:Hb.
  - exists a. split; [now left | split; [exact Hb | reflexivity]].
  - simpl in Hex. rewrite bind_ret_l.
    destruct IH as (a' & Hin & Hb' & Heq); auto.
    { intros a' Ha'. apply Hf. now right. }
    exists a'. split; [now right | split; [exact Hb' | now rewrite Heq]].
Qed.

Lemma removelast_map_seq {A} (f : nat -> A) (n : nat) :
  removelast (map f (seq 0 (n + 1))) = map f (seq 0 n).
Proof.
  rewrite seq_app, map_app. cbn [seq map]. apply removelast_last.
Qed.

Lemma zipWith_map2 {A B C D} (f : A -> B -> C) (g : C -> D) l l' :
  map g (zipWith f l l') = zipWith (fun a b => g (f a b)) l l'.
Proof.
  revert l'. induction l as [| a l IH]; intros [| b l']; simpl; auto.
  now rewrite IH.
Qed.

(** One anchor: relabel, encode over [n + 1] classes, drop the last
    column. *)
Lemma one_hot_anchor (n : nat) (m : bool) (l : Z) :
  (oh <- one_hot (if m then l else Z.of_nat n) (n + 1) ;; ret (removelast oh))
  = if label_ok n m l then ret (one_hot_row n m l)
    else raise (RuntimeError "Class values must be smaller than num_classes.").
Proof.
  unfold one_hot, label_ok.
  assert (Hrow : forall l',
    (forall j, (j < n)%nat ->
       (Z.of_nat j =? l')%Z = m && (Z.of_nat j =? l)%Z) ->
    removelast (map (fun j => if (Z.of_nat j =? l')%Z then 1%Z else 0%Z) (seq 0 (n + 1)))
    = one_hot_row n m l).
  { intros l' Hj. rewrite removelast_map_seq. unfold one_hot_row.
    apply map_ext_in. intros j Hin. apply in_seq in Hin. rewrite Hj by lia.
    reflexivity. }
  destruct m; cbn [negb orb].
  - replace (l <? Z.of_nat (n + 1))%Z with (l <=? Z.of_nat n)%Z
      by (destruct (Z.leb_spec l (Z.of_nat n)), (Z.ltb_spec l (Z.of_nat (n + 1)));
          try reflexivity; lia).
    destruct ((0 <=? l) && (l <=? Z.of_nat n))%Z.
    + rewrite bind_ret_l. f_equal. f_equal. apply Hrow. intros; reflexivity.
    + reflexivity.
  - replace ((0 <=? Z.of_nat n) && (Z.of_nat n <? Z.of_nat (n + 1)))%Z with true
      by (symmetry; apply andb_true_iff; split;
          [apply Z.leb_le | apply Z.ltb_lt]; lia).
    rewrite bind_ret_l. f_equal. f_equal. apply Hrow.
    intros j Hj. cbn [andb]. apply Z.eqb_neq. lia.
Qed.

Lemma forallb_zipWith_In {A B C} (f : A -> B -> C) (p : C -> bool) l l' a b :
  forallb p (zipWith f l l') = true ->
  In (a, b) (combine l l') -> p (f a b) = true.
Proof.
  revert l'. induction l as [| a0 l IH]; intros [| b0 l'] Hall Hin;
    simpl in *; try contradiction.
  apply andb_true_iff in Hall as [H0 Hall].
  destruct Hin as [Heq | Hin]; [now inversion Heq; subst | eauto].
Qed.

Lemma forallb_zipWith_false {A B C} (f : A -> B -> C) (p : C -> bool) l l' :
  forallb p (zipWith f l l') = false ->
  existsb (fun ab => negb (p (f (fst ab) (snd ab)))) (combine l l') = true.
Proof.
  revert l'. induction l as [| a l IH]; intros [| b l'] Hall; simpl in *;
    try discriminate.
  destruct (p (f a b)); simpl in *; auto.
Qed.

Lemma zipWith_combine {A B C} (f : A -> B -> C) l l' :
  zipWith f l l' = map (fun ab => f (fst ab) (snd ab)) (combine l l').
Proof.
  revert l'. induction l as [| a l IH]; intros [| b l']; simpl; auto.
  now rewrite IH.
Qed.

Section OneHot.
Variable n : nat.

Let anchor (ml : bool * Z) : M (list Z) :=
  oh <- one_hot (if fst ml then snd ml else Z.of_nat n) (n + 1) ;; ret (removelast oh).

Let bad_row (r : list bool * list Z) : bool :=
  negb (forallb (fun b => b) (zipWith (label_ok n) (fst r) (snd r))).

Lemma one_hot_rows_ok (ms : list bool) (ls : list Z) :
  forallb (fun b => b) (zipWith (label_ok n) ms ls) = true ->
  mapM anchor (combine ms ls) = ret (zipWith (one_hot_row n) ms ls).
Proof.
  intros Hok. rewrite zipWith_combine.
  apply mapM_ret_map. intros [m l] Hin. unfold anchor. cbn [fst snd].
  rewrite one_hot_anchor. now rewrite (forallb_zipWith_In _ _ _ _ _ _ Hok Hin).
Qed.

Lemma one_hot_rows_bad (ms : list bool) (ls : list Z) :
  forallb (fun b => b) (zipWith (label_ok n) ms ls) = false ->
  mapM anchor (combine ms ls)
  = raise (RuntimeError "Class values must be smaller than num_classes.").
Proof.
  intros Hbad.
  destruct (@mapM_raises _ _ anchor (fun ml => one_hot_row n (fst ml) (snd ml))
              (fun ml => negb (label_ok n (fst ml) (snd ml)))
              (fun _ => RuntimeError "Class values must be smaller than num_classes.")
              (combine ms ls)) as (a & _ & _ & Heq).
  - intros [m l] _. unfold anchor. cbn [fst snd]. rewrite one_hot_anchor.
    now destruct (label_ok n m l).
  - now apply (forallb_zipWith_false (label_ok n) (fun b => b)).
  - exact Heq.
Qed.
End OneHot.

Lemma mapM_map {A B C} (f : B -> M C) (h : A -> B) (l : list A) :
  mapM f (map h l) = mapM (fun a => f (h a)) l.
Proof.
  induction l as [| a l IH]; simpl; [reflexivity |]. now rewrite IH.
Qed.

Lemma one_hot_matrix (n : nat) (fg : list (list bool)) (tl : list (list Z)) :
  mapM (mapM (fun l => oh <- one_hot l (n + 1) ;; ret (removelast oh)))
       (zipWith (zipWith (fun (m : bool) l => if m then l else Z.of_nat n)) fg tl)
  = if labels_ok n fg tl
    then ret (zipWith (zipWith (one_hot_row n)) fg tl)
    else raise (RuntimeError "Class values must be smaller than num_classes.").
Proof.
  rewrite (zipWith_combine (zipWith (fun (m : bool) l => if m then l else Z.of_nat n))).
  rewrite mapM_map.
  assert (Hrow : forall r : list bool * list Z,
    mapM (fun l => oh <- one_hot l (n + 1) ;; ret (removelast oh))
         (zipWith (fun (m : bool) l => if m then l else Z.of_nat n) (fst r) (snd r))
    = if forallb (fun b => b) (zipWith (label_ok n) (fst r) (snd r))
      then ret (zipWith (one_hot_row n) (fst r) (snd r))
      else raise (RuntimeError "Class values must be smaller than num_classes.")).
  { intros [ms ls]. cbn [fst snd]. rewrite zipWith_combine, mapM_map.
    destruct (forallb (fun b => b) (zipWith (label_ok n) ms ls)) eqn:Hok.
    - now apply one_hot_rows_ok.
    - now apply one_hot_rows_bad. }
  unfold labels_ok.
  destruct (forallb (forallb (fun b => b)) (zipWith (zipWith (label_ok n)) fg tl))
    eqn:Hall.
  - rewrite (zipWith_combine (zipWith (one_hot_row n))).
    apply mapM_ret_map. intros [ms ls] Hin. rewrite Hrow. cbn [fst snd].
    now rewrite (forallb_zipWith_In _ _ _ _ _ _ Hall Hin).
  - destruct (@mapM_raises _ _
                (fun r : list bool * list Z =>
                   mapM (fun l => oh <- one_hot l (n + 1) ;; ret (removelast oh))
                        (zipWith (fun (m : bool) l => if m then l else Z.of_nat n)
                                 (fst r) (snd r)))
                (fun r => zipWith (one_hot_row n) (fst r) (snd r))
                (fun r => negb (forallb (fun b => b)
                                  (zipWith (label_ok n) (fst r) (snd r))))
                (fun _ => RuntimeError "Class values must be smaller than num_classes.")
                (combine fg tl)) as (r & _ & _ & Heq).
    + intros r _. rewrite Hrow.
      now destruct (forallb (fun b => b) (zipWith (label_ok n) (fst r) (snd r))).
    + now apply (forallb_zipWith_false (zipWith (label_ok n)) (forallb (fun b => b))).
    + exact Heq.
Qed.

(** X2.  The labels of the classification loss.  [one_hot_target] returns
    exactly when every foreground anchor carries a label in
    0..num_classes; the label of a background anchor is never looked at.
    The row of an anchor then has [num_classes] entries, with a 1 at the
    anchor's label if the anchor is foreground and the label is a class,
    and zeros elsewhere: rows of background anchors are all zero, and so is
    the row of a foreground anchor labelled [num_classes].  A foreground
    label outside 0..num_classes is a RuntimeError of [F.one_hot]. *)
Theorem one_hot_target_rows :
  forall (T : Type) (s : @ComputeLoss.self T) (s1 : @ComputeLoss1.self T)
         (fg_mask : tensor (list (list bool))) (target_labels : tensor (list (list Z))),
    let n := ComputeLoss.num_classes s in
    let n1 := ComputeLoss1.num_classes s1 in
    (labels_ok n (data fg_mask) (data target_labels) = true ->
     exists r, ComputeLoss.one_hot_target s fg_mask target_labels = ([], inr r)
               /\ data r = zipWith (zipWith (one_hot_row n))
                                   (data fg_mask) (data target_labels))
    /\ (labels_ok n (data fg_mask) (data target_labels) = false ->
        exists msg, ComputeLoss.one_hot_target s fg_mask target_labels
                    = ([], inl (RuntimeError msg)))
    /\ (labels_ok n1 (data fg_mask) (data target_labels) = true ->
        exists r, ComputeLoss1.one_hot_target s1 fg_mask target_labels = ([], inr r)
                  /\ data r = zipWith (zipWith (one_hot_row n1))
                                      (data fg_mask) (data target_labels))
    /\ (labels_ok n1 (data fg_mask) (data target_labels) = false ->
        exists msg, ComputeLoss1.one_hot_target s1 fg_mask target_labels
                    = ([], inl (RuntimeError msg)))
    /\ (forall k l, one_hot_row k false l = repeat 0%Z k)
    /\ (forall k, one_hot_row k true (Z.of_nat k) = repeat 0%Z k)
    /\ (forall k m l j, (j < k)%nat ->
          nth j (one_hot_row k m l) 0%Z
          = if m && (Z.of_nat j =? l)%Z then 1%Z else 0%Z)
    /\ (forall k m l, length (one_hot_row k m l) = k).
Proof.
  intros T s s1 fg tl n n1.
  assert (Hnth : forall k m l j, (j < k)%nat ->
            nth j (one_hot_row k m l) 0%Z
            = if m && (Z.of_nat j =? l)%Z then 1%Z else 0%Z).
  { intros k m l j Hj. unfold one_hot_row.
    rewrite (nth_indep _ 0%Z ((fun j => if m && (Z.of_nat j =? l)%Z then 1%Z else 0%Z) 0%nat))
      by now rewrite length_map, length_seq.
    rewrite (map_nth (fun j => if m && (Z.of_nat j =? l)%Z then 1%Z else 0%Z)).
    now rewrite seq_nth. }
  assert (Hlen : forall k m l, length (one_hot_row k m l) = k).
  { intros. unfold one_hot_row. now rewrite length_map, length_seq. }
  assert (Hzero : forall k m l,
            (forall j, (j < k)%nat -> m && (Z.of_nat j =? l)%Z = false) ->
            one_hot_row k m l = repeat 0%Z k).
  { intros k m l Hj. apply nth_ext with (d := 0%Z) (d' := 0%Z).
    - now rewrite Hlen, repeat_length.
    - intros j Hlt. rewrite Hlen in Hlt. rewrite Hnth by exact Hlt.
      rewrite Hj by exact Hlt. now rewrite nth_repeat. }
  repeat split.
  - intros Hok. unfold ComputeLoss.one_hot_target. cbn [data tmap2].
    fold n. rewrite one_hot_matrix, Hok, bind_ret_l. eexists. split; reflexivity.
  - intros Hbad. unfold ComputeLoss.one_hot_target. cbn [data tmap2].
    fold n. rewrite one_hot_matrix, Hbad. eexists. reflexivity.
  - intros Hok. unfold ComputeLoss1.one_hot_target. cbn [data tmap2].
    fold n1. rewrite one_hot_matrix, Hok, bind_ret_l. eexists. split; reflexivity.
  - intros Hbad. unfold ComputeLoss1.one_hot_target. cbn [data tmap2].
    fold n1. rewrite one_hot_matrix, Hbad. eexists. reflexivity.
  - intros k l. apply Hzero. reflexivity.
  - intros k. apply Hzero. intros j Hj. cbn [andb]. apply Z.eqb_neq. lia.
  - exact Hnth.
  - exact Hlen.
Qed.

(** Two anchors of one image over two classes: a foreground anchor of
    class 1, and a background anchor whose label -7 is not looked at. *)
Lemma one_hot_target_rows_witness :
  exists r,
    @ComputeLoss.one_hot_target Q Fixture.config
      (Tensor CUDA Float32 false [[true; false]])
      (Tensor CUDA Float32 false [[1%Z; (-7)%Z]]) = ([], inr r)
    /\ data r = [[[0%Z; 1%Z]; [0%Z; 0%Z]]].
Proof.
  destruct (@one_hot_target_rows Q Fixture.config Fixture.config1
              (Tensor CUDA Float32 false [[true; false]])
              (Tensor CUDA Float32 false [[1%Z; (-7)%Z]])) as (H & _).
  destruct (H eq_refl) as (r & Hr & Hd).
  exists r. split; [exact Hr | exact Hd].
Defined.

(** ** The target preprocessor beyond well-formed batches *)

Lemma py_index_range (n : nat) (z : Z) (k : nat) :
  py_index n z = Some k -> (k < n)%nat.
Proof.
  unfold py_index.
  destruct ((0 <=? z) && (z <? Z.of_nat n))%Z eqn:H1.
  - apply andb_true_iff in H1 as [Ha Hb]. apply Z.leb_le in Ha. apply Z.ltb_lt in Hb.
    intros Hk. injection Hk as <-. lia.
  - destruct ((- Z.of_nat n <=? z) && (z <? 0))%Z eqn:H2; [| discriminate].
    apply andb_true_iff in H2 as [Ha Hb]. apply Z.leb_le in Ha. apply Z.ltb_lt in Hb.
    intros Hk. injection Hk as <-. lia.
Qed.

Lemma py_index_negative (n : nat) (j : nat) :
  (1 <= j <= n)%nat -> py_index n (- Z.of_nat j) = Some (n - j)%nat.
Proof.
  intros Hj. unfold py_index.
  replace ((0 <=? - Z.of_nat j) && (- Z.of_nat j <? Z.of_nat n))%Z with false
    by (symmetry; apply andb_false_iff; left; apply Z.leb_gt; lia).
  replace ((- Z.of_nat n <=? - Z.of_nat j) && (- Z.of_nat j <? 0))%Z with true
    by (symmetry; apply andb_true_iff; split; [apply Z.leb_le | apply Z.ltb_lt]; lia).
  f_equal. lia.
Qed.

Lemma py_index_outside (n : nat) (z : Z) :
  py_index n z = None <-> (z < - Z.of_nat n \/ Z.of_nat n <= z)%Z.
Proof.
  unfold py_index.
  destruct (Z.leb_spec 0 z), (Z.ltb_spec z (Z.of_nat n)),
    (Z.leb_spec (- Z.of_nat n) z), (Z.ltb_spec z 0); cbn [andb];
    split; intros Hx; try discriminate; try reflexivity; try lia.
Qed.

Lemma Qtrunc_inject_Z (z : Z) : Qtrunc (inject_Z z) = z.
Proof. unfold Qtrunc, inject_Z. cbn [Qnum Qden]. apply Z.quot_1_r. Qed.

Section PreprocessLoop.
Context {T : Type} {N : Num T}.

(** The body of the loop of [preprocess]. *)
Let step (tl : cube T) (item : list T) : M (cube T) :=
  match item with
  | [] => raise IndexError
  | i :: rest =>
      match py_index (length tl) (to_long i) with
      | None => raise IndexError
      | Some k => ret (update tl k (fun l => l ++ [rest]))
      end
  end.

Lemma update_Forall {A} (P : A -> Prop) (l : list A) k f :
  Forall P l -> (forall a, P a -> P (f a)) -> Forall P (update l k f).
Proof.
  intros Hl Hf. revert k. induction Hl as [| a l Ha Hl IH]; intros [| k]; simpl;
    constructor; auto.
Qed.

(** The loop raises an IndexError at the first row that addresses no image,
    and otherwise returns one list of five-entry rows per image. *)
Lemma preprocess_loop_outcome (rows : mat T) (n : nat) (tl : cube T) :
  length tl = n ->
  Forall (Forall (fun row => length row = 5%nat)) tl ->
  Forall (fun row => length row = 6%nat) rows ->
  (Exists (fun row => image_of n row = None) rows ->
   foldM step rows tl = raise IndexError)
  /\ (Forall (fun row => image_of n row <> None) rows ->
      exists tl', foldM step rows tl = ret tl' /\ length tl' = n
                  /\ Forall (Forall (fun row => length row = 5%nat)) tl').
Proof.
  intros Hlen H5 Hrows. revert tl Hlen H5.
  induction Hrows as [| row rows Hrow _ IH]; intros tl Hlen H5.
  - split; [intros Hex; inversion Hex |]. intros _. exists tl. now repeat split.
  - destruct row as [| i rest]; [discriminate |].
    cbn [foldM step]. rewrite Hlen.
    destruct (py_index n (to_long i)) as [k |] eqn:Hk.
    + rewrite bind_ret_l.
      assert (Hlen' : length (update tl k (fun l => l ++ [rest])) = n)
        by now rewrite update_length.
      assert (H5' : Forall (Forall (fun row => length row = 5%nat))
                           (update tl k (fun l => l ++ [rest]))).
      { apply update_Forall; [exact H5 |]. intros img Himg. apply Forall_app.
        split; [exact Himg |]. constructor; [| constructor].
        simpl in Hrow. lia. }
      destruct (IH _ Hlen' H5') as [IHbad IHok]. split.
      * intros Hex. inversion Hex as [? ? Hhd | ? ? Htl]; subst.
        -- cbn [image_of] in Hhd. congruence.
        -- now apply IHbad.
      * intros Hall. inversion Hall; subst. now apply IHok.
    + split.
      * intros _. reflexivity.
      * intros Hall. inversion Hall as [| ? ? Hhd _]; subst.
        cbn [image_of] in Hhd. congruence.
Qed.
End PreprocessLoop.

Lemma Exists_image_dec {T} `{Num T} (n : nat) (rows : mat T) :
  Exists (fun row => image_of n row = None) rows
  \/ Forall (fun row => image_of n row <> None) rows.
Proof.
  induction rows as [| row rows IH]; [right; constructor |].
  destruct (image_of n row) eqn:Hr.
  - destruct IH as [IH | IH]; [left; now constructor 2 |].
    right. constructor; [congruence | exact IH].
  - left. now constructor.
Qed.

(** X3.  What [preprocess] does with a batch of flat rows of six entries
    and a (1 x 4) scale, over the rationals.  The image index of a row is
    read as a Python list index: it is truncated to an integer, and
    -1 .. -batch_size count from the last image.  The call fails with an
    IndexError exactly when some row addresses no image, that is when its
    truncated index lies outside -batch_size .. batch_size - 1; with no
    image and no row it fails with a ValueError (the maximum of an empty
    sequence); in every other case it returns.  Both composers share this
    preprocessor. *)
Theorem preprocess_outcomes :
  forall (targets : tensor (mat Q)) (n : nat)
         (scale_tensor : tensor (mat Q)) (s0 s1 s2 s3 : Q),
    Forall (fun row => length row = 6%nat) (data targets) ->
    data scale_tensor = [[s0; s1; s2; s3]] ->
    let run := @ComputeLoss.preprocess Q Q_Num targets n scale_tensor in
    let stray := Exists (fun row => image_of n row = None) (data targets) in
    (result_of run = inl IndexError <-> stray)
    /\ (~ stray -> n = 0%nat -> run = ([], inl ValueError))
    /\ (~ stray -> (0 < n)%nat -> exists r, run = ([], inr r))
    /\ @ComputeLoss1.preprocess Q Q_Num targets n scale_tensor = run
    /\ (forall (i : Q) rest,
          image_of n (i :: rest) = None
          <-> (Qtrunc i < - Z.of_nat n \/ Z.of_nat n <= Qtrunc i)%Z)
    /\ (forall (i : Q) rest (j : nat),
          (1 <= j <= n)%nat -> Qtrunc i = (- Z.of_nat j)%Z ->
          image_of n (i :: rest) = Some (n - j)%nat).
Proof.
  intros targets n sc s0 s1 s2 s3 H6 Hsc run stray.
  assert (Hz5 : Forall (Forall (fun row : list Q => length row = 5%nat))
                       (repeat [repeat (@of_Z Q Q_Num 0) 5] n)).
  { apply Forall_forall. intros img Himg. apply repeat_spec in Himg. subst img.
    repeat constructor. }
  destruct (@preprocess_loop_outcome Q Q_Num (data targets) n
              (repeat [repeat (of_Z 0) 5] n) (repeat_length _ _) Hz5 H6)
    as [Hbad Hok].
  assert (Hstray : stray -> run = ([], inl IndexError)).
  { intros Hs. subst run. unfold ComputeLoss.preprocess.
    rewrite (Hbad Hs). reflexivity. }
  assert (Hfine : ~ stray ->
            (n = 0%nat -> run = ([], inl ValueError))
            /\ ((0 < n)%nat -> exists r, run = ([], inr r))).
  { intros Hns.
    destruct (Exists_image_dec n (data targets)) as [Hs | Hall]; [contradiction |].
    destruct (Hok Hall) as (tl' & Hloop & Hlen & H5).
    subst run. unfold ComputeLoss.preprocess. unfold mat, cube in *.
    rewrite Hloop, bind_ret_l. split.
    - intros ->. destruct tl'; [reflexivity | discriminate].
    - intros Hn. rewrite py_max_list_max
        by (destruct tl'; [simpl in Hlen; lia | discriminate]).
      rewrite bind_ret_l.
      match goal with
      | |- context [forallb ?p ?l] => assert (Hchk : forallb p l = true)
      end.
      { apply forallb_forall. intros img Himg. apply in_map_iff in Himg.
        destruct Himg as (img0 & <- & Hin). apply forallb_forall. intros row Hrow.
        apply Nat.eqb_eq. apply in_app_or in Hrow as [Hrow | Hrow].
        - rewrite Forall_forall in H5. specialize (H5 img0 Hin).
          rewrite Forall_forall in H5. now apply H5.
        - apply repeat_spec in Hrow. now subst row. }
      rewrite Hchk, bind_ret_l, Hsc. eexists. reflexivity. }
  split; [| split; [| split; [| split; [| split]]]].
  - split.
    + intros Hr. destruct (Exists_image_dec n (data targets)) as [Hs | Hall];
        [exact Hs |]. exfalso.
      assert (Hns : ~ stray).
      { intros Hs. unfold stray in Hs. rewrite Exists_exists in Hs.
        destruct Hs as (row & Hin & Hrow). rewrite Forall_forall in Hall.
        now apply (Hall row Hin). }
      destruct (Hfine Hns) as [H0 Hpos]. destruct n as [| n'].
      * rewrite (H0 eq_refl) in Hr. discriminate.
      * destruct (Hpos (Nat.lt_0_succ _)) as (r & Hrun). rewrite Hrun in Hr.
        discriminate.
    + intros Hs. now rewrite (Hstray Hs).
  - intros Hns. now apply Hfine.
  - intros Hns. now apply Hfine.
  - reflexivity.
  - intros i rest. cbn [image_of]. apply py_index_outside.
  - intros i rest j Hj Hi. cbn [image_of to_long Q_Num]. rewrite Hi.
    now apply py_index_negative.
Qed.

(** Two images; a row addressed to image 2 is an IndexError. *)
Lemma preprocess_outcomes_witness :
  result_of (@ComputeLoss.preprocess Q Q_Num
    (Tensor CUDA Float32 false [[2; 3; 1 # 2; 1 # 2; 1 # 5; 1 # 5]]) 2
    (Tensor CUDA Float32 false [[640; 640; 640; 640]])) = inl IndexError.
Proof.
  destruct (@preprocess_outcomes
              (Tensor CUDA Float32 false [[2; 3; 1 # 2; 1 # 2; 1 # 5; 1 # 5]]) 2
              (Tensor CUDA Float32 false [[640; 640; 640; 640]]) 640 640 640 640)
    as [[_ H] _].
  - repeat constructor.
  - reflexivity.
  - apply H. constructor. reflexivity.
Defined.

Section Wrap.

Lemma preprocess_loop_wrap (rows : mat Q) (n : nat) (tl : cube Q) :
  length tl = n ->
  foldM (fun (tl : cube Q) (item : list Q) =>
           match item with
           | [] => raise IndexError
           | i :: rest =>
               match py_index (length tl) (to_long i) with
               | None => raise IndexError
               | Some k => ret (update tl k (fun l => l ++ [rest]))
               end
           end) rows tl
  = foldM (fun (tl : cube Q) (item : list Q) =>
           match item with
           | [] => raise IndexError
           | i :: rest =>
               match py_index (length tl) (to_long i) with
               | None => raise IndexError
               | Some k => ret (update tl k (fun l => l ++ [rest]))
               end
           end) (map (wrap_row n) rows) tl.
Proof.
  revert tl. induction rows as [| row rows IH]; intros tl Hlen; [reflexivity |].
  cbn [map foldM]. destruct row as [| i rest]; [reflexivity |].
  unfold wrap_row at 1. cbn [image_of]. rewrite Hlen.
  destruct (py_index n (to_long i)) as [k |] eqn:Hk.
  - cbn [to_long Q_Num]. rewrite Qtrunc_inject_Z.
    rewrite (@py_index_valid n (Z.of_nat k))
      by (apply py_index_range in Hk; lia).
    rewrite Nat2Z.id, !bind_ret_l. apply IH. now rewrite update_length.
  - rewrite Hk. reflexivity.
Qed.
End Wrap.

(** X4.  Negative image indices wrap around.  Over the rationals,
    [preprocess] treats a row whose truncated image index is -j exactly as
    the same row addressed to image [batch_size - j], and a row with a
    fractional index as the row with the truncated index: the result, or
    the error, is that of the batch in which every image index is written
    as the index 0 .. batch_size - 1 it denotes. *)
Theorem preprocess_wraps_negative_indices :
  forall (targets : tensor (mat Q)) (n : nat) (scale_tensor : tensor (mat Q)),
    @ComputeLoss.preprocess Q Q_Num targets n scale_tensor
    = @ComputeLoss.preprocess Q Q_Num (tmap (map (wrap_row n)) targets) n scale_tensor
    /\ @ComputeLoss1.preprocess Q Q_Num targets n scale_tensor
       = @ComputeLoss1.preprocess Q Q_Num (tmap (map (wrap_row n)) targets) n
           scale_tensor
    /\ (forall (i : Q) rest (j : nat),
          (1 <= j <= n)%nat -> Qtrunc i = (- Z.of_nat j)%Z ->
          wrap_row n (i :: rest) = inject_Z (Z.of_nat (n - j)) :: rest)
    /\ (forall (i : Q) rest,
          (0 <= Qtrunc i < Z.of_nat n)%Z ->
          wrap_row n (i :: rest) = inject_Z (Qtrunc i) :: rest).
Proof.
  intros targets n sc.
  assert (Hmain : @ComputeLoss.preprocess Q Q_Num targets n sc
                  = @ComputeLoss.preprocess Q Q_Num (tmap (map (wrap_row n)) targets) n sc).
  { unfold ComputeLoss.preprocess. cbn [data tmap dev].
    rewrite <- (@preprocess_loop_wrap (data targets) n) by apply repeat_length.
    reflexivity. }
  split; [exact Hmain | split; [exact Hmain | split]].
  - intros i rest j Hj Hi. unfold wrap_row. cbn [image_of to_long Q_Num].
    rewrite Hi, (py_index_negative Hj). reflexivity.
  - intros i rest Hi. unfold wrap_row. cbn [image_of to_long Q_Num].
    rewrite (@py_index_valid n (Qtrunc i) Hi). now rewrite Z2Nat.id by lia.
Qed.

(** ** The returned components and the gating term *)

(** X5.  What a composer returns.  The component vector is detached from
    the autograd graph and lists, in this order, the iou weight times the
    iou loss of [BboxLoss.forward], the dfl weight times its dfl loss, and
    the class weight times the Varifocal loss (divided by
    [target_scores_sum] above the composer's threshold); the loss is
    class + iou + dfl of these weighted values.  [ComputeLoss] with gating
    decisions appends a fourth component, the mean over the batch of the
    per-image mean of the concatenated gate values times [lambda_reg], and
    adds it to the loss; without gating decisions ([None]) it returns the
    three components.  An empty list of gating decisions is no [None]: the
    concatenation fails and the step returns nothing. *)
Theorem returned_components :
  forall (T : Type) (N : Num T) (K : Kernels T) (E : Externals T)
         (s : @ComputeLoss.self T) (s1 : @ComputeLoss1.self T) (autocast : bool)
         (ps pd : tensor (cube T)) (step : Z) (lambda_reg : T)
         (gating_decision : option (list (tensor (mat T)))) l a,
    let run := ComputeLoss.losses s autocast ps pd step lambda_reg gating_decision l a in
    let run1 := ComputeLoss1.losses s1 autocast ps pd step l a in
    let tb := tmap2 (batch_rows_op div) (target_bboxes a) (l_stride_tensor l) in
    let tss := tsum3 (data (target_scores a)) in
    (forall loss comps,
        result_of run = inr (loss, comps) ->
        grad comps = false
        /\ exists oh raw li ld,
             result_of (ComputeLoss.one_hot_target s (fg_mask a) (target_labels a))
             = inr oh
             /\ result_of (VarifocalLoss.forward autocast ps (target_scores a) oh
                             VarifocalLoss.default_alpha VarifocalLoss.default_gamma)
                = inr raw
             /\ result_of (BboxLoss.forward (ComputeLoss.bbox_loss s) pd
                             (l_pred_bboxes l) (l_anchor_points_s l) tb
                             (target_scores a) (tmap tsum3 (target_scores a))
                             (fg_mask a))
                = inr (li, ld)
             /\ let ci := mul (w_iou (ComputeLoss.loss_weight s)) (data li) in
                let cd := mul (w_dfl (ComputeLoss.loss_weight s)) (data ld) in
                let cc := mul (w_class (ComputeLoss.loss_weight s))
                              (if gtb tss (of_Z 1) then div (data raw) tss
                               else data raw) in
                match gating_decision with
                | None =>
                    data comps = [ci; cd; cc]
                    /\ data loss = add (add cc ci) cd
                | Some gd =>
                    exists g,
                      result_of (cat_dim1 gd) = inr g
                      /\ let gating_loss :=
                           mul (tmean (map tmean (data g))) lambda_reg in
                         data comps = [ci; cd; cc; gating_loss]
                         /\ data loss = add (add (add cc ci) cd) gating_loss
                end)
    /\ (gating_decision = Some [] -> forall r, result_of run <> inr r)
    /\ (forall loss comps,
          result_of run1 = inr (loss, comps) ->
          grad comps = false
          /\ exists oh raw li ld,
               result_of (ComputeLoss1.one_hot_target s1 (fg_mask a) (target_labels a))
               = inr oh
               /\ result_of (VarifocalLoss.forward autocast ps (target_scores a) oh
                               VarifocalLoss.default_alpha VarifocalLoss.default_gamma)
                  = inr raw
               /\ result_of (BboxLoss.forward (ComputeLoss1.bbox_loss s1) pd
                               (l_pred_bboxes l) (l_anchor_points_s l) tb
                               (target_scores a) (tmap tsum3 (target_scores a))
                               (fg_mask a))
                  = inr (li, ld)
               /\ let ci := mul (w_iou (ComputeLoss1.loss_weight s1)) (data li) in
                  let cd := mul (w_dfl (ComputeLoss1.loss_weight s1)) (data ld) in
                  let cc := mul (w_class (ComputeLoss1.loss_weight s1))
                                (if gtb tss (of_Z 0) then div (data raw) tss
                                 else data raw) in
                  data comps = [ci; cd; cc] /\ data loss = add (add cc ci) cd).
Proof.
  intros T N K E s s1 ac ps pd step lam gating l a run run1 tb tss.
  split; [| split].
  - intros loss comps Hr.
    destruct (ComputeLoss_losses_parts _ _ _ _ _ _ _ _ _ Hr)
      as (oh & raw & li & ld & Hoh & Hraw & Hbb & Hg & Hc).
    split; [exact Hg |]. exists oh, raw, li, ld.
    split; [exact Hoh |]. split; [exact Hraw |]. split; [exact Hbb |]. exact Hc.
  - intros -> r Hr. subst run. unfold ComputeLoss.losses in Hr.
    bind_inv Hr as u Hu. bind_inv Hr as oh Hoh. bind_inv Hr as raw Hraw.
    bind_inv Hr as bb Hbb. destruct bb as [li ld].
    bind_inv Hr as g Hg. discriminate.
  - intros loss comps Hr.
    destruct (ComputeLoss1_losses_parts _ _ _ _ _ _ _ Hr)
      as (oh & raw & li & ld & Hoh & Hraw & Hbb & Hg & Hc).
    split; [exact Hg |]. exists oh, raw, li, ld.
    split; [exact Hoh |]. split; [exact Hraw |]. split; [exact Hbb |]. exact Hc.
Qed.

(** One gate tensor with the values 1/2 and 1, and lambda_reg = 2: a
    fourth component. *)
Lemma returned_components_witness :
  exists loss comps,
    result_of (@ComputeLoss.losses Q Q_Num Fixture.kernels (Fixture.externals None 1)
                 Fixture.config true (snd (fst Fixture.outputs)) (snd Fixture.outputs)
                 1 2 (Some [Tensor CUDA Float32 true [[1 # 2; 1]]])
                 Fixture.locals (Fixture.result 1 CUDA)) = inr (loss, comps)
    /\ grad comps = false
    /\ length (data comps) = 4%nat.
Proof.
  destruct (@returned_components Q Q_Num Fixture.kernels (Fixture.externals None 1)
              Fixture.config Fixture.config1 true
              (snd (fst Fixture.outputs)) (snd Fixture.outputs) 1%Z 2
              (Some [Tensor CUDA Float32 true [[1 # 2; 1]]])
              Fixture.locals (Fixture.result 1 CUDA)) as (H & _).
  let r := eval vm_compute in
    (result_of (@ComputeLoss.losses Q Q_Num Fixture.kernels (Fixture.externals None 1)
                 Fixture.config true (snd (fst Fixture.outputs)) (snd Fixture.outputs)
                 1 2 (Some [Tensor CUDA Float32 true [[1 # 2; 1]]])
                 Fixture.locals (Fixture.result 1 CUDA))) in
  match r with
  | inr (?loss, ?comps) =>
      destruct (H loss comps)
        as (Hg & oh & raw & li & ld & _ & _ & _ & Hm);
        [vm_compute; reflexivity |];
      cbv zeta in Hm; destruct Hm as (g & _ & Hc & _);
      exists loss, comps; split; [vm_compute; reflexivity |];
      split; [exact Hg | rewrite Hc; reflexivity]
  end.
Defined.

(** ** The size of the gating term *)

Lemma tsum_Q_nil : (@tsum Q Q_Num [] == 0)%Q.
Proof. reflexivity. Qed.

Lemma tsum_Q_bounds (lo hi : Q) (l : list Q) :
  Forall (fun x => lo <= x <= hi)%Q l ->
  (lo * inject_Z (Z.of_nat (length l)) <= @tsum Q Q_Num l
   <= hi * inject_Z (Z.of_nat (length l)))%Q.
Proof.
  induction 1 as [| x l Hx _ IH].
  - rewrite tsum_Q_nil. cbn [length Z.of_nat]. change (inject_Z 0) with 0%Q. lra.
  - rewrite tsum_Q_cons. cbn [length]. rewrite Nat2Z.inj_succ.
    unfold Z.succ. rewrite inject_Z_plus. change (inject_Z 1) with 1%Q. lra.
Qed.

(** The mean of a non-empty list lies between its bounds. *)
Lemma tmean_Q_bounds (lo hi : Q) (l : list Q) :
  l <> [] ->
  Forall (fun x => lo <= x <= hi)%Q l ->
  (lo <= @tmean Q Q_Num l <= hi)%Q.
Proof.
  intros Hne Hl. pose proof (tsum_Q_bounds Hl) as [Ha Hb].
  unfold tmean. cbn [div of_Z Q_Num].
  set (n := inject_Z (Z.of_nat (length l))) in *.
  assert (Hn : (0 < n)%Q).
  { subst n. change 0%Q with (inject_Z 0). rewrite <- Zlt_Qlt.
    destruct l; [congruence | cbn [length]; lia]. }
  split.
  - apply Qle_shift_div_l; [exact Hn | exact Ha].
  - apply Qle_shift_div_r; [exact Hn | exact Hb].
Qed.

Lemma zipWith_app_Forall {A} (P : A -> Prop) (rows rows' : list (list A)) :
  Forall (Forall P) rows -> Forall (Forall P) rows' ->
  Forall (Forall P) (zipWith (@app A) rows rows').
Proof.
  intros Hr. revert rows'. induction Hr as [| r rs Hr _ IH]; intros [| r' rs'] Hr';
    cbn [zipWith]; try constructor.
  - inversion Hr'; subst. apply Forall_app. split; assumption.
  - inversion Hr'; subst. now apply IH.
Qed.

Lemma cat_dim1_entries {T} `{Num T} (P : T -> Prop) (ts : list (tensor (mat T)))
    (t : tensor (mat T)) :
  Forall (Forall P) (data t) ->
  Forall (fun u => Forall (Forall P) (data u)) ts ->
  Forall (Forall P) (data (fold_left (tmap2 (zipWith (@app T))) ts t)).
Proof.
  intros Ht Hts. revert t Ht. induction Hts as [| u ts Hu _ IH]; intros t Ht;
    [exact Ht |].
  cbn [fold_left]. apply IH. cbn [data tmap2]. now apply zipWith_app_Forall.
Qed.

(** X6.  Over the rationals, with gate values between 0 and 1 and a
    non-negative [lambda_reg], the gating component of [ComputeLoss] lies
    between 0 and [lambda_reg], for a batch with at least one image and at
    least one gate value per image. *)
Theorem gating_component_bounded :
  forall (K : Kernels Q) (E : Externals Q) (s : @ComputeLoss.self Q)
         (autocast : bool) (ps pd : tensor (cube Q)) (step : Z) (lambda_reg : Q)
         (gd : list (tensor (mat Q))) l a loss comps g,
    (0 <= lambda_reg)%Q ->
    Forall (fun t => Forall (Forall (fun x => 0 <= x <= 1)%Q) (data t)) gd ->
    result_of (cat_dim1 gd) = inr g ->
    data g <> [] ->
    Forall (fun row => row <> []) (data g) ->
    result_of (@ComputeLoss.losses Q Q_Num K E s autocast ps pd step lambda_reg
                 (Some gd) l a) = inr (loss, comps) ->
    exists gating_loss,
      nth_error (data comps) 3 = Some gating_loss
      /\ (0 <= gating_loss <= lambda_reg)%Q.
Proof.
  intros K E s ac ps pd step lam gd l a loss comps g Hlam Hgd Hg Hne Hrows Hr.
  unfold ComputeLoss.losses in Hr.
  bind_inv Hr as u Hu. bind_inv Hr as oh Hoh. bind_inv Hr as raw Hraw.
  bind_inv Hr as bb Hbb. destruct bb as [li ld].
  bind_inv Hr as g' Hg'. rewrite Hg in Hg'. injection Hg' as <-.
  cbn in Hr. injection Hr as _ <-. cbn [data detach tmap map nth_error].
  eexists. split; [reflexivity |].
  assert (Hentries : Forall (Forall (fun x => 0 <= x <= 1)%Q) (data g)).
  { destruct gd as [| t ts]; [discriminate |]. cbn in Hg. injection Hg as <-.
    inversion Hgd; subst. now apply cat_dim1_entries. }
  assert (Hmeans : Forall (fun x => 0 <= x <= 1)%Q (map (@tmean Q Q_Num) (data g))).
  { apply Forall_map. rewrite Forall_forall in Hentries, Hrows. apply Forall_forall.
    intros row Hin. apply tmean_Q_bounds; [now apply Hrows | now apply Hentries]. }
  assert (Hmean : (0 <= @tmean Q Q_Num (map (@tmean Q Q_Num) (data g)) <= 1)%Q).
  { apply tmean_Q_bounds; [| exact Hmeans]. destruct (data g); [congruence | discriminate]. }
  cbn [mul Q_Num]. unfold tmean in Hmean at 1. cbn [div of_Z Q_Num] in Hmean.
  match type of Hmean with
  | (_ <= ?m)%Q /\ _ => set (mean := m) in *
  end.
  destruct Hmean as [H0 H1]. split.
  - now apply Qmult_le_0_compat.
  - rewrite <- (Qmult_1_l lam) at 2. now apply Qmult_le_compat_r.
Qed.

Lemma gating_component_bounded_witness :
  exists loss comps gating_loss,
    result_of (@ComputeLoss.losses Q Q_Num Fixture.kernels (Fixture.externals None 1)
                 Fixture.config true (snd (fst Fixture.outputs)) (snd Fixture.outputs)
                 1 2 (Some [Tensor CUDA Float32 true [[1 # 2; 1]]])
                 Fixture.locals (Fixture.result 1 CUDA)) = inr (loss, comps)
    /\ nth_error (data comps) 3 = Some gating_loss
    /\ (0 <= gating_loss <= 2)%Q.
Proof.
  let r := eval vm_compute in
    (result_of (@ComputeLoss.losses Q Q_Num Fixture.kernels (Fixture.externals None 1)
                 Fixture.config true (snd (fst Fixture.outputs)) (snd Fixture.outputs)
                 1 2 (Some [Tensor CUDA Float32 true [[1 # 2; 1]]])
                 Fixture.locals (Fixture.result 1 CUDA))) in
  match r with
  | inr (?loss, ?comps) =>
      destruct (@gating_component_bounded Fixture.kernels (Fixture.externals None 1)
                  Fixture.config true (snd (fst Fixture.outputs)) (snd Fixture.outputs)
                  1%Z 2 [Tensor CUDA Float32 true [[1 # 2; 1]]]
                  Fixture.locals (Fixture.result 1 CUDA) loss comps
                  (Tensor CUDA Float32 true [[1 # 2; 1]]))
        as (gl & Hgl & Hb);
        [ lra
        | repeat constructor; cbn; lra
        | reflexivity
        | discriminate
        | repeat constructor; discriminate
        | vm_compute; reflexivity
        | exists loss, comps, gl; split; [vm_compute; reflexivity | split; assumption] ]
  end.
Defined.

(** ** The IoU component *)

Section IoU.
Context {T : Type} {N : Num T} {K : Kernels T} {E : Externals T}.

Lemma BboxLoss_forward_iou (s : BboxLoss.self) pd pb ap tb ts tss fg li ld :
  (0 < count_pos (data fg))%nat ->
  result_of (BboxLoss.forward s pd pb ap tb ts tss fg) = inr (li, ld) ->
  data li
  = if gtb (data tss) (of_Z 1)
    then div (weighted_iou (BboxLoss.iou_type s) pb tb ts fg) (data tss)
    else weighted_iou (BboxLoss.iou_type s) pb tb ts fg.
Proof.
  intros Hpos Hr. unfold BboxLoss.forward in Hr.
  apply Nat.ltb_lt in Hpos. rewrite Hpos in Hr.
  destruct (BboxLoss.use_dfl s).
  - bind_inv Hr as v Hv. bind_inv Hr as d Hd. cbn in Hr. injection Hr as <- _.
    rewrite data_if. reflexivity.
  - cbn in Hr. injection Hr as <- _. rewrite data_if. reflexivity.
Qed.
End IoU.

(** X7.  The IoU component of a batch with positive anchors.  In both
    composers it is the iou weight times the sum, over the positive
    anchors, of the IoU loss between the anchor's decoded box and its
    target box (divided by the stride) times the anchor's total target
    score; the sum is divided by [target_scores_sum] exactly when that sum
    is greater than 1 - in [ComputeLoss1] too, where the class loss is
    divided for any positive sum. *)
Theorem iou_component :
  forall (T : Type) (N : Num T) (K : Kernels T) (E : Externals T)
         (s : @ComputeLoss.self T) (s1 : @ComputeLoss1.self T) (autocast : bool)
         (ps pd : tensor (cube T)) (step : Z) (lambda_reg : T) gating_decision l a,
    let fg := fg_mask a in
    let tb := tmap2 (batch_rows_op div) (target_bboxes a) (l_stride_tensor l) in
    let tss := tsum3 (data (target_scores a)) in
    (0 < count_pos (data fg))%nat ->
    (forall loss comps,
        result_of (ComputeLoss.losses s autocast ps pd step lambda_reg
                     gating_decision l a) = inr (loss, comps) ->
        let S := weighted_iou (ComputeLoss.iou_type s) (l_pred_bboxes l) tb
                              (target_scores a) fg in
        nth_error (data comps) 0
        = Some (mul (w_iou (ComputeLoss.loss_weight s))
                    (if gtb tss (of_Z 1) then div S tss else S)))
    /\ (forall loss comps,
          result_of (ComputeLoss1.losses s1 autocast ps pd step l a)
          = inr (loss, comps) ->
          let S := weighted_iou (ComputeLoss1.iou_type s1) (l_pred_bboxes l) tb
                                (target_scores a) fg in
          nth_error (data comps) 0
          = Some (mul (w_iou (ComputeLoss1.loss_weight s1))
                      (if gtb tss (of_Z 1) then div S tss else S))).
Proof.
  intros T N K E s s1 ac ps pd step lam gd l a fg tb tss Hpos. split.
  - intros loss comps Hr S. unfold ComputeLoss.losses in Hr.
    bind_inv Hr as u Hu. bind_inv Hr as oh Hoh. bind_inv Hr as raw Hraw.
    bind_inv Hr as bb Hbb. destruct bb as [li ld].
    pose proof (BboxLoss_forward_iou _ _ _ _ _ _ _ _ Hpos Hbb) as Hli.
    destruct gd as [gd |].
    + bind_inv Hr as g Hg. cbn in Hr. injection Hr as _ <-. cbn.
      rewrite Hli. reflexivity.
    + cbn in Hr. injection Hr as _ <-. cbn. rewrite Hli. reflexivity.
  - intros loss comps Hr S. unfold ComputeLoss1.losses in Hr.
    bind_inv Hr as u Hu. bind_inv Hr as oh Hoh. bind_inv Hr as raw Hraw.
    bind_inv Hr as bb Hbb. destruct bb as [li ld].
    pose proof (BboxLoss_forward_iou _ _ _ _ _ _ _ _ Hpos Hbb) as Hli.
    cbn in Hr. injection Hr as _ <-. cbn. rewrite Hli. reflexivity.
Qed.

(** One positive anchor with total target score 2 and IoU loss 1: the sum
    2 is divided by [target_scores_sum] = 2 and weighted by 2. *)
Lemma iou_component_witness :
  exists loss comps,
    result_of (@ComputeLoss.losses Q Q_Num Fixture.kernels (Fixture.externals None 2)
                 Fixture.config true (snd (fst Fixture.outputs)) (snd Fixture.outputs)
                 1 0 None Fixture.locals (Fixture.result 2 CUDA)) = inr (loss, comps)
    /\ nth_error (data comps) 0 = Some (2 * ((0 + 1 * (0 + 0 + 2)) / (0 + 0 + 2))).
Proof.
  destruct (@iou_component Q Q_Num Fixture.kernels (Fixture.externals None 2)
              Fixture.config Fixture.config1 true
              (snd (fst Fixture.outputs)) (snd Fixture.outputs) 1%Z 0 None
              Fixture.locals (Fixture.result 2 CUDA)) as (H & _).
  { vm_compute. reflexivity. }
  let r := eval vm_compute in
    (result_of (@ComputeLoss.losses Q Q_Num Fixture.kernels (Fixture.externals None 2)
                 Fixture.config true (snd (fst Fixture.outputs)) (snd Fixture.outputs)
                 1 0 None Fixture.locals (Fixture.result 2 CUDA))) in
  match r with
  | inr (?loss, ?comps) =>
      exists loss, comps; split; [vm_compute; reflexivity |];
      apply (H loss comps); vm_compute; reflexivity
  end.
Defined.

(** ** The box decoder *)

(** [mapM] of a function that raises one fixed error on the elements it
    refuses. *)
Lemma mapM_outcome {A B} (f : A -> M B) (g : A -> B) (bad : A -> bool) (e : exn)
    (l : list A) :
  (forall a, f a = if bad a then raise e else ret (g a)) ->
  mapM f l = if existsb bad l then raise e else ret (map g l).
Proof.
  intros Hf. induction l as [| a l IH]; [reflexivity |].
  cbn [mapM existsb map]. rewrite Hf. destruct (bad a); [reflexivity |].
  rewrite bind_ret_l, IH. cbn [orb]. destruct (existsb bad l); reflexivity.
Qed.

Lemma dot_Q_bounds (hi : Q) (p idx : list Q) :
  length p = length idx ->
  Forall (fun x => 0 <= x)%Q p ->
  Forall (fun i => 0 <= i <= hi)%Q idx ->
  (0 <= @dot Q Q_Num p idx <= hi * fold_right Qplus 0 p)%Q.
Proof.
  intros Hlen Hp. revert idx Hlen.
  induction Hp as [| x p Hx _ IH]; intros [| i idx] Hlen Hidx; try discriminate.
  - unfold dot. cbn [zipWith]. rewrite tsum_Q_nil. cbn [fold_right]. lra.
  - inversion Hidx as [| ? ? [Hi0 Hi1] Hidx']; subst.
    injection Hlen as Hlen. specialize (IH idx Hlen Hidx').
    unfold dot in *. cbn [zipWith fold_right]. rewrite tsum_Q_cons.
    cbn [mul Q_Num].
    assert (H0 : (0 <= x * i)%Q) by now apply Qmult_le_0_compat.
    assert (H1 : (x * i <= hi * x)%Q).
    { rewrite (Qmult_comm hi x). rewrite !(Qmult_comm x).
      now apply Qmult_le_compat_r. }
    rewrite Qmult_plus_distr_r. change (@mul Q Q_Num) with Qmult in *.
    set (rest := @tsum Q Q_Num (zipWith Qmult p idx)) in *.
    set (total := (hi * fold_right Qplus 0 p)%Q) in *.
    set (a := (x * i)%Q) in *. set (b := (hi * x)%Q) in *.
    clearbody rest total a b. lra.
Qed.

Lemma linspace0_Q_range (reg_max : nat) :
  Forall (fun i => 0 <= i <= inject_Z (Z.of_nat reg_max))%Q
         (@linspace0 Q Q_Num reg_max)
  /\ length (@linspace0 Q Q_Num reg_max) = (reg_max + 1)%nat.
Proof.
  unfold linspace0. split; [| now rewrite length_map, length_seq].
  apply Forall_map. apply Forall_forall. intros i Hi. apply in_seq in Hi.
  cbn [of_Z Q_Num]. change 0%Q with (inject_Z 0). rewrite <- !Zle_Qle. lia.
Qed.

Section Decoder.
Context {K : Kernels Q}.

Let wrong (n : nat) (row : list Q) : bool := negb (length row =? 4 * n)%nat.

Lemma decode_row (reg_max : nat) (row : list Q) :
  (v <- @view4 Q (reg_max + 1) row ;;
   ret (map (fun side => @dot Q Q_Num (softmax side) (@linspace0 Q Q_Num reg_max)) v))
  = if wrong (reg_max + 1) row
    then raise (RuntimeError "shape is invalid for input size")
    else ret (expected_distances reg_max row).
Proof.
  unfold view4, wrong. destruct (length row =? 4 * (reg_max + 1))%nat; reflexivity.
Qed.

Lemma decode_rows (reg_max : nat) (pd : cube Q) :
  mapM (mapM (fun row =>
          v <- @view4 Q (reg_max + 1) row ;;
          ret (map (fun side => @dot Q Q_Num (softmax side)
                                  (@linspace0 Q Q_Num reg_max)) v))) pd
  = if existsb (existsb (wrong (reg_max + 1))) pd
    then raise (RuntimeError "shape is invalid for input size")
    else ret (map (map (expected_distances reg_max)) pd).
Proof.
  apply mapM_outcome. intros img. apply mapM_outcome. intros row. apply decode_row.
Qed.

Lemma expected_distances_range (reg_max : nat) (row : list Q) :
  Forall (fun side => distribution (softmax side)
                      /\ length (softmax side) = (reg_max + 1)%nat)
         (sides (reg_max + 1) row) ->
  Forall (fun d => 0 <= d <= inject_Z (Z.of_nat reg_max))%Q
         (expected_distances reg_max row).
Proof.
  intros Hs. unfold expected_distances. apply Forall_map.
  eapply Forall_impl; [| exact Hs]. intros side [[Hnn Hsum] Hlen].
  destruct (linspace0_Q_range reg_max) as [Hidx Hl].
  pose proof (@dot_Q_bounds (inject_Z (Z.of_nat reg_max)) (softmax side)
                (@linspace0 Q Q_Num reg_max)) as Hd.
  rewrite Hlen, Hl in Hd. specialize (Hd eq_refl Hnn Hidx).
  rewrite Hsum in Hd. lra.
Qed.
End Decoder.

(** X8.  The box decoder, over the rationals.  With the distribution loss
    in use, [bbox_decode] reads every row of [pred_dist] as 4 sides of
    reg_max + 1 logits: it fails with a RuntimeError when a row has another
    length, and otherwise passes to [dist2bbox], for each side, the mean of
    the bins 0, 1, ..., reg_max under the softmax of the side's logits.
    When the softmax of a side is a probability vector over the
    reg_max + 1 bins, that distance lies between 0 and reg_max.  Without
    the distribution loss the rows of [pred_dist] are passed to [dist2bbox]
    as they are, and the decoder cannot fail.  Both composers decode
    alike. *)
Theorem bbox_decode_distances :
  forall (K : Kernels Q) (s : @ComputeLoss.self Q)
         (anchor_points : tensor (mat Q)) (pred_dist : tensor (cube Q)),
    let R := ComputeLoss.reg_max s in
    let wrong row := negb (length row =? 4 * (R + 1))%nat in
    let run := @ComputeLoss.bbox_decode Q Q_Num K s anchor_points pred_dist in
    (ComputeLoss.use_dfl s = true ->
     existsb (existsb wrong) (data pred_dist) = true ->
     exists msg, run = ([], inl (RuntimeError msg)))
    /\ (ComputeLoss.use_dfl s = true ->
        existsb (existsb wrong) (data pred_dist) = false ->
        exists r,
          run = ([], inr r)
          /\ data r = map (fun img =>
                             zipWith (@dist2bbox Q Q_Num)
                                     (map (expected_distances R) img)
                                     (data anchor_points))
                          (data pred_dist))
    /\ (forall row,
          Forall (fun side => distribution (softmax side)
                              /\ length (softmax side) = (R + 1)%nat)
                 (sides (R + 1) row) ->
          Forall (fun d => 0 <= d <= inject_Z (Z.of_nat R))%Q
                 (expected_distances R row))
    /\ (ComputeLoss.use_dfl s = false ->
        exists r,
          run = ([], inr r)
          /\ data r = map (fun img => zipWith (@dist2bbox Q Q_Num) img
                                              (data anchor_points))
                          (data pred_dist))
    /\ (forall s1 : @ComputeLoss1.self Q,
          ComputeLoss1.use_dfl s1 = ComputeLoss.use_dfl s ->
          ComputeLoss1.reg_max s1 = R ->
          @ComputeLoss1.bbox_decode Q Q_Num K s1 anchor_points pred_dist = run).
Proof.
  intros K s ap pd R wrong run.
  split; [| split; [| split; [| split]]].
  - intros Hdfl Hw. subst run. unfold ComputeLoss.bbox_decode.
    rewrite Hdfl. fold R. unfold cube, mat in *. rewrite decode_rows.
    fold wrong. rewrite Hw. eexists. reflexivity.
  - intros Hdfl Hw. subst run. unfold ComputeLoss.bbox_decode.
    rewrite Hdfl. fold R. unfold cube, mat in *. rewrite decode_rows.
    fold wrong. rewrite Hw, !bind_ret_l. eexists. split; [reflexivity |].
    cbn [data tmap2]. now rewrite map_map.
  - intros row. apply expected_distances_range.
  - intros Hdfl. subst run. unfold ComputeLoss.bbox_decode. rewrite Hdfl.
    rewrite bind_ret_l. eexists. split; reflexivity.
  - intros s1 Hd Hr. subst run. unfold ComputeLoss1.bbox_decode,
      ComputeLoss.bbox_decode. rewrite Hd, Hr. reflexivity.
Qed.

(** One anchor with four sides of three logits; the stand-in softmax is
    uniform, so every decoded distance is (0 + 1 + 2) / 3 = 1. *)
Lemma bbox_decode_distances_witness :
  Forall (fun d => 0 <= d <= 2)%Q
         (@expected_distances Fixture.kernels 2 [1; 2; 3; 1; 2; 3; 1; 2; 3; 1; 2; 3])
  /\ exists r,
       @ComputeLoss.bbox_decode Q Q_Num Fixture.kernels Fixture.config
         (Tensor CUDA Float32 false [[4 # 8; 4 # 8]]) (snd Fixture.outputs)
       = ([], inr r).
Proof.
  destruct (@bbox_decode_distances Fixture.kernels Fixture.config
              (Tensor CUDA Float32 false [[4 # 8; 4 # 8]]) (snd Fixture.outputs))
    as (_ & Hret & Hrange & _).
  split.
  - apply Hrange. vm_compute.
    repeat (constructor; try discriminate; try reflexivity).
  - destruct Hret as (r & Hr & _); [reflexivity | reflexivity |].
    exists r. exact Hr.
Defined.

(** ** The distribution focal loss as an interpolation *)

Lemma convex_Q (lo hi c1 c2 w : Q) :
  (lo <= c1 <= hi)%Q -> (lo <= c2 <= hi)%Q -> (0 <= w <= 1)%Q ->
  (lo <= c1 * w + c2 * (1 - w) <= hi)%Q.
Proof.
  intros [H1l H1h] [H2l H2h] [Hw0 Hw1].
  assert (Hv0 : (0 <= 1 - w)%Q) by lra.
  pose proof (Qmult_le_compat_r _ _ _ H1l Hw0) as A1.
  pose proof (Qmult_le_compat_r _ _ _ H1h Hw0) as A2.
  pose proof (Qmult_le_compat_r _ _ _ H2l Hv0) as A3.
  pose proof (Qmult_le_compat_r _ _ _ H2h Hv0) as A4.
  assert (El : (lo * w + lo * (1 - w) == lo)%Q) by ring.
  assert (Eh : (hi * w + hi * (1 - w) == hi)%Q) by ring.
  set (a := (c1 * w)%Q) in *. set (b := (c2 * (1 - w))%Q) in *.
  set (la := (lo * w)%Q) in *. set (lb := (lo * (1 - w))%Q) in *.
  set (ha := (hi * w)%Q) in *. set (hb := (hi * (1 - w))%Q) in *.
  clearbody a b la lb ha hb. lra.
Qed.

Section DflBounds.
Context {K : Kernels Q} {E : Externals Q}.
Variable s : BboxLoss.self.
Variables lo hi : Q.

Let bounded (logits : list Q) : Prop :=
  forall i, (i <= BboxLoss.reg_max s)%nat -> (lo <= ce logits i <= hi)%Q.

Lemma dfl_side_bounds (logits : list Q) (t : Q) :
  bounded logits -> in_range s t -> (lo <= dfl_side logits t <= hi)%Q.
Proof.
  intros Hb Ht. pose proof Ht as [Ht0 Ht1].
  apply df_indices_in_range in Ht. destruct Ht as (Hfl & H0 & Hle).
  cbn [to_long Q_Num] in *. rewrite Hfl in H0, Hle.
  unfold dfl_side. cbv zeta. apply convex_Q.
  - apply Hb. lia.
  - apply Hb. lia.
  - pose proof (Qfloor_le t) as Hf1. pose proof (Qlt_floor t) as Hf2.
    rewrite inject_Z_plus in *. change (inject_Z 1) with 1%Q in *. lra.
Qed.

Lemma dfl_anchor_bounds (sides : mat Q) (t : list Q) :
  length sides = 4%nat -> length t = 4%nat ->
  Forall bounded sides -> Forall (in_range s) t ->
  (lo <= dfl_anchor sides t <= hi)%Q.
Proof.
  intros Hls Hlt Hs Ht.
  destruct sides as [| a0 [| a1 [| a2 [| a3 [| a4 sides]]]]]; try discriminate.
  destruct t as [| t0 [| t1 [| t2 [| t3 [| t4 t]]]]]; try discriminate.
  inversion Hs as [| ? ? B0 Hs1]; subst. inversion Hs1 as [| ? ? B1 Hs2]; subst.
  inversion Hs2 as [| ? ? B2 Hs3]; subst. inversion Hs3 as [| ? ? B3 _]; subst.
  inversion Ht as [| ? ? R0 Ht1]; subst. inversion Ht1 as [| ? ? R1 Ht2]; subst.
  inversion Ht2 as [| ? ? R2 Ht3]; subst. inversion Ht3 as [| ? ? R3 _]; subst.
  pose proof (dfl_side_bounds B0 R0) as D0. pose proof (dfl_side_bounds B1 R1) as D1.
  pose proof (dfl_side_bounds B2 R2) as D2. pose proof (dfl_side_bounds B3 R3) as D3.
  unfold dfl_anchor, sum_over. cbn [seq fold_right nth].
  set (d0 := dfl_side a0 t0) in *. set (d1 := dfl_side a1 t1) in *.
  set (d2 := dfl_side a2 t2) in *. set (d3 := dfl_side a3 t3) in *.
  clearbody d0 d1 d2 d3.
  split.
  - apply Qle_shift_div_l; lra.
  - apply Qle_shift_div_r; lra.
Qed.
End DflBounds.

(** X9.  The distribution focal loss of an anchor is an interpolation.
    Over the rationals, for [pred_dist] of shape (n, 4, reg_max + 1) and
    [target] of shape (n, 4) with target distances in [0, reg_max), the two
    weights of a side are non-negative and add up to 1, so the loss of an
    anchor (the mean over its four sides) lies between the smallest and the
    largest cross entropy of its sides: if every cross entropy against a
    bin 0..reg_max lies in [lo, hi], so does the loss of the anchor.
    [_df_loss] returns one such value for each of the n anchors.  With a
    non-negative cross entropy the loss of every anchor is non-negative. *)
Theorem dfl_between_cross_entropies :
  forall (K : Kernels Q) (E : Externals Q) (s : BboxLoss.self)
         (pred_dist : list (mat Q)) (target : mat Q) (lo hi : Q),
    length pred_dist = length target ->
    Forall (Forall (in_range s)) target ->
    Forall (fun t => length t = 4%nat) target ->
    Forall (fun sides => length sides = 4%nat) pred_dist ->
    Forall (Forall (fun logits => length logits = (BboxLoss.reg_max s + 1)%nat))
           pred_dist ->
    Forall (Forall (fun logits =>
                      forall i, (i <= BboxLoss.reg_max s)%nat ->
                                (lo <= ce logits i <= hi)%Q)) pred_dist ->
    exists r,
      BboxLoss._df_loss s pred_dist target = ([], inr r)
      /\ length r = length target
      /\ Forall (fun row => exists v, row = [v] /\ (lo <= v <= hi)%Q) r.
Proof.
  intros K E s pd target lo hi Hlen Hr Ht Hpd _ Hce.
  destruct (df_loss_spec Hr Ht Hpd) as (r & Hrun & Hspec).
  exists r. split; [exact Hrun |]. split.
  - apply Forall2_length in Hspec. rewrite Hspec, length_combine, Hlen.
    apply Nat.min_id.
  - clear Hrun Hlen. revert target Hr Ht r Hspec.
    induction pd as [| sides pd IH]; intros [| t target] Hr Ht r Hspec;
      cbn [combine] in Hspec; inversion Hspec; subst; try constructor.
    + match goal with
      | H : exists v, _ = [v] /\ _ |- _ => destruct H as (v & -> & Hv)
      end.
      exists v. split; [reflexivity |]. cbn [fst snd] in Hv. rewrite Hv.
      inversion Hr; inversion Ht; inversion Hpd; inversion Hce; subst.
      now apply (@dfl_anchor_bounds K s).
    + inversion Hr; inversion Ht; inversion Hpd; inversion Hce; subst.
      eapply IH; eauto.
Qed.

(** One anchor with the logits 1, 2, 3 on each side and the stand-in cross
    entropy (the logit of the class): its loss lies between 1 and 3. *)
Lemma dfl_between_cross_entropies_witness :
  exists r,
    @BboxLoss._df_loss Q Q_Num Fixture.kernels
      (@ComputeLoss.bbox_loss Q Fixture.config)
      [[[1; 2; 3]; [1; 2; 3]; [1; 2; 3]; [1; 2; 3]]]
      [[1 # 2; 1 # 2; 3 # 2; 3 # 2]] = ([], inr r)
    /\ length r = 1%nat
    /\ Forall (fun row => exists v, row = [v] /\ (1 <= v <= 3)%Q) r.
Proof.
  apply (@dfl_between_cross_entropies Fixture.kernels (Fixture.externals None 1)
           (@ComputeLoss.bbox_loss Q Fixture.config)
           [[[1; 2; 3]; [1; 2; 3]; [1; 2; 3]; [1; 2; 3]]]
           [[1 # 2; 1 # 2; 3 # 2; 3 # 2]] 1 3).
  - reflexivity.
  - repeat constructor; vm_compute; congruence.
  - repeat constructor.
  - repeat constructor.
  - repeat constructor.
  - repeat (apply Forall_cons || apply Forall_nil);
      (intros [| [| [| i]]] Hi; [| | | cbn in Hi; lia]; cbn; lra).
Defined.

(** * The gating helpers of [ComputeLoss] *)

(** ** [adaptive_weight] *)

Lemma Qgtb_le (x y : Q) : Qgtb x y = false <-> (x <= y)%Q.
Proof.
  unfold Qgtb. rewrite negb_false_iff. apply Qle_bool_iff.
Qed.

(** X10.  [adaptive_weight] never lowers the weight.  Over the rationals,
    with a non-negative base weight and scaling factor, the returned weight
    is at least [base_weight]; it is [base_weight] itself when the gating
    loss is not below the other loss, it is
    base_weight * (1 + scaling_factor * (other_loss - gating_loss))
    otherwise, and it does not grow when the gating loss grows.  In IEEE
    arithmetic a gating loss or other loss that is NaN leaves the weight at
    [base_weight]: the comparison is false. *)
Theorem adaptive_weight_never_lowers :
  (forall gating_loss other_loss base_weight scaling_factor : Q,
      (0 <= base_weight)%Q -> (0 <= scaling_factor)%Q ->
      let w := @adaptive_weight Q Q_Num gating_loss other_loss base_weight
                 scaling_factor in
      (base_weight <= w)%Q
      /\ ((other_loss <= gating_loss)%Q -> w = base_weight)
      /\ ((gating_loss < other_loss)%Q ->
          w = (base_weight * (1 + scaling_factor * (other_loss - gating_loss)))%Q)
      /\ (forall gating_loss' : Q,
            (gating_loss <= gating_loss')%Q ->
            (@adaptive_weight Q Q_Num gating_loss' other_loss base_weight
               scaling_factor <= w)%Q))
  /\ (forall gating_loss other_loss base_weight scaling_factor : spec_float,
        F32.is_nan gating_loss = true \/ F32.is_nan other_loss = true ->
        @adaptive_weight _ F32_Num gating_loss other_loss base_weight scaling_factor
        = base_weight).
Proof.
  split.
  - intros g o b sc Hb Hsc w.
    assert (Hgrow : forall g0 : Q, (g0 < o)%Q ->
              (b <= b * (1 + sc * (o - g0)))%Q).
    { intros g0 Hlt. rewrite <- (Qmult_1_r b) at 1.
      rewrite !(Qmult_comm b). apply Qmult_le_compat_r; [| exact Hb].
      assert (H0 : (0 <= sc * (o - g0))%Q) by (apply Qmult_le_0_compat; lra).
      lra. }
    assert (Hlow : (o <= g)%Q -> w = b).
    { intros Hle. subst w. unfold adaptive_weight. cbn [gtb Q_Num].
      apply Qgtb_le in Hle. now rewrite Hle. }
    assert (Hhigh : (g < o)%Q -> w = (b * (1 + sc * (o - g)))%Q).
    { intros Hlt. subst w. unfold adaptive_weight. cbn [gtb Q_Num].
      apply Qgtb_lt in Hlt. now rewrite Hlt. }
    split; [| split; [exact Hlow | split; [exact Hhigh |]]].
    + destruct (Qlt_le_dec g o) as [Hlt | Hle].
      * rewrite (Hhigh Hlt). now apply Hgrow.
      * rewrite (Hlow Hle). lra.
    + intros g' Hgg'. unfold adaptive_weight at 1. cbn [gtb Q_Num].
      destruct (Qgtb o g') eqn:Hc.
      * apply Qgtb_lt in Hc. assert (Hlt : (g < o)%Q) by lra.
        rewrite (Hhigh Hlt). cbn [mul add sub of_Z Q_Num].
        change (inject_Z 1) with 1%Q.
        rewrite !(Qmult_comm b). apply Qmult_le_compat_r; [| exact Hb].
        assert (H0 : (sc * (o - g') <= sc * (o - g))%Q).
        { rewrite !(Qmult_comm sc). apply Qmult_le_compat_r; lra. }
        lra.
      * destruct (Qlt_le_dec g o) as [Hlt | Hle].
        -- rewrite (Hhigh Hlt). now apply Hgrow.
        -- rewrite (Hlow Hle). lra.
  - intros g o b sc Hnan. unfold adaptive_weight. cbn [gtb F32_Num].
    unfold F32.gtb.
    destruct Hnan as [Hg | Ho].
    + destruct g; try discriminate. destruct o; reflexivity.
    + destruct o; try discriminate. destruct g; reflexivity.
Qed.

(** A gating loss 1 below the other loss 3, base weight 2, factor 1/2. *)
Lemma adaptive_weight_never_lowers_witness :
  (2 <= @adaptive_weight Q Q_Num 1 3 2 (1 # 2))%Q.
Proof.
  destruct adaptive_weight_never_lowers as [H _].
  destruct (H 1 3 2 (1 # 2)) as [Hge _]; [lra | lra | exact Hge].
Defined.

(** ** The matrix of pairwise distances *)

Lemma fold_left_pairs {A I J} (F : A -> I -> J -> A) (js : I -> list J)
    (l : list I) (a : A) :
  fold_left (fun a i => fold_left (fun a j => F a i j) (js i) a) l a
  = fold_left (fun a ij => F a (fst ij) (snd ij))
              (flat_map (fun i => map (pair i) (js i)) l) a.
Proof.
  revert a. induction l as [| i l IH]; intros a; [reflexivity |].
  cbn [fold_left flat_map]. rewrite fold_left_app, IH. f_equal.
  generalize (js i). intros l'. revert a.
  induction l' as [| j l' IHl]; intros a; [reflexivity |]. cbn [map fold_left].
  apply IHl.
Qed.

Lemma nth_update_row {A} (l : list A) (k k' : nat) (f : A -> A) (d : A) :
  nth k' (update l k f) d
  = if (k' =? k)%nat && (k <? length l)%nat then f (nth k l d) else nth k' l d.
Proof.
  destruct (Nat.ltb_spec k (length l)) as [Hlt | Hge].
  - rewrite nth_update by exact Hlt. now rewrite andb_true_r.
  - rewrite andb_false_r. f_equal. clear k'. revert k Hge.
    induction l as [| a l IH]; intros [| k] Hge; simpl in *; try reflexivity;
      try lia.
    f_equal. apply IH. lia.
Qed.

Section HammingMatrix.
Context {T : Type} {N : Num T} {O : NumOps T}.
Variable g : mat T.

Let n : nat := length g.
Let dist (i j : nat) : T := abs_diff_sum (nth i g []) (nth j g []).
Let entry (h : mat T) (p q : nat) : T := nth q (nth p h []) (of_Z 0).
Let square (h : mat T) : Prop :=
  length h = n /\ Forall (fun row => length row = n) h.
Let write (h : mat T) (ij : nat * nat) : mat T :=
  setitem2 (setitem2 h (fst ij) (snd ij) (dist (fst ij) (snd ij)))
           (snd ij) (fst ij) (dist (fst ij) (snd ij)).
Let mem (p q : nat) (l : list (nat * nat)) : bool :=
  existsb (fun ij => (fst ij =? p)%nat && (snd ij =? q)%nat) l.

Lemma setitem2_square (h : mat T) i j v : square h -> square (setitem2 h i j v).
Proof.
  intros [Hl Hr]. unfold setitem2. split; [now rewrite update_length |].
  apply update_Forall; [exact Hr |]. intros row Hrow. now rewrite update_length.
Qed.

Lemma square_row (h : mat T) i : square h -> (i < n)%nat -> length (nth i h []) = n.
Proof.
  intros [Hl Hr] Hi. rewrite Forall_forall in Hr. apply Hr. apply nth_In. lia.
Qed.

Lemma entry_setitem2 (h : mat T) i j v p q :
  square h -> (i < n)%nat -> (j < n)%nat ->
  entry (setitem2 h i j v) p q
  = if (p =? i)%nat && (q =? j)%nat then v else entry h p q.
Proof.
  intros Hsq Hi Hj. unfold entry, setitem2.
  rewrite nth_update_row. destruct Hsq as [Hl Hr].
  replace (i <? length h)%nat with true by (symmetry; apply Nat.ltb_lt; lia).
  rewrite andb_true_r. destruct (Nat.eqb_spec p i) as [-> | Hne]; [| reflexivity].
  rewrite nth_update_row.
  replace (j <? length (nth i h []))%nat with true.
  - rewrite andb_true_r. cbn [andb]. reflexivity.
  - symmetry. apply Nat.ltb_lt. rewrite (@square_row h i (conj Hl Hr) Hi). exact Hj.
Qed.

Lemma entry_write (h : mat T) i j p q :
  square h -> (i < j < n)%nat ->
  entry (write h (i, j)) p q
  = if ((i =? p)%nat && (j =? q)%nat) || ((i =? q)%nat && (j =? p)%nat)
    then dist (Nat.min p q) (Nat.max p q) else entry h p q.
Proof.
  intros Hsq Hij. unfold write. cbn [fst snd].
  rewrite entry_setitem2 by (try apply setitem2_square; auto; lia).
  rewrite entry_setitem2 by (auto; lia).
  destruct (Nat.eqb_spec p j), (Nat.eqb_spec q i), (Nat.eqb_spec p i),
    (Nat.eqb_spec q j), (Nat.eqb_spec i p), (Nat.eqb_spec j q),
    (Nat.eqb_spec i q), (Nat.eqb_spec j p); subst; cbn [andb orb];
    try reflexivity; try lia.
  - rewrite Nat.min_r, Nat.max_l by lia. reflexivity.
  - rewrite Nat.min_l, Nat.max_r by lia. reflexivity.
Qed.

Lemma fold_write (l : list (nat * nat)) (h : mat T) :
  square h ->
  Forall (fun ij => (fst ij < snd ij < n)%nat) l ->
  square (fold_left write l h)
  /\ forall p q,
       entry (fold_left write l h) p q
       = if mem p q l || mem q p l
         then dist (Nat.min p q) (Nat.max p q) else entry h p q.
Proof.
  intros Hsq Hl. revert h Hsq.
  induction Hl as [| [i j] l Hij _ IH]; intros h Hsq.
  - split; [exact Hsq | reflexivity].
  - cbn [fst snd] in Hij. cbn [fold_left].
    assert (Hsq' : square (write h (i, j))).
    { unfold write. now do 2 apply setitem2_square. }
    destruct (IH _ Hsq') as [Hs He]. split; [exact Hs |].
    intros p q. rewrite He, entry_write by auto.
    unfold mem. cbn [existsb fst snd].
    destruct ((i =? p)%nat && (j =? q)%nat), ((i =? q)%nat && (j =? p)%nat),
      (existsb (fun ij => (fst ij =? p)%nat && (snd ij =? q)%nat) l),
      (existsb (fun ij => (fst ij =? q)%nat && (snd ij =? p)%nat) l);
      reflexivity.
Qed.

Let pairs : list (nat * nat) :=
  flat_map (fun i => map (pair i) (seq (i + 1) (n - (i + 1)))) (seq 0 n).

Lemma In_pairs (p q : nat) : In (p, q) pairs <-> (p < q < n)%nat.
Proof.
  unfold pairs. rewrite in_flat_map. split.
  - intros (i & Hi & Hin). apply in_map_iff in Hin.
    destruct Hin as (j & Heq & Hj). injection Heq as -> ->.
    apply in_seq in Hi. apply in_seq in Hj. lia.
  - intros Hpq. exists p. split; [apply in_seq; lia |].
    apply in_map_iff. exists q. split; [reflexivity | apply in_seq; lia].
Qed.

Lemma mem_pairs (p q : nat) : mem p q pairs = (p <? q)%nat && (q <? n)%nat.
Proof.
  unfold mem. apply eq_true_iff_eq. rewrite existsb_exists, andb_true_iff.
  rewrite !Nat.ltb_lt. split.
  - intros ([i j] & Hin & Heq). cbn [fst snd] in Heq.
    apply andb_true_iff in Heq as [Hi Hj].
    apply Nat.eqb_eq in Hi, Hj. subst. now apply In_pairs.
  - intros Hpq. exists (p, q). split; [apply In_pairs; lia |].
    cbn [fst snd]. now rewrite !Nat.eqb_refl.
Qed.

Lemma hamming_distances_pairs :
  hamming_distances g = fold_left write pairs (repeat (repeat (of_Z 0) n) n).
Proof.
  unfold hamming_distances. fold n.
  rewrite (fold_left_pairs
             (fun h i j =>
                setitem2 (setitem2 h i j (abs_diff_sum (nth i g []) (nth j g [])))
                         j i (abs_diff_sum (nth i g []) (nth j g [])))
             (fun i => seq (i + 1) (n - (i + 1)))).
  reflexivity.
Qed.

Lemma zeros_square : square (repeat (repeat (of_Z 0) n) n).
Proof.
  split; [apply repeat_length |]. apply Forall_forall. intros row Hrow.
  apply repeat_spec in Hrow. subst row. apply repeat_length.
Qed.

Lemma entry_zeros (p q : nat) : entry (repeat (repeat (of_Z 0) n) n) p q = of_Z 0.
Proof.
  unfold entry. destruct (Nat.lt_ge_cases p n) as [Hp | Hp].
  - rewrite nth_repeat_lt by exact Hp. apply nth_repeat.
  - rewrite (nth_overflow (repeat (repeat (of_Z 0) n) n) [])
      by (rewrite repeat_length; exact Hp).
    now destruct q.
Qed.

Lemma hamming_distances_entry (p q : nat) :
  (p < n)%nat -> (q < n)%nat ->
  nth q (nth p (hamming_distances g) []) (of_Z 0)
  = if (p =? q)%nat then of_Z 0
    else abs_diff_sum (nth (Nat.min p q) g []) (nth (Nat.max p q) g []).
Proof.
  intros Hp Hq. rewrite hamming_distances_pairs.
  destruct (@fold_write pairs _ zeros_square) as [_ He].
  { apply Forall_forall. intros [i j] Hin. now apply In_pairs. }
  fold (entry (fold_left write pairs (repeat (repeat (of_Z 0) n) n)) p q).
  rewrite He, !mem_pairs, entry_zeros.
  destruct (Nat.eqb_spec p q) as [-> | Hne].
  - rewrite Nat.ltb_irrefl. reflexivity.
  - destruct (Nat.ltb_spec p q), (Nat.ltb_spec q p), (Nat.ltb_spec q n),
      (Nat.ltb_spec p n); cbn [andb orb]; try reflexivity; lia.
Qed.

Lemma hamming_distances_square :
  length (hamming_distances g) = n
  /\ Forall (fun row => length row = n) (hamming_distances g).
Proof.
  rewrite hamming_distances_pairs.
  destruct (@fold_write pairs _ zeros_square) as [Hs _]; [| exact Hs].
  apply Forall_forall. intros [i j] Hin. now apply In_pairs.
Qed.
End HammingMatrix.

(** X11.  The two loops of [compute_gating_diversity_index_hamming] fill a
    batch_size x batch_size matrix: its diagonal is zero, and for two
    different samples i and j both entries (i, j) and (j, i) hold the sum of
    the absolute differences of their gate values, computed once for the
    pair.  The matrix is symmetric. *)
Theorem hamming_matrix_entries :
  forall (T : Type) (N : Num T) (O : NumOps T) (gating_decision : mat T) (i j : nat),
    let n := length gating_decision in
    let h := hamming_distances gating_decision in
    (i < n)%nat -> (j < n)%nat ->
    length h = n
    /\ length (nth i h []) = n
    /\ nth j (nth i h []) (of_Z 0)
       = (if (i =? j)%nat then of_Z 0
          else abs_diff_sum (nth (Nat.min i j) gating_decision [])
                            (nth (Nat.max i j) gating_decision []))
    /\ nth j (nth i h []) (of_Z 0) = nth i (nth j h []) (of_Z 0).
Proof.
  intros T N O g i j n h Hi Hj.
  destruct (hamming_distances_square g) as [Hl Hr].
  split; [exact Hl | split; [| split]].
  - rewrite Forall_forall in Hr. apply Hr. apply nth_In. subst h n. lia.
  - now apply hamming_distances_entry.
  - subst h. rewrite !hamming_distances_entry by assumption.
    rewrite (Nat.eqb_sym j i), (Nat.min_comm j i), (Nat.max_comm j i). reflexivity.
Qed.

(** Three samples of two rational gate values. *)
Lemma hamming_matrix_entries_witness :
  nth 2 (nth 0 (@hamming_distances Q Q_Num Q_NumOps [[1; 0]; [1; 1]; [0; 1]]) []) 0
  = nth 0 (nth 2 (@hamming_distances Q Q_Num Q_NumOps [[1; 0]; [1; 1]; [0; 1]]) []) 0.
Proof.
  destruct (@hamming_matrix_entries Q Q_Num Q_NumOps [[1; 0]; [1; 1]; [0; 1]] 0 2)
    as (_ & _ & _ & H); [cbn; lia | cbn; lia | exact H].
Defined.

(** ** The Hamming index of boolean gates *)

Lemma hamming_sym (a b : list bool) : hamming a b = hamming b a.
Proof.
  unfold hamming. revert b. induction a as [| x a IH]; intros [| y b];
    cbn [combine filter length fst snd]; try reflexivity.
  rewrite (xorb_comm y x). destruct (xorb x y); cbn [length]; now rewrite IH.
Qed.

Lemma hamming_le (a b : list bool) : (hamming a b <= length a)%nat.
Proof.
  unfold hamming. revert b. induction a as [| x a IH]; intros [| y b];
    cbn [combine filter length fst snd]; try lia.
  specialize (IH b). destruct (xorb x y); cbn [length]; lia.
Qed.

Lemma tsum_Q_fold_right (l : list Q) : (@tsum Q Q_Num l == fold_right Qplus 0 l)%Q.
Proof.
  induction l as [| x l IH]; [reflexivity |]. rewrite tsum_Q_cons, IH. reflexivity.
Qed.

Lemma abs_diff_sum_bool (a b : list bool) :
  (@abs_diff_sum Q Q_Num Q_NumOps (map of_bool a) (map of_bool b)
   == inject_Z (Z.of_nat (hamming a b)))%Q.
Proof.
  unfold abs_diff_sum, hamming. revert b.
  induction a as [| x a IH]; intros [| y b];
    cbn [map zipWith combine filter length fst snd]; try reflexivity.
  rewrite tsum_Q_cons, IH.
  destruct x, y; cbn [xorb length]; rewrite ?Nat2Z.inj_succ; unfold Z.succ;
    rewrite ?inject_Z_plus;
    match goal with
    | |- (?v + _ == _)%Q =>
        let c := eval vm_compute in v in change v with c
    end; ring.
Qed.

Lemma In_matrix_entry {A} (d : A) (h : list (list A)) (n : nat) (v : A) :
  length h = n -> Forall (fun row => length row = n) h ->
  In v (concat h) ->
  exists p q, (p < n)%nat /\ (q < n)%nat /\ v = nth q (nth p h []) d.
Proof.
  intros Hl Hr Hin. apply in_concat in Hin. destruct Hin as (row & Hrow & Hv).
  destruct (In_nth h row [] Hrow) as (p & Hp & Hnp).
  destruct (In_nth row v d Hv) as (q & Hq & Hnq).
  rewrite Forall_forall in Hr. rewrite (Hr row Hrow) in Hq.
  exists p, q. subst row. rewrite Hl in Hp. now repeat split.
Qed.

Lemma matrix_entry_In {A} (d : A) (h : list (list A)) (n p q : nat) :
  length h = n -> Forall (fun row => length row = n) h ->
  (p < n)%nat -> (q < n)%nat -> In (nth q (nth p h []) d) (concat h).
Proof.
  intros Hl Hr Hp Hq. apply in_concat. exists (nth p h []). split.
  - apply nth_In. lia.
  - apply nth_In. rewrite Forall_forall in Hr. rewrite (Hr (nth p h [])); [exact Hq |].
    apply nth_In. lia.
Qed.

Lemma hamming_distances_entry_Q (g : mat Q) (p q : nat) :
  (p < length g)%nat -> (q < length g)%nat ->
  nth q (nth p (@hamming_distances Q Q_Num Q_NumOps g) []) 0%Q
  = if (p =? q)%nat then 0%Q
    else @abs_diff_sum Q Q_Num Q_NumOps (nth (Nat.min p q) g [])
                                        (nth (Nat.max p q) g []).
Proof. exact (@hamming_distances_entry Q Q_Num Q_NumOps g p q). Qed.

Section BooleanGates.
Variable gates : list (list bool).

Let n : nat := length gates.
Let g : mat Q := map (map of_bool) gates.

Lemma gates_row (i : nat) : nth i g [] = map of_bool (nth i gates []).
Proof. unfold g. now rewrite <- (map_nth (map of_bool) gates [] i). Qed.

Lemma boolean_entry (i j : nat) :
  (i < n)%nat -> (j < n)%nat -> i <> j ->
  (nth j (nth i (@hamming_distances Q Q_Num Q_NumOps g) []) 0
   == inject_Z (Z.of_nat (hamming (nth i gates []) (nth j gates []))))%Q.
Proof.
  intros Hi Hj Hne.
  rewrite (@hamming_distances_entry_Q g i j)
    by (unfold g; rewrite length_map; assumption).
  replace (i =? j)%nat with false by (symmetry; now apply Nat.eqb_neq).
  rewrite !gates_row, abs_diff_sum_bool.
  destruct (Nat.le_ge_cases i j) as [Hle | Hle].
  - now rewrite Nat.min_l, Nat.max_r by exact Hle.
  - rewrite Nat.min_r, Nat.max_l by exact Hle. now rewrite hamming_sym.
Qed.

Lemma boolean_selected (k : nat) (v : Q) :
  Forall (fun row => length row = k) gates ->
  In v (@nonzero Q Q_Num Q_NumOps (concat (@hamming_distances Q Q_Num Q_NumOps g))) ->
  (1 <= v <= inject_Z (Z.of_nat k))%Q.
Proof.
  intros Hk Hin. unfold nonzero in Hin. apply filter_In in Hin as [Hin Hnz].
  cbn [neb Q_NumOps of_Z Q_Num] in Hnz. apply negb_true_iff in Hnz.
  destruct (hamming_distances_square (O := Q_NumOps) g) as [Hl Hr].
  assert (Hn : length g = n) by (unfold g; now rewrite length_map).
  rewrite Hn in Hl, Hr.
  destruct (In_matrix_entry 0%Q _ Hl Hr Hin) as (p & q & Hp & Hq & ->).
  destruct (Nat.eq_dec p q) as [-> | Hne].
  - rewrite (@hamming_distances_entry_Q g q q) in Hnz
      by (rewrite Hn; assumption).
    rewrite Nat.eqb_refl in Hnz. discriminate.
  - pose proof (boolean_entry Hp Hq Hne) as He.
    set (h := hamming (nth p gates []) (nth q gates [])) in *.
    assert (Hh : (h <> 0)%nat).
    { intros H0. rewrite H0 in He. change (inject_Z (Z.of_nat 0)) with 0%Q in He.
      apply Qeq_bool_iff in He. change (inject_Z 0) with 0%Q in Hnz. congruence. }
    assert (Hle : (h <= k)%nat).
    { unfold h. pose proof (hamming_le (nth p gates []) (nth q gates [])) as Hb.
      rewrite Forall_forall in Hk. rewrite (Hk (nth p gates [])) in Hb;
        [exact Hb | apply nth_In; exact Hp]. }
    rewrite He. change 1%Q with (inject_Z 1). rewrite <- !Zle_Qle. lia.
Qed.
End BooleanGates.

(** X12.  The diversity index of boolean gating decisions, over the
    rationals.  The entry of the matrix for two different samples is their
    Hamming distance, the number of gates on which they differ.  When at
    least two samples of the batch differ, the index is the mean of the
    non-zero entries and lies between 1 and the number of gates per
    sample. *)
Theorem hamming_index_of_boolean_gates :
  forall (gates : list (list bool)) (k : nat),
    let n := length gates in
    let g : mat Q := map (map of_bool) gates in
    Forall (fun row => length row = k) gates ->
    (forall i j, (i < n)%nat -> (j < n)%nat -> i <> j ->
       (nth j (nth i (@hamming_distances Q Q_Num Q_NumOps g) []) 0
        == inject_Z (Z.of_nat (hamming (nth i gates []) (nth j gates []))))%Q)
    /\ ((exists i j, (i < n)%nat /\ (j < n)%nat /\ i <> j
                     /\ hamming (nth i gates []) (nth j gates []) <> 0%nat) ->
        (1 <= @compute_gating_diversity_index_hamming Q Q_Num Q_NumOps g
         <= inject_Z (Z.of_nat k))%Q).
Proof.
  intros gates k n g Hk. split.
  - intros i j Hi Hj Hne. now apply boolean_entry.
  - intros (i & j & Hi & Hj & Hne & Hh).
    unfold compute_gating_diversity_index_hamming. apply tmean_Q_bounds.
    + assert (Hin : In (nth j (nth i (@hamming_distances Q Q_Num Q_NumOps g) []) 0)
                       (@nonzero Q Q_Num Q_NumOps
                          (concat (@hamming_distances Q Q_Num Q_NumOps g)))).
      { unfold nonzero. apply filter_In. split.
        - destruct (hamming_distances_square (O := Q_NumOps) g) as [Hl Hr].
          assert (Hn : length g = n) by (unfold g; now rewrite length_map).
          rewrite Hn in Hl, Hr. now apply matrix_entry_In with (n := n).
        - cbn [neb Q_NumOps of_Z Q_Num]. apply negb_true_iff.
          destruct (Qeq_bool _ _) eqn:Hq; [| reflexivity]. exfalso.
          apply Qeq_bool_iff in Hq.
          pose proof (boolean_entry gates Hi Hj Hne) as He.
          assert (Hz : (inject_Z (Z.of_nat (hamming (nth i gates []) (nth j gates [])))
                        == inject_Z 0)%Q).
          { rewrite <- He. exact Hq. }
          apply -> inject_Z_injective in Hz. lia. }
      intros Hnil. rewrite Hnil in Hin. contradiction.
    + apply Forall_forall. intros v Hv. exact (@boolean_selected gates k v Hk Hv).
Qed.

(** Three samples of two gates: the distances are 1, 2 and 1, the index
    is (1 + 2 + 1 + 1 + 2 + 1) / 6. *)
Lemma hamming_index_of_boolean_gates_witness :
  (1 <= @compute_gating_diversity_index_hamming Q Q_Num Q_NumOps
          (map (map of_bool) [[true; false]; [true; true]; [false; true]]) <= 2)%Q.
Proof.
  destruct (@hamming_index_of_boolean_gates
              [[true; false]; [true; true]; [false; true]] 2) as [_ H].
  - repeat constructor.
  - apply H. exists 0%nat, 1%nat. cbn. repeat split; lia.
Defined.

(** ** A batch of equal gating decisions *)

Lemma filter_none {A} (f : A -> bool) (l : list A) :
  Forall (fun a => f a = false) l -> filter f l = [].
Proof.
  induction 1 as [| a l Ha _ IH]; [reflexivity |]. cbn [filter]. now rewrite Ha.
Qed.

Section EqualGates.
Let zero : spec_float := S754_zero false.

Lemma F32_sum_zeros (l : list spec_float) :
  Forall (eq zero) l -> fold_left (@add _ F32_Num) l zero = zero.
Proof.
  induction 1 as [| x l Hx _ IH]; [reflexivity |]. cbn [fold_left]. now subst x.
Qed.

Lemma F32_abs_diff_sum_same (row : list bool) :
  @abs_diff_sum _ F32_Num F32_NumOps (map (@of_bool _ F32_Num) row) (map (@of_bool _ F32_Num) row) = zero.
Proof.
  unfold abs_diff_sum, tsum. change (@of_Z _ F32_Num 0) with zero.
  apply F32_sum_zeros. induction row as [| b row IH]; [constructor |].
  cbn [map zipWith]. constructor; [| exact IH]. now destruct b.
Qed.

Lemma F32_equal_gates_select_nothing (row : list bool) (n : nat) :
  @nonzero _ F32_Num F32_NumOps
    (concat (@hamming_distances _ F32_Num F32_NumOps
               (map (map (@of_bool _ F32_Num)) (repeat row n)))) = [].
Proof.
  apply filter_none. apply Forall_forall. intros v Hv.
  set (g := map (map (@of_bool _ F32_Num)) (repeat row n)) in *.
  assert (Hn : length g = n) by (unfold g; now rewrite length_map, repeat_length).
  destruct (hamming_distances_square (N := F32_Num) (O := F32_NumOps) g) as [Hl Hr].
  rewrite Hn in Hl, Hr.
  destruct (In_matrix_entry (@of_Z _ F32_Num 0) _ Hl Hr Hv) as (p & q & Hp & Hq & ->).
  rewrite (@hamming_distances_entry _ F32_Num F32_NumOps g p q)
    by (rewrite Hn; assumption).
  destruct (p =? q)%nat; [reflexivity |].
  assert (Hrow : forall i, (i < n)%nat -> nth i g [] = map (@of_bool _ F32_Num) row).
  { intros i Hi. unfold g. rewrite map_repeat. now apply nth_repeat_lt. }
  rewrite !Hrow by lia. now rewrite F32_abs_diff_sum_same.
Qed.
End EqualGates.

(** X13.  In IEEE arithmetic the diversity index of a batch whose samples
    all have the same boolean gating decision - a batch of one sample, or
    an empty one, among them - is NaN: every pairwise distance is zero, the
    selection of the non-zero entries is empty, and its mean is 0 / 0. *)
Theorem hamming_index_of_equal_gates :
  forall (row : list bool) (n : nat),
    F32.is_nan (@compute_gating_diversity_index_hamming _ F32_Num F32_NumOps
                  (map (map (@of_bool _ F32_Num)) (repeat row n))) = true.
Proof.
  intros row n. unfold compute_gating_diversity_index_hamming.
  rewrite F32_equal_gates_select_nothing. reflexivity.
Qed.

(** ** The class diversity index *)

Lemma fold_left_Zmax_ge (l : list Z) (a : Z) :
  (a <= fold_left Z.max l a)%Z
  /\ Forall (fun x => x <= fold_left Z.max l a)%Z l
  /\ In (fold_left Z.max l a) (a :: l).
Proof.
  revert a. induction l as [| x l IH]; intros a; cbn [fold_left].
  - repeat split; [lia | constructor | now left].
  - destruct (IH (Z.max a x)) as (H1 & H2 & H3). repeat split.
    + lia.
    + constructor; [lia | exact H2].
    + destruct H3 as [H3 | H3]; [| now right; right].
      destruct (Z.max_spec a x) as [[_ Hm] | [_ Hm]]; rewrite Hm in H3 at 1.
      * right. now left.
      * now left.
Qed.

Lemma fold_left_Zadd (l : list Z) (a : Z) :
  fold_left Z.add l a = (a + fold_right Z.add 0 l)%Z.
Proof.
  revert a. induction l as [| x l IH]; intros a; cbn [fold_left fold_right];
    [lia |]. rewrite IH. lia.
Qed.

Lemma labelled_nonneg (gt_labels : cube Q) :
  Forall (fun l => 0 <= l)%Z (labelled gt_labels).
Proof.
  unfold labelled. apply Forall_map. apply Forall_forall. intros x Hx.
  apply filter_In in Hx as [_ Hx]. apply Qle_bool_iff in Hx.
  rewrite (Qtrunc_floor Hx). now apply Qfloor_nonneg.
Qed.

(** The indicator of a class sums to 1 over the classes. *)
Lemma indicator_sum (l : Z) (a m : nat) :
  fold_right Z.add 0%Z
    (map (fun c => if (l =? Z.of_nat c)%Z then 1%Z else 0%Z) (seq a m))
  = if ((Z.of_nat a <=? l) && (l <? Z.of_nat (a + m)))%Z then 1%Z else 0%Z.
Proof.
  revert a. induction m as [| m IH]; intros a; cbn [seq map fold_right].
  - destruct (Z.leb_spec (Z.of_nat a) l), (Z.ltb_spec l (Z.of_nat (a + 0)));
      cbn [andb]; try reflexivity; lia.
  - rewrite IH.
    destruct (Z.eqb_spec l (Z.of_nat a)), (Z.leb_spec (Z.of_nat (S a)) l),
      (Z.ltb_spec l (Z.of_nat (S a + m))), (Z.leb_spec (Z.of_nat a) l),
      (Z.ltb_spec l (Z.of_nat (a + S m))); cbn [andb]; try reflexivity; lia.
Qed.

Lemma fold_right_Zadd_plus {A} (f h : A -> Z) (l : list A) :
  fold_right Z.add 0%Z (map (fun c => f c + h c)%Z l)
  = (fold_right Z.add 0 (map f l) + fold_right Z.add 0 (map h l))%Z.
Proof.
  induction l as [| a l IH]; cbn [map fold_right]; [reflexivity |]. rewrite IH. lia.
Qed.

(** Every label is counted in exactly one class. *)
Lemma class_counts_total (labels : list Z) (k : nat) :
  Forall (fun l => 0 <= l < Z.of_nat k)%Z labels ->
  fold_right Z.add 0%Z (map (class_count labels) (seq 0 k))
  = Z.of_nat (length labels).
Proof.
  induction 1 as [| l labels Hl _ IH].
  - unfold class_count. cbn [filter length Z.of_nat].
    induction (seq 0 k) as [| c cs IHc]; [reflexivity | exact IHc].
  - assert (Hstep : forall c,
      class_count (l :: labels) c
      = ((if (l =? Z.of_nat c)%Z then 1 else 0) + class_count labels c)%Z).
    { intros c. unfold class_count. cbn [filter].
      destruct (l =? Z.of_nat c)%Z; cbn [length]; lia. }
    rewrite (map_ext _ _ Hstep), fold_right_Zadd_plus, IH, indicator_sum.
    replace ((Z.of_nat 0 <=? l) && (l <? Z.of_nat (0 + k)))%Z with true.
    + cbn [length]. lia.
    + symmetry. apply andb_true_iff. split; [apply Z.leb_le | apply Z.ltb_lt]; lia.
Qed.

Lemma column_sums_one_hot (labels : list Z) (k : nat) :
  column_sums k
    (map (fun l => map (fun j => if (Z.of_nat j =? l)%Z then 1%Z else 0%Z) (seq 0 k))
         labels)
  = map (class_count labels) (seq 0 k).
Proof.
  unfold column_sums. apply map_ext_in. intros c Hc. apply in_seq in Hc.
  rewrite fold_left_Zadd, map_map, Z.add_0_l. unfold class_count.
  assert (Hnth : forall l,
            nth c (map (fun j => if (Z.of_nat j =? l)%Z then 1%Z else 0%Z)
                       (seq 0 k)) 0%Z
            = if (l =? Z.of_nat c)%Z then 1%Z else 0%Z).
  { intros l.
    rewrite (nth_indep _ 0%Z
               ((fun j => if (Z.of_nat j =? l)%Z then 1%Z else 0%Z) 0%nat))
      by (rewrite length_map, length_seq; lia).
    rewrite (map_nth (fun j => if (Z.of_nat j =? l)%Z then 1%Z else 0%Z)).
    rewrite seq_nth by lia. now rewrite Z.eqb_sym. }
  induction labels as [| l labels IH]; [reflexivity |].
  cbn [map fold_right filter]. rewrite IH, Hnth.
  destruct (l =? Z.of_nat c)%Z; cbn [length]; lia.
Qed.

Lemma fold_right_Qplus_ext {A} (f h : A -> Q) (l : list A) :
  (forall a, In a l -> (f a == h a)%Q) ->
  (fold_right Qplus 0 (map f l) == fold_right Qplus 0 (map h l))%Q.
Proof.
  induction l as [| a l IH]; intros Hfh; cbn [map fold_right]; [reflexivity |].
  rewrite (Hfh a (or_introl eq_refl)), IH; [reflexivity |].
  intros b Hb. apply Hfh. now right.
Qed.

Lemma fold_right_Qplus_inject (l : list Z) :
  (fold_right Qplus 0 (map inject_Z l) == inject_Z (fold_right Z.add 0%Z l))%Q.
Proof.
  induction l as [| x l IH]; cbn [map fold_right]; [reflexivity |].
  rewrite IH, inject_Z_plus. reflexivity.
Qed.

Section WeightedEntropy.
Context {L : Log Q}.

(** With weights 1 the weighted entropy is the entropy. *)
Lemma weighted_entropy_ones (ps : list Q) :
  (@weighted_entropy_of Q Q_Num Q_NumOps L (repeat (@of_Z Q Q_Num 1) (length ps)) ps
   == - fold_right Qplus 0
          (map (fun p => p * log2 (p + (1 # 1000000000))) ps))%Q.
Proof.
  unfold weighted_entropy_of. cbn [neg Q_NumOps]. apply Qopp_comp.
  rewrite tsum_Q_fold_right.
  change (@lit Q Q_Num (1 # 1000000000)) with (1 # 1000000000)%Q.
  induction ps as [| p ps IH]; [reflexivity |].
  cbn [length repeat zipWith map fold_right]. rewrite IH.
  cbn [mul add of_Z Q_Num]. change (inject_Z 1) with 1%Q. ring.
Qed.
End WeightedEntropy.

(** X14.  The class diversity index, over the rationals.  The labelled
    entries of [gt_labels] are those that are >= 0, truncated to integers.
    Without a labelled entry - a batch of padding rows only - the call
    fails with a RuntimeError (the maximum of an empty tensor).  Otherwise
    it returns, with k = 1 + the largest label, the entropy in bits of the
    class frequencies over the classes 0..k-1, minus the sum of
    p * log2(p + 1e-9) where p is the share of the labelled entries of the
    class; the shares add up to 1, and the class weights, all equal to 1,
    change nothing. *)
Theorem class_diversity_index_is_entropy :
  forall (L : Log Q) (gt_labels : cube Q),
    let labels := labelled gt_labels in
    let run := @compute_class_diversity_index Q Q_Num Q_NumOps L gt_labels in
    (labels = [] -> exists msg, run = ([], inl (RuntimeError msg)))
    /\ (labels <> [] ->
        (forall x y : Q, (x == y)%Q -> (log2 x == log2 y)%Q) ->
        exists (r : Q) (k : nat),
          run = ([], inr r)
          /\ Forall (fun l => 0 <= l < Z.of_nat k)%Z labels
          /\ In (Z.of_nat k - 1)%Z labels
          /\ (r == class_entropy labels k)%Q
          /\ (fold_right Qplus 0
                (map (fun c => inject_Z (class_count labels c)
                               / inject_Z (Z.of_nat (length labels)))
                     (seq 0 k)) == 1)%Q).
Proof.
  intros L gt labels run. split.
  - intros Hnil. subst run. unfold compute_class_diversity_index.
    cbn [geb Q_NumOps of_Z Q_Num to_long].
    change (map Qtrunc (filter (fun x => Qle_bool (inject_Z 0) x) (concat (concat gt))))
      with labels.
    rewrite Hnil. eexists. reflexivity.
  - intros Hne Hlog. subst run. unfold compute_class_diversity_index.
    cbn [geb Q_NumOps of_Z Q_Num to_long].
    change (map Qtrunc (filter (fun x => Qle_bool (inject_Z 0) x) (concat (concat gt))))
      with labels.
    pose proof (labelled_nonneg gt) as Hnn. fold labels in Hnn.
    destruct labels as [| a rest] eqn:Hlab; [congruence |].
    cbn [tensor_max]. rewrite bind_ret_l.
    set (m := fold_left Z.max rest a).
    destruct (fold_left_Zmax_ge rest a) as (Ha & Hrest & Hin). fold m in Ha, Hrest, Hin.
    set (k := Z.to_nat (m + 1)).
    assert (Hm0 : (0 <= m)%Z) by (inversion Hnn; subst; lia).
    assert (Hk : Z.of_nat k = (m + 1)%Z) by (unfold k; lia).
    assert (Hrange : Forall (fun l => 0 <= l < Z.of_nat k)%Z (a :: rest)).
    { rewrite Hk. constructor.
      - inversion Hnn; subst; lia.
      - inversion Hnn as [| ? ? _ Hnn']; subst.
        rewrite Forall_forall in Hrest, Hnn'. apply Forall_forall.
        intros x Hx. specialize (Hrest x Hx). specialize (Hnn' x Hx). lia. }
    rewrite (@mapM_ret_map _ _ (fun l => one_hot l k)
               (fun l => map (fun j => if (Z.of_nat j =? l)%Z then 1%Z else 0%Z)
                             (seq 0 k))).
    2:{ intros l Hl. rewrite Forall_forall in Hrange. specialize (Hrange l Hl).
        unfold one_hot.
        replace ((0 <=? l) && (l <? Z.of_nat k))%Z with true; [reflexivity |].
        symmetry. apply andb_true_iff. split; [apply Z.leb_le | apply Z.ltb_lt]; lia. }
    rewrite bind_ret_l, column_sums_one_hot.
    set (counts := map (class_count (a :: rest)) (seq 0 k)).
    set (total := @tsum Q Q_Num (map inject_Z counts)).
    assert (Htotal : (total == inject_Z (Z.of_nat (length (a :: rest))))%Q).
    { unfold total. rewrite tsum_Q_fold_right, fold_right_Qplus_inject.
      unfold counts. now rewrite (@class_counts_total (a :: rest) k Hrange). }
    assert (Hpos : ~ (inject_Z (Z.of_nat (length (a :: rest))) == 0)%Q).
    { change 0%Q with (inject_Z 0). rewrite inject_Z_injective. cbn [length]. lia. }
    exists (@weighted_entropy_of Q Q_Num Q_NumOps L (repeat (@of_Z Q Q_Num 1) k)
              (map (fun c => c / total)%Q (map inject_Z counts))), k.
    split; [reflexivity |]. split; [exact Hrange |]. split.
    { replace (Z.of_nat k - 1)%Z with m by lia. exact Hin. }
    split.
    + assert (Hlen : length (map (fun c => c / total)%Q (map inject_Z counts)) = k).
      { unfold counts. now rewrite !length_map, length_seq. }
      rewrite <- Hlen at 1. rewrite weighted_entropy_ones.
      unfold class_entropy. apply Qopp_comp. unfold counts.
      rewrite !map_map. apply fold_right_Qplus_ext. intros c Hc. cbv zeta.
      assert (Hp : (inject_Z (class_count (a :: rest) c) / total
                    == inject_Z (class_count (a :: rest) c)
                       / inject_Z (Z.of_nat (length (a :: rest))))%Q)
        by now rewrite Htotal.
      rewrite Hp at 1.
      apply Qmult_comp; [reflexivity |]. apply Hlog. now rewrite Hp.
    + unfold Qdiv.
      rewrite (fold_right_Qplus_ext
                 (fun c => inject_Z (class_count (a :: rest) c)
                           * / inject_Z (Z.of_nat (length (a :: rest))))%Q
                 (fun c => / inject_Z (Z.of_nat (length (a :: rest)))
                           * inject_Z (class_count (a :: rest) c))%Q)
        by (intros; ring).
      assert (Hscale : forall (q : Q) (l : list Z),
                (fold_right Qplus 0 (map (fun z => q * inject_Z z) l)
                 == q * inject_Z (fold_right Z.add 0%Z l))%Q).
      { intros q l. induction l as [| z l IHl]; cbn [map fold_right]; [ring |].
        rewrite IHl, inject_Z_plus. ring. }
      rewrite <- (map_map (class_count (a :: rest))
                    (fun z => / inject_Z (Z.of_nat (length (a :: rest))) * inject_Z z)%Q).
      rewrite Hscale, (@class_counts_total (a :: rest) k Hrange). now field.
Qed.

(** Three labelled entries of the classes 0, 2 and 2, and one padding
    row; the stand-in for [log2] is the identity. *)
Lemma class_diversity_index_is_entropy_witness :
  exists r k,
    @compute_class_diversity_index Q Q_Num Q_NumOps {| log2 := fun x => x |}
      [[[0]; [2]]; [[2]; [-1]]] = ([], inr r)
    /\ (r == @class_entropy {| log2 := fun x => x |} [0; 2; 2]%Z k)%Q.
Proof.
  destruct (@class_diversity_index_is_entropy {| log2 := fun x => x |}
              [[[0]; [2]]; [[2]; [-1]]]) as [_ H].
  destruct H as (r & k & Hr & _ & _ & He & _).
  - discriminate.
  - intros x y Hxy. exact Hxy.
  - exists r, k. split; [exact Hr | exact He].
Defined.

(** ** The gating diversity loss *)

(** X15.  [compute_gating_diversity_loss] compares the class diversity
    index with the diversity index divided by 132 (12 * 11, whatever the
    batch size).  An error of the class diversity index is the error of the
    call.  Over the rationals, with a diversity index that is not zero, the
    loss is |class index - diversity index / 132|.  In IEEE arithmetic, for
    a batch whose samples all have the same boolean gating decision, the
    loss is NaN whenever the call returns. *)
Theorem gating_diversity_loss_value :
  (forall (L : Log Q) (gating_decision : mat Q) (gt_labels : cube Q) (e : exn),
      @compute_class_diversity_index Q Q_Num Q_NumOps L gt_labels = ([], inl e) ->
      @compute_gating_diversity_loss Q Q_Num Q_NumOps L gating_decision gt_labels
      = ([], inl e))
  /\ (forall (L : Log Q) (gating_decision : mat Q) (gt_labels : cube Q) (c : Q),
        @compute_class_diversity_index Q Q_Num Q_NumOps L gt_labels = ([], inr c) ->
        let index := @compute_gating_diversity_index_hamming Q Q_Num Q_NumOps
                       gating_decision in
        ~ (index == 0)%Q ->
        exists r,
          @compute_gating_diversity_loss Q Q_Num Q_NumOps L gating_decision gt_labels
          = ([], inr r)
          /\ (r == Qabs (c - index / 132))%Q)
  /\ (forall (L : Log spec_float) (row : list bool) (n : nat)
             (gt_labels : cube spec_float) (r : spec_float),
        result_of (@compute_gating_diversity_loss _ F32_Num F32_NumOps L
                     (map (map (@of_bool _ F32_Num)) (repeat row n)) gt_labels)
        = inr r ->
        F32.is_nan r = true).
Proof.
  split; [| split].
  - intros L g gt e He. unfold compute_gating_diversity_loss. now rewrite He.
  - intros L g gt c Hc index Hnz. unfold compute_gating_diversity_loss.
    rewrite Hc. change (@pair (list event) (exn + Q) [] (inr c)) with (ret c).
    rewrite bind_ret_l. eexists. split; [reflexivity |].
    fold index. unfold nonzero. cbn [filter neb Q_NumOps of_Z Q_Num].
    replace (Qeq_bool index (inject_Z 0)) with false.
    + cbn [negb abs Q_NumOps sub div Q_Num]. apply Qabs_wd.
      unfold tmean, tsum. cbn [fold_left length Z.of_nat add div of_Z Q_Num].
      change (inject_Z (12 * (12 - 1))) with 132%Q.
      change (inject_Z 0) with 0%Q. change (inject_Z 1) with 1%Q. field.
    + symmetry. destruct (Qeq_bool index (inject_Z 0)) eqn:Hq; [| reflexivity].
      apply Qeq_bool_iff in Hq. contradiction.
  - intros L row n gt r Hr. unfold compute_gating_diversity_loss in Hr.
    assert (Hidx : @compute_gating_diversity_index_hamming _ F32_Num F32_NumOps
                     (map (map (@of_bool _ F32_Num)) (repeat row n)) = S754_nan).
    { assert (Hnan : F32.is_nan
                       (@compute_gating_diversity_index_hamming _ F32_Num F32_NumOps
                          (map (map (@of_bool _ F32_Num)) (repeat row n))) = true).
      { unfold compute_gating_diversity_index_hamming.
        rewrite F32_equal_gates_select_nothing. reflexivity. }
      destruct (@compute_gating_diversity_index_hamming _ F32_Num F32_NumOps
                  (map (map (@of_bool _ F32_Num)) (repeat row n)));
        try discriminate. reflexivity. }
    rewrite Hidx in Hr. bind_inv Hr as c Hc. cbn in Hr. injection Hr as <-.
    destruct c; reflexivity.
Qed.

(** Three samples of two gates (index 4/3) and the labels 0, 2, 2. *)
Lemma gating_diversity_loss_value_witness :
  exists r c,
    @compute_gating_diversity_loss Q Q_Num Q_NumOps {| log2 := fun x => x |}
      (map (map of_bool) [[true; false]; [true; true]; [false; true]])
      [[[0]; [2]]; [[2]; [-1]]] = ([], inr r)
    /\ (r == Qabs (c - (4 # 3) / 132))%Q.
Proof.
  destruct gating_diversity_loss_value as (_ & H & _).
  let c := eval vm_compute in
    (result_of (@compute_class_diversity_index Q Q_Num Q_NumOps {| log2 := fun x => x |}
                  [[[0]; [2]]; [[2]; [-1]]])) in
  match c with
  | inr ?v =>
      destruct (H {| log2 := fun x => x |}
                  (map (map of_bool) [[true; false]; [true; true]; [false; true]])
                  [[[0]; [2]]; [[2]; [-1]]] v) as (r & Hr & He);
        [ vm_compute; reflexivity
        | vm_compute; discriminate
        | exists r, v; split; [exact Hr |] ]
  end.
  rewrite He. apply Qabs_wd. vm_compute. reflexivity.
Defined.

(** * tools/infer.py: the output directories *)

(** ** Paths and candidate names *)

Lemma append_inv_head (s a b : string) : (s ++ a = s ++ b)%string -> a = b.
Proof.
  induction s as [| c s IH]; cbn [append]; [auto |].
  intros Heq. injection Heq as Heq. auto.
Qed.

Lemma str_inj (a b : nat) : Infer.str a = Infer.str b -> a = b.
Proof.
  unfold Infer.str. intros Heq.
  apply (f_equal NilEmpty.uint_of_string) in Heq. rewrite !NilEmpty.usu in Heq.
  injection Heq as Heq. apply (f_equal Nat.of_uint) in Heq.
  now rewrite !DecimalNat.Unsigned.of_to in Heq.
Qed.

Lemma str_not_sep (n : nat) : String.prefix "/" (Infer.str n) = false.
Proof. unfold Infer.str. destruct (Nat.to_uint n); reflexivity. Qed.

Lemma prefix_empty (s : string) : String.prefix "" s = true.
Proof. now destruct s. Qed.

Lemma prefix_sep_append (name s : string) :
  name <> ""%string ->
  String.prefix "/" (name ++ s) = String.prefix "/" name.
Proof.
  destruct name as [| c name]; [congruence |]. intros _. cbn [append String.prefix].
  destruct (ascii_dec "/" c); [| reflexivity]. now rewrite !prefix_empty.
Qed.

(** Different counters give different candidate directories. *)
Lemma candidate_inj (base_dir name : string) (a b : nat) :
  Infer.candidate base_dir name a = Infer.candidate base_dir name b -> a = b.
Proof.
  unfold Infer.candidate, Infer.join.
  assert (Hp : String.prefix "/" (name ++ Infer.str a)
               = String.prefix "/" (name ++ Infer.str b)).
  { destruct name as [| c name].
    - cbn [append]. now rewrite !str_not_sep.
    - now rewrite !prefix_sep_append by discriminate. }
  rewrite Hp. destruct (String.prefix "/" (name ++ Infer.str b)).
  - intros Heq. apply append_inv_head in Heq. now apply str_inj.
  - destruct ((base_dir =? "")%string || Infer.ends_with_sep base_dir).
    + intros Heq. do 2 apply append_inv_head in Heq. now apply str_inj.
    + intros Heq. do 3 apply append_inv_head in Heq. now apply str_inj.
Qed.

Lemma NoDup_map_injective {A B} (f : A -> B) (l : list A) :
  (forall a b, f a = f b -> a = b) -> NoDup l -> NoDup (map f l).
Proof.
  intros Hinj. induction 1 as [| a l Hnin _ IH]; cbn [map]; constructor; [| exact IH].
  intros Hin. apply in_map_iff in Hin. destruct Hin as (b & Heq & Hb).
  apply Hinj in Heq. now subst b.
Qed.

Lemma first_free (P : nat -> bool) (bound : nat) :
  (exists k, (1 <= k <= bound)%nat /\ P k = false) ->
  exists k, (1 <= k <= bound)%nat /\ P k = false
            /\ forall j, (1 <= j < k)%nat -> P j = true.
Proof.
  induction bound as [| b IH].
  - intros (k & Hk & _). lia.
  - intros (k & Hk & Hf).
    destruct (Nat.eq_dec k (S b)) as [-> | Hne].
    + assert (Hdec : (exists k', (1 <= k' <= b)%nat /\ P k' = false)
                     \/ forall j, (1 <= j <= b)%nat -> P j = true).
      { clear. induction b as [| b IHb]; [right; intros; lia |].
        destruct IHb as [(k' & Hk' & Hf') | Hall].
        - left. exists k'. split; [lia | exact Hf'].
        - destruct (P (S b)) eqn:Hb.
          + right. intros j Hj. destruct (Nat.eq_dec j (S b)) as [-> | Hn];
              [exact Hb | apply Hall; lia].
          + left. exists (S b). split; [lia | exact Hb]. }
      destruct Hdec as [Hex | Hall].
      * destruct (IH Hex) as (k' & Hk' & Hf' & Hlt). exists k'.
        split; [lia | split; assumption].
      * exists (S b). split; [lia | split; [exact Hf |]]. intros j Hj.
        apply Hall. lia.
    + destruct IH as (k' & Hk' & Hf' & Hlt); [exists k; split; [lia | exact Hf] |].
      exists k'. split; [lia | split; assumption].
Qed.

Section Directories.
Context {FS R : Type} {W : Infer.World FS R}.
Hypothesis laws : Infer.lawful FS R.

(** Some candidate directory does not exist. *)
Lemma some_candidate_free (fs : FS) (base_dir name : string) :
  exists bound k, (1 <= k <= bound)%nat
                  /\ Infer.exists_ fs (Infer.candidate base_dir name k) = false.
Proof.
  destruct (Infer.finitely_many laws fs) as [l Hl].
  exists (S (length l)).
  destruct (existsb (fun k => negb (Infer.exists_ fs (Infer.candidate base_dir name k)))
                    (seq 1 (S (length l)))) eqn:Hex.
  - apply existsb_exists in Hex. destruct Hex as (k & Hk & Hf).
    apply in_seq in Hk. apply negb_true_iff in Hf. exists k. split; [lia | exact Hf].
  - exfalso.
    assert (Hall : forall k, In k (seq 1 (S (length l))) ->
                     In (Infer.candidate base_dir name k) l).
    { intros k Hk. apply Hl.
      destruct (Infer.exists_ fs (Infer.candidate base_dir name k)) eqn:He;
        [reflexivity |].
      assert (Ht : existsb (fun k => negb (Infer.exists_ fs
                                             (Infer.candidate base_dir name k)))
                           (seq 1 (S (length l))) = true).
      { apply existsb_exists. exists k. split; [exact Hk | now rewrite He]. }
      congruence. }
    assert (Hnd : NoDup (map (Infer.candidate base_dir name) (seq 1 (S (length l))))).
    { apply NoDup_map_injective; [| apply seq_NoDup].
      intros a b. apply candidate_inj. }
    assert (Hincl : incl (map (Infer.candidate base_dir name) (seq 1 (S (length l)))) l).
    { intros p Hp. apply in_map_iff in Hp. destruct Hp as (k & <- & Hk).
      now apply Hall. }
    pose proof (NoDup_incl_length Hnd Hincl) as Hlen.
    rewrite length_map, length_seq in Hlen. lia.
Qed.

(** The loop passes the candidates that exist and returns the first one
    that does not; it neither logs nor changes the file system. *)
Lemma while_exists_finds (base_dir name : string) (fs : FS) (k : nat) :
  Infer.exists_ fs (Infer.candidate base_dir name k) = false ->
  forall fuel counter,
    (counter <= k)%nat -> (k - counter < fuel)%nat ->
    (forall j, (counter <= j < k)%nat ->
               Infer.exists_ fs (Infer.candidate base_dir name j) = true) ->
    Infer.while_exists fuel base_dir name counter
      (Infer.candidate base_dir name counter) fs
    = Some ([], fs, inr (Infer.candidate base_dir name k)).
Proof.
  intros Hfree fuel. induction fuel as [| fuel IH]; intros counter Hle Hfuel Hbelow;
    [lia |].
  cbn [Infer.while_exists]. unfold Infer.bind, Infer.os_exists.
  destruct (Nat.eq_dec counter k) as [-> | Hne].
  - rewrite Hfree. reflexivity.
  - rewrite (Hbelow counter) by lia.
    fold (Infer.candidate base_dir name (counter + 1)).
    rewrite IH; [reflexivity | lia | lia |]. intros j Hj. apply Hbelow. lia.
Qed.

Lemma while_exists_sound (base_dir name : string) (fs : FS) :
  forall fuel counter tr fs' r,
    Infer.while_exists fuel base_dir name counter
      (Infer.candidate base_dir name counter) fs = Some (tr, fs', r) ->
    exists k, (counter <= k)%nat
              /\ tr = [] /\ fs' = fs /\ r = inr (Infer.candidate base_dir name k)
              /\ Infer.exists_ fs (Infer.candidate base_dir name k) = false
              /\ forall j, (counter <= j < k)%nat ->
                           Infer.exists_ fs (Infer.candidate base_dir name j) = true.
Proof.
  induction fuel as [| fuel IH]; intros counter tr fs' r Hrun; [discriminate |].
  cbn [Infer.while_exists] in Hrun. unfold Infer.bind, Infer.os_exists in Hrun.
  destruct (Infer.exists_ fs (Infer.candidate base_dir name counter)) eqn:He.
  - fold (Infer.candidate base_dir name (counter + 1)) in Hrun.
    destruct (Infer.while_exists fuel base_dir name (counter + 1)
                (Infer.candidate base_dir name (counter + 1)) fs)
      as [[[tr1 fs1] r1] |] eqn:Hrec; [| discriminate].
    injection Hrun as <- <- <-.
    destruct (IH _ _ _ _ Hrec) as (k & Hk & -> & -> & -> & Hfree & Hbelow).
    exists k.
    split; [lia |]. split; [reflexivity |]. split; [reflexivity |].
    split; [reflexivity |]. split; [exact Hfree |].
    intros j Hj. destruct (Nat.eq_dec j counter) as [-> | Hn];
      [exact He | apply Hbelow; lia].
  - cbn in Hrun. injection Hrun as <- <- <-.
    exists counter.
    split; [lia |]. split; [reflexivity |]. split; [reflexivity |].
    split; [reflexivity |]. split; [exact He |].
    intros j Hj. lia.
Qed.
End Directories.

(** X16.  [get_next_dir_name] ends and returns the first free name.  On a
    file system with finitely many paths the loop ends (with enough fuel it
    returns, and more fuel changes nothing); the directory it returns is
    base_dir/name<k> for the smallest k >= 1 for which that path does not
    exist, so every name<j> with 1 <= j < k exists.  It creates nothing and
    logs nothing. *)
Theorem get_next_dir_name_first_free :
  forall (FS R : Type) (W : Infer.World FS R),
    Infer.lawful FS R ->
    forall (fs : FS) (base_dir name : string),
      exists k fuel0,
        (1 <= k)%nat
        /\ Infer.exists_ fs (Infer.candidate base_dir name k) = false
        /\ (forall j, (1 <= j < k)%nat ->
                      Infer.exists_ fs (Infer.candidate base_dir name j) = true)
        /\ (forall fuel, (fuel0 <= fuel)%nat ->
              Infer.get_next_dir_name fuel base_dir name fs
              = Some ([], fs, inr (Infer.candidate base_dir name k)))
        /\ (forall fuel out,
              Infer.get_next_dir_name fuel base_dir name fs = Some out ->
              out = ([], fs, inr (Infer.candidate base_dir name k))).
Proof.
  intros FS R W laws fs base_dir name.
  destruct (some_candidate_free laws fs base_dir name) as (bound & k0 & Hk0 & Hf0).
  destruct (first_free (fun k => Infer.exists_ fs (Infer.candidate base_dir name k))
              (bound := bound)) as (k & Hk & Hfree & Hbelow);
    [exists k0; split; assumption |].
  exists k, k. split; [lia |]. split; [exact Hfree |]. split; [exact Hbelow |]. split.
  - intros fuel Hfuel. unfold Infer.get_next_dir_name.
    apply (while_exists_finds base_dir name fs Hfree); [lia | lia |].
    intros j Hj. apply Hbelow. lia.
  - intros fuel [[tr fs'] r] Hrun. unfold Infer.get_next_dir_name in Hrun.
    destruct (while_exists_sound base_dir name fs _ _ Hrun)
      as (k' & Hk' & -> & -> & -> & Hfree' & Hbelow').
    assert (k' = k).
    { destruct (Nat.lt_trichotomy k' k) as [Hlt | [Heq | Hgt]]; [| exact Heq |].
      - rewrite (Hbelow k') in Hfree' by lia. discriminate.
      - rewrite (Hbelow' k) in Hfree by lia. discriminate. }
    now subst k'.
Qed.

Lemma listed_lawful : @Infer.lawful (list string) unit Infer.listed.
Proof.
  constructor.
  - intros fs p fs'. cbn. destruct (existsb (String.eqb p) fs) eqn:He; [discriminate |].
    intros Heq. injection Heq as <-. cbn. rewrite String.eqb_refl. split; [reflexivity |].
    intros q Hq. rewrite Hq. apply orb_true_r.
  - intros fs. exists fs. intros p Hp. cbn in Hp. apply existsb_exists in Hp.
    destruct Hp as (q & Hq & Heq). apply String.eqb_eq in Heq. now subst q.
Qed.

(** With runs/exp1 and runs/exp2 taken, the next directory is runs/exp3. *)
Lemma get_next_dir_name_first_free_witness :
  exists k,
    Infer.candidate "runs" "exp" k = "runs/exp3"%string
    /\ forall fuel out,
         @Infer.get_next_dir_name (list string) unit Infer.listed fuel "runs" "exp"
           ["runs/exp2"; "runs/exp"; "runs/exp1"]%string = Some out ->
         out = ([], ["runs/exp2"; "runs/exp"; "runs/exp1"]%string,
                inr "runs/exp3"%string).
Proof.
  destruct (@get_next_dir_name_first_free (list string) unit Infer.listed listed_lawful
              ["runs/exp2"; "runs/exp"; "runs/exp1"]%string "runs"%string "exp"%string)
    as (k & fuel0 & Hk & Hfree & Hbelow & Hrun & Hout).
  assert (Hk3 : Infer.candidate "runs" "exp" k = "runs/exp3"%string).
  { assert (H5 : @Infer.get_next_dir_name (list string) unit Infer.listed 5 "runs" "exp"
                   ["runs/exp2"; "runs/exp"; "runs/exp1"]%string
                 = Some ([], ["runs/exp2"; "runs/exp"; "runs/exp1"]%string,
                         inr "runs/exp3"%string)) by (vm_compute; reflexivity).
    pose proof (Hout 5%nat _ H5) as Heq.
    apply (f_equal (fun o : list Infer.event * list string * (Infer.error + string) =>
                      match snd o with inr d => d | inl _ => ""%string end)) in Heq.
    symmetry. exact Heq. }
  exists k. split; [exact Hk3 |]. intros fuel out Hfuel.
  rewrite (Hout fuel out Hfuel), Hk3. reflexivity.
Defined.

(** ** The directories of [run] *)

Section SaveDirs.
Context {FS R : Type} {W : Infer.World FS R}.
Hypothesis laws : Infer.lawful FS R.

Lemma get_next_dir_name_sound (fuel : nat) (base_dir name : string) (fs : FS) out :
  Infer.get_next_dir_name fuel base_dir name fs = Some out ->
  exists k, (1 <= k)%nat
            /\ out = ([], fs, inr (Infer.candidate base_dir name k))
            /\ Infer.exists_ fs (Infer.candidate base_dir name k) = false
            /\ forall j, (1 <= j < k)%nat ->
                         Infer.exists_ fs (Infer.candidate base_dir name j) = true.
Proof.
  destruct out as [[tr fs'] r]. unfold Infer.get_next_dir_name. intros Hrun.
  destruct (while_exists_sound base_dir name fs _ _ Hrun)
    as (k & Hk & -> & -> & -> & Hfree & Hbelow).
  exists k. split; [exact Hk |]. split; [reflexivity |]. split; assumption.
Qed.

Lemma get_next_dir_name_ends (fs : FS) (base_dir name : string) :
  exists k fuel0, forall fuel, (fuel0 <= fuel)%nat ->
    Infer.get_next_dir_name fuel base_dir name fs
    = Some ([], fs, inr (Infer.candidate base_dir name k)).
Proof.
  destruct (some_candidate_free laws fs base_dir name) as (bound & k0 & Hk0 & Hf0).
  destruct (first_free (fun k => Infer.exists_ fs (Infer.candidate base_dir name k))
              (bound := bound)) as (k & Hk & Hfree & Hbelow);
    [exists k0; split; assumption |].
  exists k, k. intros fuel Hfuel. unfold Infer.get_next_dir_name.
  apply (while_exists_finds base_dir name fs Hfree); [lia | lia |].
  intros j Hj. apply Hbelow. lia.
Qed.

(** The directory [run] starts from, and the directory of the label files
    that goes with it. *)
Let target (project name : string) (save_dir : option string) : string :=
  match save_dir with
  | None => Infer.join project name
  | Some d => d
  end.

Let labels_of (project name : string) (save_dir : option string) : string :=
  match save_dir with
  | None => Infer.join (Infer.join project name) "labels"
  | Some d => d
  end.

(** The last step of [save_dirs]: the directory of the label files. *)
Let label_step (save_txt : bool) (dirs : string * string) (fs : FS)
  : list Infer.event * FS * (Infer.error + (string * string)) :=
  if save_txt then
    if Infer.exists_ fs (snd dirs) then ([], fs, inr dirs)
    else match Infer.makedirs fs (snd dirs) with
         | inl e => ([], fs, inl e)
         | inr fs' => ([], fs', inr dirs)
         end
  else ([], fs, inr dirs).

Lemma label_step_sound (save_txt : bool) (dirs : string * string) (fs : FS) tr fs' r :
  label_step save_txt dirs fs = (tr, fs', r) ->
  tr = []
  /\ (forall e, r = inl e ->
        Infer.exists_ fs (snd dirs) = false /\ Infer.makedirs fs (snd dirs) = inl e)
  /\ (forall q, Infer.exists_ fs q = true -> Infer.exists_ fs' q = true)
  /\ (forall d, r = inr d ->
        d = dirs /\ (save_txt = true -> Infer.exists_ fs' (snd dirs) = true)).
Proof.
  unfold label_step. destruct save_txt.
  - destruct (Infer.exists_ fs (snd dirs)) eqn:He.
    + intros Heq. injection Heq as <- <- <-.
      split; [reflexivity |]. split; [discriminate |]. split; [auto |].
      intros d Hd. injection Hd as <-. split; [reflexivity | intros _; exact He].
    + destruct (Infer.makedirs fs (snd dirs)) as [e | fs1] eqn:Hm;
        intros Heq; injection Heq as <- <- <-.
      * split; [reflexivity |]. split.
        -- intros e' Hx. injection Hx as <-. split; reflexivity.
        -- split; [auto | discriminate].
      * destruct (Infer.makedirs_creates laws _ _ Hm) as [Hnew Hmono].
        split; [reflexivity |]. split; [discriminate |]. split; [exact Hmono |].
        intros d Hd. injection Hd as <-. split; [reflexivity | intros _; exact Hnew].
  - intros Heq. injection Heq as <- <- <-.
    split; [reflexivity |]. split; [discriminate |]. split; [auto |].
    intros d Hd. injection Hd as <-. split; [reflexivity | discriminate].
Qed.

(** [save_dirs], case by case. *)
Lemma save_dirs_cases (fuel : nat) (project name : string) (save_dir : option string)
    (save_txt not_save_img : bool) (fs : FS) :
  let t := target project name save_dir in
  let l := labels_of project name save_dir in
  Infer.save_dirs fuel project name save_dir save_txt not_save_img fs
  = if negb not_save_img || save_txt then
      if negb (Infer.exists_ fs t) then
        match Infer.makedirs fs t with
        | inl e => Some ([], fs, inl e)
        | inr fs1 => Some (label_step save_txt (t, l) fs1)
        end
      else
        match Infer.get_next_dir_name fuel project name fs with
        | None => None
        | Some (_, _, inl e) => Some ([Infer.Warning Infer.already_existed], fs, inl e)
        | Some (_, _, inr d) =>
            match Infer.makedirs fs d with
            | inl e => Some ([Infer.Warning Infer.already_existed], fs, inl e)
            | inr fs1 =>
                let '(tr, fs2, r) :=
                  label_step save_txt (d, Infer.join d "labels") fs1 in
                Some (Infer.Warning Infer.already_existed :: tr, fs2, r)
            end
        end
    else Some ([], fs, inr (t, l)).
Proof.
  intros t l. subst t l. unfold Infer.save_dirs, target, labels_of, label_step.
  destruct save_dir as [d |];
    unfold Infer.bind, Infer.os_exists, Infer.os_makedirs, Infer.log, Infer.ret;
    cbn [fst snd];
    destruct (negb not_save_img || save_txt) eqn:Hreq.
  all: try (destruct save_txt, not_save_img; try discriminate; reflexivity).
  all: match goal with
       | |- context [negb (Infer.exists_ ?f ?p)] =>
           destruct (Infer.exists_ f p) eqn:He; cbn [negb]
       end.
  all: try (destruct (Infer.get_next_dir_name fuel project name fs)
              as [[[tr0 fs0] [e0 | d0]] |] eqn:Hnext;
            [ destruct (get_next_dir_name_sound _ _ _ _ Hnext)
                as (k & _ & Hout & _); discriminate
            | destruct (get_next_dir_name_sound _ _ _ _ Hnext)
                as (k & _ & Hout & _); injection Hout as -> -> ->
            | reflexivity ]).
  all: repeat match goal with
         | |- context [Infer.makedirs ?f ?p] =>
             let Hm := fresh "Hm" in
             destruct (Infer.makedirs f p) eqn:Hm; cbn [app fst snd]
         | |- context [if ?b then _ else _] => is_var b; destruct b
         | |- context [if Infer.exists_ ?f ?p then _ else _] =>
             destruct (Infer.exists_ f p); cbn [negb app fst snd]
         end; try reflexivity.
  all: cbn [fst snd] in *; congruence.
Qed.

Lemma save_dirs_sound (fuel : nat) (project name : string) (save_dir : option string)
    (save_txt not_save_img : bool) (fs : FS) tr fs' r :
  Infer.save_dirs fuel project name save_dir save_txt not_save_img fs
  = Some (tr, fs', r) ->
  (forall e, r = inl e ->
     exists fs0 p, Infer.exists_ fs0 p = false /\ Infer.makedirs fs0 p = inl e)
  /\ (forall q, Infer.exists_ fs q = true -> Infer.exists_ fs' q = true)
  /\ (forall d l, r = inr (d, l) ->
        negb not_save_img || save_txt = true ->
        Infer.exists_ fs d = false /\ Infer.exists_ fs' d = true
        /\ (save_txt = true -> Infer.exists_ fs' l = true)).
Proof.
  rewrite save_dirs_cases.
  destruct (negb not_save_img || save_txt) eqn:Hreq.
  2:{ intros Heq. injection Heq as <- <- <-.
      split; [discriminate |]. split; [auto |]. intros d l _ Hx. discriminate. }
  destruct (Infer.exists_ fs (target project name save_dir)) eqn:He; cbn [negb].
  - destruct (Infer.get_next_dir_name fuel project name fs) as [out |] eqn:Hnext;
      [| discriminate].
    destruct (get_next_dir_name_sound _ _ _ _ Hnext) as (k & Hk & -> & Hfree & _).
    destruct (Infer.makedirs fs (Infer.candidate project name k)) as [e | fs1] eqn:Hm.
    + intros Heq. injection Heq as <- <- <-. split.
      * intros e' Hx. injection Hx as <-.
        exists fs, (Infer.candidate project name k). split; assumption.
      * split; [auto | discriminate].
    + destruct (Infer.makedirs_creates laws _ _ Hm) as [Hnew Hmono].
      destruct (label_step save_txt
                  (Infer.candidate project name k,
                   Infer.join (Infer.candidate project name k) "labels") fs1)
        as [[tr1 fs2] r1] eqn:Hl.
      destruct (label_step_sound _ _ _ Hl) as (-> & Herr & Hmono2 & Hd).
      intros Heq. injection Heq as <- <- <-. split.
      * intros e Hx. destruct (Herr e Hx) as [Hfe Hme]. eauto.
      * split; [auto |].
        intros d l Hr _. destruct (Hd _ Hr) as [Hdl Htxt].
        injection Hdl as -> ->. split; [exact Hfree |]. split; [auto |].
        exact Htxt.
  - destruct (Infer.makedirs fs (target project name save_dir)) as [e | fs1] eqn:Hm.
    + intros Heq. injection Heq as <- <- <-. split.
      * intros e' Hx. injection Hx as <-.
        exists fs, (target project name save_dir). split; assumption.
      * split; [auto | discriminate].
    + destruct (Infer.makedirs_creates laws _ _ Hm) as [Hnew Hmono].
      destruct (label_step save_txt
                  (target project name save_dir, labels_of project name save_dir) fs1)
        as [[tr1 fs2] r1] eqn:Hl.
      destruct (label_step_sound _ _ _ Hl) as (-> & Herr & Hmono2 & Hd).
      intros Heq. injection Heq as <- <- <-. split.
      * intros e Hx. destruct (Herr e Hx) as [Hfe Hme]. eauto.
      * split; [auto |].
        intros d l Hr _. destruct (Hd _ Hr) as [Hdl Htxt].
        injection Hdl as -> ->. split; [exact He |]. split; [auto |].
        exact Htxt.
Qed.

Lemma save_dirs_ends (project name : string) (save_dir : option string)
    (save_txt not_save_img : bool) (fs : FS) :
  exists fuel0, forall fuel, (fuel0 <= fuel)%nat ->
    Infer.save_dirs fuel project name save_dir save_txt not_save_img fs <> None.
Proof.
  destruct (get_next_dir_name_ends fs project name) as (k & fuel0 & Hrun).
  exists fuel0. intros fuel Hfuel. rewrite save_dirs_cases, (Hrun fuel Hfuel).
  destruct (negb not_save_img || save_txt); [| discriminate].
  destruct (negb (Infer.exists_ fs (target project name save_dir))).
  - destruct (Infer.makedirs fs (target project name save_dir)); discriminate.
  - destruct (Infer.makedirs fs (Infer.candidate project name k)); [discriminate |].
    destruct (label_step save_txt _ f) as [[tr1 fs2] r1]. discriminate.
Qed.

Lemma save_dirs_where (fuel : nat) (project name : string) (save_dir : option string)
    (save_txt not_save_img : bool) (fs : FS) tr fs' d l :
  Infer.save_dirs fuel project name save_dir save_txt not_save_img fs
  = Some (tr, fs', inr (d, l)) ->
  let t := target project name save_dir in
  (negb not_save_img || save_txt = false ->
   d = t /\ l = labels_of project name save_dir /\ fs' = fs /\ tr = [])
  /\ (negb not_save_img || save_txt = true -> Infer.exists_ fs t = false ->
      d = t /\ l = labels_of project name save_dir /\ tr = [])
  /\ (negb not_save_img || save_txt = true -> Infer.exists_ fs t = true ->
      tr = [Infer.Warning Infer.already_existed]
      /\ l = Infer.join d "labels"
      /\ exists k, (1 <= k)%nat /\ d = Infer.candidate project name k
                   /\ Infer.exists_ fs (Infer.candidate project name k) = false
                   /\ forall j, (1 <= j < k)%nat ->
                         Infer.exists_ fs (Infer.candidate project name j) = true).
Proof.
  rewrite save_dirs_cases. intros Hrun t. subst t.
  destruct (negb not_save_img || save_txt) eqn:Hreq.
  2:{ injection Hrun as <- <- <- <-.
      split; [intros _; repeat split |]. split; intros Hx; discriminate. }
  split; [intros Hx; discriminate |].
  destruct (Infer.exists_ fs (target project name save_dir)) eqn:He; cbn [negb] in Hrun.
  - split; [intros _ Hx; discriminate |]. intros _ _.
    destruct (Infer.get_next_dir_name fuel project name fs) as [out |] eqn:Hnext;
      [| discriminate].
    destruct (get_next_dir_name_sound _ _ _ _ Hnext) as (k & Hk & -> & Hfree & Hbelow).
    destruct (Infer.makedirs fs (Infer.candidate project name k)) as [e | fs1] eqn:Hm;
      [discriminate |].
    destruct (label_step save_txt
                (Infer.candidate project name k,
                 Infer.join (Infer.candidate project name k) "labels") fs1)
      as [[tr1 fs2] r1] eqn:Hl.
    destruct (label_step_sound _ _ _ Hl) as (-> & _ & _ & Hd).
    injection Hrun as <- <- ->. destruct (Hd _ eq_refl) as [Hdl _].
    injection Hdl as -> ->. split; [reflexivity |]. split; [reflexivity |].
    exists k. split; [exact Hk |]. split; [reflexivity |].
    split; [exact Hfree | exact Hbelow].
  - split; [| intros _ Hx; discriminate]. intros _ _.
    destruct (Infer.makedirs fs (target project name save_dir)) as [e | fs1] eqn:Hm;
      [discriminate |].
    destruct (label_step save_txt
                (target project name save_dir, labels_of project name save_dir) fs1)
      as [[tr1 fs2] r1] eqn:Hl.
    destruct (label_step_sound _ _ _ Hl) as (-> & _ & _ & Hd).
    injection Hrun as <- <- ->. destruct (Hd _ eq_refl) as [Hdl _].
    injection Hdl as -> ->. repeat split.
Qed.
End SaveDirs.

(** X17.  [run] saves into a directory that was not there before.  Every
    call of [os.makedirs] is guarded by a check that the path does not
    exist: an error of the directory set-up is the error of an
    [os.makedirs] call on a path for which [osp.exists] was false.  On a
    file system where a directory that [os.makedirs] has created exists
    afterwards and nothing disappears, whenever results are to be saved
    (images or label files) the directory handed to the inferer, and named
    in the final log line, did not exist when [run] was called and exists
    once the directories are set up, and so does the directory of the label
    files when [save_txt] is set; no existing path disappears.  The search
    for a free name ends: with enough fuel the set-up returns or raises. *)
Theorem run_saves_into_a_new_directory :
  forall (FS R : Type) (W : Infer.World FS R),
    Infer.lawful FS R ->
    forall (project name : string) (save_dir : option string)
           (save_txt not_save_img : bool) (fs : FS),
      (exists fuel0, forall fuel, (fuel0 <= fuel)%nat ->
         Infer.save_dirs fuel project name save_dir save_txt not_save_img fs <> None)
      /\ (forall fuel tr fs' r,
            Infer.save_dirs fuel project name save_dir save_txt not_save_img fs
            = Some (tr, fs', r) ->
            (forall e, r = inl e ->
               exists fs0 p,
                 Infer.exists_ fs0 p = false /\ Infer.makedirs fs0 p = inl e)
            /\ (forall q, Infer.exists_ fs q = true -> Infer.exists_ fs' q = true)
            /\ (forall d l, r = inr (d, l) ->
                  negb not_save_img || save_txt = true ->
                  Infer.exists_ fs d = false /\ Infer.exists_ fs' d = true
                  /\ (save_txt = true -> Infer.exists_ fs' l = true)))
      /\ (forall fuel (rest : R) tr fs2,
            Infer.run fuel rest project name save_dir save_txt not_save_img fs
            = Some (tr, fs2, inr tt) ->
            negb not_save_img || save_txt = true ->
            exists d fs1,
              Infer.exists_ fs d = false /\ Infer.exists_ fs1 d = true
              /\ Infer.infer rest d save_txt (negb not_save_img) fs1 = inr fs2
              /\ In (Infer.Info ("Results saved to " ++ d)) tr).
Proof.
  intros FS R W laws project name save_dir save_txt not_save_img fs.
  split; [apply (save_dirs_ends laws) |]. split.
  - intros fuel tr fs' r Hrun. now apply (save_dirs_sound laws) in Hrun.
  - intros fuel rest tr fs2 Hrun Hreq. unfold Infer.run, Infer.bind in Hrun.
    destruct (Infer.save_dirs fuel project name save_dir save_txt not_save_img fs)
      as [[[tr1 fs1] [e | [d l]]] |] eqn:Hdirs; try discriminate.
    pose proof Hdirs as Hs. apply (save_dirs_sound laws) in Hs.
    destruct Hs as (_ & _ & Hnew).
    destruct (Hnew d l eq_refl Hreq) as (Hfree & Hthere & _).
    unfold Infer.call_infer in Hrun. cbn [fst] in Hrun.
    destruct (Infer.infer rest d save_txt (negb not_save_img) fs1) as [e | fs3] eqn:Hinf;
      [discriminate |].
    assert (Hlog : save_txt || negb not_save_img = true)
      by (rewrite orb_comm; exact Hreq).
    rewrite Hlog in Hrun. cbn in Hrun. injection Hrun as <- <-.
    exists d, fs1. split; [exact Hfree |]. split; [exact Hthere |].
    split; [exact Hinf |]. apply in_or_app. right. now left.
Qed.

(** runs/exp exists: the images go to the new directory runs/exp1. *)
Lemma run_saves_into_a_new_directory_witness :
  exists tr fs2,
    @Infer.run (list string) unit Infer.listed 3 tt "runs" "exp" None false false
      ["runs/exp"%string] = Some (tr, fs2, inr tt)
    /\ In (Infer.Info "Results saved to runs/exp1") tr.
Proof.
  destruct (@run_saves_into_a_new_directory (list string) unit Infer.listed
              listed_lawful "runs"%string "exp"%string None false false
              ["runs/exp"%string]) as (_ & _ & H).
  destruct (H 3%nat tt
              [Infer.Warning Infer.already_existed;
               Infer.Info "Results saved to runs/exp1"]
              ["runs/exp1"%string; "runs/exp"%string])
    as (d & fs1 & _ & _ & _ & Hin); [vm_compute; reflexivity | reflexivity |].
  do 2 eexists. split; [vm_compute; reflexivity |]. right. now left.
Defined.

(** X18.  Which directory [run] uses, on a file system where a directory
    that [os.makedirs] has created exists afterwards.  When nothing is to be
    saved, the file system is left alone and the inferer gets [save_dir],
    or project/name without one.  When results are to be saved and that
    directory does not exist, it is created and used; the label files go to
    its sub-directory labels, or into an explicitly given [save_dir]
    itself.  When it exists already, a warning is logged and the results go
    to project/name<k> for the first k >= 1 for which that path does not
    exist, which is created, with the label files in its sub-directory
    labels - also when [save_dir] was given explicitly, which is then not
    used at all. *)
Theorem run_directory_choice :
  forall (FS R : Type) (W : Infer.World FS R),
    Infer.lawful FS R ->
    forall (fuel : nat) (project name : string) (save_dir : option string)
           (save_txt not_save_img : bool) (fs : FS) tr fs' d l,
      Infer.save_dirs fuel project name save_dir save_txt not_save_img fs
      = Some (tr, fs', inr (d, l)) ->
      let t := match save_dir with
               | None => Infer.join project name
               | Some given => given
               end in
      let labels := match save_dir with
                    | None => Infer.join (Infer.join project name) "labels"
                    | Some given => given
                    end in
      (negb not_save_img || save_txt = false ->
       d = t /\ l = labels /\ fs' = fs /\ tr = [])
      /\ (negb not_save_img || save_txt = true -> Infer.exists_ fs t = false ->
          d = t /\ l = labels /\ tr = []
          /\ Infer.exists_ fs' d = true
          /\ (save_txt = true -> Infer.exists_ fs' l = true))
      /\ (negb not_save_img || save_txt = true -> Infer.exists_ fs t = true ->
          tr = [Infer.Warning Infer.already_existed]
          /\ l = Infer.join d "labels"
          /\ (exists k, (1 <= k)%nat /\ d = Infer.candidate project name k
                        /\ Infer.exists_ fs (Infer.candidate project name k) = false
                        /\ forall j, (1 <= j < k)%nat ->
                             Infer.exists_ fs (Infer.candidate project name j) = true)
          /\ Infer.exists_ fs' d = true
          /\ (save_txt = true -> Infer.exists_ fs' l = true)).
Proof.
  intros FS R W laws fuel project name save_dir save_txt not_save_img fs tr fs' d l Hrun.
  pose proof Hrun as Hs. apply (save_dirs_sound laws) in Hs.
  destruct Hs as (_ & _ & Hnew).
  apply (save_dirs_where laws) in Hrun. cbv zeta in Hrun.
  destruct Hrun as (H0 & H1 & H2).
  split; [exact H0 |]. split.
  - intros Hreq He. destruct (H1 Hreq He) as (Hd & Hl & Htr).
    destruct (Hnew d l eq_refl Hreq) as (_ & Hthere & Htxt).
    repeat split; assumption.
  - intros Hreq He. destruct (H2 Hreq He) as (Htr & Hl & Hk).
    destruct (Hnew d l eq_refl Hreq) as (_ & Hthere & Htxt).
    repeat split; assumption.
Qed.

(** An explicit directory out/a that exists: the results go to runs/exp1. *)
Lemma run_directory_choice_witness :
  exists tr fs',
    @Infer.save_dirs (list string) unit Infer.listed 3 "runs" "exp" (Some "out/a"%string)
      true false ["out/a"%string]
    = Some (tr, fs', inr ("runs/exp1"%string, "runs/exp1/labels"%string))
    /\ tr = [Infer.Warning Infer.already_existed].
Proof.
  do 2 eexists. split; [vm_compute; reflexivity |].
  destruct (@run_directory_choice (list string) unit Infer.listed listed_lawful
              3 "runs"%string "exp"%string (Some "out/a"%string) true false
              ["out/a"%string] [Infer.Warning Infer.already_existed]
              ["runs/exp1/labels"%string; "runs/exp1"%string; "out/a"%string]
              "runs/exp1"%string "runs/exp1/labels"%string)
    as (_ & _ & H); [vm_compute; reflexivity |].
  destruct H as (Htr & _); [reflexivity | reflexivity | exact Htr].
Defined.
